(** * Compendium pack transcoder ([src/src/database.ts])

    A shallow embedding of [compileClassicLevel] and [extractClassicLevel],
    the workers behind [compilePack] and [extractPack], and of the helpers
    they are built from ([applyHierarchy], [mapHierarchy], [keyJoin],
    [compactClassicLevel], the folder index), followed by the properties
    of the specification that concern them.

    Conventions.
    - A JavaScript value is a [value]; an object is an insertion-ordered
      association list, an array the list of its elements.
    - Asynchronous functions are run to completion: a rejected promise and a
      synchronous [throw] are both [Throw].
    - Code that mutates an object in place returns the mutated object.
    - Strings are byte strings (UTF-8), the order on keys is the bytewise
      order LevelDB uses. *)

From Stdlib Require Import List String Ascii ZArith Bool Arith Lia.
From Stdlib Require Import Numbers.DecimalString.
From Stdlib Require Import Structures.OrdersEx.
Import ListNotations.
Open Scope string_scope.
Set Warnings "-register-all".


(* ------------------------------------------------------------------ *)
(** ** Outcomes of a computation *)

(** What a call can raise.  [DuplicateKey] is the [Error] thrown by the
    compile visitor; [TypeError] is the engine's own (property access on
    [null] / [undefined], a missing method, an assignment to a property of
    a primitive in strict mode); [InvalidKey], [InvalidValue] and
    [NotFound] are the store's; [ReadError] stands for a failure of
    [readFileSync], [JSON.parse] or [YAML.load]; [HookError] for a
    caller-supplied transform that throws. *)
Inductive error : Type :=
| DuplicateKey (key : string)
| TypeError
| InvalidKey
| InvalidValue
| NotFound (key : string)
| ReadError (path : string)
| HookError.

(** [NoFuel] is not a result of the program: it marks a run of the model
    that was cut short because the recursion budget was used up. *)
Inductive outcome (A : Type) : Type :=
| Ok (a : A)
| Throw (e : error)
| NoFuel.

Arguments Ok {A} a.
Arguments Throw {A} e.
Arguments NoFuel {A}.

Definition bind {A B : Type} (c : outcome A) (k : A -> outcome B) : outcome B :=
  match c with
  | Ok a => k a
  | Throw e => Throw e
  | NoFuel => NoFuel
  end.

Notation "x <- c ;; k" := (bind c (fun x => k))
  (at level 61, c at next level, right associativity).
Notation "' pat <- c ;; k" := (bind c (fun x => match x with pat => k end))
  (at level 61, pat pattern, c at next level, right associativity).

Definition is_ok {A : Type} (c : outcome A) : bool :=
  match c with Ok _ => true | _ => false end.

Definition is_throw {A : Type} (c : outcome A) : bool :=
  match c with Throw _ => true | _ => false end.

(* ------------------------------------------------------------------ *)
(** ** JavaScript values *)

Module Js.

(** The values of JSON and YAML documents, and [undefined].  Numbers are
    the integers: the program only tests numbers for truthiness and turns
    them into strings, and ids and keys are strings. *)
Inductive value : Type :=
| VUndef
| VNull
| VBool (b : bool)
| VNum (n : Z)
| VStr (s : string)
| VArr (elems : list value)
| VObj (fields : list (string * value)).

(** Truthiness, as tested by [if (x)], [x && y], [!x] and [filter((_) => _)]. *)
Definition truthy (v : value) : bool :=
  match v with
  | VUndef | VNull => false
  | VBool b => b
  | VNum n => negb (Z.eqb n 0)
  | VStr s => negb (String.eqb s "")
  | VArr _ | VObj _ => true
  end.

Definition isArray (v : value) : bool :=
  match v with VArr _ => true | _ => false end.

(** [x ?? d]. *)
Definition nullish (v : value) : bool :=
  match v with VUndef | VNull => true | _ => false end.

Definition orElse (v d : value) : value := if nullish v then d else v.

(** *** Own properties of an object *)

Fixpoint lookup (fields : list (string * value)) (name : string) : option value :=
  match fields with
  | [] => None
  | (k, v) :: rest => if String.eqb k name then Some v else lookup rest name
  end.

Fixpoint assign (fields : list (string * value)) (name : string) (v : value)
  : list (string * value) :=
  match fields with
  | [] => [(name, v)]
  | (k, w) :: rest =>
      if String.eqb k name then (k, v) :: rest else (k, w) :: assign rest name v
  end.

Fixpoint remove (fields : list (string * value)) (name : string)
  : list (string * value) :=
  match fields with
  | [] => []
  | (k, w) :: rest =>
      if String.eqb k name then remove rest name else (k, w) :: remove rest name
  end.

(** [doc[name]] for the property names this program reads ([_key], [_id],
    [name], [folder] and the field names of [HIERARCHY]): none of them is
    an array index, ["length"] or a property of a built-in prototype, so a
    primitive and an array answer [undefined]; [null] and [undefined]
    have no properties at all. *)
Definition get (doc : value) (name : string) : outcome value :=
  match doc with
  | VUndef | VNull => Throw TypeError
  | VObj fields =>
      match lookup fields name with Some v => Ok v | None => Ok VUndef end
  | _ => Ok VUndef
  end.

(** [doc[name] = v] in strict mode (the sources are ES modules).  A
    property written on an array is dropped by the JSON and YAML encoders
    and the program never reads one back with a truthy value: every such
    read comes before the write of the same name, on an array freshly parsed.
    Arrays therefore carry their elements only. *)
Definition set (doc : value) (name : string) (v : value) : outcome value :=
  match doc with
  | VObj fields => Ok (VObj (assign fields name v))
  | VArr elems => Ok (VArr elems)
  | _ => Throw TypeError
  end.

(** [delete doc[name]]; on a primitive and on a missing property it does
    nothing.  It is only reached after [doc[name]] was read. *)
Definition delete (doc : value) (name : string) : value :=
  match doc with
  | VObj fields => VObj (remove fields name)
  | _ => doc
  end.

(** *** Strings *)

Definition string_of_Z (n : Z) : string := NilZero.string_of_int (Z.to_int n).

Fixpoint joinWith (sep : string) (parts : list string) : string :=
  match parts with
  | [] => ""
  | [p] => p
  | p :: rest => p ++ sep ++ joinWith sep rest
  end.

(** [String(v)], the conversion behind template literals,
    [Array.prototype.join] and the utf8 key encoding. *)
Fixpoint toString (v : value) : string :=
  match v with
  | VUndef => "undefined"
  | VNull => "null"
  | VBool true => "true"
  | VBool false => "false"
  | VNum n => string_of_Z n
  | VStr s => s
  | VArr elems =>
      joinWith ","
        (map (fun e => match e with
                       | VUndef | VNull => ""
                       | _ => toString e
                       end) elems)
  | VObj _ => "[object Object]"
  end.

(** [s.split(c)] for a one-character separator: never empty. *)
Fixpoint split (c : ascii) (s : string) : list string :=
  match s with
  | EmptyString => [""]
  | String a rest =>
      if Ascii.eqb a c then "" :: split c rest
      else match split c rest with
           | [] => [String a ""]
           | hd :: tl => String a hd :: tl
           end
  end.

(** [s.includes(c)] for a one-character needle. *)
Fixpoint includes (c : ascii) (s : string) : bool :=
  match s with
  | EmptyString => false
  | String a rest => Ascii.eqb a c || includes c rest
  end.

Definition startsWith (s pre : string) : bool := String.prefix pre s.

(** *** [Set] and [Map] membership

    [Set.prototype.has] and [Map.prototype.get] compare with SameValueZero:
    primitives by value, objects by identity.  Every object the program
    handles is freshly parsed, so two objects met at different places are
    never the same one. *)
Definition sameValueZero (a b : value) : bool :=
  match a, b with
  | VUndef, VUndef => true
  | VNull, VNull => true
  | VBool x, VBool y => Bool.eqb x y
  | VNum x, VNum y => Z.eqb x y
  | VStr x, VStr y => String.eqb x y
  | _, _ => false
  end.

Definition set_has (s : list value) (v : value) : bool :=
  existsb (sameValueZero v) s.

(** *** JSON value encoding

    [JSON.parse(JSON.stringify(v))]: what comes back from a store opened
    with [valueEncoding: "json"].  A property holding [undefined] is
    dropped, [undefined] inside an array becomes [null]. *)
Fixpoint jsonRoundTrip (v : value) : value :=
  match v with
  | VUndef => VNull
  | VArr elems => VArr (map jsonRoundTrip elems)
  | VObj fields =>
      VObj ((fix go (fs : list (string * value)) : list (string * value) :=
               match fs with
               | [] => []
               | (k, VUndef) :: rest => go rest
               | (k, w) :: rest => (k, jsonRoundTrip w) :: go rest
               end) fields)
  | _ => v
  end.

(** Nesting depth of a value. *)
Fixpoint depth (v : value) : nat :=
  match v with
  | VArr elems => S (list_max (map depth elems))
  | VObj fields => S (list_max (map (fun kv => depth (snd kv)) fields))
  | _ => 0
  end.

End Js.
Import Js.

(* ------------------------------------------------------------------ *)
(** ** The ordered key-value store ([classic-level]) *)

Module Level.

(** A store opened with [keyEncoding: "utf8"] and [valueEncoding: "json"]:
    entries in ascending bytewise key order, one per key. *)
Definition store : Type := list (string * value).

Fixpoint find (db : store) (key : string) : option value :=
  match db with
  | [] => None
  | (k, v) :: rest => if String.eqb k key then Some v else find rest key
  end.

Fixpoint put (db : store) (key : string) (v : value) : store :=
  match db with
  | [] => [(key, v)]
  | (k, w) :: rest =>
      match String_as_OT.compare key k with
      | Lt => (key, v) :: (k, w) :: rest
      | Eq => (key, v) :: rest
      | Gt => (k, w) :: put rest key v
      end
  end.

Fixpoint del (db : store) (key : string) : store :=
  match db with
  | [] => []
  | (k, w) :: rest =>
      if String.eqb k key then del rest key else (k, w) :: del rest key
  end.

(** [db.keys().all()], [db.iterator()]. *)
Definition keys (db : store) : list string := map fst db.

(** What [db.get] does for a key that is not there.  [classic-level] 2
    (the version [package.json] asks for, [^2.0.0]) resolves to
    [undefined]; [classic-level] 1 rejected with [LEVEL_NOT_FOUND]. *)
Inductive miss : Type := MissUndefined | MissThrows.

Definition classic_level_2 : miss := MissUndefined.

Definition get (m : miss) (db : store) (key : string) : outcome value :=
  match find db key with
  | Some v => Ok v
  | None =>
      match m with
      | MissUndefined => Ok VUndef
      | MissThrows => Throw (NotFound key)
      end
  end.

(** A chained batch: the operations staged so far, oldest first. *)
Inductive op : Type :=
| Put (key : string) (v : value)
| Del (key : string).

(** [batch.put(key, value)]: [null] and [undefined] are refused for both,
    anything else is encoded on the spot. *)
Definition batch_put (batch : list op) (key v : value) : outcome (list op) :=
  if nullish key then Throw InvalidKey
  else if nullish v then Throw InvalidValue
  else Ok (batch ++ [Put (toString key) (jsonRoundTrip v)])%list.

Definition batch_del (batch : list op) (key : string) : list op :=
  (batch ++ [Del key])%list.

Definition apply_op (db : store) (o : op) : store :=
  match o with
  | Put k v => put db k v
  | Del k => del db k
  end.

(** [batch.write()]: all the operations, in the order they were staged. *)
Definition batch_write (db : store) (batch : list op) : store :=
  fold_left apply_op batch db.

(** [db.keys({ limit: 1 }).next()] and its [reverse: true] twin. *)
Definition firstKey (db : store) : value :=
  match keys db with
  | [] => VUndef
  | k :: _ => VStr k
  end.

Definition lastKey (db : store) : value :=
  match rev (keys db) with
  | [] => VUndef
  | k :: _ => VStr k
  end.

(** [compactClassicLevel]: the [compactRange] request it makes, if any. *)
Definition compactClassicLevel (db : store) : option (string * string) :=
  let firstKey := firstKey db in
  let lastKey := lastKey db in
  if truthy firstKey && truthy lastKey
  then Some (toString firstKey, toString lastKey)
  else None.

(** Bytewise order on keys, and the shape of a store. *)
Definition key_lt (a b : string) : Prop := String_as_OT.lt a b.
Definition key_le (a b : string) : Prop := a = b \/ key_lt a b.

Fixpoint sorted (ks : list string) : Prop :=
  match ks with
  | [] => True
  | k :: rest => Forall (key_lt k) rest /\ sorted rest
  end.

Definition well_formed (db : store) : Prop := sorted (keys db).

End Level.

(* ------------------------------------------------------------------ *)
(** ** [node:path], POSIX flavour *)

Module Path.

Definition is_dot (s : string) : bool := String.eqb s ".".
Definition is_dotdot (s : string) : bool := String.eqb s "..".

(** [normalizeString]: [res] is the stack of segments kept so far, last
    one first. *)
Fixpoint normalizeSegments (allowAboveRoot : bool) (res segs : list string)
  : list string :=
  match segs with
  | [] => rev res
  | seg :: rest =>
      if String.eqb seg "" || is_dot seg then
        normalizeSegments allowAboveRoot res rest
      else if is_dotdot seg then
        match res with
        | top :: below =>
            if is_dotdot top
            then normalizeSegments allowAboveRoot
                   (if allowAboveRoot then seg :: res else res) rest
            else normalizeSegments allowAboveRoot below rest
        | [] =>
            normalizeSegments allowAboveRoot
              (if allowAboveRoot then [seg] else []) rest
        end
      else normalizeSegments allowAboveRoot (seg :: res) rest
  end.

Definition normalizeString (path : string) (allowAboveRoot : bool) : string :=
  joinWith "/" (normalizeSegments allowAboveRoot [] (split "/"%char path)).

Definition firstIs (c : ascii) (s : string) : bool :=
  match s with
  | String a _ => Ascii.eqb a c
  | EmptyString => false
  end.

Fixpoint lastIs (c : ascii) (s : string) : bool :=
  match s with
  | EmptyString => false
  | String a EmptyString => Ascii.eqb a c
  | String _ rest => lastIs c rest
  end.

Definition normalize (path : string) : string :=
  if String.eqb path "" then "."
  else
    let isAbsolute := firstIs "/"%char path in
    let trailingSeparator := lastIs "/"%char path in
    let path := normalizeString path (negb isAbsolute) in
    if String.eqb path "" then
      if isAbsolute then "/" else if trailingSeparator then "./" else "."
    else
      let path := if trailingSeparator then path ++ "/" else path in
      if isAbsolute then "/" ++ path else path.

(** [path.join(a, b)]. *)
Definition join (a b : string) : string :=
  match String.eqb a "", String.eqb b "" with
  | true, true => "."
  | true, false => normalize b
  | false, true => normalize a
  | false, false => normalize (a ++ "/" ++ b)
  end.

End Path.

(* ------------------------------------------------------------------ *)
(** ** The document hierarchy *)

(** How [HIERARCHY] tags an embedded field: with an array (an embedded
    collection) or with an object (a single embedded document). *)
Inductive kind : Type := Collection | Singular.

Definition HIERARCHY : list (string * list (string * kind)) :=
  [ ("actors", [("items", Collection); ("effects", Collection)]);
    ("cards", [("cards", Collection)]);
    ("combats", [("combatants", Collection)]);
    ("delta", [("items", Collection); ("effects", Collection)]);
    ("items", [("effects", Collection)]);
    ("journal", [("pages", Collection); ("categories", Collection)]);
    ("playlists", [("sounds", Collection)]);
    ("regions", [("behaviors", Collection)]);
    ("tables", [("results", Collection)]);
    ("tokens", [("delta", Singular)]);
    ("scenes",
      [("drawings", Collection); ("tokens", Collection); ("lights", Collection);
       ("notes", Collection); ("regions", Collection); ("sounds", Collection);
       ("templates", Collection); ("tiles", Collection); ("walls", Collection)]) ].

Fixpoint assoc {A : Type} (table : list (string * A)) (name : string) : option A :=
  match table with
  | [] => None
  | (k, a) :: rest => if String.eqb k name then Some a else assoc rest name
  end.

(** [Object.entries(HIERARCHY[collection] ?? {})]; the collection is
    [undefined] ([None]) when the key it was cut from has no ["!"]. *)
Definition hierarchyOf (collection : option string) : list (string * kind) :=
  match collection with
  | None => []
  | Some c => match assoc HIERARCHY c with Some fields => fields | None => [] end
  end.

Definition ofCollection (collection : option string) : value :=
  match collection with Some c => VStr c | None => VUndef end.

(** The callback [applyHierarchy] wraps: from the document, its
    collection, the options of the level above and the state of the run,
    to the document as the callback left it, the options it returns for
    the next level, and the new state. *)
Definition visitor (S : Type) : Type :=
  value -> option string -> value -> S -> outcome (value * value * S).

Section Walker.

Context {S : Type}.
Variable fn : visitor S.

(** [for (const embeddedDoc of embeddedValue) await apply(embeddedDoc, ...)]:
    one element after the other; the array holds the elements as the calls
    left them. *)
Fixpoint applyEach (apply : value -> S -> outcome (value * S))
  (embeddedValue : list value) (st : S) : outcome (list value * S) :=
  match embeddedValue with
  | [] => Ok ([], st)
  | embeddedDoc :: rest =>
      '(embeddedDoc, st) <- apply embeddedDoc st ;;
      '(rest, st) <- applyEach apply rest st ;;
      Ok (embeddedDoc :: rest, st)
  end.

(** The embedded value sits in [doc]: what a recursive call did to it is
    seen through [doc[name]]. *)
Definition held (doc : value) (name : string) (v : value) : value :=
  match doc with
  | VObj fields => VObj (assign fields name v)
  | _ => doc
  end.

(** The body of the [for ... of Object.entries(...)] loop of [apply]. *)
Definition applyField (apply : value -> string -> S -> outcome (value * S))
  (doc : value) (st : S) (entry : string * kind) : outcome (value * S) :=
  let '(embeddedCollectionName, type) := entry in
  embeddedValue <- Js.get doc embeddedCollectionName ;;
  match type, embeddedValue with
  | Collection, VArr elems =>
      '(elems, st) <-
        applyEach (fun d => apply d embeddedCollectionName) elems st ;;
      Ok (held doc embeddedCollectionName (VArr elems), st)
  | _, _ =>
      if truthy embeddedValue then
        '(embeddedValue, st) <- apply embeddedValue embeddedCollectionName st ;;
        Ok (held doc embeddedCollectionName embeddedValue, st)
      else Ok (doc, st)
  end.

Fixpoint applyFields (apply : value -> string -> S -> outcome (value * S))
  (entries : list (string * kind)) (doc : value) (st : S) : outcome (value * S) :=
  match entries with
  | [] => Ok (doc, st)
  | entry :: rest =>
      '(doc, st) <- applyField apply doc st entry ;;
      applyFields apply rest doc st
  end.

(** [applyHierarchy(fn)]: the wrapped function [apply].  [fuel] bounds the
    depth of the recursion. *)
Fixpoint applyHierarchy (fuel : nat) (doc : value) (collection : option string)
  (options : value) (st : S) : outcome (value * S) :=
  match fuel with
  | O => NoFuel
  | Datatypes.S fuel =>
      let options := match options with VUndef => VObj [] | _ => options end in
      '(doc, newOptions, st) <- fn doc collection options st ;;
      applyFields
        (fun d name => applyHierarchy fuel d (Some name) (orElse newOptions (VObj [])))
        (hierarchyOf collection) doc st
  end.

End Walker.

(** [Promise.all(embeddedValue.map((entry) => fn(entry, name)))]. *)
Fixpoint mapEach (fn : value -> outcome value) (embeddedValue : list value)
  : outcome (list value) :=
  match embeddedValue with
  | [] => Ok []
  | entry :: rest =>
      v <- fn entry ;;
      vs <- mapEach fn rest ;;
      Ok (v :: vs)
  end.

(** The body of the loop of [mapHierarchy]. *)
Definition mapField (fn : value -> string -> outcome value) (doc : value)
  (entry : string * kind) : outcome value :=
  let '(embeddedCollectionName, type) := entry in
  embeddedValue <- Js.get doc embeddedCollectionName ;;
  match type with
  | Collection =>
      match embeddedValue with
      | VArr elems =>
          vs <- mapEach (fun e => fn e embeddedCollectionName) elems ;;
          Js.set doc embeddedCollectionName (VArr vs)
      | _ => Js.set doc embeddedCollectionName (VArr [])
      end
  | Singular =>
      if truthy embeddedValue then
        v <- fn embeddedValue embeddedCollectionName ;;
        Js.set doc embeddedCollectionName v
      else Js.set doc embeddedCollectionName VNull
  end.

Fixpoint mapFields (fn : value -> string -> outcome value)
  (entries : list (string * kind)) (doc : value) : outcome value :=
  match entries with
  | [] => Ok doc
  | entry :: rest =>
      doc <- mapField fn doc entry ;;
      mapFields fn rest doc
  end.

Definition mapHierarchy (doc : value) (collection : option string)
  (fn : value -> string -> outcome value) : outcome value :=
  mapFields fn (hierarchyOf collection) doc.

(** [keyJoin(...args)]: [args.filter((_) => _).join(".")]. *)
Definition keyJoin (args : list value) : string :=
  joinWith "." (map toString (filter truthy args)).

(* ------------------------------------------------------------------ *)
(** ** Compiling *)

(** A caller-supplied [transformEntry]: it may throw, and otherwise
    returns a value ([false] to discard the entry) and leaves the entry as
    it mutated it. *)
Inductive hook_result : Type :=
| HookThrows
| HookReturns (result : value) (entry : value).

Definition EntryTransformer : Type := value -> hook_result.

(** [(await transformEntry?.(doc)) === false], and [doc] afterwards:
    [None] when the entry is discarded. *)
Definition callTransformEntry (transformEntry : option EntryTransformer)
  (doc : value) : outcome (option value) :=
  match transformEntry with
  | None => Ok (Some doc)
  | Some hook =>
      match hook doc with
      | HookThrows => Throw HookError
      | HookReturns (VBool false) _ => Ok None
      | HookReturns _ doc => Ok (Some doc)
      end
  end.

(** A source file: its path and the document [JSON.parse] / [YAML.load]
    makes of its contents, if the file can be read and parsed. *)
Record source_file : Type := SourceFile {
  file_path : string;
  file_doc : option value
}.

(** What a compile run accumulates: [seenKeys] and [batch]. *)
Record pack_state : Type := PackState {
  seenKeys : list value;
  batch : list Level.op
}.

Definition pack_init : pack_state := PackState [] [].

(** The callback of [packDoc]. *)
Definition packVisitor : visitor pack_state :=
  fun doc collection _ st =>
    key <- Js.get doc "_key" ;;
    let doc := Js.delete doc "_key" in
    if set_has (seenKeys st) key then Throw (DuplicateKey (toString key))
    else
      let seenKeys := key :: seenKeys st in
      let value := doc (* structuredClone(doc) *) in
      value <- mapHierarchy value collection (fun d _ => Js.get d "_id") ;;
      batch <- Level.batch_put (batch st) key value ;;
      Ok (doc, VUndef, PackState seenKeys batch).

(** [packDoc(doc, collection)].  The callback never makes a document
    deeper, so the recursion is as deep as the document at most
    ([packDoc_fuel] below). *)
Definition packDoc (doc : value) (collection : option string) (st : pack_state)
  : outcome (value * pack_state) :=
  applyHierarchy packVisitor (Datatypes.S (depth doc)) doc collection VUndef st.

(** [const [, collection] = doc._key.split("!")]. *)
Definition collectionOf (doc : value) : outcome (option string) :=
  key <- Js.get doc "_key" ;;
  match key with
  | VStr key => Ok (nth_error (split "!"%char key) 1)
  | _ => Throw TypeError
  end.

(** The body of the loop over the source files. *)
Definition packFile (transformEntry : option EntryTransformer)
  (st : pack_state) (file : source_file) : outcome pack_state :=
  match file_doc file with
  | None => Throw (ReadError (file_path file))
  | Some doc =>
      collection <- collectionOf doc ;;
      kept <- callTransformEntry transformEntry doc ;;
      match kept with
      | None => Ok st
      | Some doc =>
          '(_, st) <- packDoc doc collection st ;;
          Ok st
      end
  end.

Fixpoint packFiles (transformEntry : option EntryTransformer)
  (st : pack_state) (files : list source_file) : outcome pack_state :=
  match files with
  | [] => Ok st
  | file :: rest =>
      st <- packFile transformEntry st file ;;
      packFiles transformEntry st rest
  end.

(** "Remove any entries in the DB that are not part of the source set." *)
Fixpoint removeStale (seenKeys : list value) (batch : list Level.op)
  (keys : list string) : list Level.op :=
  match keys with
  | [] => batch
  | key :: rest =>
      if negb (set_has seenKeys (VStr key))
      then removeStale seenKeys (Level.batch_del batch key) rest
      else removeStale seenKeys batch rest
  end.

(** [compileClassicLevel(pack, files, { transformEntry })]: how the run
    ends (with the [compactRange] request it made, if it made one) and
    the store it leaves. *)
Definition compileClassicLevel (db : Level.store) (files : list source_file)
  (transformEntry : option EntryTransformer)
  : outcome (option (string * string)) * Level.store :=
  match packFiles transformEntry pack_init files with
  | Ok st =>
      let batch := removeStale (seenKeys st) (batch st) (Level.keys db) in
      let db := Level.batch_write db batch in
      (Ok (Level.compactClassicLevel db), db)
  | Throw e => (Throw e, db)
  | NoFuel => (NoFuel, db)
  end.

(* ------------------------------------------------------------------ *)
(** ** Extracting *)

(** A caller-supplied [transformName] / [transformFolderName]: it may
    throw, and otherwise returns a string or nothing.  The second
    argument is the [folder] of the context object, when there is one. *)
Inductive name_result : Type :=
| NameThrows
| NameReturns (name : option string).

Definition NameTransformer : Type := value -> option string -> name_result.

(** [await transform?.(doc, context)], as tested by [if (!name)]: [None]
    when there is no hook or it gave nothing usable. *)
Definition callTransformName (transform : option NameTransformer)
  (doc : value) (folder : option string) : outcome (option string) :=
  match transform with
  | None => Ok None
  | Some hook =>
      match hook doc folder with
      | NameThrows => Throw HookError
      | NameReturns (Some name) => Ok (if String.eqb name "" then None else Some name)
      | NameReturns None => Ok None
      end
  end.

Record ExtractOptions : Type := {
  yaml : bool;
  folders : bool;
  transformEntry : option EntryTransformer;
  transformName : option NameTransformer;
  transformFolderName : option NameTransformer
}.

(** A value of [foldersMap]: [{ name, folder }], and [path] once the
    second loop has assigned it. *)
Record folder_entry : Type := FolderEntry {
  name : string;
  folder : value;
  path : option string
}.

(** [foldersMap], a [Map] from [_id] to its entry, in insertion order. *)
Definition folders_map : Type := list (value * folder_entry).

Fixpoint map_get (m : folders_map) (id : value) : option folder_entry :=
  match m with
  | [] => None
  | (k, e) :: rest => if sameValueZero k id then Some e else map_get rest id
  end.

Fixpoint map_set (m : folders_map) (id : value) (e : folder_entry) : folders_map :=
  match m with
  | [] => [(id, e)]
  | (k, old) :: rest =>
      if sameValueZero k id then (k, e) :: rest else (k, old) :: map_set rest id e
  end.

Definition ext (yaml : bool) : string := if yaml then "yml" else "json".

Section Extract.

(** [getSafeFilename]: [filename.normalize("NFD")] with every code point
    outside [a-zA-Z0-9] and U+0300..U+036F replaced by ["_"].  Unicode
    normalisation is the engine's; the function is taken as it comes. *)
Variable getSafeFilename : string -> string.

(** [doc.name ? `${getSafeFilename(doc.name)}_${id}` : key]. *)
Definition safeNameOr (doc : value) (id : string) (key : string) : outcome string :=
  docName <- Js.get doc "name" ;;
  if truthy docName then
    match docName with
    | VStr docName => Ok (getSafeFilename docName ++ "_" ++ id)
    | _ => Throw TypeError
    end
  else Ok key.

(** The body of the first loop of "Build up the folder structure". *)
Definition addFolder (transformFolderName : option NameTransformer)
  (foldersMap : folders_map) (entry : string * value) : outcome folders_map :=
  let '(key, doc) := entry in
  if negb (startsWith key "!folders") then Ok foldersMap
  else
    hooked <- callTransformName transformFolderName doc None ;;
    name <- match hooked with
            | Some name => Ok name
            | None =>
                docId <- Js.get doc "_id" ;;
                safeNameOr doc (toString docId) key
            end ;;
    id <- Js.get doc "_id" ;;
    folder <- Js.get doc "folder" ;;
    Ok (map_set foldersMap id (FolderEntry name folder None)).

Fixpoint addFolders (transformFolderName : option NameTransformer)
  (foldersMap : folders_map) (entries : list (string * value)) : outcome folders_map :=
  match entries with
  | [] => Ok foldersMap
  | entry :: rest =>
      foldersMap <- addFolder transformFolderName foldersMap entry ;;
      addFolders transformFolderName foldersMap rest
  end.

(** [while (parent) { folder.path = path.join(parent.name, folder.path);
    parent = foldersMap.get(parent.folder) }]; [fuel] bounds the number of
    turns. *)
Fixpoint climb (fuel : nat) (foldersMap : folders_map)
  (parent : option folder_entry) (path : string) : outcome string :=
  match parent with
  | None => Ok path
  | Some parent =>
      match fuel with
      | O => NoFuel
      | Datatypes.S fuel =>
          climb fuel foldersMap (map_get foldersMap (folder parent))
            (Path.join (name parent) path)
      end
  end.

(** The body of the second loop: the path of one folder. *)
Definition folderPath (fuel : nat) (foldersMap : folders_map)
  (folder_ : folder_entry) : outcome string :=
  climb fuel foldersMap (map_get foldersMap (folder folder_)) (name folder_).

(** The second loop.  It reads [name] and [folder] only, so the paths
    assigned earlier in the loop do not matter to the later ones. *)
Fixpoint assignPaths (fuel : nat) (foldersMap : folders_map)
  (todo : folders_map) : outcome folders_map :=
  match todo with
  | [] => Ok []
  | (id, folder_) :: rest =>
      path <- folderPath fuel foldersMap folder_ ;;
      rest <- assignPaths fuel foldersMap rest ;;
      Ok ((id, FolderEntry (name folder_) (folder folder_) (Some path)) :: rest)
  end.

(** "Build up the folder structure". *)
Definition buildFolders (fuel : nat) (db : Level.store) (options : ExtractOptions)
  : outcome folders_map :=
  if folders options then
    foldersMap <- addFolders (transformFolderName options) [] db ;;
    assignPaths fuel foldersMap foldersMap
  else Ok [].

(** The callback of [unpackDoc]. *)
Definition unpackVisitor (m : Level.miss) (db : Level.store) : visitor unit :=
  fun doc collection options st =>
    sublevelPrefix <- Js.get options "sublevelPrefix" ;;
    idPrefix <- Js.get options "idPrefix" ;;
    let sublevel := keyJoin [sublevelPrefix; ofCollection collection] in
    docId <- Js.get doc "_id" ;;
    let id := keyJoin [idPrefix; docId] in
    doc <- Js.set doc "_key" (VStr ("!" ++ sublevel ++ "!" ++ id)) ;;
    doc <- mapHierarchy doc collection
             (fun embeddedId embeddedCollectionName =>
                Level.get m db
                  ("!" ++ sublevel ++ "." ++ embeddedCollectionName
                   ++ "!" ++ id ++ "." ++ toString embeddedId)) ;;
    Ok (doc,
        VObj [("sublevelPrefix", VStr sublevel); ("idPrefix", VStr id)],
        st).

Definition unpackDoc (m : Level.miss) (db : Level.store) (fuel : nat)
  (doc : value) (collection : string) : outcome value :=
  '(doc, _) <- applyHierarchy (unpackVisitor m db) fuel doc (Some collection) VUndef tt ;;
  Ok doc.

(** The name of the file of one entry, once [transformName] declined. *)
Definition defaultName (options : ExtractOptions) (foldersMap : folders_map)
  (key : string) (id : string) (doc : value) (folder : option string)
  : outcome string :=
  name <-
    (isFolder <- (if startsWith key "!folders"
                  then docId <- Js.get doc "_id" ;; Ok (map_get foldersMap docId)
                  else Ok None) ;;
     match isFolder with
     | Some folder_ =>
         Ok (Path.join (name folder_) ("_Folder." ++ ext (yaml options)))
     | None =>
         stem <- safeNameOr doc id key ;;
         Ok (stem ++ "." ++ ext (yaml options))
     end) ;;
  match folder with
  | Some folder => if truthy (VStr folder) then Ok (Path.join folder name) else Ok name
  | None => Ok name
  end.

(** The name of the file of one entry, relative to the output directory. *)
Definition entryName (options : ExtractOptions) (foldersMap : folders_map)
  (key : string) (id : string) (doc : value) : outcome string :=
  folderRef <- Js.get doc "folder" ;;
  let folder :=
    match map_get foldersMap folderRef with
    | Some folder_ => path folder_
    | None => None
    end in
  hooked <- callTransformName (transformName options) doc folder ;;
  match hooked with
  | Some name => Ok name
  | None => defaultName options foldersMap key id doc folder
  end.

(** The body of the main loop: the file it writes, if it writes one. *)
Definition extractEntry (m : Level.miss) (db : Level.store) (fuel : nat)
  (dest : string) (options : ExtractOptions) (foldersMap : folders_map)
  (entry : string * value) : outcome (option (string * value)) :=
  let '(key, doc) := entry in
  let parts := split "!"%char key in
  match nth_error parts 1 with
  | None => Throw TypeError
  | Some collection =>
      if includes "."%char collection then Ok None
      else
        doc <- unpackDoc m db fuel doc collection ;;
        kept <- callTransformEntry (transformEntry options) doc ;;
        match kept with
        | None => Ok None
        | Some doc =>
            let id := match nth_error parts 2 with
                      | Some id => id
                      | None => "undefined"
                      end in
            name <- entryName options foldersMap key id doc ;;
            Ok (Some (Path.join dest name, doc))
        end
  end.

(** The main loop: the files written, oldest first, and how the loop ended. *)
Fixpoint extractEntries (m : Level.miss) (db : Level.store) (fuel : nat)
  (dest : string) (options : ExtractOptions) (foldersMap : folders_map)
  (entries : list (string * value)) : list (string * value) * outcome unit :=
  match entries with
  | [] => ([], Ok tt)
  | entry :: rest =>
      match extractEntry m db fuel dest options foldersMap entry with
      | Ok written =>
          let '(files, result) :=
            extractEntries m db fuel dest options foldersMap rest in
          (match written with
           | Some file => file :: files
           | None => files
           end, result)
      | Throw e => ([], Throw e)
      | NoFuel => ([], NoFuel)
      end
  end.

(** [extractClassicLevel(pack, dest, options)]. *)
Definition extractClassicLevel (m : Level.miss) (db : Level.store) (fuel : nat)
  (dest : string) (options : ExtractOptions)
  : list (string * value) * outcome unit :=
  match buildFolders fuel db options with
  | Ok foldersMap => extractEntries m db fuel dest options foldersMap db
  | Throw e => ([], Throw e)
  | NoFuel => ([], NoFuel)
  end.

End Extract.

(* ------------------------------------------------------------------ *)
(** ** Notions used in the statements *)

Definition fieldOf (fields : list (string * value)) (name : string) : value :=
  match lookup fields name with Some v => v | None => VUndef end.

Definition hasOwn (doc : value) (name : string) : bool :=
  match doc with
  | VObj fields => match lookup fields name with Some _ => true | None => false end
  | _ => false
  end.

Fixpoint distinct (names : list string) : bool :=
  match names with
  | [] => true
  | n :: rest => negb (existsb (String.eqb n) rest) && distinct rest
  end.

(** What [mapHierarchy] leaves in a field that held [v]. *)
Definition mapped (fn : value -> string -> outcome value) (v : value)
  (name : string) (k : kind) (w : value) : Prop :=
  match k with
  | Collection =>
      match v with
      | VArr elems =>
          exists vs, mapEach (fun e => fn e name) elems = Ok vs /\ w = VArr vs
      | _ => w = VArr []
      end
  | Singular => if truthy v then fn v name = Ok w else w = VNull
  end.


(** A composite key: [!<collection-path>!<id-path>]. *)
Definition compositeKey (key : string) : bool :=
  match split "!"%char key with
  | [before; _; _] => String.eqb before ""
  | _ => false
  end.

(** A key whose collection path has more than one segment. *)
Definition embeddedKey (key : string) : bool :=
  match nth_error (split "!"%char key) 1 with
  | Some collection => includes "."%char collection
  | None => false
  end.

(** A path segment that [path.join] leaves alone. *)
Definition plainSegment (s : string) : bool :=
  negb (String.eqb s "") && negb (includes "/"%char s)
  && negb (Path.is_dot s) && negb (Path.is_dotdot s).

(** The key a source file resolves to: the [_key] of its document as
    [transformEntry] leaves it, when the file parses, carries a string
    [_key] and is not discarded. *)
Definition resolvedKey (transformEntry : option EntryTransformer)
  (file : source_file) : option string :=
  match file_doc file with
  | Some doc =>
      match collectionOf doc, callTransformEntry transformEntry doc with
      | Ok _, Ok (Some doc) =>
          match Js.get doc "_key" with
          | Ok (VStr key) => Some key
          | _ => None
          end
      | _, _ => None
      end
  | None => None
  end.

(** A run has seen at least what another has. *)
Definition seenMore (a b : pack_state) : Prop :=
  forall v, set_has (seenKeys a) v = true -> set_has (seenKeys b) v = true.

(** The state a walk ends in. *)
Definition stateOf {A S : Type} (c : outcome (A * S)) : outcome S :=
  '(_, st) <- c ;; Ok st.

(** Following the specification (section 4.1): the embedded nodes of a
    document, field by field as the schema declares them; for a
    collection-valued field its elements in sequence order, for a singular
    field its value when the field is present and not null; a field the
    document does not have contributes nothing. *)
Definition specField (fields : list (string * value)) (entry : string * kind)
  : list (string * value) :=
  let '(name, k) := entry in
  match k, fieldOf fields name with
  | Collection, VArr elems => map (pair name) elems
  | Collection, _ => []
  | Singular, VUndef => []
  | Singular, VNull => []
  | Singular, v => [(name, v)]
  end.

Definition specEmbedded (collection : option string) (doc : value)
  : list (string * value) :=
  match doc with
  | VObj fields => flat_map (specField fields) (hierarchyOf collection)
  | _ => []
  end.

(** Walking one node, for the state it leaves. *)
Definition visitWith {S : Type}
  (apply : value -> string -> S -> outcome (value * S))
  (name : string) (node : value) (st : S) : outcome S :=
  stateOf (apply node name st).

(** Following the specification: visit the nodes one after the other,
    each from the state the one before left. *)
Fixpoint visitEach {S : Type} (visit : string -> value -> S -> outcome S)
  (nodes : list (string * value)) (st : S) : outcome S :=
  match nodes with
  | [] => Ok st
  | (name, node) :: rest =>
      st <- visit name node st ;;
      visitEach visit rest st
  end.

(** A document that matches the schema of its collection: a record whose
    collection-valued fields hold sequences, when they hold anything, and
    whose singular fields hold a document or nothing. *)
Definition conformsField (fields : list (string * value)) (entry : string * kind)
  : bool :=
  let '(name, k) := entry in
  let v := fieldOf fields name in
  match k with
  | Collection => isArray v || negb (truthy v)
  | Singular => truthy v || nullish v
  end.

Definition conforms (collection : option string) (doc : value) : bool :=
  match doc with
  | VObj fields => forallb (conformsField fields) (hierarchyOf collection)
  | _ => false
  end.

(** The nodes a walk visits for a field that holds [v]. *)
Definition embeddedOf (k : kind) (v : value) : list value :=
  match k, v with
  | Collection, VArr elems => elems
  | _, _ => if truthy v then [v] else []
  end.

(** The length of the longest key of a store. *)
Definition maxKeyLength (db : Level.store) : nat :=
  list_max (map String.length (Level.keys db)).

(** The options a call of [apply] works with: [options = {}] by default. *)
Definition given (options : value) : value :=
  match options with VUndef => VObj [] | _ => options end.

(** The collection path [unpackDoc] computes for a node. *)
Definition sublevelOf (collection : option string) (options : value) : string :=
  match Js.get (given options) "sublevelPrefix" with
  | Ok sublevelPrefix => keyJoin [sublevelPrefix; ofCollection collection]
  | _ => ""
  end.

(** The depth of the deepest field of an object. *)
Definition fieldsDepth (fields : list (string * value)) : nat :=
  list_max (map (fun kv => depth (snd kv)) fields).

(** A callback that always comes back and never makes a document deeper. *)
Definition tame {S : Type} (fn : visitor S) : Prop :=
  forall doc collection options st,
    fn doc collection options st <> NoFuel
    /\ forall doc1 options1 st1,
         fn doc collection options st = Ok (doc1, options1, st1) ->
         depth doc1 <= depth doc.

(** A call that came back, with a document no deeper than [bound]. *)
Definition settles {S : Type} (bound : nat) (result : outcome (value * S)) : Prop :=
  result <> NoFuel
  /\ forall doc' st', result = Ok (doc', st') -> depth doc' <= bound.

(** The key [unpackDoc] looks an embedded document up under. *)
Definition lookupKey (sublevel id : string) (embeddedId : value) (name : string)
  : string :=
  "!" ++ sublevel ++ "." ++ name ++ "!" ++ id ++ "." ++ toString embeddedId.

(** The keys of the store a run has not seen. *)
Definition stale (seen : list value) (keys : list string) : list string :=
  filter (fun key => negb (set_has seen (VStr key))) keys.

(* ------------------------------------------------------------------ *)
(** ** Sample data *)

(** The source file of the specification's scenario, and the same actor
    with the key its item carries in an extracted source file. *)
Definition sword : value := VObj [("_id", VStr "i1"); ("name", VStr "Sword")].

Definition hero_fields : list (string * value) :=
  [("_id", VStr "abc"); ("name", VStr "Hero"); ("items", VArr [sword])].

Definition hero : value := VObj (("_key", VStr "!actors!abc") :: hero_fields).

Definition keyed_sword : value :=
  VObj [("_key", VStr "!actors.items!abc.i1"); ("_id", VStr "i1");
        ("name", VStr "Sword")].

Definition keyed_hero : value :=
  VObj [("_key", VStr "!actors!abc"); ("_id", VStr "abc"); ("name", VStr "Hero");
        ("items", VArr [keyed_sword])].

Definition stored_hero : value :=
  VObj [("_id", VStr "abc"); ("name", VStr "Hero");
        ("items", VArr [VStr "i1"]); ("effects", VArr [])].

Definition stored_sword : value :=
  VObj [("_id", VStr "i1"); ("name", VStr "Sword"); ("effects", VArr [])].

Definition hero_file : source_file := SourceFile "actors/Hero_abc.json" (Some hero).

Definition keyed_hero_file : source_file :=
  SourceFile "actors/Hero_abc.json" (Some keyed_hero).

(** A pack compiled earlier from the keyed actor and a potion that has
    since been removed from the sources. *)
Definition old_pack : Level.store :=
  [("!actors!abc", stored_hero);
   ("!actors.items!abc.i1", stored_sword);
   ("!items!p1", VObj [("_id", VStr "p1"); ("name", VStr "Potion"); ("effects", VArr [])])].

(** A pack that holds the item of the actor under a key of its own, as
    the game writes it. *)
Definition flat_pack : Level.store :=
  [("!actors!abc", stored_hero); ("!actors.items!abc.i1", stored_sword)].

(** [getSafeFilename] on ASCII names, where [normalize("NFD")] changes
    nothing. *)
Definition alphanumeric (a : ascii) : bool :=
  let n := nat_of_ascii a in
  (((48 <=? n) && (n <=? 57)) || ((65 <=? n) && (n <=? 90))
   || ((97 <=? n) && (n <=? 122)))%nat.

Fixpoint asciiSafeFilename (filename : string) : string :=
  match filename with
  | EmptyString => EmptyString
  | String a rest =>
      String (if alphanumeric a then a else "_"%char) (asciiSafeFilename rest)
  end.

Definition plain_options : ExtractOptions :=
  {| yaml := false; folders := false; transformEntry := None;
     transformName := None; transformFolderName := None |}.

(** Three nested folders and an actor filed in the innermost one. *)
Definition folder_pack : Level.store :=
  [("!actors!abc",
    VObj [("_id", VStr "abc"); ("name", VStr "Hero"); ("folder", VStr "fC")]);
   ("!folders!fA", VObj [("_id", VStr "fA"); ("name", VStr "A"); ("folder", VNull)]);
   ("!folders!fB", VObj [("_id", VStr "fB"); ("name", VStr "B"); ("folder", VStr "fA")]);
   ("!folders!fC", VObj [("_id", VStr "fC"); ("name", VStr "C"); ("folder", VStr "fB")])].

Definition folder_options : ExtractOptions :=
  {| yaml := false; folders := true; transformEntry := None;
     transformName := None; transformFolderName := None |}.

(** A [transformName] that names actors after their id and leaves the
    rest to the defaults. *)
Definition nameById : NameTransformer :=
  fun doc _ =>
    match Js.get doc "_id" with
    | Ok (VStr "abc") => NameReturns (Some "abc.json")
    | _ => NameReturns None
    end.

Definition renaming_options : ExtractOptions :=
  {| yaml := false; folders := true; transformEntry := None;
     transformName := Some nameById; transformFolderName := None |}.

(** A callback that records, for each call, the [_id] of the document and
    the options it was given, and hands its [_id] down. *)
Definition recorder : visitor (list (string * value)) :=
  fun doc collection options st =>
    id <- Js.get doc "_id" ;;
    Ok (doc, VObj [("parent", id)], (st ++ [(toString id, options)])%list).


(** An actor whose item is not in the pack. *)
Definition torn_pack : Level.store := [("!actors!abc", stored_hero)].

From Stdlib Require Import Permutation.


(* ------------------------------------------------------------------ *)
(** ** Further notions *)

(** A source file the run reads, takes the collection of, and drops
    because [transformEntry] answered [false]. *)
Definition isDiscarded (transformEntry : option EntryTransformer)
  (file : source_file) : bool :=
  match file_doc file with
  | Some doc =>
      match collectionOf doc, callTransformEntry transformEntry doc with
      | Ok _, Ok None => true
      | _, _ => false
      end
  | None => false
  end.

Definition isString (v : value) : bool :=
  match v with VStr _ => true | _ => false end.

(** The key a staged operation is about. *)
Definition opKey (o : Level.op) : string :=
  match o with Level.Put key _ => key | Level.Del key => key end.

Definition isPut (o : Level.op) : bool :=
  match o with Level.Put _ _ => true | Level.Del _ => false end.

(** No two of the keys are the same to a [Set]. *)
Fixpoint distinctKeys (seen : list value) : Prop :=
  match seen with
  | [] => True
  | key :: rest => set_has rest key = false /\ distinctKeys rest
  end.

(** What a compile run keeps true of [seenKeys] and [batch]: one put per
    key seen, staged in the order the keys were seen, and no key seen
    twice. *)
Definition packInvariant (st : pack_state) : Prop :=
  distinctKeys (seenKeys st)
  /\ map opKey (batch st) = rev (map toString (seenKeys st))
  /\ forallb isPut (batch st) = true.

Definition keepsInvariant (a b : pack_state) : Prop :=
  packInvariant a -> packInvariant b.


(** A [transformEntry] that drops the potions. *)
Definition dropPotions : EntryTransformer :=
  fun doc =>
    match Js.get doc "name" with
    | Ok (VStr "Potion") => HookReturns (VBool false) doc
    | _ => HookReturns VUndef doc
    end.

Definition potion_file : source_file :=
  SourceFile "items/Potion_p1.json"
    (Some (VObj [("_key", VStr "!items!p1"); ("_id", VStr "p1");
                 ("name", VStr "Potion")])).

(** The [n]th ancestor of a folder in the index: the entry its [folder]
    reference resolves to, [n] times over. *)
Fixpoint ancestor (foldersMap : folders_map) (n : nat) (folder_ : folder_entry)
  : option folder_entry :=
  match n with
  | O => Some folder_
  | Datatypes.S n =>
      match map_get foldersMap (folder folder_) with
      | Some parent => ancestor foldersMap n parent
      | None => None
      end
  end.

(** No chain of parents in the index is longer than [fuel]: from every
    entry, following the [folder] references leaves the index after
    [fuel] steps at most.  No folder is then its own ancestor, and the
    [while (parent)] loop makes at most [fuel] turns for each folder. *)
Definition endsWithin (foldersMap : folders_map) (fuel : nat) : bool :=
  forallb (fun entry =>
             match ancestor foldersMap (Datatypes.S fuel) (snd entry) with
             | None => true
             | Some _ => false
             end) foldersMap.

(** A folder that is its own parent. *)
Definition loop_pack : Level.store :=
  [("!folders!f1",
    VObj [("_id", VStr "f1"); ("name", VStr "Loop"); ("folder", VStr "f1")])].

(** A JSON value: what [JSON.parse] can return, with no [undefined] in it. *)
Fixpoint isJson (v : value) : bool :=
  match v with
  | VUndef => false
  | VArr elems => forallb isJson elems
  | VObj fields => forallb (fun kv => isJson (snd kv)) fields
  | _ => true
  end.

(** An entry of a store as a compile leaves it for a document of a
    collection without embedded documents: the key is
    [!<collection>!<id>], the value a JSON object whose [_id] is that id
    and that has no [_key]. *)
Definition flatEntry (entry : string * value) : bool :=
  match split "!"%char (fst entry), snd entry with
  | [before; c; id], VObj fields =>
      String.eqb before "" && negb (String.eqb c "")
      && negb (includes "."%char c)
      && match hierarchyOf (Some c) with [] => true | _ :: _ => false end
      && negb (String.eqb id "")
      && match fieldOf fields "_id" with VStr s => String.eqb s id | _ => false end
      && match lookup fields "_key" with None => true | Some _ => false end
      && isJson (VObj fields)
  | _, _ => false
  end.

(** The document of a file once written by [serializeDocument] as JSON
    (with the default [jsonOptions]: no replacer) and read back by
    [JSON.parse]. *)
Definition readBack (file : string * value) : option value :=
  Some (jsonRoundTrip (snd file)).

(** The document [unpackDoc] makes of a flat entry. *)
Definition keyed (entry : string * value) : value :=
  match snd entry with
  | VObj fields => VObj (assign fields "_key" (VStr (fst entry)))
  | other => other
  end.

Definition macro_pack : Level.store :=
  [("!macros!m1", VObj [("_id", VStr "m1"); ("name", VStr "Roll")]);
   ("!macros!m2", VObj [("_id", VStr "m2"); ("name", VStr "Rest");
                        ("args", VArr [VNum 1; VNull])])].

(** The names on which [asciiSafeFilename] is [getSafeFilename]: those
    made of ASCII characters, which [normalize("NFD")] leaves alone. *)
Definition isAscii (s : string) : bool :=
  forallb (fun a => (nat_of_ascii a <? 128)%nat) (list_ascii_of_string s).

(** The characters the replacement of [getSafeFilename] leaves in an
    ASCII name: letters and digits, and the underscore it puts in place
    of every other one. *)
Definition safeChar (a : ascii) : bool := alphanumeric a || Ascii.eqb a "_".

(* ------------------------------------------------------------------ *)
(** ** Locating the source files ([findSourceFiles], [compilePack]) *)

(** What [readdirSync(root, { withFileTypes: true })] lists: files,
    directories with what they hold, and the entries that are neither
    (links, sockets and the like). *)
Inductive dirent : Type :=
| File (name : string)
| Directory (name : string) (entries : list dirent)
| Other (name : string).

Definition isYamlExt (ext : string) : bool :=
  String.eqb ext ".yml" || String.eqb ext ".yaml".

(** What [compilePack] throws itself, before any file is looked at. *)
Inductive pack_error : Type := NeDBObsolete.

Record CompileOptions : Type := {
  compile_nedb : bool;
  compile_yaml : bool;
  compile_recursive : bool;
  compile_transformEntry : option EntryTransformer
}.

Section Sources.

(** [path.extname], as the library has it. *)
Variable extname : string -> string.

(** The body of the loop of [findSourceFiles] for one entry of [root]. *)
Fixpoint findEntry (yaml recursive : bool) (root : string) (entry : dirent)
  : list string :=
  match entry with
  | Directory entryName entries =>
      let name := Path.join root entryName in
      if recursive then flat_map (findEntry yaml recursive name) entries
      else []
  | File entryName =>
      let name := Path.join root entryName in
      let ext := extname name in
      let isYaml := isYamlExt ext in
      if yaml && isYaml then [name]
      else if negb yaml && String.eqb ext ".json" then [name]
      else []
  | Other _ => []
  end.

(** [findSourceFiles(root, { yaml, recursive })], for a directory [root]
    that holds [entries]. *)
Definition findSourceFiles (root : string) (entries : list dirent)
  (yaml recursive : bool) : list string :=
  flat_map (findEntry yaml recursive root) entries.

(** [readFileSync(file, "utf8")], [JSON.parse] and [YAML.load]: [None]
    when they throw. *)
Variable readFileSync : string -> option string.
Variable JSON_parse : string -> option value.
Variable YAML_load : string -> option value.

(** The first lines of the loop of [compileClassicLevel]: the file read
    and parsed by the parser its extension calls for. *)
Definition readSource (file : string) : source_file :=
  SourceFile file
    match readFileSync file with
    | None => None
    | Some contents =>
        let ext := extname file in
        let isYaml := isYamlExt ext in
        if isYaml then YAML_load contents else JSON_parse contents
    end.

(** [compilePack(src, dest, options)], for a directory [src] that holds
    [entries] and a pack [dest] that holds [db]. *)
Definition compilePack (src : string) (entries : list dirent) (db : Level.store)
  (options : CompileOptions)
  : pack_error + outcome (option (string * string)) * Level.store :=
  if compile_nedb options then inl NeDBObsolete
  else
    let files :=
      findSourceFiles src entries (compile_yaml options)
        (compile_recursive options) in
    inr (compileClassicLevel db (map readSource files)
           (compile_transformEntry options)).

End Sources.

(** [path.extname] on the paths [path.join] makes of a directory and an
    entry name (no trailing slash): from the last dot of the last segment
    on, unless that dot is the first character of the segment or the
    segment is [".."]. *)
Fixpoint fromLastDot (s : string) : option string :=
  match s with
  | EmptyString => None
  | String a rest =>
      match fromLastDot rest with
      | Some e => Some e
      | None => if Ascii.eqb a "." then Some s else None
      end
  end.

Definition posixExtname (path : string) : string :=
  match last (split "/"%char path) "" with
  | EmptyString => ""
  | String a rest =>
      if String.eqb (String a rest) ".." then ""
      else match fromLastDot rest with Some e => e | None => "" end
  end.

(** A source directory with a sub-directory and files of both formats. *)
Definition sample_src : list dirent :=
  [File "Hero_abc.json"; File "notes.txt"; File "Potion_p1.yml";
   Directory "spells.json" [File "Bolt_s1.json"; File "Ward_s2.yaml"];
   Other "link.json"].

(* ------------------------------------------------------------------ *)
(** ** The server configuration and the package
       ([getFoundryConfigPath], [getFoundryPackageInfo], [launchFoundry]) *)

(** [throw new Error(message)]. *)
Inductive failure : Type := Failure (message : string).

Section Package.

(** [fse.exists] and [process.platform], as the system has them. *)
Variable pathExists : string -> bool.
Variable platform : string.

(** The [switch (platform)] of [getSearchPaths]. *)
Definition osName : option string :=
  if String.eqb platform "darwin" then Some "macosx"
  else if String.eqb platform "linux" then Some "linux"
  else if String.eqb platform "win32" then Some "windows"
  else None.

Definition getSearchPaths (rootPath : string) : list string :=
  let searchPaths :=
    [Path.join rootPath "foundryconfig.yml";
     Path.join rootPath "foundryconfig.yaml";
     Path.join rootPath "foundryconfig.json"] in
  match osName with
  | Some os =>
      let filenameWithoutExt := "foundryconfig." ++ os in
      (searchPaths
         ++ [Path.join rootPath (filenameWithoutExt ++ ".yml");
             Path.join rootPath (filenameWithoutExt ++ ".yaml");
             Path.join rootPath (filenameWithoutExt ++ ".json")])%list
  | None => searchPaths
  end.

(** [for (const searchPath of searchPaths) if (await fse.exists(searchPath))
    return searchPath]. *)
Fixpoint firstExisting (searchPaths : list string) : option string :=
  match searchPaths with
  | [] => None
  | searchPath :: rest =>
      if pathExists searchPath then Some searchPath else firstExisting rest
  end.

(** [getFoundryConfigPath(rootPath)]. *)
Definition getFoundryConfigPath (rootPath : string) : failure + string :=
  let searchPaths := getSearchPaths rootPath in
  match firstExisting searchPaths with
  | Some searchPath => inr searchPath
  | None =>
      inl (Failure
             ("No Foundry VTT config file found." ++ String "010" "Search for:"
              ++ String "010" "  - "
              ++ joinWith (String "010" "  - ") searchPaths))
  end.

End Package.

(** The own properties [{ ...v }] copies: those of an object, the
    elements of an array and the characters of a string (its bytes, in
    the strings of this development) under their index, nothing of the
    other values. *)
Fixpoint indexed {A : Type} (wrap : A -> value) (i : nat) (elems : list A)
  : list (string * value) :=
  match elems with
  | [] => []
  | e :: rest =>
      (NilZero.string_of_uint (Nat.to_uint i), wrap e)
        :: indexed wrap (Datatypes.S i) rest
  end.

Definition ownProperties (v : value) : list (string * value) :=
  match v with
  | VObj fields => fields
  | VArr elems => indexed (fun e => e) 0 elems
  | VStr s => indexed (fun a => VStr (String a "")) 0 (list_ascii_of_string s)
  | _ => []
  end.

Definition spread (target : list (string * value)) (v : value)
  : list (string * value) :=
  fold_left (fun o kv => assign o (fst kv) (snd kv)) (ownProperties v) target.

(** [getFoundryPackageInfo], once [readPackageJson] has returned
    [packageJson] and [getFoundryPackageType] has returned [packageType]:
    [{ type: packageType, ...foundry, path: ..., prefixUrl: ... }]. *)
Definition getFoundryPackageInfo (packageJson : value) (packageType : string)
  : outcome value :=
  foundry <- Js.get packageJson "foundry" ;;
  let packageTypePrefix := packageType ++ "s" in
  let info := [("type", VStr packageType)] in
  let info := spread info foundry in
  id <- Js.get foundry "id" ;;
  let info :=
    assign info "path" (VStr (packageTypePrefix ++ "/" ++ toString id ++ "/")) in
  id <- Js.get foundry "id" ;;
  let info :=
    assign info "prefixUrl"
      (VStr ("/" ++ packageTypePrefix ++ "/" ++ toString id ++ "/")) in
  Ok (VObj info).

(** The options of [launchFoundry], each [undefined] when left out. *)
Record LaunchOptions : Type := {
  launch_dataPath : value;
  launch_world : value;
  launch_port : value;
  launch_demo : value;
  launch_noupnp : value;
  launch_noupdate : value
}.

(** What [getFoundryConfigInfo] returns: the configured paths and those
    of them that resolved to a directory. *)
Record FoundryConfigInfo : Type := {
  config_dataPath : list string;
  config_installPath : list string;
  resolvedDataPath : list string;
  resolvedInstallPath : list string
}.

Definition strings (paths : list string) : value := VArr (map VStr paths).

(** [array[0]]. *)
Definition first (array : value) : value :=
  match array with
  | VArr (e :: _) => e
  | _ => VUndef
  end.

(** [launchFoundryPrivate]: the arguments [spawn("node", [...])] is
    called with. *)
Definition launchFoundryPrivate (mainJsPath dataPath : value)
  (world port demo noupnp noupdate adminKey : value) : list value :=
  [mainJsPath;
   VStr ("--dataPath=" ++ toString dataPath);
   VStr ("--port=" ++ toString port);
   VStr (if truthy demo then "--demo" else "");
   VStr (if truthy world then "--world=" ++ toString world else "");
   VStr (if truthy noupnp then "--noupnp" else "");
   VStr (if truthy noupdate then "--noupdate" else "");
   VStr (if truthy adminKey then "--adminKey=" ++ toString adminKey else "")].

(** The two immediately-invoked functions of [launchFoundry]: the first
    of the resolved paths, unless none is configured. *)
Definition firstResolved (configured resolved : list string)
  (noneSet noneFound : string) : failure + value :=
  if Nat.eqb (List.length configured) 0 then inl (Failure noneSet)
  else if negb (truthy (strings resolved)) then
    inl (Failure (noneFound ++ joinWith (String "010" " - ") configured))
  else inr (first (strings resolved)).

(** What a call of [getFoundryConfigInfo] or of [launchFoundry] rejects
    with: an [Error] the code throws itself, the failure of reading or
    parsing the configuration file, a [TypeError] of the engine, or the
    system error of [fse.statSync] on a path it cannot examine ([ENOENT]
    for a path that does not exist). *)
Inductive rejection : Type :=
| Thrown (e : failure)
| ConfigUnreadable (path : string)
| EngineTypeError
| StatError (path : string).

(** The system a launch runs on. *)
Record Host : Type := {
  (** [fse.exists] and [process.platform] *)
  host_pathExists : string -> bool;
  host_platform : string;
  (** [path.extname] and [path.resolve] *)
  host_extname : string -> string;
  host_resolve : string -> string;
  (** [fse.readJSON(path)] and
      [YAML.load(await fse.readFile(path, "utf-8"), ...)]: the value
      parsed, unless the file cannot be read or parsed *)
  host_readJSON : string -> option value;
  host_loadYAML : string -> option value;
  (** [p.replaceAll(pattern, (_, ...groups) => process.env[groups[0]] || "")],
      from the source of the pattern and [p], in the environment of the
      process *)
  host_expandEnv : string -> string -> string;
  (** [fse.statSync(path).isDirectory()]; [None] when [statSync] throws *)
  host_isDirectory : string -> option bool;
  (** [process.env.ADMIN_KEY] once [dotenv.configDotenv] has read the
      [.env] file of [rootPath] *)
  host_adminKey : string -> value
}.

(** [configured ?? []], wrapped in an array when it is not one. *)
Definition pathList (configured : value) : list value :=
  match orElse configured (VArr []) with
  | VArr paths => paths
  | single => [single]
  end.

(** The strings among the elements of an array. *)
Definition texts (paths : list value) : list string :=
  flat_map (fun p => match p with VStr s => [s] | _ => [] end) paths.

(** A value a property can be written on: an object or an array; the
    write throws on a primitive (the sources are ES modules). *)
Definition assignable (v : value) : bool :=
  match v with
  | VObj _ | VArr _ => true
  | _ => false
  end.

Section Launch.

Variable host : Host.

Definition getPattern : string :=
  if String.eqb (host_platform host) "win32" then "%(.*)%" else "$(.*)".

(** [path.resolve(p)], for [p] as [replaceAll] leaves it. *)
Definition resolved (p : string) : string :=
  host_resolve host (host_expandEnv host getPattern p).

(** [resolvePath(paths)]: each path in turn; a path that is not a string
    has no [replaceAll], [statSync] throws on a path it cannot examine,
    and a path that is not a directory is filtered out. *)
Fixpoint resolvePath (paths : list value) : rejection + list string :=
  match paths with
  | [] => inr []
  | VStr p :: rest =>
      match host_isDirectory host (resolved p) with
      | None => inl (StatError (resolved p))
      | Some directory =>
          match resolvePath rest with
          | inl e => inl e
          | inr rest => inr (if directory then resolved p :: rest else rest)
          end
      end
  | _ :: _ => inl EngineTypeError
  end.

(** [getFoundryConfigInfo(rootPath)]; [None] for [undefined].  The
    result carries the four properties [launchFoundry] reads. *)
Definition getFoundryConfigInfo (rootPath : string)
  : rejection + option FoundryConfigInfo :=
  match getFoundryConfigPath (host_pathExists host) (host_platform host)
          rootPath with
  | inl e => inl (Thrown e)
  | inr foundryConfigPath =>
      if String.eqb foundryConfigPath "" then inr None
      else
        match (if String.eqb (host_extname host foundryConfigPath) ".json"
               then host_readJSON host foundryConfigPath
               else host_loadYAML host foundryConfigPath) with
        | None => inl (ConfigUnreadable foundryConfigPath)
        | Some foundryConfig =>
            match Js.get foundryConfig "dataPath" with
            | Ok dataPaths =>
                let dataPaths := pathList dataPaths in
                if negb (assignable foundryConfig) then inl EngineTypeError
                else
                  match resolvePath dataPaths with
                  | inl e => inl e
                  | inr resolvedData =>
                      match Js.get foundryConfig "installPath" with
                      | Ok installPaths =>
                          let installPaths := pathList installPaths in
                          match resolvePath installPaths with
                          | inl e => inl e
                          | inr resolvedInstall =>
                              inr (Some
                                     {| config_dataPath := texts dataPaths;
                                        config_installPath := texts installPaths;
                                        resolvedDataPath := resolvedData;
                                        resolvedInstallPath := resolvedInstall |})
                          end
                      | _ => inl EngineTypeError
                      end
                  end
            | _ => inl EngineTypeError
            end
        end
  end.

(** [launchFoundry(rootPath, options)]: the arguments the server is
    launched with, when it is; [None] when the call returns without
    launching. *)
Definition launchFoundry (rootPath : string) (options : LaunchOptions)
  : rejection + option (list value) :=
  match getFoundryConfigInfo rootPath with
  | inl e => inl e
  | inr None => inr None
  | inr (Some foundryConfig) =>
      match firstResolved (config_installPath foundryConfig)
              (resolvedInstallPath foundryConfig)
              "No installation path set in Foundry VTT config file! Please add some."
              ("No installation path found!" ++ String "010" "Search for: "
               ++ String "010" " - ") with
      | inl e => inl (Thrown e)
      | inr installPath =>
          match (if nullish (launch_dataPath options)
                 then firstResolved (config_dataPath foundryConfig)
                        (resolvedDataPath foundryConfig)
                        "No data path set in Foundry VTT config file! Please add some."
                        ("No data path found!" ++ String "010" "Search for: "
                         ++ String "010" " - ")
                 else inr (launch_dataPath options)) with
          | inl e => inl (Thrown e)
          | inr dataPath =>
              inr (Some (launchFoundryPrivate installPath dataPath
                           (launch_world options)
                           (orElse (launch_port options) (VNum 30000))
                           (launch_demo options)
                           (launch_noupnp options)
                           (launch_noupdate options)
                           (host_adminKey host rootPath)))
          end
      end
  end.

End Launch.

(** A [package.json] whose [foundry] section declares a type, a path
    and a prefix of its own. *)
Definition sample_package : value :=
  VObj [("name", VStr "my-system");
        ("foundry",
         VObj [("id", VStr "my-system"); ("title", VStr "My System");
               ("type", VStr "module"); ("path", VStr "elsewhere/")])].

Definition sample_launch : LaunchOptions :=
  {| launch_dataPath := VUndef; launch_world := VStr "demo-world";
     launch_port := VNum 0; launch_demo := VUndef;
     launch_noupnp := VBool true; launch_noupdate := VUndef |}.

(** A configuration file whose installation path is a file, not a
    directory, on a system where [/srv/data] is the only directory and
    [/nowhere] does not exist: nothing of the installation path
    resolves. *)
Definition sample_config : value :=
  VObj [("dataPath", VStr "/srv/data");
        ("installPath", VArr [VStr "/opt/foundry/main.js"])].

Definition sample_host : Host :=
  {| host_pathExists := fun p => String.eqb p "foundryconfig.json";
     host_platform := "linux";
     host_extname := posixExtname;
     host_resolve := fun p => p;
     host_readJSON := fun _ => Some sample_config;
     host_loadYAML := fun _ => None;
     host_expandEnv := fun _ p => p;
     host_isDirectory := fun p => if String.eqb p "/nowhere" then None
                                  else Some (String.eqb p "/srv/data");
     host_adminKey := fun _ => VUndef |}.

(** The same system with a configuration file that lists, after
    [/srv/data], a data path that does not exist. *)
Definition missing_host : Host :=
  {| host_pathExists := host_pathExists sample_host;
     host_platform := "linux";
     host_extname := posixExtname;
     host_resolve := fun p => p;
     host_readJSON :=
       fun _ => Some (VObj [("dataPath", VArr [VStr "/srv/data"; VStr "/nowhere"]);
                            ("installPath", VStr "/opt/foundry")]);
     host_loadYAML := fun _ => None;
     host_expandEnv := fun _ p => p;
     host_isDirectory := host_isDirectory sample_host;
     host_adminKey := fun _ => VUndef |}.

(** A part of a compile that looks at the state it starts from only to
    check that the keys it adds are new: from any other state that has
    seen none of them it does the same. *)
Definition transposable {A : Type}
  (run : pack_state -> outcome (A * pack_state)) : Prop :=
  forall (st1 : pack_state) (a : A) (st1' : pack_state),
    run st1 = Ok (a, st1') ->
    exists (new : list value) (puts : list Level.op),
      st1' = PackState (new ++ seenKeys st1) (batch st1 ++ puts)
      /\ (forall k, In k new -> set_has (seenKeys st1) k = false)
      /\ forall st2 : pack_state,
           (forall k, In k new -> set_has (seenKeys st2) k = false) ->
           run st2 = Ok (a, PackState (new ++ seenKeys st2) (batch st2 ++ puts)).

(** The form a compile gives the value it stores for a node of
    [collection]: a JSON record with distinct property names and no
    [_key], in which every field of the schema is present, an embedded
    collection as an array (of the ids of its members) and a single
    embedded document as its id, or [null] when there is none. *)
Definition storedField (fields : list (string * value)) (entry : string * kind)
  : bool :=
  match lookup fields (fst entry), snd entry with
  | Some (VArr _), Collection => true
  | Some v, Singular => truthy v || match v with VNull => true | _ => false end
  | _, _ => false
  end.

Definition storedNode (collection : option string) (doc : value) : bool :=
  match doc with
  | VObj fields =>
      isJson doc && distinct (map fst fields)
      && match lookup fields "_key" with None => true | Some _ => false end
      && forallb (storedField fields) (hierarchyOf collection)
  | _ => false
  end.

(** What a walk made of the value [v] of an embedded field: every member
    it held has become a record, and [byId] relates each to the id that
    stood for it. *)
Definition hydrated (byId : value -> value -> Prop) (k : kind) (v w : value)
  : Prop :=
  match k, v with
  | Collection, VArr refs => exists children, w = VArr children /\ Forall2 byId refs children
  | _, _ => if truthy v then byId v w else w = v
  end.

(** A record whose [_id] is [ref]. *)
Definition recordOf (ref child : value) : Prop :=
  exists fields, child = VObj fields /\ fieldOf fields "_id" = ref.

(** The ids a node holds in the fields of its schema all resolve: under
    the key [unpackDoc] looks an id up, the store has a record with that
    [_id]. *)
Definition resolves (db : Level.store) (sublevel id : string)
  (collection : option string) (fields : list (string * value)) : bool :=
  forallb
    (fun entry : string * kind =>
       forallb
         (fun ref =>
            match Level.find db (lookupKey sublevel id ref (fst entry)) with
            | Some (VObj child) => sameValueZero (fieldOf child "_id") ref
            | _ => false
            end)
         (embeddedOf (snd entry) (fieldOf fields (fst entry))))
    (hierarchyOf collection).

(** How the extraction hydrates the id [ref] held in the field [name] of
    a node with collection path [sublevel] and id path [id]: the store has
    a record with that [_id] under the key of the lookup, and [child] is
    what the walk made of it. *)
Definition hydratedFrom (m : Level.miss) (db : Level.store) (fuel : nat)
  (sublevel id name : string) (ref child : value) : Prop :=
  exists (stored : list (string * value)) (s s' : unit),
    Level.find db (lookupKey sublevel id ref name) = Some (VObj stored)
    /\ fieldOf stored "_id" = ref
    /\ applyHierarchy (unpackVisitor m db) fuel (VObj stored) (Some name)
         (VObj [("sublevelPrefix", VStr sublevel); ("idPrefix", VStr id)]) s
       = Ok (child, s').

(** What [doc[name]] reads on a node. *)
Definition heldBy (doc : value) (name : string) : value :=
  match Js.get doc name with
  | Ok v => v
  | _ => VUndef
  end.

(** The nodes of a document, in the order the walk meets them: the
    document with its collection, then, field by field of the schema of
    that collection, the nodes of what the field holds.  [fuel] bounds
    the depth of the nesting. *)
Fixpoint nodesOf (fuel : nat) (collection : option string) (doc : value)
  : list (option string * value) :=
  match fuel with
  | O => []
  | Datatypes.S fuel =>
      (collection, doc)
        :: flat_map
             (fun entry =>
                flat_map (nodesOf fuel (Some (fst entry)))
                  (embeddedOf (snd entry) (heldBy doc (fst entry))))
             (hierarchyOf collection)
  end.

(** A node nests less deep than the document that holds it, so this
    bound leaves none out ([nodesOf_closed]). *)
Definition nodes (collection : option string) (doc : value)
  : list (option string * value) :=
  nodesOf (Datatypes.S (depth doc)) collection doc.

(** A put that stages a node of a collection: under the node's own
    [_key], and with the node less its [_key] for value, in which every
    embedded field of the schema is mapped to the [_id]s of what it held
    and the other fields are as they were. *)
Definition stagedAs (node : option string * value) (put : Level.op) : Prop :=
  exists (key : value) (fields fields' : list (string * value)),
    snd node = VObj fields
    /\ lookup fields "_key" = Some key
    /\ nullish key = false
    /\ put = Level.Put (toString key) (jsonRoundTrip (VObj fields'))
    /\ (forall (name : string) (k : kind),
           In (name, k) (hierarchyOf (fst node)) ->
           exists w,
             lookup fields' name = Some w
             /\ mapped (fun d _ => Js.get d "_id")
                  (fieldOf (remove fields "_key") name) name k w)
    /\ (forall other : string,
           ~ In other (map fst (hierarchyOf (fst node))) ->
           lookup fields' other = lookup (remove fields "_key") other).

(** The document a source file contributes to a run, with its
    collection: the one [transformEntry] leaves, unless the file does not
    parse or is discarded. *)
Definition compiledDoc (transformEntry : option EntryTransformer)
  (file : source_file) : option (option string * value) :=
  match file_doc file with
  | Some doc =>
      match collectionOf doc, callTransformEntry transformEntry doc with
      | Ok collection, Ok (Some doc) => Some (collection, doc)
      | _, _ => None
      end
  | None => None
  end.

(** A record the first loop of the folder pass takes in: one that is no
    folder, or a folder on which the hook, if there is one, does not
    throw and whose [name], when the name is left to the default, is a
    string or nothing. *)
Definition namedFolder (transformFolderName : option NameTransformer)
  (entry : string * value) : bool :=
  negb (startsWith (fst entry) "!folders")
  || (negb (nullish (snd entry))
      && match callTransformName transformFolderName (snd entry) None with
         | Ok (Some _) => true
         | Ok None =>
             match heldBy (snd entry) "name" with
             | VStr _ => true
             | other => negb (truthy other)
             end
         | _ => false
         end).
(** The state of a compile once it has staged [entries] on top of [st]. *)
Definition staged (st : pack_state) (entries : list (string * value))
  : pack_state :=
  PackState (rev (map (fun e => VStr (fst e)) entries) ++ seenKeys st)
    (batch st ++ map (fun e => Level.Put (fst e) (snd e)) entries).

(** None of the keys of [entries] has been seen in [st]. *)
Definition unseen (st : pack_state) (entries : list (string * value)) : Prop :=
  forall k, In k (map fst entries) -> set_has (seenKeys st) (VStr k) = false.

(** The entries of the store a node stands for: its own and, field by
    field of the schema and member by member, those of the records its ids
    resolve to.  [fuel] bounds the depth. *)
Fixpoint subtree (db : Level.store) (fuel : nat) (sublevel id : string)
  (collection : option string) (fields : list (string * value))
  : list (string * value) :=
  match fuel with
  | O => []
  | Datatypes.S fuel =>
      ("!" ++ sublevel ++ "!" ++ id, VObj fields)
      :: flat_map
           (fun entry : string * kind =>
              flat_map
                (fun ref =>
                   match Level.find db (lookupKey sublevel id ref (fst entry)) with
                   | Some (VObj child) =>
                       subtree db fuel
                         (keyJoin [VStr sublevel; VStr (fst entry)])
                         (keyJoin [VStr id; fieldOf child "_id"])
                         (Some (fst entry)) child
                   | _ => []
                   end)
                (embeddedOf (snd entry) (fieldOf fields (fst entry))))
           (hierarchyOf collection)
  end.

(** Every node of that tree has the form a compile gives it, and its ids
    resolve. *)
Fixpoint soundTree (db : Level.store) (fuel : nat) (sublevel id : string)
  (collection : option string) (fields : list (string * value)) : bool :=
  match fuel with
  | O => false
  | Datatypes.S fuel =>
      storedNode collection (VObj fields)
      && resolves db sublevel id collection fields
      && forallb
           (fun entry : string * kind =>
              forallb
                (fun ref =>
                   match Level.find db (lookupKey sublevel id ref (fst entry)) with
                   | Some (VObj child) =>
                       soundTree db fuel
                         (keyJoin [VStr sublevel; VStr (fst entry)])
                         (keyJoin [VStr id; fieldOf child "_id"])
                         (Some (fst entry)) child
                   | _ => false
                   end)
                (embeddedOf (snd entry) (fieldOf fields (fst entry))))
           (hierarchyOf collection)
  end.

(** The entries a primary document of the store stands for, and the
    primary documents themselves. *)
Definition primaryTree (db : Level.store) (fuel : nat) (entry : string * value)
  : list (string * value) :=
  match nth_error (split "!"%char (fst entry)) 1, snd entry with
  | Some c, VObj fields =>
      subtree db fuel (keyJoin [VUndef; VStr c])
        (keyJoin [VUndef; fieldOf fields "_id"]) (Some c) fields
  | _, _ => []
  end.

Definition soundPrimary (db : Level.store) (fuel : nat) (entry : string * value)
  : bool :=
  match nth_error (split "!"%char (fst entry)) 1, snd entry with
  | Some c, VObj fields =>
      soundTree db fuel (keyJoin [VUndef; VStr c])
        (keyJoin [VUndef; fieldOf fields "_id"]) (Some c) fields
  | _, _ => false
  end.

Definition primaries (db : Level.store) : list (string * value) :=
  filter (fun entry => negb (embeddedKey (fst entry))) db.
(** An entry whose value is a record with a non-empty string for [_id]. *)
Definition idString (entry : string * value) : bool :=
  match snd entry with
  | VObj fields =>
      match fieldOf fields "_id" with
      | VStr s => negb (String.eqb s "")
      | _ => false
      end
  | _ => false
  end.

(** A primary entry under the key a compile gives it:
    [!<collection>!<id>], with the [_id] of its record for id. *)
Definition rootKeyed (entry : string * value) : bool :=
  match split "!"%char (fst entry), snd entry with
  | [before; c; id], VObj fields =>
      String.eqb before "" && negb (String.eqb c "")
      && match fieldOf fields "_id" with
         | VStr s => String.eqb s id
         | _ => false
         end
  | _, _ => false
  end.

(** The keys of the entries the primary documents of a store stand
    for. *)
Definition treeKeys (db : Level.store) (fuel : nat) : list string :=
  map fst (flat_map (primaryTree db fuel) (primaries db)).

(** A pack as a compile of hierarchical documents leaves it: every
    record has a non-empty string for [_id], every primary entry sits
    under the key of its record and heads a tree whose nodes have the
    form a compile gives them and whose ids all resolve, no entry belongs
    to two of these trees, and every entry of the store belongs to one.
    [fuel] bounds the depth of the trees. *)
Definition soundPack (db : Level.store) (fuel : nat) : bool :=
  forallb idString db
  && forallb (fun entry => rootKeyed entry && soundPrimary db fuel entry)
       (primaries db)
  && distinct (treeKeys db fuel)
  && forallb (fun entry => existsb (String.eqb (fst entry)) (treeKeys db fuel)) db.

(** What the extraction makes of a primary entry, read back by a
    compile. *)
Definition readAs (m : Level.miss) (db : Level.store) (fuel : nat)
  (entry : string * value) (doc : option value) : Prop :=
  exists (c : string) (node : value),
    nth_error (split "!"%char (fst entry)) 1 = Some c
    /\ unpackDoc m db fuel (snd entry) c = Ok node
    /\ doc = Some (jsonRoundTrip node).

(** The actor of [flat_pack] as the extraction writes it. *)
Definition extracted_hero : value :=
  VObj [("_id", VStr "abc"); ("name", VStr "Hero");
        ("items", VArr [VObj [("_id", VStr "i1"); ("name", VStr "Sword");
                              ("effects", VArr []);
                              ("_key", VStr "!actors.items!abc.i1")]]);
        ("effects", VArr []); ("_key", VStr "!actors!abc")].

(* ------------------------------------------------------------------ *)
(** * Properties *)

(** ** The definitions at work *)

Example split_key :
  split "!"%char "!actors.items!abc.i1" = [""; "actors.items"; "abc.i1"].
Proof. reflexivity. Qed.

Example split_no_separator : split "!"%char "abc" = ["abc"].
Proof. reflexivity. Qed.

Example keyJoin_root : keyJoin [VUndef; VStr "actors"] = "actors".
Proof. reflexivity. Qed.

Example keyJoin_nested : keyJoin [VStr "abc"; VStr "i1"] = "abc.i1".
Proof. reflexivity. Qed.

Example toString_array : toString (VArr [VNum 1; VNull; VStr "a"]) = "1,,a".
Proof. reflexivity. Qed.

Example join_segments : Path.join "A" (Path.join "B" "C") = "A/B/C".
Proof. reflexivity. Qed.

Example join_normalizes : Path.join "A/" "../B/./C//" = "B/C/".
Proof. reflexivity. Qed.

Example join_above_root : Path.join "/a" "../.." = "/".
Proof. reflexivity. Qed.

Example put_keeps_order :
  Level.keys (Level.put (Level.put (Level.put [] "!b!1" VNull) "!a!2" VNull)
                "!a!1" VNull)
  = ["!a!1"; "!a!2"; "!b!1"].
Proof. reflexivity. Qed.

(** The second half of the specification's scenario: the pack compiled
    from the keyed actor extracts to one file, named after the actor,
    that holds the actor with its item back in place. *)
Example hero_extracts :
  extractClassicLevel asciiSafeFilename Level.classic_level_2 flat_pack 3 "out"
    plain_options
  = ([("out/Hero_abc.json",
       VObj [("_id", VStr "abc"); ("name", VStr "Hero");
             ("items",
              VArr [VObj [("_id", VStr "i1"); ("name", VStr "Sword");
                          ("effects", VArr []);
                          ("_key", VStr "!actors.items!abc.i1")]]);
             ("effects", VArr []); ("_key", VStr "!actors!abc")])],
     Ok tt).
Proof. reflexivity. Qed.

(** ** Outcomes *)

Lemma bind_Ok {A B : Type} (c : outcome A) (k : A -> outcome B) (b : B) :
  bind c k = Ok b -> exists a, c = Ok a /\ k a = Ok b.
Proof. destruct c; simpl; intros H; try discriminate; eauto. Qed.

Lemma bind_not_NoFuel {A B : Type} (c : outcome A) (k : A -> outcome B) :
  c <> NoFuel -> (forall a, c = Ok a -> k a <> NoFuel) -> bind c k <> NoFuel.
Proof. destruct c; simpl; intros Hc Hk; auto; congruence. Qed.

Tactic Notation "inv_bind" hyp(H) :=
  let a := fresh "x" in
  let Ha := fresh "Hx" in
  apply bind_Ok in H; destruct H as (a & Ha & H).

Tactic Notation "inv_bind" hyp(H) "as" ident(a) ident(Ha) :=
  apply bind_Ok in H; destruct H as (a & Ha & H).

(** ** Objects *)

Lemma get_obj (fields : list (string * value)) (name : string) :
  Js.get (VObj fields) name = Ok (fieldOf fields name).
Proof. unfold Js.get, fieldOf. destruct (lookup fields name); reflexivity. Qed.

Lemma lookup_assign_same (fields : list (string * value)) (name : string) (v : value) :
  lookup (assign fields name v) name = Some v.
Proof.
  induction fields as [|[k w] rest IH]; simpl.
  - now rewrite String.eqb_refl.
  - destruct (String.eqb k name) eqn:E; simpl; rewrite E; auto.
Qed.

Lemma lookup_assign_other (fields : list (string * value)) (name other : string)
  (v : value) :
  name <> other -> lookup (assign fields name v) other = lookup fields other.
Proof.
  intros Hne. induction fields as [|[k w] rest IH]; simpl.
  - destruct (String.eqb name other) eqn:E; auto.
    apply String.eqb_eq in E. contradiction.
  - destruct (String.eqb k name) eqn:E; simpl.
    + apply String.eqb_eq in E. subst k.
      destruct (String.eqb name other) eqn:E'; auto.
      apply String.eqb_eq in E'. contradiction.
    + now rewrite IH.
Qed.

Lemma fieldOf_assign_same fields name v : fieldOf (assign fields name v) name = v.
Proof. unfold fieldOf. now rewrite lookup_assign_same. Qed.

Lemma fieldOf_assign_other fields name other v :
  name <> other -> fieldOf (assign fields name v) other = fieldOf fields other.
Proof. intros H. unfold fieldOf. now rewrite lookup_assign_other. Qed.

(** ** The schema *)

Lemma distinct_NoDup (names : list string) : distinct names = true -> NoDup names.
Proof.
  induction names as [|n rest IH]; simpl; intros H; constructor.
  - apply andb_prop in H. destruct H as [H _].
    intros Hin. apply negb_true_iff in H.
    assert (existsb (String.eqb n) rest = true) as Hex.
    { apply existsb_exists. exists n. split; auto. apply String.eqb_refl. }
    congruence.
  - apply andb_prop in H. tauto.
Qed.

Lemma assoc_In {A : Type} (table : list (string * A)) (name : string) (a : A) :
  assoc table name = Some a -> In (name, a) table.
Proof.
  induction table as [|[k b] rest IH]; simpl; intros H; try discriminate.
  destruct (String.eqb k name) eqn:E.
  - apply String.eqb_eq in E. left. congruence.
  - right. auto.
Qed.

(** No collection declares a field twice. *)
Lemma hierarchy_NoDup (collection : option string) :
  NoDup (map fst (hierarchyOf collection)).
Proof.
  destruct collection as [c|]; unfold hierarchyOf; [|constructor].
  destruct (assoc HIERARCHY c) as [fields|] eqn:E; [|constructor].
  apply assoc_In in E.
  assert (forallb (fun e => distinct (map fst (snd e))) HIERARCHY = true) as Hall
    by reflexivity.
  rewrite forallb_forall in Hall.
  apply distinct_NoDup. exact (Hall _ E).
Qed.

(** Every declared field has a name. *)
Lemma hierarchy_named (collection : option string) (name : string) (k : kind) :
  In (name, k) (hierarchyOf collection) -> name <> "".
Proof.
  destruct collection as [c|]; unfold hierarchyOf; [|intros []].
  destruct (assoc HIERARCHY c) as [fields|] eqn:E; [|intros []].
  apply assoc_In in E. intros Hin.
  assert (forallb (fun e => forallb (fun f => negb (String.eqb (fst f) "")) (snd e))
            HIERARCHY = true) as Hall by reflexivity.
  rewrite forallb_forall in Hall. specialize (Hall _ E). simpl in Hall.
  rewrite forallb_forall in Hall. specialize (Hall _ Hin). simpl in Hall.
  apply negb_true_iff in Hall. apply String.eqb_neq in Hall. exact Hall.
Qed.

(** ** [mapHierarchy] *)

Lemma mapField_obj fn fields name k doc' :
  mapField fn (VObj fields) (name, k) = Ok doc' ->
  exists w, doc' = VObj (assign fields name w)
            /\ mapped fn (fieldOf fields name) name k w.
Proof.
  unfold mapField. rewrite get_obj. simpl. intros H.
  destruct k; simpl.
  - destruct (fieldOf fields name) eqn:E; simpl in H;
      try (injection H as <-; eexists; split; [reflexivity|reflexivity]).
    inv_bind H. simpl in H. injection H as <-.
    eexists; split; [reflexivity|]. eauto.
  - destruct (truthy (fieldOf fields name)) eqn:E.
    + inv_bind H. simpl in H. injection H as <-. eauto.
    + simpl in H. injection H as <-. eauto.
Qed.

Lemma mapFields_obj fn entries : forall fields doc',
  NoDup (map fst entries) ->
  mapFields fn entries (VObj fields) = Ok doc' ->
  exists fields',
    doc' = VObj fields'
    /\ (forall name k, In (name, k) entries ->
          exists w, lookup fields' name = Some w
                    /\ mapped fn (fieldOf fields name) name k w)
    /\ (forall other, ~ In other (map fst entries) ->
          lookup fields' other = lookup fields other).
Proof.
  induction entries as [|[name k] rest IH]; simpl; intros fields doc' Hnd H.
  - injection H as <-. exists fields. repeat split; auto. intros ? ? [].
  - inversion Hnd as [|? ? Hnotin Hnd']; subst.
    inv_bind H. apply mapField_obj in Hx. destruct Hx as (w & -> & Hw).
    apply IH in H; auto. destruct H as (fields' & -> & Hin & Hout).
    exists fields'. split; [reflexivity|]. split.
    + intros n k' [Heq|Hn].
      * injection Heq as <- <-. exists w. split; auto.
        rewrite Hout; auto. apply lookup_assign_same.
      * destruct (Hin _ _ Hn) as (w' & Hl & Hm). exists w'. split; auto.
        rewrite fieldOf_assign_other in Hm; auto.
        intros Heq. apply Hnotin. subst. apply (in_map fst) in Hn. exact Hn.
    + intros other Hother. rewrite Hout by tauto.
      apply lookup_assign_other. intros <-. apply Hother. now left.
Qed.



(** ** The store *)

Lemma key_lt_trans (a b c : string) :
  Level.key_lt a b -> Level.key_lt b c -> Level.key_lt a c.
Proof. unfold Level.key_lt. apply String_as_OT.lt_strorder. Qed.

Lemma keys_put (db : Level.store) (key : string) (v : value) (k : string) :
  In k (Level.keys (Level.put db key v)) -> k = key \/ In k (Level.keys db).
Proof.
  induction db as [|[k0 w] rest IH]; simpl.
  - intros [H|[]]. now left.
  - destruct (String_as_OT.compare_spec key k0) as [Heq|Hlt|Hgt]; simpl.
    + intros [H|H]; [now left|]. right. now right.
    + intros [H|[H|H]]; [now left| |]; right; [now left|now right].
    + intros [H|H]; [right; now left|].
      destruct (IH H); [now left|right; now right].
Qed.

Lemma keys_del (db : Level.store) (key k : string) :
  In k (Level.keys (Level.del db key)) -> In k (Level.keys db).
Proof.
  induction db as [|[k0 w] rest IH]; simpl; auto.
  destruct (String.eqb k0 key); simpl; intros H.
  - right. auto.
  - destruct H; [now left|right; auto].
Qed.

Lemma put_well_formed (db : Level.store) (key : string) (v : value) :
  Level.well_formed db -> Level.well_formed (Level.put db key v).
Proof.
  unfold Level.well_formed.
  induction db as [|[k0 w] rest IH]; simpl.
  - intros _. split; [constructor|exact I].
  - intros [Hall Hs].
    destruct (String_as_OT.compare_spec key k0) as [Heq|Hlt|Hgt]; simpl.
    + change (key = k0) in Heq. subst k0. split; assumption.
    + split; [|split; assumption].
      constructor; [exact Hlt|].
      eapply Forall_impl; [|exact Hall].
      intros a Ha. eapply key_lt_trans; eassumption.
    + split; [|apply IH; assumption].
      apply Forall_forall. intros k Hk.
      destruct (keys_put _ _ _ _ Hk) as [->|Hin]; [exact Hgt|].
      rewrite Forall_forall in Hall. auto.
Qed.

Lemma del_well_formed (db : Level.store) (key : string) :
  Level.well_formed db -> Level.well_formed (Level.del db key).
Proof.
  unfold Level.well_formed.
  induction db as [|[k0 w] rest IH]; simpl; auto.
  intros [Hall Hs]. destruct (String.eqb k0 key); simpl; auto.
  split; auto.
  apply Forall_forall. intros k Hk. apply keys_del in Hk.
  rewrite Forall_forall in Hall. auto.
Qed.

Lemma batch_write_well_formed (batch : list Level.op) : forall db : Level.store,
  Level.well_formed db -> Level.well_formed (Level.batch_write db batch).
Proof.
  unfold Level.batch_write.
  induction batch as [|o rest IH]; simpl; auto.
  intros db Hwf. apply IH. destruct o; simpl.
  - now apply put_well_formed.
  - now apply del_well_formed.
Qed.

Lemma find_del_same (db : Level.store) (key : string) :
  Level.find (Level.del db key) key = None.
Proof.
  induction db as [|[k0 w] rest IH]; simpl; auto.
  destruct (String.eqb k0 key) eqn:E; simpl; auto. now rewrite E.
Qed.

Lemma find_del_absent (db : Level.store) (key other : string) :
  Level.find db key = None -> Level.find (Level.del db other) key = None.
Proof.
  induction db as [|[k0 w] rest IH]; simpl; auto.
  destruct (String.eqb k0 key) eqn:E; [discriminate|].
  intros H. destruct (String.eqb k0 other); simpl; auto. rewrite E. auto.
Qed.

Lemma find_after_dels (dels : list string) : forall (db : Level.store) (key : string),
  In key dels \/ Level.find db key = None ->
  Level.find (Level.batch_write db (map Level.Del dels)) key = None.
Proof.
  unfold Level.batch_write.
  induction dels as [|d rest IH]; simpl; intros db key H.
  - destruct H as [[]|H]. exact H.
  - apply IH. destruct H as [[->|H]|H].
    + right. apply find_del_same.
    + now left.
    + right. now apply find_del_absent.
Qed.

Lemma sorted_last (ks : list string) (l : string) :
  Level.sorted (ks ++ [l]) -> forall k, In k ks -> Level.key_lt k l.
Proof.
  induction ks as [|k0 rest IH]; simpl; intros Hs k Hk; [contradiction|].
  destruct Hs as [Hall Hs]. destruct Hk as [->|Hk]; auto.
  rewrite Forall_forall in Hall. apply Hall. apply in_or_app. right. now left.
Qed.

(** ** Staging the removals *)

Lemma removeStale_spec (seen : list value) (keys : list string) :
  forall batch : list Level.op,
    removeStale seen batch keys = (batch ++ map Level.Del (stale seen keys))%list.
Proof.
  induction keys as [|k rest IH]; simpl; intros batch.
  - now rewrite app_nil_r.
  - destruct (negb (set_has seen (VStr k))); simpl; auto.
    rewrite IH. unfold Level.batch_del. now rewrite <- app_assoc.
Qed.

(** C3.  When every source file has been packed, each key of the
    destination store that the run has not recorded in [seenKeys] is
    staged for deletion, behind the puts and in the same batch, and is
    gone from the store once the batch is written: a document whose file
    was removed from the sources since the previous compile disappears
    from the pack. *)
Theorem compile_removes_stale_keys :
  forall (db : Level.store) (files : list source_file)
         (transformEntry : option EntryTransformer) (st : pack_state),
    packFiles transformEntry pack_init files = Ok st ->
    let written := (batch st ++ map Level.Del (stale (seenKeys st) (Level.keys db)))%list in
    let db' := Level.batch_write db written in
    compileClassicLevel db files transformEntry
      = (Ok (Level.compactClassicLevel db'), db')
    /\ (forall key : string,
          In key (Level.keys db) ->
          set_has (seenKeys st) (VStr key) = false ->
          In (Level.Del key) written /\ Level.find db' key = None).
Proof.
  intros db files transformEntry st Hst written db'. split.
  - unfold compileClassicLevel. rewrite Hst. rewrite removeStale_spec. reflexivity.
  - intros key Hin Hseen.
    assert (In key (stale (seenKeys st) (Level.keys db))) as Hstale.
    { unfold stale. apply filter_In. split; auto. now rewrite Hseen. }
    split.
    + unfold written. apply in_or_app. right. now apply in_map.
    + unfold db', written, Level.batch_write. rewrite fold_left_app.
      apply find_after_dels. now left.
Qed.

Lemma compile_removes_stale_keys_witness :
  Level.find (snd (compileClassicLevel old_pack [keyed_hero_file] None)) "!items!p1"
  = None.
Proof.
  edestruct (compile_removes_stale_keys old_pack [keyed_hero_file] None)
    as [Hrun Hgone].
  - vm_compute. reflexivity.
  - rewrite Hrun. simpl snd. apply Hgone.
    + simpl. tauto.
    + reflexivity.
Defined.

(** C9.  Once the batch is written, [compactClassicLevel] takes the
    first key of the store from a forward iterator and the last one from a
    backward iterator, both limited to one item, and asks for the
    compaction of exactly that range: the smallest and the largest key of
    the store.  A store left without keys is not compacted.  (The keys of
    the store are composite keys, [!<collection-path>!<id-path>].) *)
Theorem compaction_spans_the_store :
  forall (db : Level.store) (files : list source_file)
         (transformEntry : option EntryTransformer)
         (request : option (string * string)) (db' : Level.store),
    Level.well_formed db ->
    compileClassicLevel db files transformEntry = (Ok request, db') ->
    Forall (fun key => compositeKey key = true) (Level.keys db') ->
    request = Level.compactClassicLevel db'
    /\ match Level.keys db' with
       | [] => request = None
       | _ :: _ =>
           exists first last : string,
             request = Some (first, last)
             /\ Level.firstKey db' = VStr first
             /\ Level.lastKey db' = VStr last
             /\ In first (Level.keys db') /\ In last (Level.keys db')
             /\ forall key, In key (Level.keys db') ->
                  Level.key_le first key /\ Level.key_le key last
       end.
Proof.
  intros db files transformEntry request db' Hwf Hrun Hne.
  unfold compileClassicLevel in Hrun.
  destruct (packFiles transformEntry pack_init files) as [st| |]; try discriminate.
  injection Hrun as <- <-.
  set (db' := Level.batch_write db _) in *.
  assert (Level.well_formed db') as Hwf' by now apply batch_write_well_formed.
  split; [reflexivity|].
  unfold Level.compactClassicLevel, Level.firstKey, Level.lastKey.
  unfold Level.well_formed in Hwf'.
  destruct (Level.keys db') as [|k rest] eqn:Hk; [reflexivity|].
  destruct (rev (k :: rest)) as [|l front] eqn:Hrev.
  { apply (f_equal (@List.length string)) in Hrev.
    rewrite length_rev in Hrev. discriminate. }
  assert (k :: rest = rev front ++ [l])%list as Hsplit.
  { rewrite <- (rev_involutive (k :: rest)), Hrev. reflexivity. }
  assert (In l (k :: rest)) as Hl.
  { rewrite Hsplit. apply in_or_app. right. now left. }
  rewrite Forall_forall in Hne.
  assert (forall key, In key (k :: rest) -> truthy (VStr key) = true) as Htruthy.
  { intros key Hkey. specialize (Hne _ Hkey). simpl.
    destruct key; [discriminate|reflexivity]. }
  assert (truthy (VStr k) = true) as Tk by (apply Htruthy; now left).
  assert (truthy (VStr l) = true) as Tl by (apply Htruthy; exact Hl).
  rewrite Tk, Tl. simpl.
  exists k, l.
  split; [reflexivity|]. split; [reflexivity|]. split; [reflexivity|].
  split; [now left|]. split; [exact Hl|].
  intros key H. split.
  - destruct H as [->|H]; [now left|]. right.
    destruct Hwf' as [Hall _]. rewrite Forall_forall in Hall. auto.
  - assert (In key (rev front ++ [l])) as H' by (rewrite <- Hsplit; exact H).
    rewrite Hsplit in Hwf'. apply in_app_or in H'. destruct H' as [H'|[->|[]]].
    + right. eapply sorted_last; eassumption.
    + now left.
Qed.

Lemma compaction_spans_the_store_witness :
  Some ("!actors!abc", "!actors.items!abc.i1")
  = Level.compactClassicLevel
      [("!actors!abc", stored_hero); ("!actors.items!abc.i1", stored_sword)].
Proof.
  refine (proj1 (compaction_spans_the_store old_pack [keyed_hero_file] None
                   (Some ("!actors!abc", "!actors.items!abc.i1"))
                   [("!actors!abc", stored_hero);
                    ("!actors.items!abc.i1", stored_sword)] _ _ _)).
  - unfold Level.well_formed. simpl. repeat split; repeat constructor.
  - vm_compute. reflexivity.
  - repeat constructor.
Defined.

(** ** Extraction *)

(** C4.  The main loop of the extraction passes over every key whose
    collection path has more than one segment without doing anything: no
    lookup, no hook, no file.  The files a run writes are those it writes
    for the other keys. *)
Theorem extract_skips_embedded_keys :
  forall (getSafeFilename : string -> string) (m : Level.miss) (db : Level.store)
         (fuel : nat) (dest : string) (options : ExtractOptions)
         (foldersMap : folders_map),
    (forall (key : string) (doc : value),
        embeddedKey key = true ->
        extractEntry getSafeFilename m db fuel dest options foldersMap (key, doc)
        = Ok None)
    /\ (forall entries : list (string * value),
          extractEntries getSafeFilename m db fuel dest options foldersMap entries
          = extractEntries getSafeFilename m db fuel dest options foldersMap
              (filter (fun entry => negb (embeddedKey (fst entry))) entries)).
Proof.
  intros getSafeFilename m db fuel dest options foldersMap.
  assert (forall key doc, embeddedKey key = true ->
            extractEntry getSafeFilename m db fuel dest options foldersMap (key, doc)
            = Ok None) as Hskip.
  { intros key doc H. unfold embeddedKey in H. unfold extractEntry.
    destruct (nth_error (split "!"%char key) 1); [|discriminate].
    now rewrite H. }
  split; [exact Hskip|].
  induction entries as [|[key doc] rest IH]; [reflexivity|].
  cbn [filter fst]. destruct (embeddedKey key) eqn:E; cbn [negb].
  - cbn [extractEntries]. rewrite (Hskip _ _ E). rewrite <- IH.
    destruct (extractEntries _ _ _ _ _ _ _ rest) as [files result]. reflexivity.
  - cbn [extractEntries]. rewrite IH. reflexivity.
Qed.

Lemma extract_skips_embedded_keys_witness :
  extractEntry asciiSafeFilename Level.classic_level_2 flat_pack 3 "out"
    plain_options [] ("!actors.items!abc.i1", stored_sword)
  = Ok None.
Proof.
  apply (proj1 (extract_skips_embedded_keys asciiSafeFilename
                  Level.classic_level_2 flat_pack 3 "out" plain_options [])).
  reflexivity.
Defined.

(** ** Paths *)

Lemma append_nonempty (a b : string) : a <> "" -> (a ++ b) <> "".
Proof. destruct a; simpl; [congruence|discriminate]. Qed.

Lemma normalize_nonempty (p : string) : Path.normalize p <> "".
Proof.
  unfold Path.normalize.
  destruct (String.eqb p ""); [discriminate|].
  destruct (String.eqb (Path.normalizeString p _) "") eqn:E.
  - destruct (Path.firstIs _ p); [discriminate|].
    destruct (Path.lastIs _ p); discriminate.
  - apply String.eqb_neq in E.
    destruct (Path.firstIs _ p); [discriminate|].
    destruct (Path.lastIs _ p); [apply append_nonempty|]; exact E.
Qed.

Lemma join_nonempty (a b : string) : Path.join a b <> "".
Proof.
  unfold Path.join.
  destruct (String.eqb a ""), (String.eqb b "");
    try apply normalize_nonempty. discriminate.
Qed.

Lemma split_without (c : ascii) (s : string) :
  includes c s = false -> split c s = [s].
Proof.
  induction s as [|a rest IH]; simpl; intros H; [reflexivity|].
  apply orb_false_iff in H. destruct H as [Ha Hrest].
  rewrite Ha, (IH Hrest). reflexivity.
Qed.

Lemma split_append (c : ascii) (a b : string) :
  includes c a = false -> split c (a ++ String c b) = a :: split c b.
Proof.
  induction a as [|x a' IH]; simpl; intros H.
  - now rewrite Ascii.eqb_refl.
  - apply orb_false_iff in H. destruct H as [Hx Ha].
    rewrite Hx, (IH Ha). reflexivity.
Qed.

Lemma firstIs_without (c : ascii) (s : string) :
  includes c s = false -> Path.firstIs c s = false.
Proof.
  destruct s; simpl; auto. intros H. apply orb_false_iff in H. tauto.
Qed.

Lemma firstIs_append (c : ascii) (a b : string) :
  a <> "" -> Path.firstIs c (a ++ b) = Path.firstIs c a.
Proof. destruct a; simpl; congruence. Qed.

Lemma lastIs_without (c : ascii) (s : string) :
  includes c s = false -> Path.lastIs c s = false.
Proof.
  induction s as [|a rest IH]; simpl; auto. intros H.
  apply orb_false_iff in H. destruct H as [Ha Hrest].
  destruct rest; auto.
Qed.

Lemma lastIs_append (c : ascii) (a b : string) :
  b <> "" -> Path.lastIs c (a ++ b) = Path.lastIs c b.
Proof.
  intros Hb. induction a as [|x a' IH]; simpl; auto.
  rewrite IH. destruct (a' ++ b) eqn:E; auto.
  exfalso. destruct a'; simpl in E; [congruence|discriminate].
Qed.

Lemma plainSegment_spec (s : string) :
  plainSegment s = true ->
  String.eqb s "" = false /\ includes "/"%char s = false
  /\ Path.is_dot s = false /\ Path.is_dotdot s = false.
Proof.
  unfold plainSegment. intros H.
  repeat (apply andb_prop in H; destruct H as [H ?]).
  repeat split; apply negb_true_iff; assumption.
Qed.

Lemma normalizeSegments_plain (allow : bool) (segs : list string) :
  forall res : list string,
    Forall (fun s => plainSegment s = true) segs ->
    Path.normalizeSegments allow res segs = (rev res ++ segs)%list.
Proof.
  induction segs as [|seg rest IH]; simpl; intros res H.
  - now rewrite app_nil_r.
  - inversion H as [|? ? Hseg Hrest]; subst.
    destruct (plainSegment_spec _ Hseg) as (E & _ & D & DD).
    rewrite E, D, DD. simpl. rewrite IH by assumption.
    simpl. now rewrite <- app_assoc.
Qed.

Lemma joinWith_cons (sep s : string) (rest : list string) :
  rest <> [] -> joinWith sep (s :: rest) = s ++ sep ++ joinWith sep rest.
Proof. destruct rest; [congruence|reflexivity]. Qed.

Lemma joinWith_plain_nonempty (segs : list string) :
  segs <> [] -> Forall (fun s => plainSegment s = true) segs ->
  joinWith "/" segs <> "".
Proof.
  destruct segs as [|s rest]; [congruence|]. intros _ H.
  inversion H as [|? ? Hs _]; subst.
  destruct (plainSegment_spec _ Hs) as (E & _). apply String.eqb_neq in E.
  destruct rest; [exact E|]. rewrite joinWith_cons by discriminate.
  now apply append_nonempty.
Qed.

Lemma split_joinWith_plain (segs : list string) :
  segs <> [] -> Forall (fun s => plainSegment s = true) segs ->
  split "/"%char (joinWith "/" segs) = segs.
Proof.
  induction segs as [|s rest IH]; [congruence|]. intros _ H.
  inversion H as [|? ? Hs Hrest]; subst.
  destruct (plainSegment_spec _ Hs) as (_ & I & _).
  destruct rest as [|s' rest'].
  - simpl. now apply split_without.
  - rewrite joinWith_cons by discriminate.
    change ("/" ++ joinWith "/" (s' :: rest'))
      with (String "/"%char (joinWith "/" (s' :: rest'))).
    rewrite split_append by assumption. f_equal. apply IH; [discriminate|assumption].
Qed.

Lemma lastIs_joinWith_plain (segs : list string) :
  segs <> [] -> Forall (fun s => plainSegment s = true) segs ->
  Path.lastIs "/"%char (joinWith "/" segs) = false.
Proof.
  induction segs as [|s rest IH]; [congruence|]. intros _ H.
  inversion H as [|? ? Hs Hrest]; subst.
  destruct (plainSegment_spec _ Hs) as (_ & I & _).
  destruct rest as [|s' rest'].
  - simpl. now apply lastIs_without.
  - rewrite joinWith_cons by discriminate.
    rewrite lastIs_append.
    + rewrite lastIs_append; [apply IH; [discriminate|assumption]|].
      apply joinWith_plain_nonempty; [discriminate|assumption].
    + discriminate.
Qed.

Lemma normalize_plain (segs : list string) :
  segs <> [] -> Forall (fun s => plainSegment s = true) segs ->
  Path.normalize (joinWith "/" segs) = joinWith "/" segs.
Proof.
  intros Hne H. unfold Path.normalize.
  pose proof (joinWith_plain_nonempty _ Hne H) as Hj.
  apply String.eqb_neq in Hj. rewrite Hj.
  unfold Path.normalizeString.
  rewrite split_joinWith_plain, normalizeSegments_plain by assumption.
  simpl rev. simpl app. rewrite Hj.
  rewrite lastIs_joinWith_plain by assumption.
  destruct segs as [|s rest]; [congruence|].
  inversion H as [|? ? Hs _]; subst.
  destruct (plainSegment_spec _ Hs) as (E & I & _). apply String.eqb_neq in E.
  assert (Path.firstIs "/"%char (joinWith "/" (s :: rest)) = false) as Hf.
  { destruct rest.
    - simpl. now apply firstIs_without.
    - rewrite joinWith_cons by discriminate.
      rewrite firstIs_append by assumption. now apply firstIs_without. }
  now rewrite Hf.
Qed.

(** [path.join] of plain segments strings them together with ["/"]. *)
Lemma join_plain (a : string) (segs : list string) :
  plainSegment a = true -> segs <> [] ->
  Forall (fun s => plainSegment s = true) segs ->
  Path.join a (joinWith "/" segs) = joinWith "/" (a :: segs).
Proof.
  intros Ha Hne H. unfold Path.join.
  destruct (plainSegment_spec _ Ha) as (E & _). rewrite E.
  pose proof (joinWith_plain_nonempty _ Hne H) as Hj.
  apply String.eqb_neq in Hj. rewrite Hj.
  rewrite <- joinWith_cons by assumption.
  apply normalize_plain; [discriminate|]. now constructor.
Qed.

(** ** The folder index *)

Lemma climb_nonempty (fuel : nat) (foldersMap : folders_map) :
  forall (parent : option folder_entry) (p0 p : string),
    climb fuel foldersMap parent p0 = Ok p -> p0 <> "" -> p <> "".
Proof.
  induction fuel as [|fuel IH]; intros parent p0 p H Hp0.
  - destruct parent; simpl in H; [discriminate|]. congruence.
  - destruct parent as [parent|]; simpl in H; [|congruence].
    eapply IH; [exact H|]. apply join_nonempty.
Qed.

Lemma assignPaths_get (fuel : nat) (foldersMap : folders_map) :
  forall (todo out : folders_map),
    assignPaths fuel foldersMap todo = Ok out ->
    forall id : value,
      match map_get todo id with
      | Some e =>
          exists p, folderPath fuel foldersMap e = Ok p
                    /\ map_get out id = Some (FolderEntry (name e) (folder e) (Some p))
      | None => map_get out id = None
      end.
Proof.
  induction todo as [|[k e] rest IH]; simpl; intros out H id.
  - injection H as <-. reflexivity.
  - inv_bind H. inv_bind H. injection H as <-.
    simpl. destruct (sameValueZero k id).
    + eauto.
    + apply IH. assumption.
Qed.

Lemma index_entry (fuel : nat) (raw idx : folders_map) (id : value) (e' : folder_entry) :
  assignPaths fuel raw raw = Ok idx ->
  map_get idx id = Some e' ->
  exists e p,
    map_get raw id = Some e /\ name e' = name e /\ folder e' = folder e
    /\ path e' = Some p /\ folderPath fuel raw e = Ok p.
Proof.
  intros H Hget. pose proof (assignPaths_get _ _ _ _ H id) as Hid.
  destruct (map_get raw id) as [e|]; [|congruence].
  destruct Hid as (p & Hp & Hout). rewrite Hout in Hget. injection Hget as <-.
  exists e, p. auto.
Qed.

Lemma index_miss (fuel : nat) (raw idx : folders_map) (id : value) :
  assignPaths fuel raw raw = Ok idx ->
  map_get idx id = None -> map_get raw id = None.
Proof.
  intros H Hget. pose proof (assignPaths_get _ _ _ _ H id) as Hid.
  destruct (map_get raw id) as [e|]; [|reflexivity].
  destruct Hid as (p & _ & Hout). congruence.
Qed.

Lemma map_get_set (m : folders_map) (id id' : value) (e e' : folder_entry) :
  map_get (map_set m id e) id' = Some e' -> e' = e \/ map_get m id' = Some e'.
Proof.
  induction m as [|[k old] rest IH]; simpl.
  - destruct (sameValueZero id id'); [|discriminate]. intros H. left. congruence.
  - destruct (sameValueZero k id) eqn:E; simpl.
    + destruct (sameValueZero k id'); auto. intros H. left. congruence.
    + destruct (sameValueZero k id'); auto.
Qed.

Section FolderNames.

Variable getSafeFilename : string -> string.

Lemma addFolder_names hook (m m' : folders_map) (entry : string * value) :
  addFolder getSafeFilename hook m entry = Ok m' ->
  (forall id e, map_get m id = Some e -> name e <> "") ->
  forall id e, map_get m' id = Some e -> name e <> "".
Proof.
  destruct entry as [key doc]. unfold addFolder. intros H Hm id e Hget.
  destruct (startsWith key "!folders") eqn:Hpre; simpl in H.
  2:{ injection H as <-. eauto. }
  inv_bind H as hooked Hhook. inv_bind H as nm Hname.
  inv_bind H as docId Hid. inv_bind H as parent Hparent. injection H as <-.
  apply map_get_set in Hget. destruct Hget as [->|Hget]; [|eauto].
  simpl. destruct hooked as [hooked|].
  - injection Hname as <-.
    unfold callTransformName in Hhook. destruct hook as [hook|]; [|discriminate].
    destruct (hook doc None) as [|[n|]]; try discriminate.
    injection Hhook as Hhook. destruct (String.eqb n "") eqn:E; [discriminate|].
    injection Hhook as <-. now apply String.eqb_neq.
  - inv_bind Hname as docId' Hid'. unfold safeNameOr in Hname.
    inv_bind Hname as docName HdocName.
    destruct (truthy docName) eqn:T.
    + destruct docName; simpl in Hname; try discriminate. injection Hname as <-.
      destruct (getSafeFilename s); discriminate.
    + injection Hname as <-. intros ->. discriminate.
Qed.

Lemma addFolders_names hook (entries : list (string * value)) :
  forall m m' : folders_map,
    addFolders getSafeFilename hook m entries = Ok m' ->
    (forall id e, map_get m id = Some e -> name e <> "") ->
    forall id e, map_get m' id = Some e -> name e <> "".
Proof.
  induction entries as [|entry rest IH]; simpl; intros m m' H Hm.
  - injection H as <-. exact Hm.
  - inv_bind H. eapply IH; [exact H|]. eapply addFolder_names; eassumption.
Qed.

(** The index, as the second loop leaves it. *)
Lemma buildFolders_inv fuel db options idx :
  buildFolders getSafeFilename fuel db options = Ok idx ->
  exists raw,
    assignPaths fuel raw raw = Ok idx
    /\ forall id e, map_get raw id = Some e -> name e <> "".
Proof.
  unfold buildFolders. destruct (folders options).
  - intros H. inv_bind H. exists x. split; [assumption|].
    eapply addFolders_names; [eassumption|]. intros ? ? H0. discriminate.
  - intros H. injection H as <-. exists []. split; [reflexivity|].
    intros ? ? H0. discriminate.
Qed.

End FolderNames.

(* ------------------------------------------------------------------ *)
(** ** The folder index is produced *)

Lemma climb_returns (foldersMap : folders_map) (fuel : nat) :
  forall (parent : option folder_entry) (p : string),
    match parent with
    | Some e => ancestor foldersMap fuel e = None
    | None => True
    end ->
    exists r : string, climb fuel foldersMap parent p = Ok r.
Proof.
  induction fuel as [|fuel IH]; intros [parent|] p H; simpl in *;
    try discriminate; eauto.
  apply IH. destruct (map_get foldersMap (folder parent)); [exact H|exact I].
Qed.

Lemma folderPath_returns (foldersMap : folders_map) (fuel : nat)
      (folder_ : folder_entry) :
  ancestor foldersMap (Datatypes.S fuel) folder_ = None ->
  exists r : string, folderPath fuel foldersMap folder_ = Ok r.
Proof.
  intros H. unfold folderPath. apply climb_returns.
  simpl in H. destruct (map_get foldersMap (folder folder_)); [exact H|exact I].
Qed.

Lemma assignPaths_returns (foldersMap : folders_map) (fuel : nat) :
  forall todo : folders_map,
    (forall entry, In entry todo ->
                   ancestor foldersMap (Datatypes.S fuel) (snd entry) = None) ->
    exists idx : folders_map, assignPaths fuel foldersMap todo = Ok idx.
Proof.
  induction todo as [|[id e] rest IH]; intros H; simpl; [eauto|].
  destruct (folderPath_returns foldersMap fuel e) as (p & ->).
  { exact (H (id, e) (or_introl eq_refl)). }
  destruct IH as (idx & ->); [intros entry Hin; apply H; now right|].
  simpl. eauto.
Qed.

(** The index is built whenever the first loop has ended and no chain of
    parents is longer than the budget of the second. *)
Lemma buildFolders_returns (getSafeFilename : string -> string) (fuel : nat)
      (db : Level.store) (options : ExtractOptions) (raw : folders_map) :
  folders options = true ->
  addFolders getSafeFilename (transformFolderName options) [] db = Ok raw ->
  endsWithin raw fuel = true ->
  exists idx : folders_map,
    buildFolders getSafeFilename fuel db options = Ok idx.
Proof.
  intros Hon Hraw Hends. unfold buildFolders. rewrite Hon, Hraw. simpl.
  apply assignPaths_returns. intros entry Hin.
  unfold endsWithin in Hends. rewrite forallb_forall in Hends.
  specialize (Hends entry Hin).
  destruct (ancestor raw (Datatypes.S fuel) (snd entry)); [discriminate|reflexivity].
Qed.

Lemma assignPaths_keys (foldersMap : folders_map) (fuel : nat) :
  forall todo idx : folders_map,
    assignPaths fuel foldersMap todo = Ok idx -> map fst idx = map fst todo.
Proof.
  induction todo as [|[id e] rest IH]; simpl; intros idx H.
  - injection H as <-. reflexivity.
  - inv_bind H. inv_bind H. injection H as <-. simpl. f_equal. now apply IH.
Qed.

Lemma climb_ended (foldersMap : folders_map) (fuel : nat) :
  forall (parent : option folder_entry) (p r : string),
    climb fuel foldersMap parent p = Ok r ->
    match parent with
    | Some e => ancestor foldersMap fuel e = None
    | None => True
    end.
Proof.
  induction fuel as [|fuel IH]; intros [parent|] p r H; simpl in *;
    try discriminate; auto.
  apply IH in H. destruct (map_get foldersMap (folder parent)); auto.
Qed.

Lemma assignPaths_ended (foldersMap : folders_map) (fuel : nat) :
  forall todo idx : folders_map,
    assignPaths fuel foldersMap todo = Ok idx ->
    forall entry, In entry todo ->
                  ancestor foldersMap (Datatypes.S fuel) (snd entry) = None.
Proof.
  induction todo as [|[id e] rest IH]; intros idx H entry Hin; [contradiction|].
  cbn [assignPaths] in H. inv_bind H as p Hp. inv_bind H as rest' Hrest.
  destruct Hin as [<-|Hin]; [|exact (IH _ Hrest _ Hin)].
  unfold folderPath in Hp. apply climb_ended in Hp. simpl.
  destruct (map_get foldersMap (folder e)); auto.
Qed.

Lemma buildFolders_ended (getSafeFilename : string -> string) (fuel : nat)
      (db : Level.store) (options : ExtractOptions) (raw idx : folders_map) :
  folders options = true ->
  addFolders getSafeFilename (transformFolderName options) [] db = Ok raw ->
  buildFolders getSafeFilename fuel db options = Ok idx ->
  endsWithin raw fuel = true.
Proof.
  intros Hon Hraw Hidx. unfold buildFolders in Hidx.
  rewrite Hon, Hraw in Hidx. cbn [bind] in Hidx.
  unfold endsWithin. apply forallb_forall. intros entry Hin.
  now rewrite (assignPaths_ended _ _ _ _ Hidx entry Hin).
Qed.

Lemma get_returns (doc : value) (nm : string) :
  nullish doc = false -> Js.get doc nm = Ok (heldBy doc nm).
Proof.
  unfold heldBy. destruct doc; try discriminate; intros _; try reflexivity.
  simpl. now destruct (lookup fields nm).
Qed.

(** The first loop ends on records it can take in. *)
Lemma addFolders_returns (getSafeFilename : string -> string)
      (hook : option NameTransformer) (db : list (string * value)) :
  forall foldersMap : folders_map,
    forallb (namedFolder hook) db = true ->
    exists raw : folders_map,
      addFolders getSafeFilename hook foldersMap db = Ok raw.
Proof.
  induction db as [|[key doc] rest IH]; intros foldersMap Hall; [simpl; eauto|].
  cbn [forallb] in Hall. apply andb_prop in Hall. destruct Hall as [Hentry Hall].
  cbn [addFolders]. unfold addFolder, namedFolder in *. cbn [fst snd] in Hentry.
  destruct (startsWith key "!folders"); cbn [negb orb] in *.
  2:{ cbn [bind]. now apply IH. }
  apply andb_prop in Hentry. destruct Hentry as [Hdoc Hname].
  apply negb_true_iff in Hdoc.
  destruct (callTransformName hook doc None) as [[given|]| |];
    try discriminate; cbn [bind]; rewrite !(get_returns _ _ Hdoc); cbn [bind].
  - now apply IH.
  - unfold safeNameOr. rewrite (get_returns _ _ Hdoc). cbn [bind].
    destruct (heldBy doc "name") as [| |b|n|s|elems|fs];
      cbn [truthy negb] in Hname |- *; try discriminate;
      try (apply negb_true_iff in Hname; rewrite Hname);
      cbn [bind]; try (now apply IH).
    destruct (negb (String.eqb s "")); cbn [bind]; now apply IH.
Qed.

Lemma chain_path (foldersMap : folders_map) (fuel : nat) (a b c : folder_entry) :
  map_get foldersMap (folder c) = Some b ->
  map_get foldersMap (folder b) = Some a ->
  map_get foldersMap (folder a) = None ->
  2 <= fuel ->
  folderPath fuel foldersMap c
  = Ok (Path.join (name a) (Path.join (name b) (name c))).
Proof.
  intros Hb Ha Hroot Hfuel. unfold folderPath. rewrite Hb.
  destruct fuel as [|[|fuel]]; try lia.
  cbn [climb]. rewrite Ha, Hroot. now destruct fuel.
Qed.

(** The paths of the index the second loop leaves. *)
Lemma index_paths (fuel : nat) (raw idx : folders_map) :
  assignPaths fuel raw raw = Ok idx ->
  (forall (id : value) (a b c : folder_entry),
      map_get idx id = Some c ->
      map_get idx (folder c) = Some b ->
      map_get idx (folder b) = Some a ->
      map_get idx (folder a) = None ->
      path c = Some (Path.join (name a) (Path.join (name b) (name c)))
      /\ (plainSegment (name a) = true -> plainSegment (name b) = true ->
          plainSegment (name c) = true ->
          path c = Some (name a ++ "/" ++ name b ++ "/" ++ name c)))
  /\ (forall (id : value) (f : folder_entry),
        map_get idx id = Some f ->
        map_get idx (folder f) = None ->
        path f = Some (name f)).
Proof.
  intros Hassign. split.
  - intros id a b c Hc Hb Ha Hroot.
    destruct (index_entry _ _ _ _ _ Hassign Hc) as (c0 & p & _ & Nc & Fc & Pc & Hp).
    destruct (index_entry _ _ _ _ _ Hassign Hb) as (b0 & pb & Hb0 & Nb & Fb & _ & _).
    destruct (index_entry _ _ _ _ _ Hassign Ha) as (a0 & pa & Ha0 & Na & Fa & _ & _).
    pose proof (index_miss _ _ _ _ Hassign Hroot) as Hroot0.
    rewrite Fc in Hb0. rewrite Fb in Ha0. rewrite Fa in Hroot0.
    assert (p = Path.join (name a) (Path.join (name b) (name c))) as ->.
    { unfold folderPath in Hp. rewrite Hb0 in Hp.
      destruct fuel as [|fuel]; [discriminate|]. simpl in Hp. rewrite Ha0 in Hp.
      destruct fuel as [|fuel]; [discriminate|]. simpl in Hp. rewrite Hroot0 in Hp.
      destruct fuel; simpl in Hp; injection Hp as <-; congruence. }
    split; [exact Pc|].
    intros Pa Pb Pcn. rewrite Pc. f_equal.
    assert (Path.join (name b) (name c) = joinWith "/" [name b; name c]) as ->
      by (apply (join_plain (name b) [name c]); auto; discriminate).
    rewrite (join_plain (name a) [name b; name c]); auto; [discriminate].
  - intros id f Hf Hroot.
    destruct (index_entry _ _ _ _ _ Hassign Hf) as (f0 & p & _ & Nf & Ff & Pf & Hp).
    pose proof (index_miss _ _ _ _ Hassign Hroot) as Hroot0.
    rewrite Ff in Hroot0. unfold folderPath in Hp. rewrite Hroot0 in Hp.
    destruct fuel; simpl in Hp; injection Hp as <-; congruence.
Qed.

(** C7.  The folder index is built whenever the first loop has ended and
    no chain of parents is longer than the budget of the second: a path
    is then assigned to every folder of the index.  The first loop ends
    on every store whose folder records the hook does not throw on and
    whose names, where the default applies, are strings or missing.  In the index, the
    path of a folder is made of the display names of its ancestors,
    outermost first, and of its own: for a chain A -> B -> C (the parent
    of C is B, the parent of B is A, A has no parent in the index) the
    path of C is [join(A, join(B, C))], that is ["A/B/C"] when the names
    are plain segments.  A folder whose parent reference is missing from
    the index, or resolves to nothing in it, gets its own name as path.
    For such a chain the loop ends after two turns, whatever else the
    index holds; and the index is built only when no chain of parents is
    longer than the budget. *)
Theorem folder_paths_follow_the_chain :
  (forall (getSafeFilename : string -> string) (fuel : nat) (db : Level.store)
          (options : ExtractOptions) (raw : folders_map),
      folders options = true ->
      addFolders getSafeFilename (transformFolderName options) [] db = Ok raw ->
      endsWithin raw fuel = true ->
      exists idx : folders_map,
        buildFolders getSafeFilename fuel db options = Ok idx
        /\ map fst idx = map fst raw
        /\ (forall (id : value) (a b c : folder_entry),
              map_get idx id = Some c ->
              map_get idx (folder c) = Some b ->
              map_get idx (folder b) = Some a ->
              map_get idx (folder a) = None ->
              path c = Some (Path.join (name a) (Path.join (name b) (name c)))
              /\ (plainSegment (name a) = true -> plainSegment (name b) = true ->
                  plainSegment (name c) = true ->
                  path c = Some (name a ++ "/" ++ name b ++ "/" ++ name c)))
        /\ (forall (id : value) (f : folder_entry),
              map_get idx id = Some f ->
              map_get idx (folder f) = None ->
              path f = Some (name f)))
  /\ (forall (fuel : nat) (raw : folders_map) (a b c : folder_entry),
         map_get raw (folder c) = Some b ->
         map_get raw (folder b) = Some a ->
         map_get raw (folder a) = None ->
         2 <= fuel ->
         folderPath fuel raw c
         = Ok (Path.join (name a) (Path.join (name b) (name c))))
  /\ (forall (getSafeFilename : string -> string) (fuel : nat) (db : Level.store)
             (options : ExtractOptions) (idx : folders_map),
         buildFolders getSafeFilename fuel db options = Ok idx ->
         (forall (id : value) (a b c : folder_entry),
             map_get idx id = Some c ->
             map_get idx (folder c) = Some b ->
             map_get idx (folder b) = Some a ->
             map_get idx (folder a) = None ->
             path c = Some (Path.join (name a) (Path.join (name b) (name c))))
         /\ (forall (id : value) (f : folder_entry),
               map_get idx id = Some f ->
               map_get idx (folder f) = None ->
               path f = Some (name f)))
  /\ (forall (getSafeFilename : string -> string) (fuel : nat) (db : Level.store)
             (options : ExtractOptions) (raw idx : folders_map),
         folders options = true ->
         addFolders getSafeFilename (transformFolderName options) [] db = Ok raw ->
         buildFolders getSafeFilename fuel db options = Ok idx ->
         endsWithin raw fuel = true)
  /\ (forall (getSafeFilename : string -> string) (db : Level.store)
             (options : ExtractOptions),
         forallb (namedFolder (transformFolderName options)) db = true ->
         exists raw : folders_map,
           addFolders getSafeFilename (transformFolderName options) [] db = Ok raw).
Proof.
  split; [|split; [|split; [|split; [exact buildFolders_ended|]]]].
  - intros getSafeFilename fuel db options raw Hon Hraw Hends.
    destruct (buildFolders_returns _ _ _ _ _ Hon Hraw Hends) as (idx & Hidx).
    exists idx. split; [exact Hidx|].
    unfold buildFolders in Hidx. rewrite Hon, Hraw in Hidx. cbn [bind] in Hidx.
    split; [exact (assignPaths_keys _ _ _ _ Hidx)|].
    exact (index_paths _ _ _ Hidx).
  - intros fuel raw a b c. apply chain_path.
  - intros getSafeFilename fuel db options idx Hbuild.
    destruct (buildFolders_inv _ _ _ _ _ Hbuild) as (raw & Hassign & _).
    destruct (index_paths _ _ _ Hassign) as [Hchain Hroot].
    split; [|exact Hroot].
    intros id a b c Hc Hb Ha Hnone.
    exact (proj1 (Hchain id a b c Hc Hb Ha Hnone)).
  - intros getSafeFilename db options Hall.
    exact (addFolders_returns getSafeFilename _ db [] Hall).
Qed.

Lemma folder_paths_follow_the_chain_witness :
  exists idx a b c,
    buildFolders asciiSafeFilename 3 folder_pack folder_options = Ok idx
    /\ map_get idx (VStr "fA") = Some a
    /\ map_get idx (VStr "fB") = Some b
    /\ map_get idx (VStr "fC") = Some c
    /\ name a = "A_fA" /\ name b = "B_fB" /\ name c = "C_fC"
    /\ path c = Some "A_fA/B_fB/C_fC"
    /\ path a = Some "A_fA".
Proof.
  destruct (proj1 folder_paths_follow_the_chain asciiSafeFilename 3 folder_pack
              folder_options
              [(VStr "fA", FolderEntry "A_fA" VNull None);
               (VStr "fB", FolderEntry "B_fB" (VStr "fA") None);
               (VStr "fC", FolderEntry "C_fC" (VStr "fB") None)]
              eq_refl eq_refl eq_refl) as (idx & Hidx & _ & Hchain & Hroot).
  assert (idx = [(VStr "fA", FolderEntry "A_fA" VNull (Some "A_fA"));
                 (VStr "fB", FolderEntry "B_fB" (VStr "fA") (Some "A_fA/B_fB"));
                 (VStr "fC", FolderEntry "C_fC" (VStr "fB") (Some "A_fA/B_fB/C_fC"))])
    as Hshape.
  { vm_compute in Hidx. injection Hidx as <-. reflexivity. }
  destruct (Hchain (VStr "fC")
              (FolderEntry "A_fA" VNull (Some "A_fA"))
              (FolderEntry "B_fB" (VStr "fA") (Some "A_fA/B_fB"))
              (FolderEntry "C_fC" (VStr "fB") (Some "A_fA/B_fB/C_fC")))
    as [_ Hplain]; try (rewrite Hshape; reflexivity).
  exists idx, (FolderEntry "A_fA" VNull (Some "A_fA")),
    (FolderEntry "B_fB" (VStr "fA") (Some "A_fA/B_fB")),
    (FolderEntry "C_fC" (VStr "fB") (Some "A_fA/B_fB/C_fC")).
  split; [exact Hidx|].
  split; [rewrite Hshape; reflexivity|].
  split; [rewrite Hshape; reflexivity|].
  split; [rewrite Hshape; reflexivity|].
  split; [reflexivity|]. split; [reflexivity|]. split; [reflexivity|].
  split; [exact (Hplain eq_refl eq_refl eq_refl)|].
  apply (Hroot (VStr "fA")); rewrite Hshape; reflexivity.
Defined.

(** The default name takes the folder in front of it. *)
Lemma defaultName_prefixed getSafeFilename options foldersMap key id doc p name0 :
  p <> "" ->
  defaultName getSafeFilename options foldersMap key id doc None = Ok name0 ->
  defaultName getSafeFilename options foldersMap key id doc (Some p)
  = Ok (Path.join p name0).
Proof.
  intros Hp. unfold defaultName. intros H.
  inv_bind H as n Hn. injection H as <-. rewrite Hn. simpl.
  apply String.eqb_neq in Hp. now rewrite Hp.
Qed.

(** C8, as the code has it.  When the folder index holds the folder a
    document refers to, that folder has a path there, and the name of the
    document's file is: the name [transformName] returns, as it is, when
    it returns a non-empty one (the hook is handed the folder path and
    decides what to do with it); otherwise the default name with the
    folder path joined in front of it. *)
Theorem folder_prefix_on_default_names :
  forall (getSafeFilename : string -> string) (fuel : nat) (db : Level.store)
         (options : ExtractOptions) (idx : folders_map)
         (key id : string) (doc ref : value) (folder_ : folder_entry),
    buildFolders getSafeFilename fuel db options = Ok idx ->
    Js.get doc "folder" = Ok ref ->
    map_get idx ref = Some folder_ ->
    exists p : string,
      path folder_ = Some p
      /\ (forall name : string,
            callTransformName (transformName options) doc (Some p) = Ok (Some name) ->
            entryName getSafeFilename options idx key id doc = Ok name)
      /\ (forall name0 : string,
            callTransformName (transformName options) doc (Some p) = Ok None ->
            defaultName getSafeFilename options idx key id doc None = Ok name0 ->
            entryName getSafeFilename options idx key id doc
            = Ok (Path.join p name0)).
Proof.
  intros getSafeFilename fuel db options idx key id doc ref folder_
         Hbuild Href Hget.
  destruct (buildFolders_inv _ _ _ _ _ Hbuild) as (raw & Hassign & Hnames).
  destruct (index_entry _ _ _ _ _ Hassign Hget) as (e & p & He & _ & _ & Hpath & Hp).
  assert (p <> "") as Hne.
  { unfold folderPath in Hp. eapply climb_nonempty; [exact Hp|]. eauto. }
  exists p. split; [exact Hpath|].
  unfold entryName. rewrite Href. simpl. rewrite Hget, Hpath. split.
  - intros name Hhook. now rewrite Hhook.
  - intros name0 Hhook Hdefault. rewrite Hhook. simpl.
    now apply defaultName_prefixed.
Qed.

Lemma folder_prefix_on_default_names_witness :
  entryName asciiSafeFilename folder_options
    [(VStr "fA", FolderEntry "A_fA" VNull (Some "A_fA"));
     (VStr "fB", FolderEntry "B_fB" (VStr "fA") (Some "A_fA/B_fB"));
     (VStr "fC", FolderEntry "C_fC" (VStr "fB") (Some "A_fA/B_fB/C_fC"))]
    "!actors!abc" "abc"
    (VObj [("_id", VStr "abc"); ("name", VStr "Hero"); ("folder", VStr "fC")])
  = Ok "A_fA/B_fB/C_fC/Hero_abc.json".
Proof.
  destruct (folder_prefix_on_default_names asciiSafeFilename 3 folder_pack
              folder_options _ "!actors!abc" "abc"
              (VObj [("_id", VStr "abc"); ("name", VStr "Hero");
                     ("folder", VStr "fC")])
              (VStr "fC")
              (FolderEntry "C_fC" (VStr "fB") (Some "A_fA/B_fB/C_fC"))
              eq_refl eq_refl eq_refl) as (p & Hp & _ & Hdefault).
  injection Hp as <-.
  exact (Hdefault "Hero_abc.json" eq_refl eq_refl).
Defined.

(** C8, as the specification has it, fails: with a [transformName] that
    names the actor ["abc.json"], the actor filed in folder C of the chain
    A/B/C is written to ["out/abc.json"], outside the folder's directory. *)
Lemma transformName_result_is_not_prefixed :
  (exists idx folder_,
      buildFolders asciiSafeFilename 3 folder_pack renaming_options = Ok idx
      /\ map_get idx (VStr "fC") = Some folder_
      /\ path folder_ = Some "A_fA/B_fB/C_fC")
  /\ map fst (fst (extractClassicLevel asciiSafeFilename Level.classic_level_2
                     folder_pack 3 "out" renaming_options))
     = ["out/abc.json"; "out/A_fA/_Folder.json"; "out/A_fA/B_fB/_Folder.json";
        "out/A_fA/B_fB/C_fC/_Folder.json"].
Proof.
  split.
  - do 2 eexists. split; [reflexivity|]. split; reflexivity.
  - reflexivity.
Qed.

(** ** Depth of values *)

Lemma depth_obj (fields : list (string * value)) :
  depth (VObj fields) = S (fieldsDepth fields).
Proof. reflexivity. Qed.

Lemma depth_arr (elems : list value) :
  depth (VArr elems) = S (list_max (map depth elems)).
Proof. reflexivity. Qed.

Lemma depth_lookup (fields : list (string * value)) (name : string) (v : value) :
  lookup fields name = Some v -> depth v <= fieldsDepth fields.
Proof.
  unfold fieldsDepth.
  induction fields as [|[k w] rest IH]; simpl; intros H; [discriminate|].
  destruct (String.eqb k name).
  - injection H as <-. lia.
  - specialize (IH H). lia.
Qed.

Lemma depth_fieldOf (fields : list (string * value)) (name : string) :
  depth (fieldOf fields name) <= fieldsDepth fields.
Proof.
  unfold fieldOf. destruct (lookup fields name) eqn:E.
  - eapply depth_lookup; eassumption.
  - simpl. lia.
Qed.

Lemma depth_elem (elems : list value) (e : value) :
  In e elems -> depth e <= list_max (map depth elems).
Proof.
  induction elems as [|x rest IH]; simpl; intros H; [contradiction|].
  destruct H as [->|H]; [lia|]. specialize (IH H). lia.
Qed.

Lemma depth_assign (fields : list (string * value)) (name : string) (v : value) :
  fieldsDepth (assign fields name v) <= Nat.max (fieldsDepth fields) (depth v).
Proof.
  unfold fieldsDepth.
  induction fields as [|[k w] rest IH]; simpl; [lia|].
  destruct (String.eqb k name); simpl; lia.
Qed.

Lemma depth_remove (fields : list (string * value)) (name : string) :
  fieldsDepth (remove fields name) <= fieldsDepth fields.
Proof.
  unfold fieldsDepth.
  induction fields as [|[k w] rest IH]; simpl; [lia|].
  destruct (String.eqb k name); simpl; lia.
Qed.

Lemma depth_delete (doc : value) (name : string) :
  depth (Js.delete doc name) <= depth doc.
Proof.
  destruct doc; simpl; try lia.
  pose proof (depth_remove fields name). unfold fieldsDepth in H. lia.
Qed.

Lemma depth_held (doc : value) (name : string) (v : value) :
  depth (held doc name v) <= Nat.max (depth doc) (S (depth v)).
Proof.
  destruct doc; simpl; try lia.
  pose proof (depth_assign fields name v). unfold fieldsDepth in H. lia.
Qed.

Lemma depth_get (doc : value) (name : string) (v : value) :
  Js.get doc name = Ok v -> v = VUndef \/ depth v < depth doc.
Proof.
  destruct doc; simpl; intros H; try discriminate;
    try (injection H as <-; left; reflexivity).
  destruct (lookup fields name) eqn:E; injection H as <-.
  - right. apply depth_lookup in E. unfold fieldsDepth in E. lia.
  - left. reflexivity.
Qed.

Lemma get_not_NoFuel (doc : value) (name : string) : Js.get doc name <> NoFuel.
Proof.
  destruct doc; simpl; try discriminate. destruct (lookup fields name); discriminate.
Qed.

(** ** Walks that need no more fuel than the document is deep *)

Section Tame.

Context {S : Type}.
Variable fn : visitor S.

Lemma applyEach_settles (apply : value -> S -> outcome (value * S)) (m : nat) :
  (forall d st, depth d < m -> settles (depth d) (apply d st)) ->
  forall elems st,
    (forall e, In e elems -> depth e < m) ->
    applyEach apply elems st <> NoFuel
    /\ forall elems' st',
         applyEach apply elems st = Ok (elems', st') ->
         list_max (map depth elems') <= list_max (map depth elems).
Proof.
  intros Happly. induction elems as [|e rest IH]; simpl; intros st Hb.
  - split; [discriminate|]. intros ? ? H. injection H as <- <-. simpl. lia.
  - destruct (Happly e st) as [Hnf Hd]; [auto|].
    destruct (apply e st) as [[e' st1]| |]; simpl;
      [|split; [discriminate|intros; discriminate]|congruence].
    destruct (IH st1) as [Hnf' Hd']; [auto|].
    destruct (applyEach apply rest st1) as [[rest' st2]| |]; simpl;
      [|split; [discriminate|intros; discriminate]|congruence].
    split; [discriminate|]. intros ? ? H. injection H as <- <-. simpl.
    specialize (Hd _ _ eq_refl). specialize (Hd' _ _ eq_refl). lia.
Qed.

Lemma applyField_settles (apply : value -> string -> S -> outcome (value * S))
  (m : nat) :
  (forall d name st, depth d < m -> settles (depth d) (apply d name st)) ->
  forall doc st entry,
    depth doc <= m ->
    settles (depth doc) (applyField apply doc st entry).
Proof.
  intros Happly doc st [name k] Hdoc. unfold applyField.
  destruct (Js.get doc name) as [v| |] eqn:G; simpl;
    [|split; [discriminate|intros; discriminate]|].
  2:{ now apply get_not_NoFuel in G. }
  pose proof (depth_get _ _ _ G) as Hv.
  assert (settles (depth doc)
            (if truthy v
             then '(w', st0) <- apply v name st ;; Ok (held doc name w', st0)
             else Ok (doc, st))) as Hsingle.
  { destruct (truthy v) eqn:T.
    - destruct Hv as [->|Hv]; [discriminate|].
      destruct (Happly v name st) as [Hnf Hd]; [lia|].
      destruct (apply v name st) as [[w' st1]| |]; simpl;
        [|split; [discriminate|intros; discriminate]|congruence].
      split; [discriminate|]. intros ? ? H. injection H as <- <-.
      specialize (Hd _ _ eq_refl). pose proof (depth_held doc name w'). lia.
    - split; [discriminate|]. intros ? ? H. injection H as <- <-. lia. }
  destruct k; [|destruct v; exact Hsingle].
  destruct v; try exact Hsingle.
  destruct Hv as [Hv|Hv]; [discriminate|]. rewrite depth_arr in Hv.
  destruct (applyEach_settles (fun d => apply d name) m
              (fun d st0 => Happly d name st0) elems st) as [Hnf Hd].
  { intros e He. apply depth_elem in He. lia. }
  destruct (applyEach _ elems st) as [[elems' st1]| |]; simpl;
    [|split; [discriminate|intros; discriminate]|congruence].
  split; [discriminate|]. intros ? ? H. injection H as <- <-.
  specialize (Hd _ _ eq_refl).
  pose proof (depth_held doc name (VArr elems')) as Hh.
  rewrite depth_arr in Hh. lia.
Qed.

Lemma applyFields_settles (apply : value -> string -> S -> outcome (value * S))
  (m : nat) :
  (forall d name st, depth d < m -> settles (depth d) (apply d name st)) ->
  forall entries doc st,
    depth doc <= m ->
    settles (depth doc) (applyFields apply entries doc st).
Proof.
  intros Happly. induction entries as [|entry rest IH]; simpl; intros doc st Hdoc.
  - split; [discriminate|]. intros ? ? H. injection H as <- <-. lia.
  - destruct (applyField_settles apply m Happly doc st entry Hdoc) as [Hnf Hd].
    destruct (applyField apply doc st entry) as [[doc1 st1]| |]; simpl;
      [|split; [discriminate|intros; discriminate]|congruence].
    specialize (Hd _ _ eq_refl).
    destruct (IH doc1 st1) as [Hnf' Hd']; [lia|].
    split; [exact Hnf'|]. intros ? ? H. specialize (Hd' _ _ H). lia.
Qed.

(** With a tame callback, fuel above the depth of the document is enough. *)
Lemma applyHierarchy_settles :
  tame fn ->
  forall fuel doc collection options st,
    depth doc < fuel ->
    settles (depth doc) (applyHierarchy fn fuel doc collection options st).
Proof.
  intros Htame. induction fuel as [|fuel IH]; intros doc collection options st Hd.
  - lia.
  - simpl.
    destruct (Htame doc collection
                (match options with VUndef => VObj [] | _ => options end) st)
      as [Hnf Hshrink].
    destruct (fn doc collection _ st) as [[[doc1 options1] st1]| |]; simpl;
      [|split; [discriminate|intros; discriminate]|congruence].
    specialize (Hshrink _ _ _ eq_refl).
    destruct (applyFields_settles
                (fun d name => applyHierarchy fn fuel d (Some name)
                                 (orElse options1 (VObj [])))
                fuel (fun d name st0 H => IH d (Some name) _ st0 H)
                (hierarchyOf collection) doc1 st1) as [Hnf' Hd']; [lia|].
    split; [exact Hnf'|]. intros ? ? H. specialize (Hd' _ _ H). lia.
Qed.

End Tame.

(** ** Fuel and state along a walk *)

Section Walks.

Context {S : Type}.
Variable fn : visitor S.

Lemma applyEach_agree (apply1 apply2 : value -> S -> outcome (value * S)) :
  (forall d st, apply1 d st <> NoFuel -> apply2 d st = apply1 d st) ->
  forall elems st,
    applyEach apply1 elems st <> NoFuel ->
    applyEach apply2 elems st = applyEach apply1 elems st.
Proof.
  intros Hagree. induction elems as [|e rest IH]; simpl; intros st H; auto.
  destruct (apply1 e st) as [[e' st1]| |] eqn:E1; simpl in *; try congruence.
  - rewrite Hagree, E1 by congruence. simpl.
    destruct (applyEach apply1 rest st1) as [[rest' st2]| |] eqn:E2;
      simpl in *; try congruence;
      rewrite IH, E2 by congruence; reflexivity.
  - rewrite Hagree, E1 by congruence. reflexivity.
Qed.

Lemma applyField_agree
  (apply1 apply2 : value -> string -> S -> outcome (value * S)) :
  (forall d name st, apply1 d name st <> NoFuel -> apply2 d name st = apply1 d name st) ->
  forall doc st entry,
    applyField apply1 doc st entry <> NoFuel ->
    applyField apply2 doc st entry = applyField apply1 doc st entry.
Proof.
  intros Hagree doc st [name k]. unfold applyField.
  destruct (Js.get doc name) as [v| |]; simpl; auto.
  assert ((if truthy v
           then '(w, st0) <- apply1 v name st ;; Ok (held doc name w, st0)
           else Ok (doc, st)) <> NoFuel ->
          (if truthy v
           then '(w, st0) <- apply2 v name st ;; Ok (held doc name w, st0)
           else Ok (doc, st))
          = (if truthy v
             then '(w, st0) <- apply1 v name st ;; Ok (held doc name w, st0)
             else Ok (doc, st))) as Hsingle.
  { destruct (truthy v); auto. intros H.
    rewrite Hagree; auto. intros E. rewrite E in H. now apply H. }
  destruct k; [|destruct v; exact Hsingle].
  destruct v; try exact Hsingle.
  intros H.
  rewrite (applyEach_agree (fun d => apply1 d name) (fun d => apply2 d name)); auto.
  intros E. rewrite E in H. now apply H.
Qed.

Lemma applyFields_agree
  (apply1 apply2 : value -> string -> S -> outcome (value * S)) :
  (forall d name st, apply1 d name st <> NoFuel -> apply2 d name st = apply1 d name st) ->
  forall entries doc st,
    applyFields apply1 entries doc st <> NoFuel ->
    applyFields apply2 entries doc st = applyFields apply1 entries doc st.
Proof.
  intros Hagree. induction entries as [|entry rest IH]; simpl; intros doc st H; auto.
  destruct (applyField apply1 doc st entry) as [[doc1 st1]| |] eqn:E;
    simpl in *; try congruence;
    rewrite (applyField_agree apply1 apply2 Hagree), E by congruence; simpl; auto.
Qed.

(** A walk that came back comes back the same with more fuel. *)
Lemma applyHierarchy_more_fuel (n : nat) :
  forall m doc collection options st,
    n <= m ->
    applyHierarchy fn n doc collection options st <> NoFuel ->
    applyHierarchy fn m doc collection options st
    = applyHierarchy fn n doc collection options st.
Proof.
  induction n as [|n IH]; intros m doc collection options st Hle H.
  - simpl in H. congruence.
  - destruct m as [|m]; [lia|]. simpl in *.
    destruct (fn doc collection _ st) as [[[doc1 options1] st1]| |]; simpl in *; auto.
    apply applyFields_agree; auto.
    intros d name st0 Hd. apply IH; [lia|exact Hd].
Qed.

(** A relation between states that every call of the callback respects
    holds between the start and the end of a walk. *)
Variable R : S -> S -> Prop.
Hypothesis R_refl : forall st, R st st.
Hypothesis R_trans : forall a b c, R a b -> R b c -> R a c.
Hypothesis R_fn :
  forall doc collection options st doc1 options1 st1,
    fn doc collection options st = Ok (doc1, options1, st1) -> R st st1.

Lemma applyEach_state (apply : value -> S -> outcome (value * S)) :
  (forall d st d' st', apply d st = Ok (d', st') -> R st st') ->
  forall elems st elems' st',
    applyEach apply elems st = Ok (elems', st') -> R st st'.
Proof.
  intros Happly. induction elems as [|e rest IH]; simpl; intros st elems' st' H.
  - injection H as <- <-. apply R_refl.
  - inv_bind H as r1 H1. destruct r1 as [e' st1].
    inv_bind H as r2 H2. destruct r2 as [rest' st2]. injection H as <- <-.
    eapply R_trans; [eapply Happly; eassumption|eapply IH; eassumption].
Qed.

Lemma applyField_state (apply : value -> string -> S -> outcome (value * S)) :
  (forall d name st d' st', apply d name st = Ok (d', st') -> R st st') ->
  forall doc st entry doc' st',
    applyField apply doc st entry = Ok (doc', st') -> R st st'.
Proof.
  intros Happly doc st [name k] doc' st'. unfold applyField. intros H.
  inv_bind H as v Hv.
  assert ((if truthy v
           then '(w, st0) <- apply v name st ;; Ok (held doc name w, st0)
           else Ok (doc, st)) = Ok (doc', st') -> R st st') as Hsingle.
  { destruct (truthy v); intros H'.
    - inv_bind H' as r Hr. destruct r as [w st0]. injection H' as <- <-.
      eapply Happly; eassumption.
    - injection H' as <- <-. apply R_refl. }
  destruct k; [|destruct v; auto].
  destruct v; auto.
  inv_bind H as r Hr. destruct r as [elems' st0]. injection H as <- <-.
  eapply (applyEach_state (fun d => apply d name)); [|eassumption].
  intros; eapply Happly; eassumption.
Qed.

Lemma applyFields_state (apply : value -> string -> S -> outcome (value * S)) :
  (forall d name st d' st', apply d name st = Ok (d', st') -> R st st') ->
  forall entries doc st doc' st',
    applyFields apply entries doc st = Ok (doc', st') -> R st st'.
Proof.
  intros Happly. induction entries as [|entry rest IH]; simpl;
    intros doc st doc' st' H.
  - injection H as <- <-. apply R_refl.
  - inv_bind H as r Hr. destruct r as [doc1 st1].
    eapply R_trans; [eapply applyField_state; eassumption|eapply IH; eassumption].
Qed.

Lemma applyHierarchy_state (fuel : nat) :
  forall doc collection options st doc' st',
    applyHierarchy fn fuel doc collection options st = Ok (doc', st') -> R st st'.
Proof.
  induction fuel as [|fuel IH]; simpl; intros doc collection options st doc' st' H;
    [discriminate|].
  inv_bind H as r Hr. destruct r as [[doc1 options1] st1].
  eapply R_trans; [eapply R_fn; eassumption|].
  refine (applyFields_state _ _ _ _ _ _ _ H).
  intros; eapply IH; eassumption.
Qed.

End Walks.

(** ** Compiling *)

Lemma mapEach_not_NoFuel (fn : value -> outcome value) (elems : list value) :
  (forall v, fn v <> NoFuel) -> mapEach fn elems <> NoFuel.
Proof.
  intros Hfn. induction elems as [|e rest IH]; simpl; [discriminate|].
  apply bind_not_NoFuel; auto. intros v _.
  apply bind_not_NoFuel; auto. discriminate.
Qed.

Lemma set_not_NoFuel (doc : value) (name : string) (v : value) :
  Js.set doc name v <> NoFuel.
Proof. destruct doc; simpl; discriminate. Qed.

Lemma mapFields_not_NoFuel (fn : value -> string -> outcome value)
  (entries : list (string * kind)) :
  (forall v name, fn v name <> NoFuel) ->
  forall doc, mapFields fn entries doc <> NoFuel.
Proof.
  intros Hfn. induction entries as [|[name k] rest IH]; simpl; intros doc;
    [discriminate|].
  apply bind_not_NoFuel; [|intros; apply IH].
  unfold mapField. apply bind_not_NoFuel; [apply get_not_NoFuel|].
  intros v _. destruct k.
  - destruct v; try apply set_not_NoFuel.
    apply bind_not_NoFuel; [apply mapEach_not_NoFuel; auto|].
    intros; apply set_not_NoFuel.
  - destruct (truthy v); [|apply set_not_NoFuel].
    apply bind_not_NoFuel; auto. intros; apply set_not_NoFuel.
Qed.

Lemma packVisitor_tame : tame packVisitor.
Proof.
  intros doc collection options st. unfold packVisitor. split.
  - apply bind_not_NoFuel; [apply get_not_NoFuel|]. intros key _.
    destruct (set_has (seenKeys st) key); [discriminate|].
    apply bind_not_NoFuel.
    + apply mapFields_not_NoFuel. intros; apply get_not_NoFuel.
    + intros v _. apply bind_not_NoFuel; [|discriminate].
      unfold Level.batch_put. destruct (nullish key); [discriminate|].
      destruct (nullish v); discriminate.
  - intros doc1 options1 st1 H. inv_bind H as key Hkey.
    destruct (set_has (seenKeys st) key); [discriminate|].
    inv_bind H as v Hv. inv_bind H as b Hb. injection H as <- _ _.
    apply depth_delete.
Qed.

(** [packDoc] always comes back, and more fuel than it takes changes
    nothing. *)
Lemma packDoc_fuel (doc : value) (collection : option string) (st : pack_state) :
  packDoc doc collection st <> NoFuel
  /\ forall fuel, depth doc < fuel ->
       applyHierarchy packVisitor fuel doc collection VUndef st
       = packDoc doc collection st.
Proof.
  assert (packDoc doc collection st <> NoFuel) as H.
  { unfold packDoc. apply (applyHierarchy_settles packVisitor packVisitor_tame). lia. }
  split; [exact H|]. intros fuel Hfuel. unfold packDoc.
  apply applyHierarchy_more_fuel; [lia|exact H].
Qed.

Lemma packFile_not_NoFuel transformEntry st file :
  packFile transformEntry st file <> NoFuel.
Proof.
  unfold packFile. destruct (file_doc file) as [doc|]; [|discriminate].
  apply bind_not_NoFuel.
  - unfold collectionOf. apply bind_not_NoFuel; [apply get_not_NoFuel|].
    intros key _. destruct key; discriminate.
  - intros collection _. apply bind_not_NoFuel.
    + unfold callTransformEntry. destruct transformEntry as [hook|]; [|discriminate].
      destruct (hook doc) as [|r d]; [discriminate|].
      destruct r as [| |[|]| | | |]; discriminate.
    + intros [kept|] _; [|discriminate].
      apply bind_not_NoFuel; [apply packDoc_fuel|]. intros [d s] _. discriminate.
Qed.

Lemma packFiles_not_NoFuel transformEntry files :
  forall st, packFiles transformEntry st files <> NoFuel.
Proof.
  induction files as [|file rest IH]; simpl; intros st; [discriminate|].
  apply bind_not_NoFuel; [apply packFile_not_NoFuel|]. intros; apply IH.
Qed.

Lemma packFiles_app transformEntry (front back : list source_file) :
  forall st,
    packFiles transformEntry st (front ++ back)
    = (st' <- packFiles transformEntry st front ;; packFiles transformEntry st' back).
Proof.
  induction front as [|file rest IH]; simpl; intros st; [reflexivity|].
  destruct (packFile transformEntry st file); simpl; auto.
Qed.

Lemma seenMore_refl (st : pack_state) : seenMore st st.
Proof. intros v H. exact H. Qed.

Lemma seenMore_trans (a b c : pack_state) :
  seenMore a b -> seenMore b c -> seenMore a c.
Proof. intros Hab Hbc v H. auto. Qed.

Lemma packVisitor_seen doc collection options st doc1 options1 st1 :
  packVisitor doc collection options st = Ok (doc1, options1, st1) ->
  exists key,
    Js.get doc "_key" = Ok key /\ seenKeys st1 = key :: seenKeys st.
Proof.
  unfold packVisitor. intros H. inv_bind H as key Hkey.
  destruct (set_has (seenKeys st) key); [discriminate|].
  inv_bind H as v Hv. inv_bind H as b Hb. injection H as _ _ <-.
  exists key. auto.
Qed.

Lemma packVisitor_seenMore doc collection options st doc1 options1 st1 :
  packVisitor doc collection options st = Ok (doc1, options1, st1) ->
  seenMore st st1.
Proof.
  intros H. apply packVisitor_seen in H. destruct H as (key & _ & Hseen).
  intros v Hv. rewrite Hseen. unfold set_has in *. simpl. rewrite Hv.
  apply orb_true_r.
Qed.

Lemma packDoc_seen doc collection st doc' st' key :
  Js.get doc "_key" = Ok (VStr key) ->
  packDoc doc collection st = Ok (doc', st') ->
  seenMore st st' /\ set_has (seenKeys st') (VStr key) = true.
Proof.
  intros Hkey H. split.
  - eapply (applyHierarchy_state packVisitor seenMore seenMore_refl seenMore_trans
              packVisitor_seenMore); exact H.
  - unfold packDoc in H. simpl in H.
    inv_bind H as r Hr. destruct r as [[doc1 options1] st1].
    pose proof (packVisitor_seen _ _ _ _ _ _ _ Hr) as (k & Hk & Hseen).
    rewrite Hkey in Hk. injection Hk as <-.
    assert (seenMore st1 st') as Hmore.
    { refine (applyFields_state seenMore seenMore_refl seenMore_trans
                _ _ _ _ _ _ _ H).
      intros d name s d' s' Hd.
      eapply (applyHierarchy_state packVisitor seenMore seenMore_refl seenMore_trans
                packVisitor_seenMore); exact Hd. }
    apply Hmore. rewrite Hseen. unfold set_has. simpl.
    now rewrite String.eqb_refl.
Qed.

Lemma packDoc_duplicate doc collection st key :
  Js.get doc "_key" = Ok (VStr key) ->
  set_has (seenKeys st) (VStr key) = true ->
  packDoc doc collection st = Throw (DuplicateKey key).
Proof.
  intros Hkey Hseen. unfold packDoc. simpl. unfold packVisitor at 1.
  rewrite Hkey. simpl. rewrite Hseen. reflexivity.
Qed.

Lemma resolvedKey_inv transformEntry file key :
  resolvedKey transformEntry file = Some key ->
  exists doc collection doc',
    file_doc file = Some doc
    /\ collectionOf doc = Ok collection
    /\ callTransformEntry transformEntry doc = Ok (Some doc')
    /\ Js.get doc' "_key" = Ok (VStr key).
Proof.
  unfold resolvedKey. destruct (file_doc file) as [doc|]; [|discriminate].
  destruct (collectionOf doc) as [collection| |] eqn:C; try discriminate.
  destruct (callTransformEntry transformEntry doc) as [[doc'|]| |] eqn:T;
    try discriminate.
  destruct (Js.get doc' "_key") as [[]| |] eqn:G; try discriminate.
  intros H. injection H as <-. exists doc, collection, doc'.
  repeat split; assumption.
Qed.

Lemma packFile_seenMore transformEntry st file st' :
  packFile transformEntry st file = Ok st' -> seenMore st st'.
Proof.
  unfold packFile. destruct (file_doc file) as [doc|]; [|discriminate].
  intros H. inv_bind H as collection Hc. inv_bind H as kept Hk.
  destruct kept as [doc'|].
  - inv_bind H as r Hr. destruct r as [d s]. injection H as <-.
    eapply (applyHierarchy_state packVisitor seenMore seenMore_refl seenMore_trans
              packVisitor_seenMore); exact Hr.
  - injection H as <-. apply seenMore_refl.
Qed.

Lemma packFiles_seenMore transformEntry files :
  forall st st', packFiles transformEntry st files = Ok st' -> seenMore st st'.
Proof.
  induction files as [|file rest IH]; simpl; intros st st' H.
  - injection H as <-. apply seenMore_refl.
  - inv_bind H as st1 H1.
    eapply seenMore_trans; [eapply packFile_seenMore; eassumption|eauto].
Qed.

Lemma packFile_resolved transformEntry st file key :
  resolvedKey transformEntry file = Some key ->
  (forall st', packFile transformEntry st file = Ok st' ->
               set_has (seenKeys st') (VStr key) = true)
  /\ (set_has (seenKeys st) (VStr key) = true ->
      packFile transformEntry st file = Throw (DuplicateKey key)).
Proof.
  intros Hres. apply resolvedKey_inv in Hres.
  destruct Hres as (doc & collection & doc' & Hdoc & Hc & Hk & Hkey).
  unfold packFile. rewrite Hdoc, Hc, Hk. simpl. split.
  - intros st' H. inv_bind H as r Hr. destruct r as [d s]. injection H as <-.
    eapply packDoc_seen; eassumption.
  - intros Hseen. now rewrite (packDoc_duplicate _ _ _ _ Hkey Hseen).
Qed.

(** C1.  When two source files of a run resolve to the same composite
    key, the run fails and the store is as it was: nothing is written
    before every file has been packed.  The error is the one that names
    the duplicate key, unless a file before the second of the two has
    already made the run fail. *)
Theorem duplicate_key_aborts_the_run :
  forall (db : Level.store) (transformEntry : option EntryTransformer)
         (before : list source_file) (first : source_file)
         (between : list source_file) (second : source_file)
         (after : list source_file) (key : string),
    resolvedKey transformEntry first = Some key ->
    resolvedKey transformEntry second = Some key ->
    let files := (before ++ first :: between ++ second :: after)%list in
    (exists e, compileClassicLevel db files transformEntry = (Throw e, db))
    /\ (forall st,
          packFiles transformEntry pack_init (before ++ first :: between) = Ok st ->
          compileClassicLevel db files transformEntry
          = (Throw (DuplicateKey key), db)).
Proof.
  intros db transformEntry before first between second after key H1 H2 files.
  assert (files = ((before ++ first :: between) ++ second :: after)%list) as Hfiles.
  { unfold files. rewrite <- app_assoc. reflexivity. }
  assert (forall st,
            packFiles transformEntry pack_init (before ++ first :: between) = Ok st ->
            compileClassicLevel db files transformEntry
            = (Throw (DuplicateKey key), db)) as Hdup.
  { intros st Hst. unfold compileClassicLevel.
    rewrite Hfiles, packFiles_app, Hst. simpl.
    rewrite packFiles_app in Hst. inv_bind Hst as st0 H0. simpl in Hst.
    inv_bind Hst as st1 Hfirst.
    assert (set_has (seenKeys st) (VStr key) = true) as Hseen.
    { eapply packFiles_seenMore; [exact Hst|].
      eapply (proj1 (packFile_resolved _ _ _ _ H1)); exact Hfirst. }
    rewrite (proj2 (packFile_resolved transformEntry st second key H2) Hseen).
    reflexivity. }
  split; [|exact Hdup].
  destruct (packFiles transformEntry pack_init (before ++ first :: between))
    as [st|e|] eqn:E.
  - eexists. eapply Hdup. reflexivity.
  - exists e. unfold compileClassicLevel. rewrite Hfiles, packFiles_app, E.
    reflexivity.
  - now apply packFiles_not_NoFuel in E.
Qed.

Lemma duplicate_key_aborts_the_run_witness :
  compileClassicLevel old_pack [keyed_hero_file; keyed_hero_file] None
  = (Throw (DuplicateKey "!actors!abc"), old_pack).
Proof.
  refine (proj2 (duplicate_key_aborts_the_run old_pack None []
                   keyed_hero_file [] keyed_hero_file [] "!actors!abc"
                   eq_refl eq_refl) _ _).
  vm_compute. reflexivity.
Defined.

(** C2, as the specification has it, fails.  The value staged under
    ["!actors!abc"] holds the item by its id, not inline; the item is
    visited in turn, and as the item of this file has no [_key] its put is
    refused, so that the run fails and leaves the store empty. *)
Lemma embedded_item_is_not_inlined :
  packVisitor hero (Some "actors") (VObj []) pack_init
  = Ok (VObj hero_fields, VUndef,
        PackState [VStr "!actors!abc"] [Level.Put "!actors!abc" stored_hero])
  /\ Js.get stored_hero "items" = Ok (VArr [VStr "i1"])
  /\ compileClassicLevel [] [hero_file] None = (Throw InvalidKey, []).
Proof. repeat split; reflexivity. Qed.

(** ** The walk *)

Section Preorder.

Context {S : Type}.
Variable apply : value -> string -> S -> outcome (value * S).

Lemma visitEach_app (front back : list (string * value)) :
  forall st,
    visitEach (visitWith apply) (front ++ back) st
    = (st' <- visitEach (visitWith apply) front st ;; visitEach (visitWith apply) back st').
Proof.
  induction front as [|[name node] rest IH]; simpl; intros st; [reflexivity|].
  destruct (visitWith apply name node st); simpl; auto.
Qed.

Lemma applyEach_visits (name : string) (elems : list value) :
  forall st,
    stateOf (applyEach (fun d => apply d name) elems st)
    = visitEach (visitWith apply) (map (pair name) elems) st.
Proof.
  induction elems as [|e rest IH]; simpl; intros st; [reflexivity|].
  unfold visitWith at 1. unfold stateOf at 2.
  destruct (apply e name st) as [[e' st1]| |]; simpl; auto.
  rewrite <- IH. unfold stateOf.
  destruct (applyEach _ rest st1) as [[rest' st2]| |]; reflexivity.
Qed.

Lemma applyField_visits (fields0 fields : list (string * value))
  (name : string) (k : kind) (st : S) :
  fieldOf fields name = fieldOf fields0 name ->
  conformsField fields0 (name, k) = true ->
  match applyField apply (VObj fields) st (name, k) with
  | Ok (doc', st') =>
      visitEach (visitWith apply) (specField fields0 (name, k)) st = Ok st'
      /\ exists fields',
           doc' = VObj fields'
           /\ forall other, other <> name ->
                fieldOf fields' other = fieldOf fields other
  | Throw e => visitEach (visitWith apply) (specField fields0 (name, k)) st = Throw e
  | NoFuel => visitEach (visitWith apply) (specField fields0 (name, k)) st = NoFuel
  end.
Proof.
  intros Hsame Hc. unfold applyField, specField, conformsField in *.
  rewrite get_obj, Hsame. cbn [bind].
  assert (forall v,
            match ('(w, st0) <- apply v name st ;;
                   Ok (held (VObj fields) name w, st0)) with
            | Ok (doc', st') =>
                visitEach (visitWith apply) [(name, v)] st = Ok st'
                /\ exists fields',
                     doc' = VObj fields'
                     /\ forall other, other <> name ->
                          fieldOf fields' other = fieldOf fields other
            | Throw e => visitEach (visitWith apply) [(name, v)] st = Throw e
            | NoFuel => visitEach (visitWith apply) [(name, v)] st = NoFuel
            end) as Hone.
  { intros v. cbn [visitEach]. unfold visitWith, stateOf.
    destruct (apply v name st) as [[w st1]| |]; cbn [bind]; auto.
    split; [reflexivity|]. eexists. split; [reflexivity|].
    intros other Hother. apply fieldOf_assign_other. congruence. }
  assert (visitEach (visitWith apply) [] st = Ok st
          /\ exists fields',
               VObj fields = VObj fields'
               /\ forall other, other <> name ->
                    fieldOf fields' other = fieldOf fields other) as Hnone.
  { split; [reflexivity|]. eauto. }
  destruct k.
  - destruct (fieldOf fields0 name) as [| |b|n|s|elems|fs];
      cbn [isArray truthy orb negb] in Hc |- *.
    + exact Hnone.
    + exact Hnone.
    + apply negb_true_iff in Hc. rewrite Hc. exact Hnone.
    + apply negb_true_iff in Hc. rewrite Hc. exact Hnone.
    + apply negb_true_iff in Hc. rewrite Hc. exact Hnone.
    + rewrite <- applyEach_visits. unfold stateOf.
      destruct (applyEach _ elems st) as [[elems' st1]| |]; cbn [bind]; auto.
      split; [reflexivity|]. eexists. split; [reflexivity|].
      intros other Hother. apply fieldOf_assign_other. congruence.
    + discriminate.
  - destruct (fieldOf fields0 name) as [| |b|n|s|elems|fs];
      cbn [truthy nullish orb] in Hc |- *.
    + exact Hnone.
    + exact Hnone.
    + rewrite orb_false_r in Hc. rewrite Hc. apply Hone.
    + rewrite orb_false_r in Hc. rewrite Hc. apply Hone.
    + rewrite orb_false_r in Hc. rewrite Hc. apply Hone.
    + apply Hone.
    + apply Hone.
Qed.

Lemma applyFields_visits (fields0 : list (string * value)) :
  forall (entries : list (string * kind)) (fields : list (string * value)) (st : S),
    NoDup (map fst entries) ->
    (forall name, In name (map fst entries) ->
                  fieldOf fields name = fieldOf fields0 name) ->
    forallb (conformsField fields0) entries = true ->
    stateOf (applyFields apply entries (VObj fields) st)
    = visitEach (visitWith apply) (flat_map (specField fields0) entries) st.
Proof.
  induction entries as [|[name k] rest IH]; intros fields st Hnd Hsame Hconf;
    [reflexivity|].
  inversion Hnd as [|? ? Hnotin Hnd']; subst.
  cbn [forallb] in Hconf. apply andb_prop in Hconf. destruct Hconf as [Hc Hconf].
  cbn [flat_map applyFields]. rewrite visitEach_app.
  pose proof (applyField_visits fields0 fields name k st
                (Hsame name (or_introl eq_refl)) Hc) as Hfield.
  destruct (applyField apply (VObj fields) st (name, k)) as [[doc' st']| |];
    cbn [bind].
  - destruct Hfield as (-> & fields' & -> & Hother). cbn [bind].
    apply IH; auto. intros n Hn. rewrite Hother.
    + apply Hsame. now right.
    + intros ->. contradiction.
  - now rewrite Hfield.
  - now rewrite Hfield.
Qed.

End Preorder.

(** C5.  A walk calls the callback on the document it is given before
    anything else; if the callback fails, so does the walk.  Otherwise the
    walk goes on through the embedded nodes of the document, as the
    callback left it, in the order of the schema: the elements of a
    collection-valued field one by one in sequence order, the value of a
    singular field when the field is there and not null, nothing for a
    field the document does not have.  Each of them is walked in the same
    way, with the options the callback returned for its parent (the empty
    object when it returned none), from the state the walk before it
    ended in. *)
Theorem walk_is_preorder :
  forall (S : Type) (fn : visitor S) (fuel : nat) (doc : value)
         (collection : option string) (options : value) (st : S),
    (forall e,
        fn doc collection (given options) st = Throw e ->
        applyHierarchy fn (Datatypes.S fuel) doc collection options st = Throw e)
    /\ (forall (doc1 options1 : value) (st1 : S),
          fn doc collection (given options) st = Ok (doc1, options1, st1) ->
          conforms collection doc1 = true ->
          stateOf (applyHierarchy fn (Datatypes.S fuel) doc collection options st)
          = visitEach
              (visitWith (fun node name =>
                 applyHierarchy fn fuel node (Some name) (orElse options1 (VObj []))))
              (specEmbedded collection doc1) st1).
Proof.
  intros S fn fuel doc collection options st. split.
  - intros e H. cbn [applyHierarchy]. fold (given options). now rewrite H.
  - intros doc1 options1 st1 H Hconf. cbn [applyHierarchy]. fold (given options).
    rewrite H. cbn [bind].
    destruct doc1 as [| | | | | |fields1]; try discriminate.
    unfold specEmbedded, conforms in *.
    apply (applyFields_visits
             (fun d name => applyHierarchy fn fuel d (Some name)
                              (orElse options1 (VObj []))) fields1);
      auto using hierarchy_NoDup.
Qed.

Lemma walk_is_preorder_witness :
  stateOf (applyHierarchy recorder 2 keyed_hero (Some "actors") VUndef [])
  = Ok [("abc", VObj []); ("i1", VObj [("parent", VStr "abc")])].
Proof.
  rewrite (proj2 (walk_is_preorder (list (string * value)) recorder 1 keyed_hero
                    (Some "actors") VUndef [])
             keyed_hero (VObj [("parent", VStr "abc")]) [("abc", VObj [])]
             eq_refl eq_refl).
  reflexivity.
Defined.

(** ** What a walk does with one field *)

Section Fields.

Context {S : Type}.
Variable apply : value -> string -> S -> outcome (value * S).

Lemma applyField_embedded (fields : list (string * value)) (name : string)
  (k : kind) (st : S) :
  applyField apply (VObj fields) st (name, k)
  = match k, fieldOf fields name with
    | Collection, VArr elems =>
        '(elems, st) <- applyEach (fun d => apply d name) elems st ;;
        Ok (VObj (assign fields name (VArr elems)), st)
    | _, v =>
        match embeddedOf k v with
        | [] => Ok (VObj fields, st)
        | child :: _ =>
            '(child, st) <- apply child name st ;;
            Ok (VObj (assign fields name child), st)
        end
    end.
Proof.
  unfold applyField, embeddedOf. rewrite get_obj. cbn [bind held].
  destruct k; destruct (fieldOf fields name); cbn [truthy];
    try reflexivity;
    match goal with |- context [if ?c then _ else _] => destruct c end;
    reflexivity.
Qed.

Lemma applyField_frame (fields : list (string * value)) (name : string)
  (k : kind) (st : S) (doc' : value) (st' : S) :
  applyField apply (VObj fields) st (name, k) = Ok (doc', st') ->
  exists fields',
    doc' = VObj fields'
    /\ forall other, other <> name -> fieldOf fields' other = fieldOf fields other.
Proof.
  rewrite applyField_embedded. intros H.
  assert (forall w other, other <> name ->
            fieldOf (assign fields name w) other = fieldOf fields other) as Hframe.
  { intros w other Hother. apply fieldOf_assign_other. congruence. }
  destruct k; destruct (fieldOf fields name);
    try (destruct (embeddedOf _ _) as [|child ?];
         [injection H as <- <-; eauto
         |inv_bind H as r Hr; destruct r as [w st0]; injection H as <- <-; eauto]);
    inv_bind H as r Hr; destruct r as [w st0]; injection H as <- <-; eauto.
Qed.

Lemma applyEach_not_NoFuel (name : string) (elems : list value) :
  (forall child st, In child elems -> apply child name st <> NoFuel) ->
  forall st, applyEach (fun d => apply d name) elems st <> NoFuel.
Proof.
  induction elems as [|e rest IH]; simpl; intros H st; [discriminate|].
  apply bind_not_NoFuel; [apply H; now left|]. intros [e' st1] _.
  apply bind_not_NoFuel; [apply IH; intros; apply H; now right|].
  intros [rest' st2] _. discriminate.
Qed.

Lemma applyField_not_NoFuel (fields : list (string * value)) (name : string)
  (k : kind) (st : S) :
  (forall child st, In child (embeddedOf k (fieldOf fields name)) ->
                    apply child name st <> NoFuel) ->
  applyField apply (VObj fields) st (name, k) <> NoFuel.
Proof.
  rewrite applyField_embedded. intros H.
  destruct k; destruct (fieldOf fields name) eqn:F;
    try (destruct (embeddedOf _ _) as [|child ?] eqn:E;
         [discriminate
         |apply bind_not_NoFuel; [apply H; now left|intros [w st0] _; discriminate]]).
  apply bind_not_NoFuel; [|intros [w st0] _; discriminate].
  apply applyEach_not_NoFuel. intros child st0 Hin. apply H. exact Hin.
Qed.

Lemma applyFields_not_NoFuel :
  forall (entries : list (string * kind)) (fields : list (string * value)) (st : S),
    NoDup (map fst entries) ->
    (forall name k child st,
        In (name, k) entries -> In child (embeddedOf k (fieldOf fields name)) ->
        apply child name st <> NoFuel) ->
    applyFields apply entries (VObj fields) st <> NoFuel.
Proof.
  induction entries as [|[name k] rest IH]; simpl; intros fields st Hnd H;
    [discriminate|].
  inversion Hnd as [|? ? Hnotin Hnd']; subst.
  apply bind_not_NoFuel.
  - apply applyField_not_NoFuel. intros child st0 Hin.
    eapply H; [now left|exact Hin].
  - intros [doc' st'] Hfield. apply applyField_frame in Hfield.
    destruct Hfield as (fields' & -> & Hframe).
    apply IH; auto. intros n k' child st0 Hn Hchild.
    rewrite Hframe in Hchild.
    + eapply H; [right; exact Hn|exact Hchild].
    + intros ->. apply Hnotin. apply (in_map fst) in Hn. exact Hn.
Qed.



End Fields.

(** ** Resolving embedded documents *)

Lemma length_append (a b : string) :
  String.length (a ++ b) = String.length a + String.length b.
Proof. induction a as [|c a IH]; simpl; auto. Qed.

Lemma find_length (db : Level.store) (key : string) (v : value) :
  Level.find db key = Some v -> String.length key <= maxKeyLength db.
Proof.
  unfold maxKeyLength, Level.keys.
  induction db as [|[k w] rest IH]; simpl; intros H; [discriminate|].
  destruct (String.eqb k key) eqn:E.
  - apply String.eqb_eq in E. subst k. lia.
  - specialize (IH H). lia.
Qed.

Lemma get_found (m : Level.miss) (db : Level.store) (key : string) (v : value) :
  Level.get m db key = Ok v -> v = VUndef \/ Level.find db key = Some v.
Proof.
  unfold Level.get. destruct (Level.find db key) as [w|].
  - intros H. injection H as <-. now right.
  - destruct m; [|discriminate]. intros H. injection H as <-. now left.
Qed.


Lemma level_get_not_NoFuel (m : Level.miss) (db : Level.store) (key : string) :
  Level.get m db key <> NoFuel.
Proof.
  unfold Level.get. destruct (Level.find db key); [discriminate|].
  destruct m; discriminate.
Qed.

Lemma mapEach_In (fn : value -> outcome value) (elems vs : list value) :
  mapEach fn elems = Ok vs ->
  (forall v, In v vs -> exists e, In e elems /\ fn e = Ok v)
  /\ (forall e, In e elems -> exists v, In v vs /\ fn e = Ok v).
Proof.
  revert vs. induction elems as [|e rest IH]; simpl; intros vs H.
  - injection H as <-. split; intros ? [].
  - inv_bind H as v Hv. inv_bind H as vs' Hvs. injection H as <-.
    destruct (IH _ Hvs) as [Hback Hforth]. split.
    + intros w [<-|Hw]; [eauto|]. destruct (Hback _ Hw) as (e' & ? & ?). eauto.
    + intros e' [<-|He']; [exists v; split; [now left|assumption]|].
      destruct (Hforth _ He') as (w & ? & ?). exists w. split; [now right|assumption].
Qed.

Lemma mapFields_arr (fn : value -> string -> outcome value)
  (entries : list (string * kind)) (elems : list value) (doc' : value) :
  mapFields fn entries (VArr elems) = Ok doc' -> doc' = VArr elems.
Proof.
  induction entries as [|[name k] rest IH]; simpl; intros H.
  - now injection H as <-.
  - destruct k; simpl in H; auto.
Qed.

Lemma applyFields_arr {S : Type}
  (apply : value -> string -> S -> outcome (value * S))
  (entries : list (string * kind)) (elems : list value) (st : S) :
  applyFields apply entries (VArr elems) st = Ok (VArr elems, st).
Proof.
  induction entries as [|[name k] rest IH]; simpl; auto.
  destruct k; simpl; auto.
Qed.

(** No field of the schema is called [_key]. *)
Lemma hierarchy_not_key (collection : option string) (name : string) (k : kind) :
  In (name, k) (hierarchyOf collection) -> name <> "_key".
Proof.
  destruct collection as [c|]; unfold hierarchyOf; [|intros []].
  destruct (assoc HIERARCHY c) as [fields|] eqn:E; [|intros []].
  apply assoc_In in E. intros Hin.
  assert (forallb (fun e => forallb (fun f => negb (String.eqb (fst f) "_key")) (snd e))
            HIERARCHY = true) as Hall by reflexivity.
  rewrite forallb_forall in Hall. specialize (Hall _ E). simpl in Hall.
  rewrite forallb_forall in Hall. specialize (Hall _ Hin). simpl in Hall.
  apply negb_true_iff in Hall. apply String.eqb_neq in Hall. exact Hall.
Qed.

Section Unpack.

Variable m : Level.miss.
Variable db : Level.store.

Lemma unpackVisitor_inv doc collection options st doc1 options1 st1 :
  unpackVisitor m db doc collection options st = Ok (doc1, options1, st1) ->
  exists sublevelPrefix idPrefix docId doc0,
    Js.get options "sublevelPrefix" = Ok sublevelPrefix
    /\ Js.get options "idPrefix" = Ok idPrefix
    /\ Js.get doc "_id" = Ok docId
    /\ Js.set doc "_key"
         (VStr ("!" ++ keyJoin [sublevelPrefix; ofCollection collection]
                ++ "!" ++ keyJoin [idPrefix; docId])) = Ok doc0
    /\ mapHierarchy doc0 collection
         (fun embeddedId name =>
            Level.get m db
              (lookupKey (keyJoin [sublevelPrefix; ofCollection collection])
                 (keyJoin [idPrefix; docId]) embeddedId name)) = Ok doc1
    /\ options1
       = VObj [("sublevelPrefix",
                VStr (keyJoin [sublevelPrefix; ofCollection collection]));
               ("idPrefix", VStr (keyJoin [idPrefix; docId]))].
Proof.
  unfold unpackVisitor. intros H.
  inv_bind H as sublevelPrefix Hs. inv_bind H as idPrefix Hi.
  inv_bind H as docId Hd. inv_bind H as doc0 H0. inv_bind H as d1 H1.
  injection H as <- <- _.
  exists sublevelPrefix, idPrefix, docId, doc0. repeat split; assumption.
Qed.

Lemma unpackVisitor_not_NoFuel doc collection options st :
  unpackVisitor m db doc collection options st <> NoFuel.
Proof.
  unfold unpackVisitor.
  apply bind_not_NoFuel; [apply get_not_NoFuel|]. intros ? _.
  apply bind_not_NoFuel; [apply get_not_NoFuel|]. intros ? _.
  apply bind_not_NoFuel; [apply get_not_NoFuel|]. intros ? _.
  apply bind_not_NoFuel; [apply set_not_NoFuel|]. intros ? _.
  apply bind_not_NoFuel; [|discriminate].
  apply mapFields_not_NoFuel. intros; apply level_get_not_NoFuel.
Qed.

(** A walk handed [undefined] for a document does not complete, and
    fails as soon as it has fuel to make the call. *)
Lemma unpack_undefined fuel collection options st :
  is_ok (applyHierarchy (unpackVisitor m db) fuel VUndef collection options st) = false
  /\ (1 <= fuel ->
      applyHierarchy (unpackVisitor m db) fuel VUndef collection options st <> NoFuel).
Proof.
  destruct fuel as [|fuel]; [split; [reflexivity|lia]|].
  cbn [applyHierarchy]. unfold unpackVisitor.
  destruct (Js.get _ "sublevelPrefix") eqn:G1; cbn [bind];
    [|split; [reflexivity|intros _; discriminate]
     |now apply get_not_NoFuel in G1].
  destruct (Js.get _ "idPrefix") eqn:G2; cbn [bind Js.get];
    [|split; [reflexivity|intros _; discriminate]
     |now apply get_not_NoFuel in G2].
  split; [reflexivity|intros _; discriminate].
Qed.

Lemma keyJoin_child (sublevel name : string) :
  name <> "" ->
  String.length sublevel + 1 <= String.length (keyJoin [VStr sublevel; VStr name]).
Proof.
  intros Hname. unfold keyJoin. cbn [filter truthy].
  apply String.eqb_neq in Hname. rewrite Hname. cbn [negb].
  destruct (String.eqb sublevel "") eqn:E; cbn [negb map toString joinWith].
  - apply String.eqb_eq in E. subst sublevel. simpl.
    destruct name; [discriminate|simpl; lia].
  - rewrite !length_append. simpl. lia.
Qed.

Lemma lookupKey_length (sublevel id : string) (embeddedId : value) (name : string) :
  String.length sublevel + String.length name + 4
  <= String.length (lookupKey sublevel id embeddedId name).
Proof. unfold lookupKey. rewrite !length_append. simpl. lia. Qed.

(** The walk of [unpackDoc] comes back: a lookup only finds keys longer
    than the collection path it is made from, and the store is finite. *)
Lemma unpack_terminates :
  forall fuel doc collection options st,
    2 <= fuel ->
    maxKeyLength db + 2 <= fuel + String.length (sublevelOf collection options) ->
    applyHierarchy (unpackVisitor m db) fuel doc collection options st <> NoFuel.
Proof.
  induction fuel as [|fuel IH]; intros doc collection options st Hfuel Hlen; [lia|].
  cbn [applyHierarchy]. fold (given options).
  destruct (unpackVisitor m db doc collection (given options) st)
    as [[[doc1 options1] st1]| |] eqn:EV; cbn [bind]; [|discriminate|].
  2:{ now apply unpackVisitor_not_NoFuel in EV. }
  apply unpackVisitor_inv in EV.
  destruct EV as (sublevelPrefix & idPrefix & docId & doc0
                  & Hs & Hi & Hd & H0 & Hmap & ->).
  unfold sublevelOf in Hlen. rewrite Hs in Hlen.
  set (sublevel := keyJoin [sublevelPrefix; ofCollection collection]) in *.
  set (id := keyJoin [idPrefix; docId]) in *.
  cbn [orElse nullish].
  destruct doc; simpl in H0; try discriminate; injection H0 as <-.
  - apply mapFields_arr in Hmap. subst doc1. rewrite applyFields_arr. discriminate.
  - apply mapFields_obj in Hmap; [|apply hierarchy_NoDup].
    destruct Hmap as (fields' & -> & Hmapped & _).
    apply applyFields_not_NoFuel; [apply hierarchy_NoDup|].
    intros name k child st0 Hentry Hchild.
    destruct (Hmapped _ _ Hentry) as (w & Hw & Hm).
    unfold fieldOf in Hchild. rewrite Hw in Hchild.
    assert (child = VUndef
            \/ exists e, Level.find db (lookupKey sublevel id e name) = Some child)
      as Horigin.
    { destruct k; simpl in Hm.
      - destruct (fieldOf _ name);
          try (subst w; simpl in Hchild; contradiction).
        destruct Hm as (vs & Hvs & ->). simpl in Hchild.
        apply mapEach_In in Hvs. destruct Hvs as [Hback _].
        destruct (Hback _ Hchild) as (e & _ & He).
        apply get_found in He. destruct He; [now left|right; eauto].
      - destruct (truthy (fieldOf _ name)).
        + unfold embeddedOf in Hchild.
          destruct (truthy w) eqn:T; [|contradiction].
          destruct Hchild as [<-|[]].
          apply get_found in Hm. destruct Hm as [->|Hm]; [discriminate|].
          right; eauto.
        + subst w. simpl in Hchild. contradiction. }
    destruct Horigin as [->|(e & Hfound)].
    + apply unpack_undefined. lia.
    + apply find_length in Hfound.
      pose proof (lookupKey_length sublevel id e name) as Hkey.
      pose proof (keyJoin_child sublevel name (hierarchy_named _ _ _ Hentry)) as Hsub.
      apply IH; [lia|]. unfold sublevelOf. cbn [given Js.get lookup String.eqb].
      simpl. fold (keyJoin [VStr sublevel; VStr name]). lia.
Qed.

End Unpack.

(** ** The main loop comes back *)

Section MainLoop.

Variable getSafeFilename : string -> string.

Lemma callTransformEntry_not_NoFuel hook doc :
  callTransformEntry hook doc <> NoFuel.
Proof.
  unfold callTransformEntry. destruct hook as [hook|]; [|discriminate].
  destruct (hook doc) as [|r d]; [discriminate|].
  destruct r as [| |[|]| | | |]; discriminate.
Qed.

Lemma callTransformName_not_NoFuel hook doc folder :
  callTransformName hook doc folder <> NoFuel.
Proof.
  unfold callTransformName. destruct hook as [hook|]; [|discriminate].
  destruct (hook doc folder) as [|[n|]]; discriminate.
Qed.

Lemma safeNameOr_not_NoFuel doc id key :
  safeNameOr getSafeFilename doc id key <> NoFuel.
Proof.
  unfold safeNameOr. apply bind_not_NoFuel; [apply get_not_NoFuel|].
  intros v _. destruct (truthy v); [|discriminate]. destruct v; discriminate.
Qed.

Lemma defaultName_not_NoFuel options foldersMap key id doc folder :
  defaultName getSafeFilename options foldersMap key id doc folder <> NoFuel.
Proof.
  unfold defaultName. apply bind_not_NoFuel.
  - apply bind_not_NoFuel.
    + destruct (startsWith key "!folders"); [|discriminate].
      apply bind_not_NoFuel; [apply get_not_NoFuel|discriminate].
    + intros [folder_|] _; [discriminate|].
      apply bind_not_NoFuel; [apply safeNameOr_not_NoFuel|discriminate].
  - intros name _. destruct folder as [folder|]; [|discriminate].
    destruct (truthy (VStr folder)); discriminate.
Qed.

Lemma entryName_not_NoFuel options foldersMap key id doc :
  entryName getSafeFilename options foldersMap key id doc <> NoFuel.
Proof.
  unfold entryName. apply bind_not_NoFuel; [apply get_not_NoFuel|].
  intros ref _. apply bind_not_NoFuel; [apply callTransformName_not_NoFuel|].
  intros [name|] _; [discriminate|]. apply defaultName_not_NoFuel.
Qed.

(** With fuel beyond the length of the longest key, every turn of the
    main loop comes back. *)
Lemma extractEntry_not_NoFuel m db fuel dest options foldersMap entry :
  maxKeyLength db + 2 <= fuel ->
  extractEntry getSafeFilename m db fuel dest options foldersMap entry <> NoFuel.
Proof.
  intros Hfuel. destruct entry as [key doc]. unfold extractEntry.
  destruct (nth_error (split "!"%char key) 1) as [c|]; [|discriminate].
  destruct (includes "."%char c); [discriminate|].
  apply bind_not_NoFuel.
  - unfold unpackDoc. apply bind_not_NoFuel.
    + apply unpack_terminates; lia.
    + intros [d st] _. discriminate.
  - intros d _. apply bind_not_NoFuel; [apply callTransformEntry_not_NoFuel|].
    intros [kept|] _; [|discriminate].
    apply bind_not_NoFuel; [apply entryName_not_NoFuel|discriminate].
Qed.


End MainLoop.




(* ------------------------------------------------------------------ *)
(** * Further properties *)

(** ** The store, point by point *)

Lemma key_lt_irrefl (a : string) : ~ Level.key_lt a a.
Proof.
  unfold Level.key_lt. intros H.
  destruct String_as_OT.lt_strorder as [Hirr _]. exact (Hirr a H).
Qed.

Lemma compare_eq (a b : string) : String_as_OT.compare a b = Eq <-> a = b.
Proof.
  destruct (String_as_OT.compare_spec a b) as [H|H|H]; split; intros E;
    try discriminate; auto; subst; exfalso; exact (key_lt_irrefl _ H).
Qed.

Lemma find_put_same (db : Level.store) (key : string) (v : value) :
  Level.find (Level.put db key v) key = Some v.
Proof.
  induction db as [|[k w] rest IH]; simpl.
  - now rewrite String.eqb_refl.
  - destruct (String_as_OT.compare key k) eqn:C; simpl.
    + now rewrite String.eqb_refl.
    + now rewrite String.eqb_refl.
    + destruct (String.eqb k key) eqn:E; auto.
      apply String.eqb_eq in E. subst k.
      assert (String_as_OT.compare key key = Eq) by now apply compare_eq.
      congruence.
Qed.

Lemma find_put_other (db : Level.store) (key other : string) (v : value) :
  key <> other -> Level.find (Level.put db key v) other = Level.find db other.
Proof.
  intros Hne. induction db as [|[k w] rest IH]; simpl.
  - apply String.eqb_neq in Hne. now rewrite Hne.
  - destruct (String_as_OT.compare key k) eqn:C; simpl.
    + apply compare_eq in C. subst k.
      apply String.eqb_neq in Hne. now rewrite Hne.
    + apply String.eqb_neq in Hne. now rewrite Hne.
    + now rewrite IH.
Qed.

Lemma find_del_other (db : Level.store) (key other : string) :
  key <> other -> Level.find (Level.del db key) other = Level.find db other.
Proof.
  intros Hne. induction db as [|[k w] rest IH]; simpl; auto.
  destruct (String.eqb k key) eqn:E; simpl.
  - apply String.eqb_eq in E. subst k.
    apply String.eqb_neq in Hne. now rewrite Hne.
  - now rewrite IH.
Qed.

Lemma find_keys (db : Level.store) (key : string) :
  In key (Level.keys db) <-> Level.find db key <> None.
Proof.
  induction db as [|[k w] rest IH]; simpl.
  - split; [intros []|congruence].
  - destruct (String.eqb k key) eqn:E.
    + apply String.eqb_eq in E. split; [discriminate|now left].
    + apply String.eqb_neq in E. rewrite <- IH. split; [intros [H|H]|]; tauto.
Qed.

Lemma well_formed_tail (k : string) (v : value) (rest : Level.store) :
  Level.well_formed ((k, v) :: rest) ->
  Level.well_formed rest /\ Level.find rest k = None
  /\ forall other, In other (Level.keys rest) -> Level.key_lt k other.
Proof.
  unfold Level.well_formed. simpl. intros [Hall Hs]. split; [exact Hs|].
  rewrite Forall_forall in Hall. split; [|exact Hall].
  destruct (Level.find rest k) eqn:F; [|reflexivity].
  assert (In k (Level.keys rest)) as Hin by (apply find_keys; congruence).
  apply Hall in Hin. exfalso. exact (key_lt_irrefl _ Hin).
Qed.

(** Two stores that answer every lookup alike are the same store. *)
Lemma store_ext (a : Level.store) : forall b : Level.store,
  Level.well_formed a -> Level.well_formed b ->
  (forall key, Level.find a key = Level.find b key) -> a = b.
Proof.
  induction a as [|[ka va] resta IH]; intros b Ha Hb Hfind.
  - destruct b as [|[kb vb] restb]; [reflexivity|].
    specialize (Hfind kb). simpl in Hfind. rewrite String.eqb_refl in Hfind.
    discriminate.
  - destruct b as [|[kb vb] restb].
    { specialize (Hfind ka). simpl in Hfind. rewrite String.eqb_refl in Hfind.
      discriminate. }
    destruct (well_formed_tail _ _ _ Ha) as (Ha' & Hnoa & Hlta).
    destruct (well_formed_tail _ _ _ Hb) as (Hb' & Hnob & Hltb).
    assert (ka = kb) as ->.
    { destruct (String_as_OT.compare_spec ka kb) as [E|L|G]; [exact E| |].
      - exfalso. pose proof (Hfind ka) as H. simpl in H.
        rewrite String.eqb_refl in H.
        destruct (String.eqb kb ka) eqn:E.
        + apply String.eqb_eq in E. subst kb. exact (key_lt_irrefl _ L).
        + assert (In ka (Level.keys restb)) as Hin
            by (apply find_keys; congruence).
          apply Hltb in Hin.
          exact (key_lt_irrefl _ (key_lt_trans _ _ _ L Hin)).
      - exfalso. pose proof (Hfind kb) as H. simpl in H.
        rewrite String.eqb_refl in H.
        destruct (String.eqb ka kb) eqn:E.
        + apply String.eqb_eq in E. subst kb. exact (key_lt_irrefl _ G).
        + assert (In kb (Level.keys resta)) as Hin
            by (apply find_keys; congruence).
          apply Hlta in Hin.
          exact (key_lt_irrefl _ (key_lt_trans _ _ _ G Hin)). }
    pose proof (Hfind kb) as Hv. simpl in Hv. rewrite String.eqb_refl in Hv.
    injection Hv as ->. f_equal. apply IH; auto.
    intros key. specialize (Hfind key). simpl in Hfind.
    destruct (String.eqb kb key) eqn:E; [|exact Hfind].
    apply String.eqb_eq in E. subst key. congruence.
Qed.

Lemma keys_del_other (db : Level.store) (key k : string) :
  In k (Level.keys (Level.del db key)) -> k <> key.
Proof.
  intros Hin Heq. subst k. apply find_keys in Hin. apply Hin. apply find_del_same.
Qed.

Lemma keys_write (ops : list Level.op) : forall (db : Level.store) (k : string),
  In k (Level.keys (Level.batch_write db ops)) ->
  In k (Level.keys db) \/ exists v, In (Level.Put k v) ops.
Proof.
  unfold Level.batch_write.
  induction ops as [|o rest IH]; simpl; intros db k H; [now left|].
  destruct (IH _ _ H) as [Hin|(v & Hv)]; [|right; eauto].
  destruct o as [key w|key]; simpl in Hin.
  - destruct (keys_put _ _ _ _ Hin) as [->|Hdb]; [right; eauto|now left].
  - left. eapply keys_del; eassumption.
Qed.

Lemma find_write_untouched (ops : list Level.op) :
  forall (db : Level.store) (k : string),
    ~ In k (map opKey ops) ->
    Level.find (Level.batch_write db ops) k = Level.find db k.
Proof.
  unfold Level.batch_write.
  induction ops as [|o rest IH]; simpl; intros db k H; [reflexivity|].
  rewrite IH by tauto.
  destruct o as [key w|key]; simpl in *.
  - apply find_put_other. tauto.
  - apply find_del_other. tauto.
Qed.

Lemma find_write_put (ops : list Level.op) :
  forall (db : Level.store) (k : string) (v : value),
    NoDup (map opKey ops) -> In (Level.Put k v) ops ->
    Level.find (Level.batch_write db ops) k = Some v.
Proof.
  induction ops as [|o rest IH]; simpl; intros db k v Hnd Hin; [contradiction|].
  inversion Hnd as [|? ? Hnotin Hnd']; subst.
  destruct Hin as [->|Hin].
  - change (Level.batch_write db (Level.Put k v :: rest))
      with (Level.batch_write (Level.put db k v) rest).
    rewrite find_write_untouched by exact Hnotin. apply find_put_same.
  - change (Level.batch_write db (o :: rest))
      with (Level.batch_write (Level.apply_op db o) rest).
    now apply IH.
Qed.

(** Deleting every key leaves nothing. *)
Lemma write_dels_all (ks : list string) : forall db : Level.store,
  (forall k, In k (Level.keys db) -> In k ks) ->
  Level.batch_write db (map Level.Del ks) = [].
Proof.
  induction ks as [|k rest IH]; intros db H.
  - destruct db as [|[k v] db']; [reflexivity|].
    exfalso. apply (H k). now left.
  - change (Level.batch_write db (map Level.Del (k :: rest)))
      with (Level.batch_write (Level.del db k) (map Level.Del rest)).
    apply IH. intros x Hx.
    pose proof (keys_del_other _ _ _ Hx) as Hne.
    apply keys_del in Hx. destruct (H _ Hx); [congruence|assumption].
Qed.

(** ** What a compile run keeps true *)

Lemma packVisitor_step doc collection options st doc1 options1 st1 :
  packVisitor doc collection options st = Ok (doc1, options1, st1) ->
  exists key v,
    Js.get doc "_key" = Ok key
    /\ set_has (seenKeys st) key = false
    /\ nullish key = false
    /\ seenKeys st1 = key :: seenKeys st
    /\ batch st1 = (batch st ++ [Level.Put (toString key) v])%list.
Proof.
  unfold packVisitor. intros H. inv_bind H as key Hkey.
  destruct (set_has (seenKeys st) key) eqn:Hseen; [discriminate|].
  inv_bind H as v Hv. inv_bind H as b Hb. injection H as _ _ <-.
  unfold Level.batch_put in Hb.
  destruct (nullish key) eqn:N; [discriminate|].
  destruct (nullish v); [discriminate|]. injection Hb as <-.
  exists key. eexists. repeat split; auto.
Qed.

Lemma packVisitor_invariant doc collection options st doc1 options1 st1 :
  packVisitor doc collection options st = Ok (doc1, options1, st1) ->
  keepsInvariant st st1.
Proof.
  intros H (Hd & Hk & Hp). apply packVisitor_step in H.
  destruct H as (key & v & _ & Hnew & _ & Hseen & Hbatch).
  unfold packInvariant. rewrite Hseen, Hbatch. repeat split.
  - exact Hnew.
  - exact Hd.
  - rewrite map_app, Hk. simpl. reflexivity.
  - rewrite forallb_app, Hp. reflexivity.
Qed.

Lemma packFile_invariant transformEntry st file st' :
  packFile transformEntry st file = Ok st' -> keepsInvariant st st'.
Proof.
  unfold packFile. destruct (file_doc file) as [doc|]; [|discriminate].
  intros H. inv_bind H as collection Hc. inv_bind H as kept Hk.
  destruct kept as [doc'|].
  - inv_bind H as r Hr. destruct r as [d s]. injection H as <-.
    refine (applyHierarchy_state packVisitor keepsInvariant _ _
              packVisitor_invariant _ _ _ _ _ _ _ Hr).
    + intros s0 H0. exact H0.
    + intros a b c Hab Hbc Ha. auto.
  - injection H as <-. intros H0. exact H0.
Qed.

Lemma packFiles_invariant transformEntry files :
  forall st st',
    packFiles transformEntry st files = Ok st' -> keepsInvariant st st'.
Proof.
  induction files as [|file rest IH]; simpl; intros st st' H.
  - injection H as <-. intros H0. exact H0.
  - inv_bind H as st1 H1. intros H0.
    eapply IH; [eassumption|]. eapply packFile_invariant; eassumption.
Qed.

Lemma pack_init_invariant : packInvariant pack_init.
Proof. repeat split. Qed.

Lemma run_invariant transformEntry files st :
  packFiles transformEntry pack_init files = Ok st -> packInvariant st.
Proof. intros H. exact (packFiles_invariant _ _ _ _ H pack_init_invariant). Qed.

Lemma set_has_In (seen : list value) (k : string) :
  set_has seen (VStr k) = true <-> In (VStr k) seen.
Proof.
  unfold set_has. rewrite existsb_exists. split.
  - intros (x & Hx & E). destruct x; simpl in E; try discriminate.
    apply String.eqb_eq in E. now subst.
  - intros H. exists (VStr k). split; [exact H|]. simpl. apply String.eqb_refl.
Qed.

Lemma staged_key_seen (st : pack_state) (o : Level.op) :
  packInvariant st -> In o (batch st) ->
  exists key v, o = Level.Put (toString key) v /\ In key (seenKeys st).
Proof.
  intros (_ & Hk & Hp) Hin.
  rewrite forallb_forall in Hp. specialize (Hp _ Hin).
  destruct o as [k v|k]; [|discriminate].
  assert (In k (map opKey (batch st))) as Hkey
    by (change k with (opKey (Level.Put k v)); now apply in_map).
  rewrite Hk in Hkey. apply in_rev in Hkey. apply in_map_iff in Hkey.
  destruct Hkey as (key & <- & Hseen). eauto.
Qed.

Lemma distinct_strings (seen : list value) :
  distinctKeys seen -> forallb isString seen = true ->
  NoDup (map toString seen).
Proof.
  induction seen as [|key rest IH]; simpl; intros Hd Hs; [constructor|].
  destruct Hd as [Hnew Hd]. apply andb_prop in Hs. destruct Hs as [Hkey Hs].
  constructor; [|auto].
  destruct key; try discriminate. simpl. intros Hin.
  apply in_map_iff in Hin. destruct Hin as (x & Hx & Hin).
  rewrite forallb_forall in Hs. pose proof (Hs _ Hin) as Hxs.
  destruct x; try discriminate. simpl in Hx. subst.
  apply set_has_In in Hin. congruence.
Qed.

Lemma staged_keys_NoDup (st : pack_state) :
  packInvariant st -> forallb isString (seenKeys st) = true ->
  NoDup (map opKey (batch st)).
Proof.
  intros Hinv Hs. destruct Hinv as (Hd & Hk & _). rewrite Hk.
  apply NoDup_rev. now apply distinct_strings.
Qed.

Lemma packFile_discarded transformEntry st file :
  isDiscarded transformEntry file = true ->
  packFile transformEntry st file = Ok st.
Proof.
  unfold isDiscarded, packFile. destruct (file_doc file) as [doc|]; [|discriminate].
  destruct (collectionOf doc) as [c| |]; try discriminate.
  destruct (callTransformEntry transformEntry doc) as [[kept|]| |];
    try discriminate.
  reflexivity.
Qed.

(** X1.  A source file that [transformEntry] discards leaves no trace:
    the run ends as it would have without the file, with the same store. *)
Theorem discarded_file_is_as_absent :
  forall (db : Level.store) (transformEntry : option EntryTransformer)
         (before : list source_file) (file : source_file)
         (after : list source_file),
    isDiscarded transformEntry file = true ->
    compileClassicLevel db (before ++ file :: after) transformEntry
    = compileClassicLevel db (before ++ after) transformEntry.
Proof.
  intros db transformEntry before file after H.
  unfold compileClassicLevel. rewrite !packFiles_app.
  destruct (packFiles transformEntry pack_init before) as [st| |]; simpl; auto.
  now rewrite (packFile_discarded _ _ _ H).
Qed.

Lemma discarded_file_is_as_absent_witness :
  compileClassicLevel old_pack [keyed_hero_file; potion_file] (Some dropPotions)
  = compileClassicLevel old_pack [keyed_hero_file] (Some dropPotions).
Proof.
  exact (discarded_file_is_as_absent old_pack (Some dropPotions)
           [keyed_hero_file] potion_file [] eq_refl).
Defined.

(** X2.  A run that keeps none of its source files, and so a run over
    no files at all, deletes every key of the destination store and asks
    for no compaction. *)
Theorem run_without_documents_clears_the_store :
  forall (db : Level.store) (transformEntry : option EntryTransformer)
         (files : list source_file),
    forallb (isDiscarded transformEntry) files = true ->
    compileClassicLevel db files transformEntry = (Ok None, []).
Proof.
  intros db transformEntry files H.
  assert (packFiles transformEntry pack_init files = Ok pack_init) as Hrun.
  { induction files as [|file rest IH]; [reflexivity|].
    simpl in H. apply andb_prop in H. destruct H as [Hfile Hrest].
    simpl. rewrite (packFile_discarded _ _ _ Hfile). simpl. auto. }
  unfold compileClassicLevel. rewrite Hrun, removeStale_spec. simpl.
  assert (stale [] (Level.keys db) = Level.keys db) as ->.
  { unfold stale. induction (Level.keys db) as [|k ks IH]; simpl;
      [reflexivity|f_equal; exact IH]. }
  rewrite write_dels_all by auto. reflexivity.
Qed.

Lemma run_without_documents_clears_the_store_witness :
  compileClassicLevel old_pack [potion_file] (Some dropPotions) = (Ok None, []).
Proof.
  exact (run_without_documents_clears_the_store old_pack (Some dropPotions)
           [potion_file] eq_refl).
Defined.

Lemma final_write_keys (db : Level.store) (st : pack_state) (k : string) :
  packInvariant st ->
  In k (Level.keys (Level.batch_write db
          (removeStale (seenKeys st) (batch st) (Level.keys db)))) ->
  exists key : value, In key (seenKeys st) /\ k = toString key.
Proof.
  intros Hinv Hk. rewrite removeStale_spec in Hk.
  destruct (set_has (seenKeys st) (VStr k)) eqn:Hseen.
  { apply set_has_In in Hseen. exists (VStr k). auto. }
  pose proof Hk as Hfound. apply find_keys in Hfound.
  apply keys_write in Hk. destruct Hk as [Hdb|(v & Hput)].
  - exfalso. apply Hfound.
    unfold Level.batch_write. rewrite fold_left_app.
    apply find_after_dels. left. unfold stale. apply filter_In.
    split; [exact Hdb|]. now rewrite Hseen.
  - apply in_app_or in Hput. destruct Hput as [Hput|Hdel].
    + destruct (staged_key_seen _ _ Hinv Hput) as (key & w & E & Hin).
      injection E as -> _. eauto.
    + apply in_map_iff in Hdel. destruct Hdel as (x & E & _). discriminate.
Qed.

Lemma final_write_find (db : Level.store) (st : pack_state)
      (k : string) (v : value) :
  packInvariant st -> forallb isString (seenKeys st) = true ->
  In (Level.Put k v) (batch st) ->
  Level.find (Level.batch_write db
                (removeStale (seenKeys st) (batch st) (Level.keys db))) k
  = Some v.
Proof.
  intros Hinv Hs Hput. rewrite removeStale_spec.
  unfold Level.batch_write. rewrite fold_left_app.
  fold (Level.batch_write db (batch st)).
  fold (Level.batch_write (Level.batch_write db (batch st))
          (map Level.Del (stale (seenKeys st) (Level.keys db)))).
  rewrite find_write_untouched.
  - apply find_write_put; [now apply staged_keys_NoDup|exact Hput].
  - rewrite map_map. simpl. rewrite map_id. unfold stale. intros Hin.
    apply filter_In in Hin. destruct Hin as [_ Hnot].
    apply negb_true_iff in Hnot.
    destruct (staged_key_seen _ _ Hinv Hput) as (key & w & E & Hseen).
    injection E as -> _.
    rewrite forallb_forall in Hs. pose proof (Hs _ Hseen) as Hstr.
    destruct key; try discriminate. simpl in Hnot.
    apply set_has_In in Hseen. congruence.
Qed.

Lemma final_write_ext (db1 db2 : Level.store) (st : pack_state) :
  Level.well_formed db1 -> Level.well_formed db2 ->
  packInvariant st -> forallb isString (seenKeys st) = true ->
  Level.batch_write db1 (removeStale (seenKeys st) (batch st) (Level.keys db1))
  = Level.batch_write db2 (removeStale (seenKeys st) (batch st) (Level.keys db2)).
Proof.
  intros Hwf1 Hwf2 Hinv Hs.
  apply store_ext; try now apply batch_write_well_formed.
  intros k.
  destruct (in_dec string_dec k (map opKey (batch st))) as [Hin|Hout].
  - apply in_map_iff in Hin. destruct Hin as (o & Hkey & Hin).
    assert (exists v, In (Level.Put k v) (batch st)) as (v & Hput).
    { destruct (staged_key_seen _ _ Hinv Hin) as (key & w & E & _).
      subst o. simpl in Hkey. subst k. eauto. }
    now rewrite !(final_write_find _ _ _ _ Hinv Hs Hput).
  - assert (forall db, Level.find (Level.batch_write db
              (removeStale (seenKeys st) (batch st) (Level.keys db))) k = None)
      as Hnone.
    { intros db.
      destruct (Level.find _ k) eqn:Hfound; [|reflexivity].
      exfalso. apply Hout.
      assert (In k (Level.keys (Level.batch_write db
                (removeStale (seenKeys st) (batch st) (Level.keys db))))) as Hk
        by (apply find_keys; congruence).
      destruct (final_write_keys _ _ _ Hinv Hk) as (key & Hseen & ->).
      destruct Hinv as (_ & -> & _). rewrite <- in_rev. now apply in_map. }
    now rewrite !Hnone.
Qed.

(** X3.  A run that succeeds leaves in the store only keys it has seen:
    whatever else the pack held before is gone. *)
Theorem compiled_store_holds_only_seen_keys :
  forall (db : Level.store) (files : list source_file)
         (transformEntry : option EntryTransformer) (st : pack_state),
    packFiles transformEntry pack_init files = Ok st ->
    forall k : string,
      In k (Level.keys (snd (compileClassicLevel db files transformEntry))) ->
      exists key : value, In key (seenKeys st) /\ k = toString key.
Proof.
  intros db files transformEntry st Hrun k Hk.
  unfold compileClassicLevel in Hk. rewrite Hrun in Hk. simpl in Hk.
  exact (final_write_keys _ _ _ (run_invariant _ _ _ Hrun) Hk).
Qed.

Lemma compiled_store_holds_only_seen_keys_witness :
  exists key : value,
    In key [VStr "!actors.items!abc.i1"; VStr "!actors!abc"]
    /\ "!actors!abc" = toString key.
Proof.
  apply (compiled_store_holds_only_seen_keys old_pack [keyed_hero_file] None
           (PackState [VStr "!actors.items!abc.i1"; VStr "!actors!abc"]
              [Level.Put "!actors!abc" stored_hero;
               Level.Put "!actors.items!abc.i1" stored_sword])
           eq_refl "!actors!abc").
  vm_compute. left. reflexivity.
Defined.

(** X4.  When every key a successful run has seen is a string, each
    value it staged is what the store answers for its key afterwards: no
    put of the run is overwritten by another or deleted. *)
Theorem staged_documents_are_stored :
  forall (db : Level.store) (files : list source_file)
         (transformEntry : option EntryTransformer) (st : pack_state),
    packFiles transformEntry pack_init files = Ok st ->
    forallb isString (seenKeys st) = true ->
    forall (k : string) (v : value),
      In (Level.Put k v) (batch st) ->
      Level.find (snd (compileClassicLevel db files transformEntry)) k = Some v.
Proof.
  intros db files transformEntry st Hrun Hs k v Hput.
  unfold compileClassicLevel. rewrite Hrun. simpl.
  exact (final_write_find _ _ _ _ (run_invariant _ _ _ Hrun) Hs Hput).
Qed.

Lemma staged_documents_are_stored_witness :
  Level.find (snd (compileClassicLevel old_pack [keyed_hero_file] None))
    "!actors.items!abc.i1"
  = Some stored_sword.
Proof.
  apply (staged_documents_are_stored old_pack [keyed_hero_file] None
           (PackState [VStr "!actors.items!abc.i1"; VStr "!actors!abc"]
              [Level.Put "!actors!abc" stored_hero;
               Level.Put "!actors.items!abc.i1" stored_sword])
           eq_refl eq_refl).
  right. left. reflexivity.
Defined.

(** X5.  The store a successful run over string keys leaves behind is
    a function of the source files alone: two runs over the same files
    end with the same store whatever the destination held before. *)
Theorem compiled_store_ignores_previous_content :
  forall (db1 db2 : Level.store) (files : list source_file)
         (transformEntry : option EntryTransformer) (st : pack_state),
    Level.well_formed db1 -> Level.well_formed db2 ->
    packFiles transformEntry pack_init files = Ok st ->
    forallb isString (seenKeys st) = true ->
    snd (compileClassicLevel db1 files transformEntry)
    = snd (compileClassicLevel db2 files transformEntry).
Proof.
  intros db1 db2 files transformEntry st Hwf1 Hwf2 Hrun Hs.
  unfold compileClassicLevel. rewrite Hrun. simpl.
  exact (final_write_ext _ _ _ Hwf1 Hwf2 (run_invariant _ _ _ Hrun) Hs).
Qed.

Lemma compiled_store_ignores_previous_content_witness :
  snd (compileClassicLevel old_pack [keyed_hero_file] None)
  = snd (compileClassicLevel [] [keyed_hero_file] None).
Proof.
  apply (compiled_store_ignores_previous_content old_pack [] [keyed_hero_file]
           None
           (PackState [VStr "!actors.items!abc.i1"; VStr "!actors!abc"]
              [Level.Put "!actors!abc" stored_hero;
               Level.Put "!actors.items!abc.i1" stored_sword])).
  - unfold Level.well_formed. vm_compute. repeat constructor.
  - exact I.
  - reflexivity.
  - reflexivity.
Defined.

(** X6.  Compiling is idempotent: running the same files again over the
    store a successful run has produced leaves that store unchanged. *)
Theorem compiling_twice_changes_nothing :
  forall (db : Level.store) (files : list source_file)
         (transformEntry : option EntryTransformer) (st : pack_state),
    Level.well_formed db ->
    packFiles transformEntry pack_init files = Ok st ->
    forallb isString (seenKeys st) = true ->
    snd (compileClassicLevel
           (snd (compileClassicLevel db files transformEntry))
           files transformEntry)
    = snd (compileClassicLevel db files transformEntry).
Proof.
  intros db files transformEntry st Hwf Hrun Hs.
  unfold compileClassicLevel. rewrite Hrun. simpl.
  apply final_write_ext;
    [now apply batch_write_well_formed|exact Hwf
    |exact (run_invariant _ _ _ Hrun)|exact Hs].
Qed.

Lemma compiling_twice_changes_nothing_witness :
  snd (compileClassicLevel
         (snd (compileClassicLevel old_pack [keyed_hero_file] None))
         [keyed_hero_file] None)
  = snd (compileClassicLevel old_pack [keyed_hero_file] None).
Proof.
  apply (compiling_twice_changes_nothing old_pack [keyed_hero_file] None
           (PackState [VStr "!actors.items!abc.i1"; VStr "!actors!abc"]
              [Level.Put "!actors!abc" stored_hero;
               Level.Put "!actors.items!abc.i1" stored_sword])).
  - unfold Level.well_formed. vm_compute. repeat constructor.
  - reflexivity.
  - reflexivity.
Defined.

(* ------------------------------------------------------------------ *)
(** ** Fields outside the schema *)

Lemma mapHierarchy_frame (fields : list (string * value))
      (collection : option string) (fn : value -> string -> outcome value)
      (doc' : value) :
  mapHierarchy (VObj fields) collection fn = Ok doc' ->
  exists fields',
    doc' = VObj fields'
    /\ forall other, ~ In other (map fst (hierarchyOf collection)) ->
         lookup fields' other = lookup fields other.
Proof.
  intros H.
  destruct (mapFields_obj _ _ _ _ (hierarchy_NoDup collection) H)
    as (fields' & -> & _ & Hframe).
  eauto.
Qed.

(** X7.  [mapHierarchy] writes the fields of the schema and nothing
    else: every other property of the document, present or absent, is
    after the call what it was before; a document of a collection without
    a schema comes back unchanged. *)
Theorem mapHierarchy_keeps_other_fields :
  forall (fields : list (string * value)) (collection : option string)
         (fn : value -> string -> outcome value) (doc' : value),
    mapHierarchy (VObj fields) collection fn = Ok doc' ->
    (forall other : string,
        ~ In other (map fst (hierarchyOf collection)) ->
        hasOwn doc' other = hasOwn (VObj fields) other
        /\ Js.get doc' other = Js.get (VObj fields) other)
    /\ (hierarchyOf collection = [] -> doc' = VObj fields).
Proof.
  intros fields collection fn doc' H. split.
  - destruct (mapHierarchy_frame _ _ _ _ H) as (fields' & -> & Hframe).
    intros other Hother. simpl. now rewrite (Hframe other Hother).
  - intros Hflat. unfold mapHierarchy in H. rewrite Hflat in H.
    simpl in H. congruence.
Qed.

Lemma mapHierarchy_keeps_other_fields_witness :
  (forall other : string,
      ~ In other (map fst (hierarchyOf (Some "actors"))) ->
      hasOwn (VObj [("_id", VStr "abc"); ("name", VStr "Hero");
                    ("items", VArr [VStr "i1"]); ("effects", VArr [])]) other
      = hasOwn (VObj hero_fields) other
      /\ Js.get (VObj [("_id", VStr "abc"); ("name", VStr "Hero");
                       ("items", VArr [VStr "i1"]); ("effects", VArr [])]) other
         = Js.get (VObj hero_fields) other)
  /\ (hierarchyOf (Some "actors") = [] ->
      VObj [("_id", VStr "abc"); ("name", VStr "Hero");
            ("items", VArr [VStr "i1"]); ("effects", VArr [])] = VObj hero_fields).
Proof.
  exact (mapHierarchy_keeps_other_fields hero_fields (Some "actors")
           (fun d _ => Js.get d "_id") _ eq_refl).
Defined.

(* ------------------------------------------------------------------ *)
(** ** The key an extracted document carries *)

Lemma applyFields_frame {S : Type}
      (apply : value -> string -> S -> outcome (value * S))
      (entries : list (string * kind)) :
  forall (fields : list (string * value)) (st : S) (doc' : value) (st' : S),
    applyFields apply entries (VObj fields) st = Ok (doc', st') ->
    exists fields',
      doc' = VObj fields'
      /\ forall other, ~ In other (map fst entries) ->
           fieldOf fields' other = fieldOf fields other.
Proof.
  induction entries as [|[name k] rest IH]; simpl; intros fields st doc' st' H.
  - injection H as <- _. eauto.
  - inv_bind H as r Hr. destruct r as [doc1 st1].
    destruct (applyField_frame _ _ _ _ _ _ _ Hr) as (fields1 & -> & Hone).
    destruct (IH _ _ _ _ H) as (fields' & -> & Hrest).
    exists fields'. split; [reflexivity|].
    intros other Hother. rewrite Hrest by tauto. apply Hone.
    intros ->. tauto.
Qed.

Lemma keyJoin_single (part : string) :
  part <> "" -> keyJoin [VUndef; VStr part] = part.
Proof.
  intros H. unfold keyJoin. simpl.
  destruct (String.eqb part "") eqn:E; [apply String.eqb_eq in E; tauto|].
  reflexivity.
Qed.

Lemma split_composite (c id : string) :
  includes "!"%char c = false -> includes "!"%char id = false ->
  split "!"%char ("!" ++ c ++ "!" ++ id) = [""; c; id].
Proof.
  intros Hc Hid.
  change ("!" ++ c ++ "!" ++ id) with ("" ++ String "!" (c ++ String "!" id)).
  rewrite split_append by reflexivity.
  rewrite split_append by exact Hc.
  now rewrite split_without.
Qed.

Lemma unpack_root_key (m : Level.miss) (db : Level.store) (fuel : nat)
      (fields : list (string * value)) (c id : string) (doc' : value) :
  c <> "" -> id <> "" -> fieldOf fields "_id" = VStr id ->
  unpackDoc m db fuel (VObj fields) c = Ok doc' ->
  Js.get doc' "_key" = Ok (VStr ("!" ++ c ++ "!" ++ id)).
Proof.
  intros Hc Hid Hdoc H. unfold unpackDoc in H.
  inv_bind H as r Hr. destruct r as [doc1 u]. injection H as <-.
  destruct fuel as [|fuel]; [discriminate|]. simpl in Hr.
  inv_bind Hr as v Hv. destruct v as [[doc0 options1] st1].
  destruct (unpackVisitor_inv _ _ _ _ _ _ _ _ _ Hv)
    as (sp & ip & docId & docK & Hsp & Hip & Hid' & Hset & Hmap & _).
  simpl in Hsp, Hip. injection Hsp as <-. injection Hip as <-.
  rewrite get_obj, Hdoc in Hid'. injection Hid' as <-.
  simpl ofCollection in Hset.
  rewrite (keyJoin_single c Hc), (keyJoin_single id Hid) in Hset.
  simpl in Hset. injection Hset as <-.
  destruct (mapHierarchy_frame _ _ _ _ Hmap) as (fields0 & -> & Hframe0).
  destruct (applyFields_frame _ _ _ _ _ _ Hr) as (fields1 & -> & Hframe1).
  assert (~ In "_key" (map fst (hierarchyOf (Some c)))) as Hkey.
  { intros Hin. apply in_map_iff in Hin. destruct Hin as ([n k] & E & Hin).
    simpl in E. subst n. now apply hierarchy_not_key in Hin. }
  rewrite get_obj, (Hframe1 _ Hkey). unfold fieldOf.
  rewrite (Hframe0 _ Hkey), lookup_assign_same. reflexivity.
Qed.

(** X8.  A primary document is written out under the key it was stored
    under: when the [_id] of the entry is the id of its key, the document
    handed to the file carries that key as [_key], whatever its embedded
    fields became, and a later compile reads its collection back from
    it. *)
Theorem extracted_document_carries_its_key :
  forall (getSafeFilename : string -> string) (m : Level.miss)
         (db : Level.store) (fuel : nat) (dest : string)
         (options : ExtractOptions) (foldersMap : folders_map)
         (c id : string) (fields : list (string * value))
         (file : string) (doc' : value),
    transformEntry options = None ->
    c <> "" -> includes "!"%char c = false -> includes "."%char c = false ->
    id <> "" -> includes "!"%char id = false ->
    fieldOf fields "_id" = VStr id ->
    extractEntry getSafeFilename m db fuel dest options foldersMap
      ("!" ++ c ++ "!" ++ id, VObj fields) = Ok (Some (file, doc')) ->
    Js.get doc' "_key" = Ok (VStr ("!" ++ c ++ "!" ++ id))
    /\ collectionOf doc' = Ok (Some c).
Proof.
  intros gsf m db fuel dest options idx c id fields file doc'
         Hhook Hc Hbang Hdot Hid Hidbang Hdoc H.
  assert (Js.get doc' "_key" = Ok (VStr ("!" ++ c ++ "!" ++ id))) as Hkey.
  { unfold extractEntry in H.
    cbv zeta in H. rewrite (split_composite c id Hbang Hidbang) in H.
    simpl nth_error in H. cbv iota in H. rewrite Hdot in H.
    inv_bind H as doc1 Hunpack. rewrite Hhook in H. simpl in H.
    inv_bind H as name Hname. injection H as _ <-.
    exact (unpack_root_key _ _ _ _ _ _ _ Hc Hid Hdoc Hunpack). }
  split; [exact Hkey|].
  unfold collectionOf. rewrite Hkey. unfold bind.
  now rewrite (split_composite c id Hbang Hidbang).
Qed.

Lemma extracted_document_carries_its_key_witness :
  Js.get (VObj [("_id", VStr "abc"); ("name", VStr "Hero");
                ("items", VArr [VObj [("_id", VStr "i1"); ("name", VStr "Sword");
                                      ("effects", VArr []);
                                      ("_key", VStr "!actors.items!abc.i1")]]);
                ("_key", VStr "!actors!abc"); ("effects", VArr [])]) "_key"
  = Ok (VStr ("!" ++ "actors" ++ "!" ++ "abc"))
  /\ collectionOf
       (VObj [("_id", VStr "abc"); ("name", VStr "Hero");
              ("items", VArr [VObj [("_id", VStr "i1"); ("name", VStr "Sword");
                                    ("effects", VArr []);
                                    ("_key", VStr "!actors.items!abc.i1")]]);
              ("_key", VStr "!actors!abc"); ("effects", VArr [])])
     = Ok (Some "actors").
Proof.
  apply (extracted_document_carries_its_key asciiSafeFilename
           Level.classic_level_2 flat_pack 5 "out" plain_options []
           "actors" "abc"
           [("_id", VStr "abc"); ("name", VStr "Hero");
            ("items", VArr [VStr "i1"])]
           "out/Hero_abc.json");
    try reflexivity; try discriminate.
Defined.

(* ------------------------------------------------------------------ *)
(** ** The extraction as a whole *)

Lemma extractEntries_not_NoFuel getSafeFilename m db fuel dest options foldersMap :
  maxKeyLength db + 2 <= fuel ->
  forall entries,
    snd (extractEntries getSafeFilename m db fuel dest options foldersMap entries)
    <> NoFuel.
Proof.
  intros Hfuel. induction entries as [|entry rest IH]; simpl; [discriminate|].
  pose proof (extractEntry_not_NoFuel getSafeFilename m db fuel dest options
                foldersMap entry Hfuel) as Hentry.
  destruct (extractEntry _ _ _ _ _ _ _ entry) as [written| |];
    [|discriminate|congruence].
  destruct (extractEntries _ _ _ _ _ _ _ rest) as [files result]. exact IH.
Qed.

Lemma unpackDoc_fuel m db fuel doc c :
  maxKeyLength db + 2 <= fuel ->
  unpackDoc m db fuel doc c = unpackDoc m db (maxKeyLength db + 2) doc c.
Proof.
  intros Hfuel. unfold unpackDoc.
  rewrite (applyHierarchy_more_fuel _ (maxKeyLength db + 2) fuel); auto.
  apply unpack_terminates; lia.
Qed.

Lemma extractEntry_fuel getSafeFilename m db fuel dest options foldersMap entry :
  maxKeyLength db + 2 <= fuel ->
  extractEntry getSafeFilename m db fuel dest options foldersMap entry
  = extractEntry getSafeFilename m db (maxKeyLength db + 2) dest options
      foldersMap entry.
Proof.
  intros Hfuel. destruct entry as [key doc]. unfold extractEntry.
  destruct (nth_error (split "!"%char key) 1) as [c|]; [|reflexivity].
  destruct (includes "."%char c); [reflexivity|].
  now rewrite (unpackDoc_fuel m db fuel doc c Hfuel).
Qed.

Lemma extractEntries_fuel getSafeFilename m db fuel dest options foldersMap :
  maxKeyLength db + 2 <= fuel ->
  forall entries,
    extractEntries getSafeFilename m db fuel dest options foldersMap entries
    = extractEntries getSafeFilename m db (maxKeyLength db + 2) dest options
        foldersMap entries.
Proof.
  intros Hfuel. induction entries as [|entry rest IH]; simpl; [reflexivity|].
  now rewrite (extractEntry_fuel _ _ _ fuel _ _ _ _ Hfuel), IH.
Qed.

(** X9.  Without the [folders] option the extraction of any store comes
    to an end, with a result or with an error: an embedded document is
    looked up under a key longer than its parent's, so the walk goes no
    deeper than the longest key of the store, and a bound past that
    length changes nothing to what is written. *)
Theorem extraction_without_folders_ends :
  forall (getSafeFilename : string -> string) (m : Level.miss)
         (db : Level.store) (fuel : nat) (dest : string)
         (options : ExtractOptions),
    folders options = false ->
    maxKeyLength db + 2 <= fuel ->
    snd (extractClassicLevel getSafeFilename m db fuel dest options) <> NoFuel
    /\ extractClassicLevel getSafeFilename m db fuel dest options
       = extractClassicLevel getSafeFilename m db (maxKeyLength db + 2) dest
           options.
Proof.
  intros gsf m db fuel dest options Hfolders Hfuel.
  unfold extractClassicLevel, buildFolders. rewrite Hfolders. split.
  - now apply extractEntries_not_NoFuel.
  - now apply extractEntries_fuel.
Qed.

Lemma extraction_without_folders_ends_witness :
  snd (extractClassicLevel asciiSafeFilename Level.classic_level_2 torn_pack 40
         "out" plain_options) <> NoFuel
  /\ extractClassicLevel asciiSafeFilename Level.classic_level_2 torn_pack 40
       "out" plain_options
     = extractClassicLevel asciiSafeFilename Level.classic_level_2 torn_pack
         (maxKeyLength torn_pack + 2) "out" plain_options.
Proof.
  apply (extraction_without_folders_ends asciiSafeFilename
           Level.classic_level_2 torn_pack 40 "out" plain_options).
  - reflexivity.
  - vm_compute. lia.
Defined.

Lemma extractEntries_cons getSafeFilename m db fuel dest options foldersMap
      entry rest :
  extractEntries getSafeFilename m db fuel dest options foldersMap (entry :: rest)
  = match extractEntry getSafeFilename m db fuel dest options foldersMap entry with
    | Ok written =>
        let '(files, result) :=
          extractEntries getSafeFilename m db fuel dest options foldersMap rest in
        (match written with
         | Some file => file :: files
         | None => files
         end, result)
    | Throw e => ([], Throw e)
    | NoFuel => ([], NoFuel)
    end.
Proof. reflexivity. Qed.

Lemma extractEntries_files getSafeFilename m db fuel dest options foldersMap :
  transformEntry options = None ->
  forall (entries files : list (string * value)),
    extractEntries getSafeFilename m db fuel dest options foldersMap entries
    = (files, Ok tt) ->
    Forall2
      (fun (entry file : string * value) =>
         exists c : string,
           nth_error (split "!"%char (fst entry)) 1 = Some c
           /\ unpackDoc m db fuel (snd entry) c = Ok (snd file))
      (filter (fun entry => negb (embeddedKey (fst entry))) entries) files.
Proof.
  intros Hhook.
  induction entries as [|[key doc] rest IH]; intros files H.
  - injection H as <-. constructor.
  - rewrite extractEntries_cons in H.
    destruct (extractEntry getSafeFilename m db fuel dest options foldersMap
                (key, doc)) as [written| |] eqn:Hentry; try discriminate.
    destruct (extractEntries getSafeFilename m db fuel dest options foldersMap
                rest) as [files' result] eqn:Hrest.
    injection H as <- ->. specialize (IH _ eq_refl).
    unfold extractEntry in Hentry. simpl filter. unfold embeddedKey at 1.
    simpl fst.
    destruct (nth_error (split "!"%char key) 1) as [c|] eqn:Hc; [|discriminate].
    destruct (includes "."%char c); simpl negb; cbv iota.
    + injection Hentry as <-. exact IH.
    + inv_bind Hentry as doc1 Hunpack. rewrite Hhook in Hentry.
      simpl in Hentry. inv_bind Hentry as name Hname.
      injection Hentry as <-. constructor; [|exact IH].
      exists c. simpl fst. simpl snd. auto.
Qed.

(** X10.  When no [transformEntry] is given and the extraction
    succeeds, it has written exactly one file for each key of the store
    that is not an embedded one, in key order; the document of the file
    is the stored one as [unpackDoc] left it. *)
Theorem extraction_writes_each_primary_document :
  forall (getSafeFilename : string -> string) (m : Level.miss)
         (db : Level.store) (fuel : nat) (dest : string)
         (options : ExtractOptions) (files : list (string * value)),
    transformEntry options = None ->
    extractClassicLevel getSafeFilename m db fuel dest options = (files, Ok tt) ->
    Forall2
      (fun (entry file : string * value) =>
         exists c : string,
           nth_error (split "!"%char (fst entry)) 1 = Some c
           /\ unpackDoc m db fuel (snd entry) c = Ok (snd file))
      (filter (fun entry => negb (embeddedKey (fst entry))) db) files.
Proof.
  intros gsf m db fuel dest options files Hhook H.
  unfold extractClassicLevel in H.
  destruct (buildFolders gsf fuel db options) as [idx| |]; try discriminate.
  exact (extractEntries_files gsf m db fuel dest options idx Hhook db files H).
Qed.

Lemma extraction_writes_each_primary_document_witness :
  Forall2
    (fun (entry file : string * value) =>
       exists c : string,
         nth_error (split "!"%char (fst entry)) 1 = Some c
         /\ unpackDoc Level.classic_level_2 flat_pack 5 (snd entry) c
            = Ok (snd file))
    (filter (fun entry => negb (embeddedKey (fst entry))) flat_pack)
    (fst (extractClassicLevel asciiSafeFilename Level.classic_level_2
            flat_pack 5 "out" plain_options)).
Proof.
  apply (extraction_writes_each_primary_document asciiSafeFilename
           Level.classic_level_2 flat_pack 5 "out" plain_options);
    reflexivity.
Defined.

(* ------------------------------------------------------------------ *)
(** ** The folder index *)

Lemma ancestor_add (foldersMap : folders_map) (a b : nat) :
  forall e : folder_entry,
    ancestor foldersMap (a + b) e
    = match ancestor foldersMap a e with
      | Some x => ancestor foldersMap b x
      | None => None
      end.
Proof.
  induction a as [|a IH]; intros e; simpl; [reflexivity|].
  destruct (map_get foldersMap (folder e)); auto.
Qed.

Lemma ancestor_cycle (foldersMap : folders_map) (n : nat) (e : folder_entry) :
  ancestor foldersMap (Datatypes.S n) e = Some e ->
  forall j, ancestor foldersMap j e <> None.
Proof.
  intros Hcycle.
  assert (forall k, ancestor foldersMap (k * Datatypes.S n) e = Some e) as Hk.
  { induction k as [|k IH]; [reflexivity|].
    change (Datatypes.S k * Datatypes.S n) with (Datatypes.S n + k * Datatypes.S n).
    rewrite ancestor_add, Hcycle. exact IH. }
  intros j Hj.
  specialize (Hk j). replace (j * Datatypes.S n) with (j + j * n) in Hk by lia.
  rewrite ancestor_add, Hj in Hk. discriminate.
Qed.

Lemma climb_endless (foldersMap : folders_map) (fuel : nat) :
  forall (parent : folder_entry) (p : string),
    (forall j, ancestor foldersMap j parent <> None) ->
    climb fuel foldersMap (Some parent) p = NoFuel.
Proof.
  induction fuel as [|fuel IH]; intros parent p Hall; simpl; [reflexivity|].
  pose proof (Hall 1) as Hone. simpl in Hone.
  destruct (map_get foldersMap (folder parent)) as [next|] eqn:Hnext;
    [|congruence].
  apply IH. intros j. specialize (Hall (Datatypes.S j)). simpl in Hall.
  now rewrite Hnext in Hall.
Qed.

Lemma climb_not_throw (foldersMap : folders_map) (fuel : nat) :
  forall (parent : option folder_entry) (p : string),
    is_throw (climb fuel foldersMap parent p) = false.
Proof.
  induction fuel as [|fuel IH]; intros [parent|] p; simpl; auto.
Qed.

Lemma map_get_In (foldersMap : folders_map) (id : value) (e : folder_entry) :
  map_get foldersMap id = Some e -> exists k, In (k, e) foldersMap.
Proof.
  induction foldersMap as [|[k x] rest IH]; simpl; [discriminate|].
  destruct (sameValueZero k id).
  - intros H. injection H as ->. eauto.
  - intros H. destruct (IH H) as (k' & Hin). eauto.
Qed.

Lemma assignPaths_endless (fuel : nat) (foldersMap : folders_map) :
  forall (todo : folders_map) (k : value) (e : folder_entry),
    In (k, e) todo ->
    (forall j, ancestor foldersMap j e <> None) ->
    assignPaths fuel foldersMap todo = NoFuel.
Proof.
  induction todo as [|[id x] rest IH]; intros k e Hin Hall; [contradiction|].
  simpl. destruct Hin as [Heq|Hin].
  - injection Heq as -> ->. unfold folderPath.
    pose proof (Hall 1) as Hone. simpl in Hone.
    destruct (map_get foldersMap (folder e)) as [parent|] eqn:Hparent;
      [|congruence].
    rewrite climb_endless; [reflexivity|].
    intros j. specialize (Hall (Datatypes.S j)). simpl in Hall.
    now rewrite Hparent in Hall.
  - rewrite (IH _ _ Hin Hall).
    pose proof (climb_not_throw foldersMap fuel
                  (map_get foldersMap (folder x)) (name x)) as Hthrow.
    unfold folderPath.
    destruct (climb fuel foldersMap (map_get foldersMap (folder x)) (name x));
      [reflexivity|discriminate Hthrow|reflexivity].
Qed.

(** X11.  With the [folders] option, a folder that is its own ancestor
    (its chain of [folder] references leads back to itself) keeps the loop
    that builds the folder paths turning for ever: whatever the bound on
    the number of turns, the extraction has not got past it and no file is
    written. *)
Theorem folder_cycle_never_ends :
  forall (getSafeFilename : string -> string) (m : Level.miss)
         (db : Level.store) (dest : string) (options : ExtractOptions)
         (foldersMap : folders_map) (id : value) (folder_ : folder_entry)
         (n : nat),
    folders options = true ->
    addFolders getSafeFilename (transformFolderName options) [] db
    = Ok foldersMap ->
    map_get foldersMap id = Some folder_ ->
    ancestor foldersMap (Datatypes.S n) folder_ = Some folder_ ->
    forall fuel : nat,
      extractClassicLevel getSafeFilename m db fuel dest options = ([], NoFuel).
Proof.
  intros gsf m db dest options idx id e n Hfolders Hadd Hget Hcycle fuel.
  unfold extractClassicLevel, buildFolders. rewrite Hfolders, Hadd.
  simpl bind.
  destruct (map_get_In _ _ _ Hget) as (k & Hin).
  now rewrite (assignPaths_endless fuel idx idx k e Hin
                 (ancestor_cycle idx n e Hcycle)).
Qed.

Lemma folder_cycle_never_ends_witness :
  extractClassicLevel asciiSafeFilename Level.classic_level_2 loop_pack 1000
    "out" folder_options = ([], NoFuel).
Proof.
  exact (folder_cycle_never_ends asciiSafeFilename Level.classic_level_2
           loop_pack "out" folder_options
           [(VStr "f1", FolderEntry "Loop_f1" (VStr "f1") None)]
           (VStr "f1") (FolderEntry "Loop_f1" (VStr "f1") None) 0
           eq_refl eq_refl eq_refl eq_refl 1000).
Defined.

Lemma append_assoc (a b c : string) : ((a ++ b) ++ c = a ++ (b ++ c))%string.
Proof. induction a as [|x a IH]; simpl; [reflexivity|now rewrite IH]. Qed.

Lemma joinWith_snoc (sep : string) (segs : list string) (last : string) :
  segs <> [] ->
  joinWith sep (segs ++ [last]) = joinWith sep segs ++ sep ++ last.
Proof.
  induction segs as [|a rest IH]; intros Hne; [congruence|].
  destruct rest as [|b rest]; [reflexivity|].
  change (joinWith sep ((a :: b :: rest) ++ [last]))
    with (a ++ sep ++ joinWith sep ((b :: rest) ++ [last])).
  rewrite IH by discriminate.
  change (joinWith sep (a :: b :: rest)) with (a ++ sep ++ joinWith sep (b :: rest)).
  now rewrite !append_assoc.
Qed.

Lemma climb_more_fuel (foldersMap : folders_map) (fuel : nat) :
  forall (parent : option folder_entry) (p r : string),
    climb fuel foldersMap parent p = Ok r ->
    climb (Datatypes.S fuel) foldersMap parent p = Ok r.
Proof.
  induction fuel as [|fuel IH]; intros [parent|] p r H;
    try discriminate; try exact H.
  simpl in H. apply IH in H. exact H.
Qed.

Lemma climb_plain (foldersMap : folders_map) (fuel : nat) :
  (forall id e, map_get foldersMap id = Some e -> plainSegment (name e) = true) ->
  forall (parent : option folder_entry) (segs : list string) (r : string),
    match parent with Some e => plainSegment (name e) = true | None => True end ->
    segs <> [] -> Forall (fun s => plainSegment s = true) segs ->
    climb fuel foldersMap parent (joinWith "/" segs) = Ok r ->
    exists pre : list string,
      forall segs' : list string,
        segs' <> [] -> Forall (fun s => plainSegment s = true) segs' ->
        climb fuel foldersMap parent (joinWith "/" segs')
        = Ok (joinWith "/" (pre ++ segs')%list).
Proof.
  intros Hplain.
  induction fuel as [|fuel IH]; intros [parent|] segs r Hparent Hne Hsegs H;
    try discriminate.
  - exists []. reflexivity.
  - simpl in H. rewrite (join_plain _ _ Hparent Hne Hsegs) in H.
    assert (match map_get foldersMap (folder parent) with
            | Some e => plainSegment (name e) = true
            | None => True
            end) as Hnext.
    { destruct (map_get foldersMap (folder parent)) eqn:E; [|exact I].
      exact (Hplain _ _ E). }
    destruct (IH _ (name parent :: segs) r Hnext) as (pre & Hpre);
      [discriminate|now constructor|exact H|].
    exists (pre ++ [name parent])%list. intros segs' Hne' Hsegs'.
    simpl. rewrite (join_plain _ _ Hparent Hne' Hsegs').
    rewrite <- app_assoc. apply Hpre; [discriminate|now constructor].
  - exists []. reflexivity.
Qed.

Lemma parent_path_prefix (fuel : nat) (raw idx : folders_map)
      (id : value) (child parent : folder_entry) :
  assignPaths fuel raw raw = Ok idx ->
  (forall i e, map_get raw i = Some e -> plainSegment (name e) = true) ->
  map_get idx id = Some child ->
  map_get idx (folder child) = Some parent ->
  exists parentPath : string,
    path parent = Some parentPath
    /\ path child = Some (parentPath ++ "/" ++ name child).
Proof.
  intros Hassign Hraw Hchild Hparent.
  destruct (index_entry _ _ _ _ _ Hassign Hchild)
    as (ec & pc & Hec & Hnc & Hfc & Hpc & Hclimbc).
  destruct (index_entry _ _ _ _ _ Hassign Hparent)
    as (ep & pp & Hep & Hnp & Hfp & Hpp & Hclimbp).
  exists pp. split; [exact Hpp|]. rewrite Hpc. f_equal.
  unfold folderPath in Hclimbc, Hclimbp.
  rewrite <- Hfc, Hep in Hclimbc.
  destruct fuel as [|fuel]; [discriminate|]. simpl in Hclimbc.
  pose proof (Hraw _ _ Hep) as Hpname. pose proof (Hraw _ _ Hec) as Hcname.
  assert (match map_get raw (folder ep) with
          | Some e => plainSegment (name e) = true
          | None => True
          end) as Hnext.
  { destruct (map_get raw (folder ep)) eqn:E; [|exact I]. exact (Hraw _ _ E). }
  change (name ec) with (joinWith "/" [name ec]) in Hclimbc.
  rewrite join_plain in Hclimbc;
    [|exact Hpname|discriminate|now repeat constructor].
  destruct (climb_plain raw fuel Hraw _ [name ep; name ec] pc Hnext)
    as (pre & Hpre); [discriminate|now repeat constructor|exact Hclimbc|].
  pose proof (Hpre [name ep; name ec]) as Hc.
  rewrite Hclimbc in Hc. specialize (Hc ltac:(discriminate)
                                        ltac:(now repeat constructor)).
  pose proof (Hpre [name ep] ltac:(discriminate) ltac:(now repeat constructor))
    as Hp.
  apply climb_more_fuel in Hp. simpl joinWith in Hp at 1.
  rewrite Hclimbp in Hp. injection Hp as ->. injection Hc as ->.
  rewrite Hnc.
  change (pre ++ [name ep; name ec])%list
    with (pre ++ [name ep] ++ [name ec])%list.
  rewrite app_assoc, joinWith_snoc; [reflexivity|].
  destruct pre; discriminate.
Qed.

(** X12.  However deep the folders nest: when the first loop has ended,
    no chain of parents is longer than the budget of the second and the
    names it gave are plain path segments, the index is built, and in it
    the path of a folder whose parent is in the index is the path of
    that parent, a slash, and the folder's own name. *)
Theorem folder_path_extends_parent_path :
  forall (getSafeFilename : string -> string) (fuel : nat) (db : Level.store)
         (options : ExtractOptions) (raw : folders_map),
    folders options = true ->
    addFolders getSafeFilename (transformFolderName options) [] db = Ok raw ->
    endsWithin raw fuel = true ->
    forallb (fun entry => plainSegment (name (snd entry))) raw = true ->
    exists idx : folders_map,
      buildFolders getSafeFilename fuel db options = Ok idx
      /\ forall (id : value) (child parent : folder_entry),
           map_get idx id = Some child ->
           map_get idx (folder child) = Some parent ->
           exists parentPath : string,
             path parent = Some parentPath
             /\ path child = Some (parentPath ++ "/" ++ name child).
Proof.
  intros gsf fuel db options raw Hon Hraw Hends Hall.
  destruct (buildFolders_returns _ _ _ _ _ Hon Hraw Hends) as (idx & Hidx).
  exists idx. split; [exact Hidx|].
  unfold buildFolders in Hidx. rewrite Hon, Hraw in Hidx. cbn [bind] in Hidx.
  intros id child parent Hchild Hparent.
  apply (parent_path_prefix fuel raw idx id child parent Hidx); auto.
  intros i e Hi. destruct (map_get_In _ _ _ Hi) as (k & Hin).
  rewrite forallb_forall in Hall. exact (Hall _ Hin).
Qed.

Lemma folder_path_extends_parent_path_witness :
  exists idx : folders_map,
    buildFolders asciiSafeFilename 5 folder_pack folder_options = Ok idx
    /\ forall (id : value) (child parent : folder_entry),
         map_get idx id = Some child ->
         map_get idx (folder child) = Some parent ->
         exists parentPath : string,
           path parent = Some parentPath
           /\ path child = Some (parentPath ++ "/" ++ name child).
Proof.
  apply (folder_path_extends_parent_path asciiSafeFilename 5 folder_pack
           folder_options
           [(VStr "fA", FolderEntry "A_fA" VNull None);
            (VStr "fB", FolderEntry "B_fB" (VStr "fA") None);
            (VStr "fC", FolderEntry "C_fC" (VStr "fB") None)]);
    reflexivity.
Defined.

(* ------------------------------------------------------------------ *)
(** ** Extracting and compiling again *)

Lemma depth_field (fields : list (string * value)) (k : string) (w : value) :
  In (k, w) fields -> depth w <= fieldsDepth fields.
Proof.
  unfold fieldsDepth.
  induction fields as [|[k' w'] rest IH]; simpl; intros H; [contradiction|].
  destruct H as [H|H]; [injection H as _ ->; lia|].
  specialize (IH H). lia.
Qed.

Lemma jsonRoundTrip_stable_upto (n : nat) :
  forall v : value, depth v <= n -> isJson v = true -> jsonRoundTrip v = v.
Proof.
  induction n as [|n IH]; intros v Hdepth Hjson.
  - destruct v; simpl in *; try reflexivity; try discriminate; lia.
  - destruct v as [| | | | |elems|fields]; try reflexivity; try discriminate.
    + rewrite depth_arr in Hdepth. simpl in Hjson. simpl. f_equal.
      assert (forall e, In e elems -> depth e <= n) as Hbound.
      { intros e He. pose proof (depth_elem _ _ He). lia. }
      clear Hdepth.
      induction elems as [|e rest IHe]; [reflexivity|].
      simpl in Hjson. apply andb_prop in Hjson. destruct Hjson as [He Hrest].
      simpl. rewrite (IH e); [|apply Hbound; now left|exact He].
      f_equal. apply IHe; [exact Hrest|]. intros x Hx. apply Hbound. now right.
    + rewrite depth_obj in Hdepth. simpl in Hjson. simpl. f_equal.
      assert (forall k w, In (k, w) fields -> depth w <= n) as Hbound.
      { intros k w Hw. pose proof (depth_field _ _ _ Hw). lia. }
      clear Hdepth.
      induction fields as [|[k w] rest IHf]; [reflexivity|].
      simpl in Hjson. apply andb_prop in Hjson. destruct Hjson as [Hw Hrest].
      rewrite IHf; [|exact Hrest|intros k' w' H'; apply (Hbound k'); now right].
      rewrite (IH w); [|apply (Hbound k); now left|exact Hw].
      destruct w; try reflexivity. discriminate.
Qed.

Lemma jsonRoundTrip_stable (v : value) :
  isJson v = true -> jsonRoundTrip v = v.
Proof. apply (jsonRoundTrip_stable_upto (depth v)). lia. Qed.

Lemma isJson_assign (fields : list (string * value)) (name : string) (v : value) :
  isJson (VObj fields) = true -> isJson v = true ->
  isJson (VObj (assign fields name v)) = true.
Proof.
  simpl. induction fields as [|[k w] rest IH]; simpl; intros Hf Hv.
  - now rewrite Hv.
  - apply andb_prop in Hf. destruct Hf as [Hw Hrest].
    destruct (String.eqb k name); simpl.
    + now rewrite Hv, Hrest.
    + now rewrite Hw, IH.
Qed.

Lemma remove_assign_fresh (fields : list (string * value)) (name : string)
      (v : value) :
  lookup fields name = None -> remove (assign fields name v) name = fields.
Proof.
  induction fields as [|[k w] rest IH]; simpl; intros H.
  - now rewrite String.eqb_refl.
  - destruct (String.eqb k name) eqn:E; [discriminate|].
    simpl. rewrite E. now rewrite IH.
Qed.

Lemma join_split (c : ascii) (s : string) :
  joinWith (String c "") (split c s) = s.
Proof.
  induction s as [|a rest IH]; [reflexivity|].
  simpl split. destruct (Ascii.eqb a c) eqn:E.
  - apply Ascii.eqb_eq in E. subst a.
    destruct (split c rest) as [|hd tl] eqn:Hs; [simpl in IH; now subst|].
    change (joinWith (String c "") ("" :: hd :: tl))
      with (String c (joinWith (String c "") (hd :: tl))).
    now rewrite IH.
  - destruct (split c rest) as [|hd tl] eqn:Hs; [simpl in IH; now subst|].
    destruct tl as [|x tl]; [simpl in *; congruence|].
    change (joinWith (String c "") (String a hd :: x :: tl))
      with (String a (joinWith (String c "") (hd :: x :: tl))).
    now rewrite IH.
Qed.

(** What [flatEntry] says, spelled out. *)
Lemma flatEntry_inv (entry : string * value) :
  flatEntry entry = true ->
  exists c id fields,
    entry = ("!" ++ c ++ "!" ++ id, VObj fields)
    /\ split "!"%char (fst entry) = [""; c; id]
    /\ c <> "" /\ includes "."%char c = false /\ hierarchyOf (Some c) = []
    /\ id <> "" /\ fieldOf fields "_id" = VStr id
    /\ lookup fields "_key" = None /\ isJson (VObj fields) = true.
Proof.
  destruct entry as [key doc]. unfold flatEntry. simpl fst. simpl snd.
  destruct (split "!"%char key) as [|before [|c [|id [|x rest]]]] eqn:Hsplit;
    try discriminate.
  destruct doc as [| | | | | |fields]; try discriminate.
  intros H.
  apply andb_prop in H. destruct H as [H Hjson].
  apply andb_prop in H. destruct H as [H Hkey].
  apply andb_prop in H. destruct H as [H Hdoc].
  apply andb_prop in H. destruct H as [H Hid].
  apply andb_prop in H. destruct H as [H Hflat].
  apply andb_prop in H. destruct H as [H Hdot].
  apply andb_prop in H. destruct H as [H Hc].
  apply String.eqb_eq in H. subst before.
  exists c, id, fields.
  pose proof (join_split "!"%char key) as Hjoin. rewrite Hsplit in Hjoin.
  simpl in Hjoin.
  repeat split; auto.
  - now rewrite <- Hjoin.
  - intros ->. discriminate.
  - now apply negb_true_iff.
  - destruct (hierarchyOf (Some c)); [reflexivity|discriminate].
  - intros ->. discriminate.
  - destruct (fieldOf fields "_id"); try discriminate.
    apply String.eqb_eq in Hdoc. now subst.
  - destruct (lookup fields "_key"); [discriminate|reflexivity].
Qed.

Lemma bind_unit {A B : Type} (a : A) (k : A -> outcome B) :
  bind (Ok a) k = k a.
Proof. reflexivity. Qed.

Lemma applyHierarchy_flat {S : Type} (fn : visitor S) (fuel : nat)
      (doc : value) (c : string) (st : S) :
  hierarchyOf (Some c) = [] ->
  applyHierarchy fn (Datatypes.S fuel) doc (Some c) VUndef st
  = ('(doc, _, st) <- fn doc (Some c) (VObj []) st ;; Ok (doc, st)).
Proof.
  intros Hflat.
  change (applyHierarchy fn (Datatypes.S fuel) doc (Some c) VUndef st)
    with ('(doc, newOptions, st) <- fn doc (Some c) (VObj []) st ;;
          applyFields
            (fun d name =>
               applyHierarchy fn fuel d (Some name) (orElse newOptions (VObj [])))
            (hierarchyOf (Some c)) doc st).
  rewrite Hflat. reflexivity.
Qed.

Lemma unpackDoc_flat (m : Level.miss) (db : Level.store) (fuel : nat)
      (fields : list (string * value)) (c id : string) :
  c <> "" -> id <> "" -> hierarchyOf (Some c) = [] ->
  fieldOf fields "_id" = VStr id ->
  unpackDoc m db (Datatypes.S fuel) (VObj fields) c
  = Ok (VObj (assign fields "_key" (VStr ("!" ++ c ++ "!" ++ id)))).
Proof.
  intros Hc Hid Hflat Hdoc.
  unfold unpackDoc. rewrite (applyHierarchy_flat _ _ _ _ _ Hflat).
  unfold unpackVisitor.
  rewrite !get_obj, Hdoc. unfold fieldOf. simpl lookup. cbv iota.
  rewrite !bind_unit. simpl ofCollection.
  rewrite (keyJoin_single c Hc), (keyJoin_single id Hid).
  simpl Js.set. rewrite bind_unit.
  unfold mapHierarchy. rewrite Hflat. reflexivity.
Qed.

Lemma flat_primary (entry : string * value) :
  flatEntry entry = true -> embeddedKey (fst entry) = false.
Proof.
  intros Hentry.
  destruct (flatEntry_inv _ Hentry)
    as (c & id & fields & _ & Hsplit & _ & Hdot & _).
  unfold embeddedKey. rewrite Hsplit. exact Hdot.
Qed.

Lemma flat_all_primary (entries : list (string * value)) :
  forallb flatEntry entries = true ->
  filter (fun entry => negb (embeddedKey (fst entry))) entries = entries.
Proof.
  induction entries as [|entry rest IH]; intros H; [reflexivity|].
  simpl in H. apply andb_prop in H. destruct H as [Hentry Hrest].
  simpl. rewrite (flat_primary _ Hentry). simpl. now rewrite IH.
Qed.

Lemma flat_files getSafeFilename m db fuel dest options foldersMap :
  transformEntry options = None ->
  forall (entries files : list (string * value)),
    forallb flatEntry entries = true ->
    extractEntries getSafeFilename m db fuel dest options foldersMap entries
    = (files, Ok tt) ->
    map readBack files = map (fun entry => Some (keyed entry)) entries.
Proof.
  intros Hhook entries files Hflat H.
  pose proof (extractEntries_files _ _ _ _ _ _ _ Hhook _ _ H) as Hfiles.
  rewrite (flat_all_primary _ Hflat) in Hfiles.
  clear H. revert files Hfiles.
  induction entries as [|entry rest IH]; intros files Hfiles.
  - inversion Hfiles. reflexivity.
  - simpl in Hflat. apply andb_prop in Hflat. destruct Hflat as [Hentry Hrest].
    destruct (flatEntry_inv _ Hentry)
      as (c & id & fields & Heq & Hsplit & Hc & Hdot & Hh & Hid & Hdoc & Hkey & Hjson).
    inversion Hfiles as [|x file l files' (c' & Hc' & Hunpack) Hrest']; subst x l.
    subst files.
    rewrite Hsplit in Hc'. simpl in Hc'. injection Hc' as <-.
    assert (snd entry = VObj fields) as Hsnd by now rewrite Heq.
    assert (fst entry = "!" ++ c ++ "!" ++ id) as Hfst by now rewrite Heq.
    rewrite Hsnd in Hunpack.
    destruct fuel as [|fuel]; [discriminate|].
    rewrite (unpackDoc_flat m db fuel fields c id Hc Hid Hh Hdoc) in Hunpack.
    injection Hunpack as Hfile.
    simpl map. rewrite (IH Hrest _ Hrest'). f_equal.
    unfold readBack, keyed. rewrite <- Hfile, Hsnd, Hfst.
    f_equal. apply jsonRoundTrip_stable. now apply isJson_assign.
Qed.

Lemma packFile_flat (st : pack_state) (file : source_file)
      (entry : string * value) :
  flatEntry entry = true ->
  set_has (seenKeys st) (VStr (fst entry)) = false ->
  file_doc file = Some (keyed entry) ->
  packFile None st file
  = Ok (PackState (VStr (fst entry) :: seenKeys st)
          (batch st ++ [Level.Put (fst entry) (snd entry)])).
Proof.
  intros Hentry Hnew Hfile.
  destruct (flatEntry_inv _ Hentry)
    as (c & id & fields & Heq & Hsplit & Hc & Hdot & Hh & Hid & Hdoc & Hkey & Hjson).
  assert (snd entry = VObj fields) as Hsnd by now rewrite Heq.
  unfold keyed in Hfile. rewrite Hsnd in *.
  unfold packFile. rewrite Hfile.
  unfold collectionOf. rewrite get_obj. unfold fieldOf at 1.
  rewrite lookup_assign_same. unfold bind at 2. rewrite Hsplit.
  simpl nth_error. unfold bind at 1. simpl callTransformEntry. unfold bind at 1.
  unfold packDoc. rewrite (applyHierarchy_flat _ _ _ _ _ Hh).
  unfold packVisitor.
  rewrite get_obj. unfold fieldOf at 1. rewrite lookup_assign_same.
  rewrite bind_unit, Hnew.
  unfold mapHierarchy. rewrite Hh. simpl mapFields. rewrite bind_unit.
  simpl Js.delete. rewrite (remove_assign_fresh _ _ _ Hkey).
  unfold Level.batch_put. simpl nullish. cbv iota.
  rewrite (jsonRoundTrip_stable _ Hjson). reflexivity.
Qed.

Lemma packFiles_flat :
  forall (entries : list (string * value)) (sources : list source_file)
         (st : pack_state),
    forallb flatEntry entries = true ->
    NoDup (map fst entries) ->
    (forall k, In k (map fst entries) -> set_has (seenKeys st) (VStr k) = false) ->
    map file_doc sources = map (fun entry => Some (keyed entry)) entries ->
    packFiles None st sources
    = Ok (PackState
            (rev (map (fun entry => VStr (fst entry)) entries) ++ seenKeys st)
            (batch st ++ map (fun entry => Level.Put (fst entry) (snd entry))
                           entries)).
Proof.
  induction entries as [|entry rest IH]; intros sources st Hflat Hnd Hnew Hdocs.
  - destruct sources; [|discriminate]. simpl. rewrite app_nil_r.
    now destruct st.
  - destruct sources as [|file sources]; [discriminate|].
    simpl in Hdocs. injection Hdocs as Hfile Hdocs.
    simpl in Hflat. apply andb_prop in Hflat. destruct Hflat as [Hentry Hrest].
    simpl in Hnd. inversion Hnd as [|? ? Hfresh Hnd']; subst.
    simpl packFiles.
    rewrite (packFile_flat st file entry Hentry (Hnew _ (or_introl eq_refl)) Hfile).
    rewrite bind_unit. rewrite (IH sources _ Hrest Hnd'); [|  |exact Hdocs].
    + simpl seenKeys. simpl batch. simpl map. simpl rev.
      rewrite <- !app_assoc. reflexivity.
    + intros k Hk. simpl seenKeys. unfold set_has. simpl existsb.
      fold (set_has (seenKeys st) (VStr k)).
      rewrite (Hnew k (or_intror Hk)), orb_false_r.
      apply String.eqb_neq. intros ->. contradiction.
Qed.

Lemma sorted_NoDup (ks : list string) : Level.sorted ks -> NoDup ks.
Proof.
  induction ks as [|k rest IH]; simpl; intros H; constructor.
  - destruct H as [Hlt _]. intros Hin.
    rewrite Forall_forall in Hlt. exact (key_lt_irrefl _ (Hlt _ Hin)).
  - apply IH, H.
Qed.

Lemma find_In (db : Level.store) (k : string) (v : value) :
  Level.find db k = Some v -> In (k, v) db.
Proof.
  induction db as [|[k' w] rest IH]; simpl; [discriminate|].
  destruct (String.eqb k' k) eqn:E.
  - apply String.eqb_eq in E. intros H. injection H as ->. subst. now left.
  - intros H. right. auto.
Qed.

(** X13.  A pack of documents without embedded collections survives
    being extracted and compiled again: when every entry of the store is
    such a document under its own key, no [transformEntry] is given and
    the extraction succeeds, compiling the documents it wrote, read back
    as JSON and taken in any order, into any store leaves exactly the store
    that was extracted. *)
Theorem flat_pack_round_trip :
  forall (getSafeFilename : string -> string) (m : Level.miss)
         (db : Level.store) (fuel : nat) (dest : string)
         (options : ExtractOptions) (files : list (string * value))
         (sources : list source_file) (previous : Level.store),
    Level.well_formed db -> Level.well_formed previous ->
    forallb flatEntry db = true ->
    transformEntry options = None ->
    extractClassicLevel getSafeFilename m db fuel dest options = (files, Ok tt) ->
    Permutation (map file_doc sources) (map readBack files) ->
    compileClassicLevel previous sources None
    = (Ok (Level.compactClassicLevel db), db).
Proof.
  intros gsf m db fuel dest options files sources previous
         Hwf Hprev Hflat Hhook Hextract Hperm.
  unfold extractClassicLevel in Hextract.
  destruct (buildFolders gsf fuel db options) as [idx| |]; try discriminate.
  rewrite (flat_files _ _ _ _ _ _ _ Hhook _ _ Hflat Hextract) in Hperm.
  apply Permutation_map_inv in Hperm.
  destruct Hperm as (entries & Hdocs & Hentries).
  assert (forallb flatEntry entries = true) as Hflat'.
  { rewrite forallb_forall in *. intros x Hx. apply Hflat.
    eapply Permutation_in; [symmetry; exact Hentries|exact Hx]. }
  assert (NoDup (map fst entries)) as Hnd.
  { eapply Permutation_NoDup; [apply Permutation_map; exact Hentries|].
    now apply sorted_NoDup. }
  pose proof (packFiles_flat entries sources pack_init Hflat' Hnd
                (fun _ _ => eq_refl) Hdocs) as Hrun.
  simpl seenKeys in Hrun. simpl batch in Hrun. rewrite app_nil_r in Hrun.
  simpl app in Hrun.
  pose proof (run_invariant _ _ _ Hrun) as Hinv.
  unfold compileClassicLevel. rewrite Hrun.
  cbv zeta. set (st := PackState _ _) in *.
  assert (forallb isString (seenKeys st) = true) as Hstr.
  { subst st. simpl. rewrite forallb_forall. intros x Hx.
    apply in_rev, in_map_iff in Hx. destruct Hx as (e & <- & _). reflexivity. }
  assert (Level.batch_write previous
            (removeStale (seenKeys st) (batch st) (Level.keys previous)) = db)
    as ->; [|reflexivity].
  apply store_ext; [now apply batch_write_well_formed|exact Hwf|].
  intros k. destruct (Level.find db k) as [v|] eqn:Hfind.
  - apply final_write_find; [exact Hinv|exact Hstr|].
    subst st. simpl. apply in_map_iff. exists (k, v). split; [reflexivity|].
    eapply Permutation_in; [exact Hentries|now apply find_In].
  - destruct (Level.find (Level.batch_write previous
                 (removeStale (seenKeys st) (batch st) (Level.keys previous))) k)
      as [v|] eqn:Hfound; [|reflexivity].
    exfalso.
    assert (In k (Level.keys (Level.batch_write previous
              (removeStale (seenKeys st) (batch st) (Level.keys previous)))))
      as Hk by (apply find_keys; congruence).
    destruct (final_write_keys _ _ _ Hinv Hk) as (key & Hseen & ->).
    subst st. simpl in Hseen. apply in_rev, in_map_iff in Hseen.
    destruct Hseen as (e & <- & He). simpl in Hfind.
    assert (In (fst e) (Level.keys db)) as Hin.
    { unfold Level.keys. apply in_map.
      eapply Permutation_in; [symmetry; exact Hentries|exact He]. }
    apply find_keys in Hin. contradiction.
Qed.

Lemma flat_pack_round_trip_witness :
  compileClassicLevel old_pack
    [SourceFile "out/Rest_m2.json"
       (Some (VObj [("_id", VStr "m2"); ("name", VStr "Rest");
                    ("args", VArr [VNum 1; VNull]);
                    ("_key", VStr "!macros!m2")]));
     SourceFile "out/Roll_m1.json"
       (Some (VObj [("_id", VStr "m1"); ("name", VStr "Roll");
                    ("_key", VStr "!macros!m1")]))]
    None
  = (Ok (Level.compactClassicLevel macro_pack), macro_pack).
Proof.
  apply (flat_pack_round_trip asciiSafeFilename Level.classic_level_2
           macro_pack 3 "out" plain_options
           (fst (extractClassicLevel asciiSafeFilename Level.classic_level_2
                   macro_pack 3 "out" plain_options))).
  - unfold Level.well_formed. vm_compute. repeat constructor.
  - unfold Level.well_formed. vm_compute. repeat constructor.
  - reflexivity.
  - reflexivity.
  - reflexivity.
  - vm_compute. apply perm_swap.
Defined.

(* ------------------------------------------------------------------ *)
(** ** Safe file names *)

Lemma safeChar_replaced (a : ascii) :
  safeChar (if alphanumeric a then a else "_"%char) = true.
Proof.
  unfold safeChar. destruct (alphanumeric a) eqn:E; [now rewrite E|reflexivity].
Qed.

Lemma safe_chars (s : string) :
  forallb safeChar (list_ascii_of_string (asciiSafeFilename s)) = true.
Proof.
  induction s as [|a rest IH]; [reflexivity|].
  simpl. now rewrite safeChar_replaced, IH.
Qed.

Lemma safe_no_separator (s : string) :
  forallb safeChar (list_ascii_of_string s) = true ->
  includes "/"%char s = false /\ includes "."%char s = false.
Proof.
  induction s as [|a rest IH]; simpl; intros H; [auto|].
  apply andb_prop in H. destruct H as [Ha Hrest].
  destruct (IH Hrest) as [-> ->]. rewrite !orb_false_r.
  split.
  - destruct (Ascii.eqb a "/") eqn:E; [|reflexivity].
    apply Ascii.eqb_eq in E. subst a. discriminate.
  - destruct (Ascii.eqb a ".") eqn:E; [|reflexivity].
    apply Ascii.eqb_eq in E. subst a. discriminate.
Qed.

Lemma safe_fixed (s : string) :
  forallb safeChar (list_ascii_of_string s) = true -> asciiSafeFilename s = s.
Proof.
  induction s as [|a rest IH]; simpl; intros H; [reflexivity|].
  apply andb_prop in H. destruct H as [Ha Hrest]. rewrite (IH Hrest).
  unfold safeChar in Ha. destruct (alphanumeric a); [reflexivity|].
  simpl in Ha. apply Ascii.eqb_eq in Ha. now subst.
Qed.

(** X14.  On an ASCII name [getSafeFilename] keeps the length of the
    name and leaves only letters, digits and underscores: no slash and no
    dot, so that a non-empty name becomes a path segment [path.join] takes
    as it is.  A name that is already of that form is returned unchanged,
    and sanitising twice is sanitising once. *)
Theorem safe_filename_is_a_plain_segment :
  forall s : string,
    isAscii s = true ->
    String.length (asciiSafeFilename s) = String.length s
    /\ forallb safeChar (list_ascii_of_string (asciiSafeFilename s)) = true
    /\ (s <> "" -> plainSegment (asciiSafeFilename s) = true)
    /\ (forallb safeChar (list_ascii_of_string s) = true ->
        asciiSafeFilename s = s)
    /\ asciiSafeFilename (asciiSafeFilename s) = asciiSafeFilename s.
Proof.
  intros s _. repeat split.
  - induction s as [|a rest IH]; simpl; congruence.
  - apply safe_chars.
  - intros Hs. pose proof (safe_no_separator _ (safe_chars s)) as [Hslash Hdot].
    unfold plainSegment, Path.is_dot, Path.is_dotdot.
    rewrite Hslash. destruct s as [|a rest]; [congruence|].
    simpl in Hdot. apply orb_false_iff in Hdot. destruct Hdot as [Hfirst _].
    simpl asciiSafeFilename.
    set (b := if alphanumeric a then a else "_"%char) in *.
    assert (String.eqb (String b (asciiSafeFilename rest)) "." = false) as ->.
    { simpl. now rewrite Hfirst. }
    assert (String.eqb (String b (asciiSafeFilename rest)) ".." = false) as ->.
    { simpl. now rewrite Hfirst. }
    reflexivity.
  - apply safe_fixed.
  - apply safe_fixed, safe_chars.
Qed.

Lemma safe_filename_is_a_plain_segment_witness :
  String.length (asciiSafeFilename "../Fire Bolt") = String.length "../Fire Bolt"
  /\ forallb safeChar (list_ascii_of_string (asciiSafeFilename "../Fire Bolt"))
     = true
  /\ ("../Fire Bolt" <> "" -> plainSegment (asciiSafeFilename "../Fire Bolt") = true)
  /\ (forallb safeChar (list_ascii_of_string "../Fire Bolt") = true ->
      asciiSafeFilename "../Fire Bolt" = "../Fire Bolt")
  /\ asciiSafeFilename (asciiSafeFilename "../Fire Bolt")
     = asciiSafeFilename "../Fire Bolt".
Proof.
  apply (safe_filename_is_a_plain_segment "../Fire Bolt"). reflexivity.
Defined.

(* ------------------------------------------------------------------ *)
(** ** The source files of a compile *)

Lemma findEntry_ext (extname : string -> string) (yaml recursive : bool) :
  forall (entry : dirent) (root p : string),
    In p (findEntry extname yaml recursive root entry) ->
    if yaml then isYamlExt (extname p) = true else extname p = ".json".
Proof.
  destruct yaml, recursive; fix IH 1;
    intros [name|name entries|name] root p H; simpl in H;
    try contradiction;
    try (clear IH;
         match type of H with
         | In _ (if ?c then _ else _) =>
             destruct c eqn:E; simpl in H; [|contradiction];
             destruct H as [<-|[]];
             first [exact E | now apply String.eqb_eq]
         end);
    try (induction entries as [|e rest IHrest]; simpl in H; [contradiction|];
         apply in_app_or in H; destruct H as [H|H];
         [exact (IH e _ _ H)|exact (IHrest H)]).
Qed.

Lemma findSourceFiles_ext (extname : string -> string) (root : string)
      (entries : list dirent) (yaml recursive : bool) (p : string) :
  In p (findSourceFiles extname root entries yaml recursive) ->
  if yaml then isYamlExt (extname p) = true else extname p = ".json".
Proof.
  unfold findSourceFiles. intros H. apply in_flat_map in H.
  destruct H as (e & _ & H). exact (findEntry_ext _ _ _ _ _ _ H).
Qed.

(** X15.  [findSourceFiles] returns files of the asked format only:
    every path it returns has the extension [.json] when [yaml] is off,
    and [.yml] or [.yaml] when it is on, whether it looks into the
    sub-directories or not.  No path is found under both settings. *)
Theorem found_files_have_the_asked_extension :
  forall (extname : string -> string) (root : string) (entries : list dirent)
         (yaml recursive : bool) (p : string),
    In p (findSourceFiles extname root entries yaml recursive) ->
    (if yaml then extname p = ".yml" \/ extname p = ".yaml"
     else extname p = ".json")
    /\ forall recursive' : bool,
         ~ In p (findSourceFiles extname root entries (negb yaml) recursive').
Proof.
  intros extname root entries yaml recursive p H.
  pose proof (findSourceFiles_ext _ _ _ _ _ _ H) as Hext.
  split.
  - destruct yaml; [|exact Hext].
    unfold isYamlExt in Hext. apply orb_prop in Hext.
    destruct Hext as [E|E]; apply String.eqb_eq in E; auto.
  - intros recursive' H'.
    pose proof (findSourceFiles_ext _ _ _ _ _ _ H') as Hext'.
    destruct yaml; simpl in Hext'.
    + rewrite Hext' in Hext. discriminate.
    + rewrite Hext in Hext'. discriminate.
Qed.

Lemma found_files_have_the_asked_extension_witness :
  (posixExtname "packs/spells.json/Ward_s2.yaml" = ".yml"
   \/ posixExtname "packs/spells.json/Ward_s2.yaml" = ".yaml")
  /\ forall recursive' : bool,
       ~ In "packs/spells.json/Ward_s2.yaml"
           (findSourceFiles posixExtname "packs" sample_src (negb true)
              recursive').
Proof.
  apply (found_files_have_the_asked_extension posixExtname "packs" sample_src
           true true "packs/spells.json/Ward_s2.yaml").
  vm_compute. right. left. reflexivity.
Defined.

Lemma findEntry_recursive (extname : string -> string) (yaml : bool)
      (root : string) (entry : dirent) (p : string) :
  In p (findEntry extname yaml false root entry) ->
  In p (findEntry extname yaml true root entry)
  /\ exists name, entry = File name /\ p = Path.join root name.
Proof.
  destruct entry as [name|name entries|name]; simpl; try contradiction.
  intros H. split; [exact H|]. exists name. split; [reflexivity|].
  destruct (yaml && isYamlExt (extname (Path.join root name)));
    [destruct H as [<-|[]]; reflexivity|].
  destruct (negb yaml && String.eqb (extname (Path.join root name)) ".json");
    [destruct H as [<-|[]]; reflexivity|contradiction].
Qed.

(** X16.  Without [recursive], [findSourceFiles] returns files of the
    root directory only, each under the path [path.join] makes of the root
    and its name: a directory is passed over, whatever its name.  With
    [recursive] it finds all of these and more. *)
Theorem recursive_search_extends_the_flat_one :
  forall (extname : string -> string) (root : string) (entries : list dirent)
         (yaml : bool) (p : string),
    In p (findSourceFiles extname root entries yaml false) ->
    (exists name : string, In (File name) entries /\ p = Path.join root name)
    /\ In p (findSourceFiles extname root entries yaml true).
Proof.
  intros extname root entries yaml p H. unfold findSourceFiles in *.
  apply in_flat_map in H. destruct H as (e & He & H).
  destruct (findEntry_recursive _ _ _ _ _ H) as (Hrec & name & -> & ->).
  split; [eauto|]. apply in_flat_map. eauto.
Qed.

Lemma recursive_search_extends_the_flat_one_witness :
  (exists name : string,
      In (File name) sample_src /\ "packs/Hero_abc.json" = Path.join "packs" name)
  /\ In "packs/Hero_abc.json"
       (findSourceFiles posixExtname "packs" sample_src false true).
Proof.
  apply (recursive_search_extends_the_flat_one posixExtname "packs" sample_src
           false "packs/Hero_abc.json").
  vm_compute. left. reflexivity.
Defined.

(** X17.  [compilePack] reads every file with the parser its [yaml]
    option stands for: with [yaml] off [YAML.load] is never called, with
    [yaml] on [JSON.parse] is never called, so the parser that is not
    asked for can be any function without the run or the pack changing.
    The files come from [findSourceFiles], the parser is chosen again in
    [compileClassicLevel] from the extension: the two agree. *)
Theorem yaml_option_selects_the_parser :
  forall (extname : string -> string) (readFileSync : string -> option string)
         (JSON_parse YAML_load other : string -> option value)
         (src : string) (entries : list dirent) (db : Level.store)
         (options : CompileOptions),
    compilePack extname readFileSync JSON_parse YAML_load src entries db options
    = compilePack extname readFileSync
        (if compile_yaml options then other else JSON_parse)
        (if compile_yaml options then YAML_load else other)
        src entries db options.
Proof.
  intros extname readFileSync JSON_parse YAML_load other src entries db options.
  unfold compilePack. destruct (compile_nedb options); [reflexivity|].
  f_equal. f_equal. apply map_ext_in. intros file Hfile.
  apply findSourceFiles_ext in Hfile. unfold readSource. f_equal.
  destruct (readFileSync file) as [contents|]; [|reflexivity].
  destruct (compile_yaml options).
  - now rewrite Hfile.
  - rewrite Hfile. reflexivity.
Qed.

(* ------------------------------------------------------------------ *)
(** ** The configuration file, the package information, the launch *)

Lemma firstExisting_spec (pathExists : string -> bool) (searchPaths : list string)
      (p : string) :
  firstExisting pathExists searchPaths = Some p ->
  pathExists p = true /\ In p searchPaths.
Proof.
  induction searchPaths as [|q rest IH]; simpl; [discriminate|].
  destruct (pathExists q) eqn:E.
  - intros H. injection H as <-. auto.
  - intros H. destruct (IH H). auto.
Qed.

Lemma firstExisting_app (pathExists : string -> bool) (a b : list string) :
  existsb pathExists a = true ->
  firstExisting pathExists (a ++ b) = firstExisting pathExists a.
Proof.
  induction a as [|q rest IH]; simpl; [discriminate|].
  destruct (pathExists q); simpl; auto.
Qed.

Lemma getSearchPaths_nonempty (platform rootPath p : string) :
  In p (getSearchPaths platform rootPath) -> p <> "".
Proof.
  unfold getSearchPaths. intros H.
  assert (exists name, p = Path.join rootPath name) as (name & ->).
  { destruct (osName platform); simpl in H;
      repeat (destruct H as [<-|H]; [eauto|]); contradiction. }
  apply join_nonempty.
Qed.

(** X18.  [getFoundryConfigPath] answers with a path that exists and is
    never the empty string.  A generic [foundryconfig.yml], [.yaml] or
    [.json] comes before the file of the platform: as soon as one of the
    three exists the answer is the first of them in that order, the same
    on every platform. *)
Theorem generic_config_file_comes_first :
  forall (pathExists : string -> bool) (platform rootPath : string),
    (forall p : string,
        getFoundryConfigPath pathExists platform rootPath = inr p ->
        pathExists p = true /\ p <> "")
    /\ (existsb pathExists
          [Path.join rootPath "foundryconfig.yml";
           Path.join rootPath "foundryconfig.yaml";
           Path.join rootPath "foundryconfig.json"] = true ->
        forall other : string,
          getFoundryConfigPath pathExists other rootPath
          = getFoundryConfigPath pathExists platform rootPath
          /\ firstExisting pathExists
               [Path.join rootPath "foundryconfig.yml";
                Path.join rootPath "foundryconfig.yaml";
                Path.join rootPath "foundryconfig.json"]
             = match getFoundryConfigPath pathExists platform rootPath with
               | inr p => Some p
               | inl _ => None
               end).
Proof.
  intros pathExists platform rootPath. split.
  - intros p H. unfold getFoundryConfigPath in H.
    destruct (firstExisting pathExists (getSearchPaths platform rootPath))
      as [q|] eqn:E; [|discriminate].
    injection H as ->. destruct (firstExisting_spec _ _ _ E) as [Hp Hin].
    split; [exact Hp|]. exact (getSearchPaths_nonempty _ _ _ Hin).
  - intros Hgeneric.
    assert (forall pf,
              firstExisting pathExists (getSearchPaths pf rootPath)
              = firstExisting pathExists
                  [Path.join rootPath "foundryconfig.yml";
                   Path.join rootPath "foundryconfig.yaml";
                   Path.join rootPath "foundryconfig.json"]) as Hsame.
    { intros pf. unfold getSearchPaths.
      destruct (osName pf); [|reflexivity].
      now apply firstExisting_app. }
    intros other. unfold getFoundryConfigPath. rewrite !Hsame.
    destruct (firstExisting pathExists _) as [p|] eqn:E; [auto|].
    exfalso. clear Hsame. simpl in Hgeneric, E.
    destruct (pathExists (Path.join rootPath "foundryconfig.yml"));
      [discriminate|].
    destruct (pathExists (Path.join rootPath "foundryconfig.yaml"));
      [discriminate|].
    destruct (pathExists (Path.join rootPath "foundryconfig.json"));
      discriminate.
Qed.

Lemma generic_config_file_comes_first_witness :
  getFoundryConfigPath (String.eqb "pkg/foundryconfig.json") "win32" "pkg"
  = getFoundryConfigPath (String.eqb "pkg/foundryconfig.json") "linux" "pkg"
  /\ firstExisting (String.eqb "pkg/foundryconfig.json")
       [Path.join "pkg" "foundryconfig.yml";
        Path.join "pkg" "foundryconfig.yaml";
        Path.join "pkg" "foundryconfig.json"]
     = match getFoundryConfigPath (String.eqb "pkg/foundryconfig.json")
               "linux" "pkg" with
       | inr p => Some p
       | inl _ => None
       end.
Proof.
  apply (generic_config_file_comes_first (String.eqb "pkg/foundryconfig.json")
           "linux" "pkg").
  reflexivity.
Defined.

Lemma lookup_spread (props : list (string * value)) :
  NoDup (map fst props) ->
  forall (target : list (string * value)) (name : string),
    lookup (fold_left (fun o kv => assign o (fst kv) (snd kv)) props target) name
    = match lookup props name with
      | Some w => Some w
      | None => lookup target name
      end.
Proof.
  induction props as [|[k v] rest IH]; intros Hnd target name; [reflexivity|].
  inversion Hnd as [|? ? Hfresh Hnd']; subst. simpl fold_left. rewrite (IH Hnd').
  simpl lookup. destruct (String.eqb k name) eqn:E.
  - apply String.eqb_eq in E. subst k.
    assert (lookup rest name = None) as ->.
    { destruct (lookup rest name) eqn:El; [|reflexivity]. exfalso.
      apply Hfresh. clear -El. induction rest as [|[k w] rest IH];
        simpl in *; [discriminate|].
      destruct (String.eqb k name) eqn:E; [apply String.eqb_eq in E; auto|auto]. }
    simpl. apply lookup_assign_same.
  - apply String.eqb_neq in E.
    destruct (lookup rest name); [reflexivity|].
    simpl. now apply lookup_assign_other.
Qed.

(** X19.  In what [getFoundryPackageInfo] returns, [path] is
    [<type>s/<id>/] and [prefixUrl] is that path behind a slash, with the
    type that was detected from the manifest and the [id] of the [foundry]
    section of [package.json]: a [path] or [prefixUrl] declared in that
    section is overwritten.  The [type] is the declared one when there is
    one, the detected one otherwise, and every other property is the
    declared one. *)
Theorem package_paths_follow_the_detected_type :
  forall (packageJson : value) (packageType : string) (info : value),
    getFoundryPackageInfo packageJson packageType = Ok info ->
    exists foundry id : value,
      Js.get packageJson "foundry" = Ok foundry
      /\ Js.get foundry "id" = Ok id
      /\ Js.get info "path"
         = Ok (VStr (packageType ++ "s/" ++ toString id ++ "/"))
      /\ Js.get info "prefixUrl"
         = Ok (VStr ("/" ++ packageType ++ "s/" ++ toString id ++ "/"))
      /\ (NoDup (map fst (ownProperties foundry)) ->
          forall name : string,
            name <> "path" -> name <> "prefixUrl" ->
            Js.get info name
            = Ok (match lookup (ownProperties foundry) name with
                  | Some declared => declared
                  | None => if String.eqb name "type" then VStr packageType
                            else VUndef
                  end)).
Proof.
  intros packageJson packageType info H. unfold getFoundryPackageInfo in H.
  inv_bind H as foundry Hfoundry. inv_bind H as id Hid.
  rewrite Hid in H. simpl in H. injection H as <-.
  exists foundry, id. repeat split; auto.
  - rewrite get_obj. unfold fieldOf.
    rewrite lookup_assign_other by discriminate.
    rewrite lookup_assign_same. f_equal. f_equal.
    now rewrite append_assoc.
  - rewrite get_obj. unfold fieldOf. rewrite lookup_assign_same.
    f_equal. f_equal. simpl. f_equal. now rewrite append_assoc.
  - intros Hnd name Hpath Hprefix. rewrite get_obj. unfold fieldOf.
    rewrite !lookup_assign_other by congruence.
    unfold spread. rewrite (lookup_spread _ Hnd).
    destruct (lookup (ownProperties foundry) name); [reflexivity|].
    change (lookup [("type", VStr packageType)] name)
      with (if String.eqb "type" name then Some (VStr packageType) else None).
    rewrite (String.eqb_sym name "type").
    destruct (String.eqb "type" name); reflexivity.
Qed.

Lemma package_paths_follow_the_detected_type_witness :
  exists foundry id : value,
    Js.get sample_package "foundry" = Ok foundry
    /\ Js.get foundry "id" = Ok id
    /\ Js.get (VObj [("type", VStr "module"); ("id", VStr "my-system");
                     ("title", VStr "My System");
                     ("path", VStr "systems/my-system/");
                     ("prefixUrl", VStr "/systems/my-system/")]) "path"
       = Ok (VStr ("system" ++ "s/" ++ toString id ++ "/"))
    /\ Js.get (VObj [("type", VStr "module"); ("id", VStr "my-system");
                     ("title", VStr "My System");
                     ("path", VStr "systems/my-system/");
                     ("prefixUrl", VStr "/systems/my-system/")]) "prefixUrl"
       = Ok (VStr ("/" ++ "system" ++ "s/" ++ toString id ++ "/"))
    /\ (NoDup (map fst (ownProperties foundry)) ->
        forall name : string,
          name <> "path" -> name <> "prefixUrl" ->
          Js.get (VObj [("type", VStr "module"); ("id", VStr "my-system");
                        ("title", VStr "My System");
                        ("path", VStr "systems/my-system/");
                        ("prefixUrl", VStr "/systems/my-system/")]) name
          = Ok (match lookup (ownProperties foundry) name with
                | Some declared => declared
                | None => if String.eqb name "type" then VStr "system"
                          else VUndef
                end)).
Proof.
  apply (package_paths_follow_the_detected_type sample_package "system").
  reflexivity.
Defined.

(** Once [resolvePath] has returned, every path was a string that
    [statSync] could examine, and the result holds those that are
    directories. *)
Lemma resolvePath_returns (host : Host) (paths : list value) :
  forall found : list string,
    resolvePath host paths = inr found ->
    paths = map VStr (texts paths)
    /\ (forall p, In p (texts paths) ->
                  host_isDirectory host (resolved host p) <> None)
    /\ found = flat_map (fun p => match host_isDirectory host (resolved host p) with
                                  | Some true => [resolved host p]
                                  | _ => []
                                  end) (texts paths).
Proof.
  induction paths as [|p rest IH]; intros found H.
  - injection H as <-. repeat split. intros p [].
  - destruct p; try discriminate. cbn [resolvePath] in H.
    destruct (host_isDirectory host (resolved host s)) as [directory|] eqn:Hdir;
      [|discriminate].
    destruct (resolvePath host rest) as [e|found'] eqn:Hrest; [discriminate|].
    injection H as <-. destruct (IH _ eq_refl) as (Hrest' & Hstat & Hfound).
    change (texts (VStr s :: rest)) with (s :: texts rest).
    split; [|split].
    + cbn [map]. now rewrite <- Hrest'.
    + intros p [<-|Hin]; [congruence|auto].
    + cbn [flat_map]. rewrite Hdir, Hfound. now destruct directory.
Qed.

(** A path [statSync] cannot examine makes [resolvePath] throw. *)
Lemma resolvePath_missing (host : Host) (before : list string) (p : string)
      (after : list value) :
  (forall q, In q before -> host_isDirectory host (resolved host q) <> None) ->
  host_isDirectory host (resolved host p) = None ->
  resolvePath host (map VStr before ++ VStr p :: after)
  = inl (StatError (resolved host p)).
Proof.
  intros Hbefore Hmissing.
  induction before as [|q before IH]; cbn [map app resolvePath].
  - now rewrite Hmissing.
  - destruct (host_isDirectory host (resolved host q)) eqn:Hq.
    + rewrite IH; [reflexivity|]. intros r Hr. apply Hbefore. now right.
    + exfalso. apply (Hbefore q); [now left|exact Hq].
Qed.

(** X20.  [launchFoundry] first awaits [getFoundryConfigInfo] and
    rejects with whatever that call rejects with: no configuration file
    found, a file that cannot be read or parsed, a configured path that is not
    a string, a path [statSync] cannot examine (a configured data path
    that does not exist, for one).  Once the call has returned, every
    configured path is one [statSync] could examine, the resolved paths
    are those of them that are directories, and [launchFoundry] itself
    fails only for a configuration that lists no installation path or,
    when no [dataPath] option is given, no data path: the test for paths
    that did not resolve is made on an array and never fires.  So when
    none of the configured installation paths is a directory, the server
    is launched all the same, with [undefined] for script.  The launch
    always passes eight arguments, and a [dataPath] option stands in for
    the configured data paths altogether. *)
Theorem launch_ignores_unresolved_paths :
  forall (host : Host) (rootPath : string) (options : LaunchOptions),
    (forall e : rejection,
        getFoundryConfigInfo host rootPath = inl e ->
        launchFoundry host rootPath options = inl e)
    /\ (forall e : failure,
           getFoundryConfigPath (host_pathExists host) (host_platform host)
             rootPath = inl e ->
           launchFoundry host rootPath options = inl (Thrown e))
    /\ (forall (foundryConfigPath : string) (before : list string) (p : string)
               (after : list value) (installPath : value),
           getFoundryConfigPath (host_pathExists host) (host_platform host)
             rootPath = inr foundryConfigPath ->
           foundryConfigPath <> "" ->
           host_extname host foundryConfigPath = ".json" ->
           host_readJSON host foundryConfigPath
           = Some (VObj [("dataPath", VArr (map VStr before ++ VStr p :: after));
                         ("installPath", installPath)]) ->
           (forall q, In q before ->
                      host_isDirectory host (resolved host q) <> None) ->
           host_isDirectory host (resolved host p) = None ->
           launchFoundry host rootPath options
           = inl (StatError (resolved host p)))
    /\ (forall foundryConfig : FoundryConfigInfo,
           getFoundryConfigInfo host rootPath = inr (Some foundryConfig) ->
           (forall p, In p (config_installPath foundryConfig
                            ++ config_dataPath foundryConfig)%list ->
                      host_isDirectory host (resolved host p) <> None)
           /\ resolvedInstallPath foundryConfig
              = flat_map (fun p => match host_isDirectory host (resolved host p) with
                                   | Some true => [resolved host p]
                                   | _ => []
                                   end) (config_installPath foundryConfig)
           /\ (forall e : rejection,
                  launchFoundry host rootPath options = inl e ->
                  (config_installPath foundryConfig = []
                   /\ e = Thrown (Failure
                        "No installation path set in Foundry VTT config file! Please add some."))
                  \/ (config_dataPath foundryConfig = []
                      /\ nullish (launch_dataPath options) = true
                      /\ e = Thrown (Failure
                           "No data path set in Foundry VTT config file! Please add some.")))
           /\ (forall args : list value,
                  launchFoundry host rootPath options = inr (Some args) ->
                  List.length args = 8
                  /\ (resolvedInstallPath foundryConfig = [] ->
                      nth 0 args VNull = VUndef)
                  /\ (nullish (launch_dataPath options) = false ->
                      nth 1 args VNull
                      = VStr ("--dataPath=" ++ toString (launch_dataPath options))))
           /\ (config_installPath foundryConfig <> [] ->
               nullish (launch_dataPath options) = false ->
               exists args : list value,
                 launchFoundry host rootPath options = inr (Some args))).
Proof.
  intros host rootPath options.
  split; [|split; [|split]].
  - intros e He. unfold launchFoundry. now rewrite He.
  - intros e He. unfold launchFoundry, getFoundryConfigInfo. now rewrite He.
  - intros cfgPath before p after installPath Hpath Hne Hext Hread Hbefore Hmissing.
    unfold launchFoundry, getFoundryConfigInfo.
    rewrite Hpath. apply String.eqb_neq in Hne. rewrite Hne, Hext.
    cbn [String.eqb Ascii.eqb Bool.eqb]. rewrite Hread.
    cbn [Js.get lookup String.eqb Ascii.eqb Bool.eqb assignable negb pathList
         orElse nullish].
    now rewrite (resolvePath_missing host before p after Hbefore Hmissing).
  - intros cfg Hinfo.
    assert (Hshape : exists dataPaths installPaths : list value,
               resolvePath host dataPaths = inr (resolvedDataPath cfg)
               /\ resolvePath host installPaths = inr (resolvedInstallPath cfg)
               /\ config_dataPath cfg = texts dataPaths
               /\ config_installPath cfg = texts installPaths).
    { unfold getFoundryConfigInfo in Hinfo.
      destruct (getFoundryConfigPath (host_pathExists host) (host_platform host)
                  rootPath) as [e|cfgPath]; [discriminate|].
      destruct (String.eqb cfgPath ""); [discriminate|].
      destruct (if String.eqb (host_extname host cfgPath) ".json"
                then host_readJSON host cfgPath else host_loadYAML host cfgPath)
        as [config|]; [|discriminate].
      destruct (Js.get config "dataPath") as [dataPaths| |]; try discriminate.
      destruct (negb (assignable config)); [discriminate|].
      destruct (resolvePath host (pathList dataPaths))
        as [e|resolvedData] eqn:Hdata; [discriminate|].
      destruct (Js.get config "installPath") as [installPaths| |];
        try discriminate.
      destruct (resolvePath host (pathList installPaths))
        as [e|resolvedInstall] eqn:Hinstall; [discriminate|].
      injection Hinfo as <-. cbn.
      exists (pathList dataPaths), (pathList installPaths). auto. }
    destruct Hshape as (dataPaths & installPaths & Hdata & Hinstall & Hcd & Hci).
    destruct (resolvePath_returns host _ _ Hdata) as (_ & Hstatd & _).
    destruct (resolvePath_returns host _ _ Hinstall) as (_ & Hstati & Hfound).
    split; [|split].
    { intros p Hp. apply in_app_or in Hp. destruct Hp as [Hp|Hp].
      - apply Hstati. now rewrite <- Hci.
      - apply Hstatd. now rewrite <- Hcd. }
    { rewrite Hci. exact Hfound. }
    unfold launchFoundry. rewrite Hinfo.
    unfold firstResolved.
    destruct (config_installPath cfg) as [|i is_] eqn:Hinstalled; simpl.
    + split; [|split].
      * intros e H. injection H as <-. left. auto.
      * intros args H. discriminate.
      * intros H. congruence.
    + destruct (nullish (launch_dataPath options)) eqn:Hnull.
      * destruct (config_dataPath cfg) as [|d ds] eqn:Hconfigured; simpl.
        -- split; [|split].
           ++ intros e H. injection H as <-. right. auto.
           ++ intros args H. discriminate.
           ++ intros _ H. discriminate.
        -- split; [|split].
           ++ intros e H. discriminate.
           ++ intros args H. injection H as <-. split; [reflexivity|].
              split; [|intros H; discriminate].
              intros ->. reflexivity.
           ++ intros _ H. discriminate.
      * split; [|split].
        -- intros e H. discriminate.
        -- intros args H. injection H as <-. split; [reflexivity|].
           split; [intros ->; reflexivity|]. intros _. reflexivity.
        -- intros _ _. eauto.
Qed.

Lemma launch_ignores_unresolved_paths_witness :
  launchFoundry sample_host "." sample_launch
  = inr (Some [VUndef; VStr "--dataPath=/srv/data"; VStr "--port=0"; VStr "";
               VStr "--world=demo-world"; VStr "--noupnp"; VStr ""; VStr ""])
  /\ List.length
       [VUndef; VStr "--dataPath=/srv/data"; VStr "--port=0"; VStr "";
        VStr "--world=demo-world"; VStr "--noupnp"; VStr ""; VStr ""] = 8
  /\ launchFoundry missing_host "." sample_launch = inl (StatError "/nowhere").
Proof.
  split; [reflexivity|]. split.
  - refine (proj1 (proj1 (proj2 (proj2 (proj2
             (proj2 (proj2 (proj2 (launch_ignores_unresolved_paths
                                     sample_host "." sample_launch)))
                _ eq_refl)))) _ eq_refl)).
  - refine (proj1 (proj2 (proj2 (launch_ignores_unresolved_paths missing_host "."
                                   sample_launch)))
              "foundryconfig.json" ["/srv/data"] "/nowhere" [] (VStr "/opt/foundry")
              eq_refl _ eq_refl eq_refl _ eq_refl).
    + discriminate.
    + intros q [<-|[]]. discriminate.
Defined.

(* ------------------------------------------------------------------ *)
(** ** The order of the source files *)

Lemma set_has_app (a b : list value) (k : value) :
  set_has (a ++ b) k = set_has a k || set_has b k.
Proof. unfold set_has. apply existsb_app. Qed.

Lemma transposable_ret {A : Type} (a : A) :
  transposable (fun st => Ok (a, st)).
Proof.
  intros st1 a' st1' H. injection H as <- <-. exists [], [].
  split; [destruct st1; simpl; now rewrite app_nil_r|].
  split; [intros k []|].
  intros st2 _. destruct st2; simpl. now rewrite app_nil_r.
Qed.

Lemma transposable_seq {A B : Type}
      (f : pack_state -> outcome (A * pack_state))
      (g : A -> pack_state -> outcome (B * pack_state)) :
  transposable f -> (forall a, transposable (g a)) ->
  transposable (fun st => '(a, st') <- f st ;; g a st').
Proof.
  intros Hf Hg st1 b st1' H. inv_bind H as r Hr. destruct r as [a stm].
  destruct (Hf _ _ _ Hr) as (new1 & puts1 & -> & Hfresh1 & Hrun1).
  destruct (Hg a _ _ _ H) as (new2 & puts2 & -> & Hfresh2 & Hrun2).
  simpl in *.
  exists (new2 ++ new1)%list, (puts1 ++ puts2)%list.
  split; [now rewrite <- !app_assoc|].
  split.
  - intros k Hk. apply in_app_or in Hk. destruct Hk as [Hk|Hk]; [|auto].
    specialize (Hfresh2 k Hk). rewrite set_has_app in Hfresh2.
    now apply orb_false_iff in Hfresh2.
  - intros st2 Hfresh. rewrite Hrun1 by (intros k Hk; apply Hfresh, in_or_app; auto).
    simpl. rewrite Hrun2.
    + simpl. now rewrite <- !app_assoc.
    + intros k Hk. simpl. rewrite set_has_app.
      specialize (Hfresh2 k Hk). rewrite set_has_app in Hfresh2.
      apply orb_false_iff in Hfresh2. destruct Hfresh2 as [-> _].
      simpl. apply Hfresh, in_or_app. auto.
Qed.

Lemma transposable_ext {A : Type}
      (f g : pack_state -> outcome (A * pack_state)) :
  (forall st, f st = g st) -> transposable f -> transposable g.
Proof.
  intros Heq Hf st1 a st1' H. rewrite <- Heq in H.
  destruct (Hf _ _ _ H) as (new & puts & E & Hfresh & Hrun).
  exists new, puts. repeat split; auto.
  intros st2 H2. rewrite <- Heq. auto.
Qed.

Lemma transposable_visitor doc collection options :
  transposable (fun st =>
    '(doc, newOptions, st) <- packVisitor doc collection options st ;;
    Ok ((doc, newOptions), st)).
Proof.
  intros st1 [d o] st1' H. inv_bind H as r Hr. destruct r as [[d' o'] s'].
  injection H as -> -> ->.
  unfold packVisitor in Hr. inv_bind Hr as key Hkey.
  destruct (set_has (seenKeys st1) key) eqn:Hseen; [discriminate|].
  inv_bind Hr as v Hv. inv_bind Hr as b Hb. injection Hr as <- <- <-.
  unfold Level.batch_put in Hb.
  destruct (nullish key) eqn:N; [discriminate|].
  destruct (nullish v) eqn:Nv; [discriminate|]. injection Hb as <-.
  exists [key], [Level.Put (toString key) (jsonRoundTrip v)].
  split; [reflexivity|]. split.
  - intros k [<-|[]]. exact Hseen.
  - intros st2 Hfresh. unfold packVisitor. rewrite Hkey. simpl bind.
    rewrite (Hfresh key (or_introl eq_refl)). rewrite Hv. simpl bind.
    unfold Level.batch_put. rewrite N, Nv. reflexivity.
Qed.

Section Transposable.

Variable apply : value -> string -> pack_state -> outcome (value * pack_state).
Hypothesis apply_transposable : forall d name, transposable (apply d name).

Lemma transposable_applyEach name : forall elems,
  transposable (applyEach (fun d => apply d name) elems).
Proof.
  induction elems as [|e rest IH].
  - apply (transposable_ret ([] : list value)).
  - refine (transposable_ext _ _ _
              (transposable_seq (apply e name)
                 (fun e' st => '(rest', st') <- applyEach (fun d => apply d name) rest st ;;
                               Ok (e' :: rest', st'))
                 (apply_transposable e name) _)).
    + intros st. simpl. destruct (apply e name st) as [[e' s]| |]; reflexivity.
    + intros e'.
      refine (transposable_ext _ _ _
                (transposable_seq _ (fun rest' st => Ok (e' :: rest', st)) IH _)).
      * intros st. reflexivity.
      * intros rest'. apply transposable_ret.
Qed.

Lemma transposable_applyField doc entry :
  transposable (fun st => applyField apply doc st entry).
Proof.
  destruct entry as [name k]. unfold applyField.
  destruct (Js.get doc name) as [v| |] eqn:Hget;
    try (intros st1 a st1' H; discriminate).
  assert (transposable (fun st =>
            if truthy v
            then '(w, st0) <- apply v name st ;; Ok (held doc name w, st0)
            else Ok (doc, st))) as Hsingle.
  { destruct (truthy v); [|apply transposable_ret].
    refine (transposable_ext _ _ _
              (transposable_seq (apply v name)
                 (fun w st => Ok (held doc name w, st))
                 (apply_transposable v name) _)).
    - intros st. reflexivity.
    - intros w. apply transposable_ret. }
  simpl bind.
  destruct k; [|destruct v; exact Hsingle].
  destruct v; try exact Hsingle.
  refine (transposable_ext _ _ _
            (transposable_seq (applyEach (fun d => apply d name) elems)
               (fun elems' st => Ok (held doc name (VArr elems'), st))
               (transposable_applyEach name elems) _)).
  - intros st. reflexivity.
  - intros elems'. apply transposable_ret.
Qed.

Lemma transposable_applyFields : forall entries doc,
  transposable (applyFields apply entries doc).
Proof.
  induction entries as [|entry rest IH]; intros doc.
  - apply (transposable_ret doc).
  - refine (transposable_ext _ _ _
              (transposable_seq (fun st => applyField apply doc st entry)
                 (fun doc' st => applyFields apply rest doc' st)
                 (transposable_applyField doc entry) _)).
    + intros st. reflexivity.
    + intros doc'. apply IH.
Qed.

End Transposable.

Lemma transposable_applyHierarchy (fuel : nat) :
  forall doc collection options,
    transposable (applyHierarchy packVisitor fuel doc collection options).
Proof.
  induction fuel as [|fuel IH]; intros doc collection options.
  - intros st1 a st1' H. discriminate.
  - refine (transposable_ext _ _ _
              (transposable_seq
                 (fun st =>
                    '(doc, newOptions, st) <-
                       packVisitor doc collection (given options) st ;;
                    Ok ((doc, newOptions), st))
                 (fun r st =>
                    applyFields
                      (fun d name =>
                         applyHierarchy packVisitor fuel d (Some name)
                           (orElse (snd r) (VObj [])))
                      (hierarchyOf collection) (fst r) st)
                 (transposable_visitor doc collection (given options)) _)).
    + intros st.
      change (applyHierarchy packVisitor (Datatypes.S fuel) doc collection options st)
        with ('(doc, newOptions, st) <-
                 packVisitor doc collection (given options) st ;;
              applyFields
                (fun d name =>
                   applyHierarchy packVisitor fuel d (Some name)
                     (orElse newOptions (VObj [])))
                (hierarchyOf collection) doc st).
      destruct (packVisitor doc collection (given options) st)
        as [[[d o] s]| |]; reflexivity.
    + intros [d o]. apply transposable_applyFields.
      intros d' name. apply IH.
Qed.

Lemma transposable_packFile transformEntry file :
  transposable (fun st =>
    st' <- packFile transformEntry st file ;; Ok (tt, st')).
Proof.
  unfold packFile. destruct (file_doc file) as [doc|];
    [|intros st1 a st1' H; discriminate].
  destruct (collectionOf doc) as [c| |];
    try (intros st1 a st1' H; discriminate).
  simpl bind at 2.
  destruct (callTransformEntry transformEntry doc) as [[kept|]| |];
    try (intros st1 a st1' H; discriminate).
  - refine (transposable_ext _ _ _
              (transposable_seq (packDoc kept c) (fun _ st => Ok (tt, st))
                 (transposable_applyHierarchy _ _ _ _) _)).
    + intros st. simpl. destruct (packDoc kept c st) as [[d s]| |]; reflexivity.
    + intros d. apply transposable_ret.
  - apply (transposable_ret tt).
Qed.

Lemma transposable_packFiles transformEntry : forall files,
  transposable (fun st =>
    st' <- packFiles transformEntry st files ;; Ok (tt, st')).
Proof.
  induction files as [|file rest IH].
  - apply (transposable_ret tt).
  - refine (transposable_ext _ _ _
              (transposable_seq _ (fun _ st => st' <- packFiles transformEntry st rest ;;
                                               Ok (tt, st'))
                 (transposable_packFile transformEntry file) (fun _ => IH))).
    intros st. simpl.
    destruct (packFile transformEntry st file) as [s| |]; reflexivity.
Qed.

Lemma sameValueZero_sym (a b : value) : sameValueZero a b = sameValueZero b a.
Proof.
  destruct a, b; simpl; try reflexivity.
  - now destruct b, b0.
  - apply Z.eqb_sym.
  - apply String.eqb_sym.
Qed.

Lemma set_has_permuted (a b : list value) (k : value) :
  Permutation a b -> set_has a k = set_has b k.
Proof.
  unfold set_has. induction 1; simpl; try congruence.
  now rewrite !orb_assoc, (orb_comm (sameValueZero k y)).
Qed.

Lemma fresh_sym (a b : list value) :
  (forall k, In k a -> set_has b k = false) ->
  forall k, In k b -> set_has a k = false.
Proof.
  intros H k Hk. destruct (set_has a k) eqn:E; [|reflexivity].
  unfold set_has in E. apply existsb_exists in E. destruct E as (x & Hx & E).
  specialize (H x Hx). unfold set_has in H.
  assert (existsb (sameValueZero x) b = true) as Hb.
  { apply existsb_exists. exists k. split; [exact Hk|].
    now rewrite sameValueZero_sym. }
  congruence.
Qed.

Lemma packFiles_run transformEntry files st st1 :
  packFiles transformEntry st files = Ok st1 ->
  exists new puts,
    st1 = PackState (new ++ seenKeys st) (batch st ++ puts)
    /\ (forall k, In k new -> set_has (seenKeys st) k = false)
    /\ forall st2,
         (forall k, In k new -> set_has (seenKeys st2) k = false) ->
         packFiles transformEntry st2 files
         = Ok (PackState (new ++ seenKeys st2) (batch st2 ++ puts)).
Proof.
  intros H.
  destruct (transposable_packFiles transformEntry files st tt st1)
    as (new & puts & E & Hfresh & Hrun); [now rewrite H|].
  exists new, puts. repeat split; auto.
  intros st2 H2. specialize (Hrun st2 H2).
  destruct (packFiles transformEntry st2 files); simpl in Hrun; congruence.
Qed.

Lemma packFile_run transformEntry file st st1 :
  packFile transformEntry st file = Ok st1 ->
  exists new puts,
    st1 = PackState (new ++ seenKeys st) (batch st ++ puts)
    /\ (forall k, In k new -> set_has (seenKeys st) k = false)
    /\ forall st2,
         (forall k, In k new -> set_has (seenKeys st2) k = false) ->
         packFile transformEntry st2 file
         = Ok (PackState (new ++ seenKeys st2) (batch st2 ++ puts)).
Proof.
  intros H.
  destruct (transposable_packFile transformEntry file st tt st1)
    as (new & puts & E & Hfresh & Hrun); [now rewrite H|].
  exists new, puts. repeat split; auto.
  intros st2 H2. specialize (Hrun st2 H2).
  destruct (packFile transformEntry st2 file); simpl in Hrun; congruence.
Qed.

Lemma packFiles_permuted transformEntry (files files' : list source_file) :
  Permutation files files' ->
  forall st st1,
    packFiles transformEntry st files = Ok st1 ->
    exists st1',
      packFiles transformEntry st files' = Ok st1'
      /\ Permutation (seenKeys st1) (seenKeys st1')
      /\ Permutation (batch st1) (batch st1').
Proof.
  induction 1 as [|x l l' Hperm IH|x y l|l l' l'' H1 IH1 H2 IH2]; intros st st1 H.
  - exists st1. auto.
  - simpl in H. inv_bind H as sx Hx.
    destruct (IH _ _ H) as (st1' & Hrun & Hs & Hb).
    exists st1'. simpl. rewrite Hx. auto.
  - cbn [packFiles] in H.
    inv_bind H as sy Hy. inv_bind H as sxy Hxy.
    destruct (packFile_run _ _ _ _ Hy) as (newy & putsy & -> & Hfy & Hruny).
    destruct (packFile_run _ _ _ _ Hxy) as (newx & putsx & -> & Hfx & Hrunx).
    destruct (packFiles_run _ _ _ _ H) as (newl & putsl & -> & Hfl & Hrunl).
    cbn [seenKeys batch] in *.
    assert (forall k, In k newx -> set_has (seenKeys st) k = false) as Hx0.
    { intros k Hk. specialize (Hfx k Hk). rewrite set_has_app in Hfx.
      now apply orb_false_iff in Hfx. }
    assert (forall k, In k newx -> set_has newy k = false) as Hxy0.
    { intros k Hk. specialize (Hfx k Hk). rewrite set_has_app in Hfx.
      now apply orb_false_iff in Hfx. }
    eexists. cbn [packFiles]. rewrite (Hrunx st Hx0). rewrite bind_unit.
    rewrite Hruny; cbn [seenKeys batch].
    + rewrite bind_unit. rewrite Hrunl; cbn [seenKeys batch].
      * split; [reflexivity|]. split.
        -- apply Permutation_app_head. rewrite !app_assoc.
           apply Permutation_app_tail. apply Permutation_app_comm.
        -- rewrite <- !app_assoc. apply Permutation_app_head.
           rewrite !app_assoc. apply Permutation_app_tail.
           apply Permutation_app_comm.
      * intros k Hk. specialize (Hfl k Hk).
        rewrite <- Hfl. apply set_has_permuted.
        rewrite !app_assoc. apply Permutation_app_tail.
        apply Permutation_app_comm.
    + intros k Hk. rewrite set_has_app, (Hfy k Hk), orb_false_r.
      exact (fresh_sym _ _ Hxy0 k Hk).
  - destruct (IH1 _ _ H) as (st1'' & Hrun'' & Hs1 & Hb1).
    destruct (IH2 _ _ Hrun'') as (st1' & Hrun' & Hs2 & Hb2).
    exists st1'. split; [exact Hrun'|].
    split; eapply Permutation_trans; eassumption.
Qed.

Lemma final_write_same (db1 db2 : Level.store) (st st' : pack_state) :
  Level.well_formed db1 -> Level.well_formed db2 ->
  packInvariant st -> packInvariant st' ->
  forallb isString (seenKeys st) = true ->
  forallb isString (seenKeys st') = true ->
  Permutation (seenKeys st) (seenKeys st') ->
  Permutation (batch st) (batch st') ->
  Level.batch_write db1 (removeStale (seenKeys st) (batch st) (Level.keys db1))
  = Level.batch_write db2
      (removeStale (seenKeys st') (batch st') (Level.keys db2)).
Proof.
  intros Hwf1 Hwf2 Hinv Hinv' Hs Hs' Hseen Hbatch.
  apply store_ext; try now apply batch_write_well_formed.
  intros k.
  destruct (in_dec string_dec k (map opKey (batch st))) as [Hin|Hout].
  - apply in_map_iff in Hin. destruct Hin as (o & Hkey & Hin).
    assert (exists v, In (Level.Put k v) (batch st)) as (v & Hput).
    { destruct (staged_key_seen _ _ Hinv Hin) as (key & w & E & _).
      subst o. simpl in Hkey. subst k. eauto. }
    assert (In (Level.Put k v) (batch st')) as Hput'
      by (eapply Permutation_in; eassumption).
    rewrite (final_write_find _ _ _ _ Hinv Hs Hput).
    now rewrite (final_write_find _ _ _ _ Hinv' Hs' Hput').
  - assert (forall db s, packInvariant s -> Permutation (seenKeys st) (seenKeys s) ->
              Level.find (Level.batch_write db
                (removeStale (seenKeys s) (batch s) (Level.keys db))) k = None)
      as Hnone.
    { intros db s Hi Hp.
      destruct (Level.find (Level.batch_write db
                  (removeStale (seenKeys s) (batch s) (Level.keys db))) k)
        eqn:Hfound; [|reflexivity].
      exfalso. apply Hout.
      assert (In k (Level.keys (Level.batch_write db
                (removeStale (seenKeys s) (batch s) (Level.keys db))))) as Hk
        by (apply find_keys; congruence).
      destruct (final_write_keys _ _ _ Hi Hk) as (key & Hkey & ->).
      destruct Hinv as (_ & -> & _). rewrite <- in_rev. apply in_map.
      eapply Permutation_in; [symmetry; exact Hp|exact Hkey]. }
    rewrite (Hnone db1 st Hinv (Permutation_refl _)).
    now rewrite (Hnone db2 st' Hinv' Hseen).
Qed.

(** X21.  The pack does not depend on the order in which the source
    files are read: when a run over string keys succeeds, a run over the
    same files in any other order succeeds as well and leaves the same
    store, with the same request for compaction. *)
Theorem compiled_pack_ignores_file_order :
  forall (db : Level.store) (files files' : list source_file)
         (transformEntry : option EntryTransformer) (st : pack_state),
    Level.well_formed db ->
    Permutation files files' ->
    packFiles transformEntry pack_init files = Ok st ->
    forallb isString (seenKeys st) = true ->
    compileClassicLevel db files' transformEntry
    = compileClassicLevel db files transformEntry.
Proof.
  intros db files files' hook st Hwf Hperm Hrun Hs.
  destruct (packFiles_permuted hook files files' Hperm _ _ Hrun)
    as (st' & Hrun' & Hseen & Hbatch).
  assert (forallb isString (seenKeys st') = true) as Hs'.
  { rewrite forallb_forall in *. intros x Hx. apply Hs.
    eapply Permutation_in; [symmetry; exact Hseen|exact Hx]. }
  unfold compileClassicLevel. rewrite Hrun, Hrun'. cbv zeta.
  rewrite (final_write_same db db st' st Hwf Hwf
             (run_invariant _ _ _ Hrun') (run_invariant _ _ _ Hrun) Hs' Hs
             (Permutation_sym Hseen) (Permutation_sym Hbatch)).
  reflexivity.
Qed.

Lemma compiled_pack_ignores_file_order_witness :
  compileClassicLevel old_pack [potion_file; keyed_hero_file] None
  = compileClassicLevel old_pack [keyed_hero_file; potion_file] None.
Proof.
  apply (compiled_pack_ignores_file_order old_pack
           [keyed_hero_file; potion_file] [potion_file; keyed_hero_file] None
           (PackState [VStr "!items!p1"; VStr "!actors.items!abc.i1";
                       VStr "!actors!abc"]
              [Level.Put "!actors!abc" stored_hero;
               Level.Put "!actors.items!abc.i1" stored_sword;
               Level.Put "!items!p1"
                 (VObj [("_id", VStr "p1"); ("name", VStr "Potion");
                        ("effects", VArr [])])])).
  - unfold Level.well_formed. vm_compute. repeat constructor.
  - apply perm_swap.
  - reflexivity.
  - reflexivity.
Defined.

(** X22.  A compile always comes to an end, with a result or with an
    error: a document is walked no deeper than it nests, whatever the
    hook does and whatever the files hold. *)
Theorem compile_always_ends :
  forall (db : Level.store) (files : list source_file)
         (transformEntry : option EntryTransformer),
    fst (compileClassicLevel db files transformEntry) <> NoFuel.
Proof.
  intros db files transformEntry. unfold compileClassicLevel.
  pose proof (packFiles_not_NoFuel transformEntry files pack_init) as H.
  destruct (packFiles transformEntry pack_init files); simpl;
    [discriminate|discriminate|congruence].
Qed.

(* ------------------------------------------------------------------ *)
(** ** The keys of the embedded documents *)

Lemma hierarchy_not_id (collection : option string) (name : string) (k : kind) :
  In (name, k) (hierarchyOf collection) -> name <> "_id".
Proof.
  destruct collection as [c|]; unfold hierarchyOf; [|intros []].
  destruct (assoc HIERARCHY c) as [fields|] eqn:E; [|intros []].
  apply assoc_In in E. intros Hin.
  assert (forallb (fun e => forallb (fun f => negb (String.eqb (fst f) "_id")) (snd e))
            HIERARCHY = true) as Hall by reflexivity.
  rewrite forallb_forall in Hall. specialize (Hall _ E). simpl in Hall.
  rewrite forallb_forall in Hall. specialize (Hall _ Hin). simpl in Hall.
  apply negb_true_iff in Hall. apply String.eqb_neq in Hall. exact Hall.
Qed.

Lemma not_schema_field (collection : option string) (other : string) :
  (forall name k, In (name, k) (hierarchyOf collection) -> name <> other) ->
  ~ In other (map fst (hierarchyOf collection)).
Proof.
  intros H Hin. apply in_map_iff in Hin. destruct Hin as ([n k] & E & Hin).
  simpl in E. subst n. exact (H _ _ Hin eq_refl).
Qed.

Lemma applyHierarchy_unfold {S : Type} (fn : visitor S) (fuel : nat)
      (doc : value) (collection : option string) (options : value) (st : S) :
  applyHierarchy fn (Datatypes.S fuel) doc collection options st
  = ('(doc, newOptions, st) <- fn doc collection (given options) st ;;
     applyFields
       (fun d name =>
          applyHierarchy fn fuel d (Some name) (orElse newOptions (VObj [])))
       (hierarchyOf collection) doc st).
Proof. reflexivity. Qed.

Lemma unpack_node_key (m : Level.miss) (db : Level.store) (fuel : nat)
      (fields : list (string * value)) (collection : option string)
      (options sp ip : value) (st st' : unit) (doc' : value) :
  Js.get (given options) "sublevelPrefix" = Ok sp ->
  Js.get (given options) "idPrefix" = Ok ip ->
  applyHierarchy (unpackVisitor m db) fuel (VObj fields) collection options st
  = Ok (doc', st') ->
  exists fields',
    doc' = VObj fields'
    /\ fieldOf fields' "_key"
       = VStr ("!" ++ keyJoin [sp; ofCollection collection]
               ++ "!" ++ keyJoin [ip; fieldOf fields "_id"])
    /\ fieldOf fields' "_id" = fieldOf fields "_id".
Proof.
  intros Hsp Hip H.
  destruct fuel as [|fuel]; [discriminate|].
  rewrite applyHierarchy_unfold in H.
  inv_bind H as v Hv. destruct v as [[doc0 options1] st1].
  destruct (unpackVisitor_inv _ _ _ _ _ _ _ _ _ Hv)
    as (sp' & ip' & docId & docK & Hsp' & Hip' & Hid' & Hset & Hmap & _).
  rewrite Hsp in Hsp'. rewrite Hip in Hip'.
  injection Hsp' as <-. injection Hip' as <-.
  rewrite get_obj in Hid'. injection Hid' as <-.
  simpl in Hset. injection Hset as <-.
  destruct (mapHierarchy_frame _ _ _ _ Hmap) as (fields0 & -> & Hframe0).
  destruct (applyFields_frame _ _ _ _ _ _ H) as (fields1 & -> & Hframe1).
  pose proof (not_schema_field collection "_key" (hierarchy_not_key collection))
    as Hkey.
  pose proof (not_schema_field collection "_id" (hierarchy_not_id collection))
    as Hid.
  exists fields1. split; [reflexivity|]. split.
  - rewrite (Hframe1 _ Hkey). unfold fieldOf.
    rewrite (Hframe0 _ Hkey), lookup_assign_same. reflexivity.
  - rewrite (Hframe1 _ Hid). unfold fieldOf.
    rewrite (Hframe0 _ Hid). now rewrite lookup_assign_other by discriminate.
Qed.

Lemma unpack_object (m : Level.miss) (db : Level.store) (fuel : nat)
      (e : value) (collection : option string) (options : value)
      (st st' : unit) (fields' : list (string * value)) :
  applyHierarchy (unpackVisitor m db) fuel e collection options st
  = Ok (VObj fields', st') ->
  exists fields, e = VObj fields.
Proof.
  intros H. destruct fuel as [|fuel]; [discriminate|].
  rewrite applyHierarchy_unfold in H.
  inv_bind H as v Hv. destruct v as [[doc0 options1] st1].
  destruct (unpackVisitor_inv _ _ _ _ _ _ _ _ _ Hv)
    as (sp' & ip' & docId & docK & _ & _ & _ & Hset & Hmap & _).
  destruct e; try discriminate; [|eauto].
  simpl in Hset. injection Hset as <-.
  unfold mapHierarchy in Hmap. apply mapFields_arr in Hmap. subst doc0.
  rewrite applyFields_arr in H. discriminate.
Qed.

Lemma applyEach_results {S : Type} (f : value -> S -> outcome (value * S)) :
  forall (elems elems' : list value) (st st' : S),
    applyEach f elems st = Ok (elems', st') ->
    forall e', In e' elems' ->
      exists e s s', In e elems /\ f e s = Ok (e', s').
Proof.
  induction elems as [|e rest IH]; simpl; intros elems' st st' H e' Hin.
  - injection H as <- _. contradiction.
  - inv_bind H as r Hr. destruct r as [x s1].
    inv_bind H as r2 Hr2. destruct r2 as [rest' s2].
    injection H as <- _. destruct Hin as [<-|Hin].
    + exists e, st, s1. auto.
    + destruct (IH _ _ _ Hr2 _ Hin) as (e0 & s & s' & He0 & Hf).
      exists e0, s, s'. auto.
Qed.

Lemma applyFields_children {S : Type}
      (apply : value -> string -> S -> outcome (value * S)) (name : string) :
  forall (entries : list (string * kind)) (fields fields' : list (string * value))
         (st st' : S) (elems : list value),
    NoDup (map fst entries) ->
    In (name, Collection) entries ->
    fieldOf fields name = VArr elems ->
    applyFields apply entries (VObj fields) st = Ok (VObj fields', st') ->
    exists elems',
      fieldOf fields' name = VArr elems'
      /\ forall e', In e' elems' ->
           exists e s s', In e elems /\ apply e name s = Ok (e', s').
Proof.
  induction entries as [|[n k] rest IH];
    intros fields fields' st st' elems Hnd Hin Hfield H; [contradiction|].
  simpl in Hnd. inversion Hnd as [|? ? Hfresh Hnd']; subst.
  cbn [applyFields] in H. inv_bind H as r Hr. destruct r as [doc1 st1].
  destruct Hin as [Heq|Hin].
  - injection Heq as -> ->.
    rewrite applyField_embedded, Hfield in Hr.
    inv_bind Hr as r2 Hr2. destruct r2 as [elems' s2]. injection Hr as <- <-.
    destruct (applyFields_frame _ _ _ _ _ _ H) as (f2 & E & Hframe).
    injection E as <-.
    exists elems'. split.
    + rewrite (Hframe _ Hfresh). apply fieldOf_assign_same.
    + exact (applyEach_results _ _ _ _ _ Hr2).
  - destruct (applyField_frame _ _ _ _ _ _ _ Hr) as (fields1 & -> & Hone).
    apply (IH fields1 fields' st1 st' elems Hnd' Hin); [|exact H].
    rewrite Hone; [exact Hfield|].
    intros ->. apply Hfresh. apply in_map_iff. exists (n, Collection). auto.
Qed.

(** X23.  The embedded documents of an extracted document carry keys of
    their own, as a compile expects them: in a collection-valued field of
    the schema, every element that is a record with a non-empty string
    [_id] has for [_key] the key [unpackDoc] looks that id up under, the
    collection path and the id path of the primary document each extended
    by one segment. *)
Theorem embedded_documents_carry_their_keys :
  forall (getSafeFilename : string -> string) (m : Level.miss)
         (db : Level.store) (fuel : nat) (dest : string)
         (options : ExtractOptions) (foldersMap : folders_map)
         (c id : string) (fields : list (string * value))
         (file : string) (doc' : value) (name : string)
         (children : list value) (childFields : list (string * value))
         (childId : string),
    transformEntry options = None ->
    c <> "" -> includes "!"%char c = false -> includes "."%char c = false ->
    id <> "" -> includes "!"%char id = false ->
    fieldOf fields "_id" = VStr id ->
    extractEntry getSafeFilename m db fuel dest options foldersMap
      ("!" ++ c ++ "!" ++ id, VObj fields) = Ok (Some (file, doc')) ->
    In (name, Collection) (hierarchyOf (Some c)) ->
    Js.get doc' name = Ok (VArr children) ->
    In (VObj childFields) children ->
    fieldOf childFields "_id" = VStr childId -> childId <> "" ->
    fieldOf childFields "_key" = VStr (lookupKey c id (VStr childId) name).
Proof.
  intros gsf m db fuel dest options idx c id fields file doc' name children
         childFields childId Hhook Hc Hbang Hdot Hid Hidbang Hdoc H
         Hname Hchildren Hchild HchildId Hne.
  unfold extractEntry in H. cbv zeta in H.
  rewrite (split_composite c id Hbang Hidbang) in H.
  simpl nth_error in H. cbv iota in H. rewrite Hdot in H.
  inv_bind H as doc1 Hunpack. rewrite Hhook in H. simpl in H.
  inv_bind H as fname Hfname. injection H as _ <-.
  unfold unpackDoc in Hunpack. inv_bind Hunpack as r Hr. destruct r as [d u].
  injection Hunpack as ->.
  destruct fuel as [|fuel]; [discriminate|].
  rewrite applyHierarchy_unfold in Hr.
  inv_bind Hr as v Hv. destruct v as [[doc0 options1] st1].
  destruct (unpackVisitor_inv _ _ _ _ _ _ _ _ _ Hv)
    as (sp & ip & docId & docK & Hsp & Hip & Hid' & Hset & Hmap & ->).
  simpl in Hsp, Hip. injection Hsp as <-. injection Hip as <-.
  rewrite get_obj, Hdoc in Hid'. injection Hid' as <-.
  simpl ofCollection in *.
  rewrite (keyJoin_single c Hc), (keyJoin_single id Hid) in *.
  simpl in Hset. injection Hset as <-.
  unfold mapHierarchy in Hmap.
  destruct (mapFields_obj _ _ _ _ (hierarchy_NoDup (Some c)) Hmap)
    as (fields0 & -> & Hmapped & _).
  destruct (Hmapped _ _ Hname) as (w & Hw & Hshape).
  assert (exists elems, fieldOf fields0 name = VArr elems) as (elems & Helems).
  { unfold fieldOf. rewrite Hw. simpl in Hshape.
    destruct (fieldOf (assign fields "_key" _) name);
      try (subst w; eauto).
    destruct Hshape as (vs & _ & ->). eauto. }
  destruct doc1 as [| | | | | |fields1];
    try (destruct (applyFields_frame _ _ _ _ _ _ Hr) as (f & E & _); discriminate).
  destruct (applyFields_children _ name _ _ _ _ _ _ (hierarchy_NoDup (Some c))
              Hname Helems Hr) as (elems' & Hfield & Hall).
  rewrite get_obj, Hfield in Hchildren. injection Hchildren as <-.
  destruct (Hall _ Hchild) as (e & s & s' & _ & Happly).
  simpl orElse in Happly.
  destruct (unpack_object _ _ _ _ _ _ _ _ _ Happly) as (fe & ->).
  destruct (unpack_node_key m db fuel fe (Some name)
              (orElse (VObj [("sublevelPrefix", VStr c); ("idPrefix", VStr id)])
                 (VObj []))
              (VStr c) (VStr id) s s' _
              eq_refl eq_refl Happly) as (f' & E & Hkey & Hidkept).
  injection E as <-.
  rewrite Hkey. rewrite <- Hidkept, HchildId.
  unfold lookupKey, keyJoin. simpl ofCollection. simpl filter.
  pose proof (hierarchy_named _ _ _ Hname) as Hnamed.
  destruct (String.eqb c "") eqn:Ec; [apply String.eqb_eq in Ec; tauto|].
  destruct (String.eqb name "") eqn:En; [apply String.eqb_eq in En; tauto|].
  destruct (String.eqb id "") eqn:Ei; [apply String.eqb_eq in Ei; tauto|].
  destruct (String.eqb childId "") eqn:Ek; [apply String.eqb_eq in Ek; tauto|].
  simpl. rewrite !append_assoc. reflexivity.
Qed.

Lemma embedded_documents_carry_their_keys_witness :
  fieldOf [("_id", VStr "i1"); ("name", VStr "Sword"); ("effects", VArr []);
           ("_key", VStr "!actors.items!abc.i1")] "_key"
  = VStr (lookupKey "actors" "abc" (VStr "i1") "items").
Proof.
  apply (embedded_documents_carry_their_keys asciiSafeFilename
           Level.classic_level_2 flat_pack 5 "out" plain_options []
           "actors" "abc"
           [("_id", VStr "abc"); ("name", VStr "Hero");
            ("items", VArr [VStr "i1"])]
           "out/Hero_abc.json"
           (VObj [("_id", VStr "abc"); ("name", VStr "Hero");
                  ("items", VArr [VObj [("_id", VStr "i1"); ("name", VStr "Sword");
                                        ("effects", VArr []);
                                        ("_key", VStr "!actors.items!abc.i1")]]);
                  ("_key", VStr "!actors!abc"); ("effects", VArr [])])
           "items"
           [VObj [("_id", VStr "i1"); ("name", VStr "Sword");
                  ("effects", VArr []);
                  ("_key", VStr "!actors.items!abc.i1")]]
           _ "i1");
    try reflexivity; try discriminate.
  - simpl. left. reflexivity.
  - simpl. left. reflexivity.
Defined.

(* ------------------------------------------------------------------ *)
(** ** A hydrated node packs back to what was stored *)

Lemma lookup_None (fields : list (string * value)) (name : string) :
  lookup fields name = None <-> ~ In name (map fst fields).
Proof.
  induction fields as [|[k v] rest IH]; simpl; [tauto|].
  destruct (String.eqb k name) eqn:E.
  - apply String.eqb_eq in E. split; [discriminate|]. intros H. tauto.
  - apply String.eqb_neq in E. rewrite IH. tauto.
Qed.

Lemma assign_names_present (fields : list (string * value)) (name : string)
      (v : value) :
  lookup fields name <> None -> map fst (assign fields name v) = map fst fields.
Proof.
  induction fields as [|[k w] rest IH]; simpl; [congruence|].
  destruct (String.eqb k name); simpl; [reflexivity|].
  intros H. now rewrite IH.
Qed.

Lemma assign_names_fresh (fields : list (string * value)) (name : string)
      (v : value) :
  lookup fields name = None ->
  map fst (assign fields name v) = (map fst fields ++ [name])%list.
Proof.
  induction fields as [|[k w] rest IH]; simpl; [reflexivity|].
  destruct (String.eqb k name); simpl; [discriminate|].
  intros H. now rewrite IH.
Qed.

Lemma assign_names_kept (fields : list (string * value)) (name : string)
      (v : value) (other : string) :
  lookup fields other <> None -> lookup (assign fields name v) other <> None.
Proof.
  intros H. destruct (String.eqb name other) eqn:E.
  - apply String.eqb_eq in E. subst. now rewrite lookup_assign_same.
  - apply String.eqb_neq in E. now rewrite lookup_assign_other.
Qed.

Lemma fields_ext (a : list (string * value)) : forall b,
  NoDup (map fst a) -> map fst a = map fst b ->
  (forall name, lookup a name = lookup b name) -> a = b.
Proof.
  induction a as [|[k v] ra IH]; intros [|[k' v'] rb] Hnd Hnames Hlook;
    try discriminate; [reflexivity|].
  simpl in Hnames. injection Hnames as <- Hnames.
  inversion Hnd as [|? ? Hfresh Hnd']; subst.
  pose proof (Hlook k) as Hk. simpl in Hk. rewrite String.eqb_refl in Hk.
  injection Hk as <-. f_equal. apply IH; auto.
  intros name. destruct (String.eqb k name) eqn:E.
  - apply String.eqb_eq in E. subst name.
    assert (lookup ra k = None) as -> by now apply lookup_None.
    symmetry. apply lookup_None. now rewrite <- Hnames.
  - specialize (Hlook name). simpl in Hlook. now rewrite E in Hlook.
Qed.

Lemma lookup_remove (fields : list (string * value)) (name other : string) :
  lookup (remove fields name) other
  = if String.eqb name other then None else lookup fields other.
Proof.
  induction fields as [|[k v] rest IH]; simpl.
  - now destruct (String.eqb name other).
  - destruct (String.eqb k name) eqn:E.
    + apply String.eqb_eq in E. subst k. rewrite IH.
      destruct (String.eqb name other); reflexivity.
    + simpl. rewrite IH. destruct (String.eqb k other) eqn:E2; [|reflexivity].
      apply String.eqb_eq in E2. subst k.
      now rewrite String.eqb_sym, E.
Qed.

Lemma remove_names (fields : list (string * value)) (name : string) :
  map fst (remove fields name)
  = filter (fun k => negb (String.eqb k name)) (map fst fields).
Proof.
  induction fields as [|[k v] rest IH]; simpl; [reflexivity|].
  destruct (String.eqb k name); simpl; [exact IH|now rewrite IH].
Qed.

Lemma filter_fresh (names : list string) (name : string) :
  ~ In name names ->
  filter (fun k => negb (String.eqb k name)) (names ++ [name]) = names.
Proof.
  induction names as [|k rest IH]; simpl; intros H.
  - now rewrite String.eqb_refl.
  - destruct (String.eqb k name) eqn:E.
    + apply String.eqb_eq in E. tauto.
    + simpl. rewrite IH; tauto.
Qed.

Lemma mapFields_names fn (entries : list (string * kind)) :
  forall fields fields',
    (forall name k, In (name, k) entries -> lookup fields name <> None) ->
    mapFields fn entries (VObj fields) = Ok (VObj fields') ->
    map fst fields' = map fst fields.
Proof.
  induction entries as [|[name k] rest IH]; intros fields fields' Hpresent H.
  - simpl in H. congruence.
  - cbn [mapFields] in H. inv_bind H as doc1 H1.
    destruct (mapField_obj _ _ _ _ _ H1) as (w & -> & _).
    assert (forall n k', In (n, k') rest ->
                         lookup (assign fields name w) n <> None) as Hrest.
    { intros n k' Hin. apply assign_names_kept. apply (Hpresent n k').
      now right. }
    rewrite (IH _ _ Hrest H).
    apply assign_names_present. apply (Hpresent name k). now left.
Qed.

Lemma applyFields_names {S : Type}
      (apply : value -> string -> S -> outcome (value * S))
      (entries : list (string * kind)) :
  forall fields fields' st st',
    applyFields apply entries (VObj fields) st = Ok (VObj fields', st') ->
    map fst fields' = map fst fields.
Proof.
  induction entries as [|[name k] rest IH]; intros fields fields' st st' H.
  - simpl in H. congruence.
  - cbn [applyFields] in H. inv_bind H as r Hr. destruct r as [doc1 st1].
    rewrite applyField_embedded in Hr.
    assert (exists f1, doc1 = VObj f1 /\ map fst f1 = map fst fields)
      as (f1 & -> & Hnames).
    { unfold fieldOf in Hr.
      destruct (lookup fields name) as [v|] eqn:Hv.
      - assert (forall x, map fst (assign fields name x) = map fst fields) as Hsame
          by (intros x; apply assign_names_present; congruence).
        destruct k, v; simpl in Hr;
          repeat match type of Hr with
                 | Ok _ = Ok _ => injection Hr as <- _; eauto
                 | (if ?c then _ else _) = _ => destruct c
                 | bind _ _ = Ok _ =>
                     let r := fresh "r" in let Hx := fresh "Hx" in
                     inv_bind Hr as r Hx; destruct r
                 | match ?l with [] => _ | _ :: _ => _ end = _ => destruct l
                 end;
          try (injection Hr as <- _; eauto).
      - destruct k; simpl in Hr; injection Hr as <- _; eauto. }
    rewrite (IH _ _ _ _ H). exact Hnames.
Qed.

Lemma mapEach_Forall2 (fn : value -> outcome value) :
  forall elems vs,
    mapEach fn elems = Ok vs <-> Forall2 (fun e v => fn e = Ok v) elems vs.
Proof.
  induction elems as [|e rest IH]; intros vs; simpl.
  - split; [intros H; injection H as <-; constructor|].
    intros H. inversion H. reflexivity.
  - split.
    + intros H. inv_bind H as v Hv. inv_bind H as vs' Hvs. injection H as <-.
      constructor; [exact Hv|]. now apply IH.
    + intros H. inversion H as [|? v ? vs' Hv Hrest]; subst.
      rewrite Hv. simpl. apply IH in Hrest. now rewrite Hrest.
Qed.

Lemma applyEach_Forall2 {S : Type} (f : value -> S -> outcome (value * S)) :
  forall (elems elems' : list value) (st st' : S),
    applyEach f elems st = Ok (elems', st') ->
    Forall2 (fun e e' => exists s s', f e s = Ok (e', s')) elems elems'.
Proof.
  induction elems as [|e rest IH]; simpl; intros elems' st st' H.
  - injection H as <- _. constructor.
  - inv_bind H as r Hr. destruct r as [x s1].
    inv_bind H as r2 Hr2. destruct r2 as [rest' s2].
    injection H as <- _. constructor; eauto.
Qed.

(** What a walk leaves in the fields of the schema. *)
Lemma applyFields_hydrated {S : Type}
      (apply : value -> string -> S -> outcome (value * S)) :
  forall (entries : list (string * kind)) (fields fields' : list (string * value))
         (st st' : S),
    NoDup (map fst entries) ->
    applyFields apply entries (VObj fields) st = Ok (VObj fields', st') ->
    forall name k,
      In (name, k) entries ->
      hydrated (fun e e' => exists s s', apply e name s = Ok (e', s')) k
        (fieldOf fields name) (fieldOf fields' name).
Proof.
  induction entries as [|[n kn] rest IH];
    intros fields fields' st st' Hnd H name k Hin; [contradiction|].
  simpl in Hnd. inversion Hnd as [|? ? Hfresh Hnd']; subst.
  cbn [applyFields] in H. inv_bind H as r Hr. destruct r as [doc1 st1].
  destruct (applyField_frame _ _ _ _ _ _ _ Hr) as (fields1 & -> & Hone).
  destruct Hin as [Heq|Hin].
  - injection Heq as -> ->.
    destruct (applyFields_frame _ _ _ _ _ _ H) as (f2 & E & Hframe).
    injection E as <-. rewrite (Hframe _ Hfresh).
    rewrite applyField_embedded in Hr. unfold hydrated.
    destruct k; destruct (fieldOf fields name) as [| |b|z|s|elems|fs] eqn:Hv;
      simpl in Hr |- *;
      try (inv_bind Hr as r2 Hr2; destruct r2 as [elems' s2];
           injection Hr as <- _;
           exists elems'; split; [apply fieldOf_assign_same|];
           exact (applyEach_Forall2 _ _ _ _ _ Hr2));
      repeat match type of Hr with
             | context [if ?c then _ else _] => destruct c eqn:?; simpl in Hr
             end;
      first
        [ injection Hr as <- _; exact Hv
        | let r := fresh "r" in
          let Hx := fresh "Hx" in
          inv_bind Hr as r Hx; destruct r; injection Hr as <- _;
          rewrite fieldOf_assign_same; eauto ].
  - assert (n <> name) as Hneq.
    { intros ->. apply Hfresh. apply in_map_iff. exists (name, k). auto. }
    rewrite <- (Hone name) by congruence.
    exact (IH _ _ _ _ Hnd' H name k Hin).
Qed.

Lemma mapField_mapped fn fields name k w :
  mapped fn (fieldOf fields name) name k w ->
  mapField fn (VObj fields) (name, k) = Ok (VObj (assign fields name w)).
Proof.
  unfold mapField, mapped. rewrite get_obj. rewrite bind_unit.
  destruct k.
  - destruct (fieldOf fields name); try (intros ->; reflexivity).
    intros (vs & -> & ->). reflexivity.
  - destruct (truthy (fieldOf fields name)).
    + intros ->. reflexivity.
    + intros ->. reflexivity.
Qed.

Lemma mapFields_mapped fn (entries : list (string * kind)) :
  forall fields,
    NoDup (map fst entries) ->
    (forall name k, In (name, k) entries ->
       exists w, mapped fn (fieldOf fields name) name k w) ->
    exists fields', mapFields fn entries (VObj fields) = Ok (VObj fields').
Proof.
  induction entries as [|[name k] rest IH]; intros fields Hnd Hall.
  - exists fields. reflexivity.
  - simpl in Hnd. inversion Hnd as [|? ? Hfresh Hnd']; subst.
    destruct (Hall name k (or_introl eq_refl)) as (w & Hw).
    cbn [mapFields]. rewrite (mapField_mapped _ _ _ _ _ Hw), bind_unit.
    apply IH; [exact Hnd'|].
    intros n k' Hin. rewrite fieldOf_assign_other; [apply Hall; now right|].
    intros ->. apply Hfresh. apply in_map_iff. exists (n, k'). auto.
Qed.

Lemma mapped_fun fn v name k w w' :
  mapped fn v name k w -> mapped fn v name k w' -> w = w'.
Proof.
  unfold mapped. destruct k.
  - destruct v; try congruence.
    intros (vs & H & ->) (vs' & H' & ->). congruence.
  - destruct (truthy v); congruence.
Qed.

Lemma lookup_of_fieldOf (a b : list (string * value)) (name : string) :
  map fst a = map fst b -> fieldOf a name = fieldOf b name ->
  lookup a name = lookup b name.
Proof.
  intros Hnames H. unfold fieldOf in H.
  destruct (lookup a name) eqn:Ea, (lookup b name) eqn:Eb; try congruence.
  - exfalso. apply lookup_None in Eb. apply Eb. rewrite <- Hnames.
    intros. destruct (in_dec string_dec name (map fst a)) as [Hin|Hout];
      [exact Hin|]. apply lookup_None in Hout. congruence.
  - exfalso. apply lookup_None in Ea. apply Ea. rewrite Hnames.
    destruct (in_dec string_dec name (map fst b)) as [Hin|Hout];
      [exact Hin|]. apply lookup_None in Hout. congruence.
Qed.

Lemma fieldOf_remove (fields : list (string * value)) (name other : string) :
  name <> other -> fieldOf (remove fields name) other = fieldOf fields other.
Proof.
  intros H. unfold fieldOf. rewrite lookup_remove.
  apply String.eqb_neq in H. now rewrite H.
Qed.

Lemma storedNode_inv (collection : option string) (fields : list (string * value)) :
  storedNode collection (VObj fields) = true ->
  isJson (VObj fields) = true
  /\ NoDup (map fst fields)
  /\ lookup fields "_key" = None
  /\ forall name k, In (name, k) (hierarchyOf collection) ->
       lookup fields name <> None
       /\ match k with
          | Collection => exists refs, fieldOf fields name = VArr refs
          | Singular => truthy (fieldOf fields name) = true
                        \/ fieldOf fields name = VNull
          end.
Proof.
  unfold storedNode. intros H.
  apply andb_prop in H. destruct H as [H Hschema].
  apply andb_prop in H. destruct H as [H Hkey].
  apply andb_prop in H. destruct H as [Hjson Hdistinct].
  split; [exact Hjson|]. split; [now apply distinct_NoDup|].
  split; [destruct (lookup fields "_key"); [discriminate|reflexivity]|].
  intros nm k H. rewrite forallb_forall in Hschema. specialize (Hschema _ H).
  unfold storedField in Hschema. simpl in Hschema. split.
  - destruct (lookup fields nm); [discriminate|]. destruct k; discriminate.
  - unfold fieldOf.
    destruct (lookup fields nm) as [v|]; [|destruct k; discriminate].
    destruct k.
    + destruct v; try discriminate. eauto.
    + destruct v; simpl in *; try discriminate; auto;
        rewrite orb_false_r in Hschema; auto.
Qed.

Lemma sameValueZero_eq (a b : value) : sameValueZero a b = true -> a = b.
Proof.
  destruct a, b; simpl; try discriminate; try reflexivity; intros H.
  - apply Bool.eqb_prop in H. now subst.
  - apply Z.eqb_eq in H. now subst.
  - apply String.eqb_eq in H. now subst.
Qed.

Lemma resolves_spec (db : Level.store) (sublevel id : string)
      (collection : option string) (fields : list (string * value)) :
  resolves db sublevel id collection fields = true ->
  forall (name : string) (k : kind) (ref : value),
    In (name, k) (hierarchyOf collection) ->
    In ref (embeddedOf k (fieldOf fields name)) ->
    exists child : list (string * value),
      Level.find db (lookupKey sublevel id ref name) = Some (VObj child)
      /\ fieldOf child "_id" = ref.
Proof.
  unfold resolves. intros H name k ref Hin Href.
  rewrite forallb_forall in H. specialize (H _ Hin). simpl in H.
  rewrite forallb_forall in H. specialize (H _ Href).
  destruct (Level.find db (lookupKey sublevel id ref name)) as [[| | | | | |child]|];
    try discriminate.
  exists child. split; [reflexivity|]. now apply sameValueZero_eq.
Qed.

(** The shape of a hydrated node. *)
Lemma unpack_node_shape (m : Level.miss) (db : Level.store) (fuel : nat)
      (fields : list (string * value)) (collection : option string)
      (options sp ip : value) (node : value) (st st' : unit) :
  Js.get (given options) "sublevelPrefix" = Ok sp ->
  Js.get (given options) "idPrefix" = Ok ip ->
  storedNode collection (VObj fields) = true ->
  resolves db (keyJoin [sp; ofCollection collection])
    (keyJoin [ip; fieldOf fields "_id"]) collection fields = true ->
  applyHierarchy (unpackVisitor m db) (Datatypes.S fuel) (VObj fields)
    collection options st = Ok (node, st') ->
  exists fn,
    node = VObj fn
    /\ map fst fn = (map fst fields ++ ["_key"])%list
    /\ (forall other, ~ In other (map fst (hierarchyOf collection)) ->
          lookup fn other
          = lookup (assign fields "_key"
                      (VStr ("!" ++ keyJoin [sp; ofCollection collection]
                             ++ "!" ++ keyJoin [ip; fieldOf fields "_id"])))
              other)
    /\ forall name k,
         In (name, k) (hierarchyOf collection) ->
         hydrated
           (hydratedFrom m db fuel (keyJoin [sp; ofCollection collection])
              (keyJoin [ip; fieldOf fields "_id"]) name)
           k (fieldOf fields name) (fieldOf fn name).
Proof.
  intros Hsp Hip Hstored Hresolved Hwalk.
  pose proof (resolves_spec _ _ _ _ _ Hresolved) as Hresolves.
  clear Hresolved.
  destruct (storedNode_inv _ _ Hstored) as (Hjson & Hnd & Hnokey & Hschema).
  set (sublevel := keyJoin [sp; ofCollection collection]) in *.
  set (id := keyJoin [ip; fieldOf fields "_id"]) in *.
  rewrite applyHierarchy_unfold in Hwalk.
  inv_bind Hwalk as v Hv. destruct v as [[doc0 options1] st1].
  destruct (unpackVisitor_inv _ _ _ _ _ _ _ _ _ Hv)
    as (sp' & ip' & docId & docK & Hsp' & Hip' & Hid' & Hset & Hmap & Hopts).
  rewrite Hsp in Hsp'. rewrite Hip in Hip'.
  injection Hsp' as <-. injection Hip' as <-.
  rewrite get_obj in Hid'. injection Hid' as <-.
  simpl in Hset. injection Hset as <-.
  fold sublevel id in Hmap, Hopts.
  unfold mapHierarchy in Hmap.
  destruct (mapFields_obj _ _ _ _ (hierarchy_NoDup collection) Hmap)
    as (f0 & -> & Hmapped & Hframe0).
  assert (map fst f0 = (map fst fields ++ ["_key"])%list) as Hnames0.
  { rewrite (mapFields_names _ _ _ _ (fun name k Hin =>
               assign_names_kept _ _ _ _ (proj1 (Hschema name k Hin))) Hmap).
    now apply assign_names_fresh. }
  destruct (applyFields_frame _ _ _ _ _ _ Hwalk) as (fn & -> & Hframe1).
  pose proof (applyFields_names _ _ _ _ _ _ Hwalk) as Hnames1.
  pose proof (applyFields_hydrated _ _ _ _ _ _ (hierarchy_NoDup collection) Hwalk)
    as Hhydrated.
  exists fn. split; [reflexivity|]. split; [congruence|]. split.
  - intros other Hout.
    rewrite (lookup_of_fieldOf fn f0 other Hnames1 (Hframe1 _ Hout)).
    exact (Hframe0 _ Hout).
  - intros name k Hin.
    destruct (Hmapped _ _ Hin) as (w & Hw & Hshape).
    rewrite fieldOf_assign_other in Hshape
      by (intros E; symmetry in E; revert E; exact (hierarchy_not_key _ _ _ Hin)).
    specialize (Hhydrated _ _ Hin). unfold fieldOf in Hhydrated at 1.
    rewrite Hw in Hhydrated. subst options1. simpl orElse in Hhydrated.
    pose proof (Hresolves name k) as Hres.
    destruct (Hschema _ _ Hin) as (_ & Hform).
    assert (forall raw child ref,
              Level.get m db (lookupKey sublevel id ref name) = Ok raw ->
              In ref (embeddedOf k (fieldOf fields name)) ->
              (exists s s',
                  applyHierarchy (unpackVisitor m db) fuel raw (Some name)
                    (VObj [("sublevelPrefix", VStr sublevel);
                           ("idPrefix", VStr id)]) s = Ok (child, s')) ->
              hydratedFrom m db fuel sublevel id name ref child) as Hchild.
    { intros raw child ref Hget Href (s & s' & Happly).
      destruct (Hres ref Hin Href) as (cf & Hfind & Hcid).
      unfold Level.get in Hget. rewrite Hfind in Hget. injection Hget as <-.
      exists cf, s, s'. auto. }
    unfold mapped in Hshape. unfold hydrated in *. destruct k.
    + destruct Hform as (refs & Hrefs). rewrite Hrefs in *.
      destruct Hshape as (vs & Hvs & ->).
      destruct Hhydrated as (children & Hfield & Hall).
      exists children. split; [exact Hfield|].
      apply mapEach_Forall2 in Hvs.
      simpl embeddedOf in Hchild. clear Hfield Hres Hrefs Hw.
      revert vs children Hvs Hall Hchild.
      induction refs as [|ref refs IH]; intros vs children Hvs Hall Hchild.
      * inversion Hvs; subst. inversion Hall; subst. constructor.
      * inversion Hvs as [|? raw ? vs' Hraw Hvs']; subst.
        inversion Hall as [|? child ? children' Happly Hall']; subst.
        constructor.
        -- exact (Hchild _ _ _ Hraw (or_introl eq_refl) Happly).
        -- apply (IH vs' children' Hvs' Hall').
           intros raw0 child0 ref0 Hget Href.
           apply (Hchild raw0 child0 ref0 Hget). now right.
    + destruct Hform as [Htruthy|Hnull].
      * assert (In (fieldOf fields name)
                  (embeddedOf Singular (fieldOf fields name))) as Href.
        { unfold embeddedOf. rewrite Htruthy.
          destruct (fieldOf fields name); now left. }
        rewrite Htruthy in Hshape.
        destruct (Hres _ Hin Href) as (cf & Hfind & Hcid).
        pose proof Hshape as Hget. unfold Level.get in Hget.
        rewrite Hfind in Hget. injection Hget as <-.
        simpl truthy in Hhydrated. cbv iota in Hhydrated.
        assert (hydratedFrom m db fuel sublevel id name (fieldOf fields name)
                  (fieldOf fn name)) as Hdone
          by exact (Hchild _ _ _ Hshape Href Hhydrated).
        rewrite Htruthy. destruct (fieldOf fields name); exact Hdone.
      * rewrite Hnull in *. simpl in Hshape. subst w.
        simpl in Hhydrated. simpl. exact Hhydrated.
Qed.

Lemma hydratedFrom_record m db fuel sublevel id name ref child :
  hydratedFrom m db fuel sublevel id name ref child ->
  exists fields, child = VObj fields /\ fieldOf fields "_id" = ref.
Proof.
  intros (cf & s & s' & _ & Hcid & Happly).
  destruct (unpack_node_key m db fuel cf (Some name)
              (VObj [("sublevelPrefix", VStr sublevel); ("idPrefix", VStr id)])
              (VStr sublevel) (VStr id) s s' _ eq_refl eq_refl Happly)
    as (cf' & -> & _ & Hkept).
  exists cf'. split; [reflexivity|congruence].
Qed.

Lemma packVisitor_hydrated (m : Level.miss) (db : Level.store) (fuel : nat)
      (fields : list (string * value)) (collection : option string)
      (options sp ip : value) (node : value) (u u' : unit) (st : pack_state)
      (packOptions : value) :
  Js.get (given options) "sublevelPrefix" = Ok sp ->
  Js.get (given options) "idPrefix" = Ok ip ->
  storedNode collection (VObj fields) = true ->
  resolves db (keyJoin [sp; ofCollection collection])
    (keyJoin [ip; fieldOf fields "_id"]) collection fields = true ->
  applyHierarchy (unpackVisitor m db) fuel (VObj fields) collection options u
  = Ok (node, u') ->
  set_has (seenKeys st)
    (VStr ("!" ++ keyJoin [sp; ofCollection collection]
           ++ "!" ++ keyJoin [ip; fieldOf fields "_id"])) = false ->
  packVisitor node collection packOptions st
  = Ok (Js.delete node "_key", VUndef,
        PackState
          (VStr ("!" ++ keyJoin [sp; ofCollection collection]
                 ++ "!" ++ keyJoin [ip; fieldOf fields "_id"])
             :: seenKeys st)
          (batch st
             ++ [Level.Put ("!" ++ keyJoin [sp; ofCollection collection]
                            ++ "!" ++ keyJoin [ip; fieldOf fields "_id"])
                   (VObj fields)])).
Proof.
  intros Hsp Hip Hstored Hresolved Hwalk Hnew.
  destruct fuel as [|fuel]; [discriminate|].
  destruct (unpack_node_shape _ _ _ _ _ _ _ _ _ _ _ Hsp Hip Hstored Hresolved
              Hwalk) as (fn & -> & Hnames & Hframe & Hhydrated).
  destruct (storedNode_inv _ _ Hstored) as (Hjson & Hnd & Hnokey & Hschema).
  set (sublevel := keyJoin [sp; ofCollection collection]) in *.
  set (id := keyJoin [ip; fieldOf fields "_id"]) in *.
  set (key := "!" ++ sublevel ++ "!" ++ id) in *.
  pose proof (not_schema_field collection "_key" (hierarchy_not_key collection))
    as Hkeyout.
  assert (forall name k, In (name, k) (hierarchyOf collection) ->
            mapped (fun d _ => Js.get d "_id") (fieldOf fn name) name k
              (fieldOf fields name)) as Hback.
  { intros name k Hin. specialize (Hhydrated _ _ Hin).
    destruct (Hschema _ _ Hin) as (_ & Hform).
    unfold mapped, hydrated in *. destruct k.
    - destruct Hform as (refs & Hrefs). rewrite Hrefs in *.
      destruct Hhydrated as (children & -> & Hall).
      exists refs. split; [|reflexivity].
      apply mapEach_Forall2. clear Hrefs.
      induction Hall as [|ref child refs children Hone Hall IH]; constructor;
        [|exact IH].
      destruct (hydratedFrom_record _ _ _ _ _ _ _ _ Hone) as (cf & -> & <-).
      apply get_obj.
    - destruct Hform as [Htruthy|Hnull].
      + rewrite Htruthy in Hhydrated.
        assert (hydratedFrom m db fuel sublevel id name (fieldOf fields name)
                  (fieldOf fn name)) as Hone
          by (destruct (fieldOf fields name); exact Hhydrated).
        destruct (hydratedFrom_record _ _ _ _ _ _ _ _ Hone) as (cf & E & Hcid).
        rewrite E. simpl truthy. cbv iota. rewrite get_obj. congruence.
      + rewrite Hnull in *. simpl in Hhydrated. rewrite Hhydrated. reflexivity. }
  assert (fieldOf fn "_key" = VStr key) as Hkey.
  { unfold fieldOf. now rewrite (Hframe _ Hkeyout), lookup_assign_same. }
  assert (forall name k, In (name, k) (hierarchyOf collection) ->
            fieldOf (remove fn "_key") name = fieldOf fn name) as Hsame.
  { intros name k Hin. apply fieldOf_remove. intros E. symmetry in E.
    revert E. exact (hierarchy_not_key _ _ _ Hin). }
  destruct (mapFields_mapped (fun d _ => Js.get d "_id")
              (hierarchyOf collection) (remove fn "_key")
              (hierarchy_NoDup collection)) as (fv & Hpack).
  { intros name k Hin. exists (fieldOf fields name).
    rewrite (Hsame _ _ Hin). now apply Hback. }
  destruct (mapFields_obj _ _ _ _ (hierarchy_NoDup collection) Hpack)
    as (fv' & E & Hmapped' & Hframe'). injection E as <-.
  assert (fv = fields) as ->.
  { symmetry. apply fields_ext; [exact Hnd| |].
    - assert (forall name k, In (name, k) (hierarchyOf collection) ->
                lookup (remove fn "_key") name <> None) as Hpresent.
      { intros name k Hin. rewrite lookup_remove.
        destruct (String.eqb "_key" name) eqn:E;
          [apply String.eqb_eq in E; symmetry in E;
           exfalso; revert E; exact (hierarchy_not_key _ _ _ Hin)|].
        intros Hnone. apply lookup_None in Hnone. apply Hnone.
        rewrite Hnames. apply in_or_app. left.
        destruct (in_dec string_dec name (map fst fields)) as [Hp|Hp];
          [exact Hp|].
        apply lookup_None in Hp. now destruct (Hschema _ _ Hin). }
      rewrite (mapFields_names _ _ _ _ Hpresent Hpack).
      rewrite remove_names, Hnames.
      symmetry. apply filter_fresh. now apply lookup_None.
    - intros name.
      destruct (in_dec string_dec name (map fst (hierarchyOf collection)))
        as [Hin|Hout].
      + apply in_map_iff in Hin. destruct Hin as ([n k] & E & Hin).
        simpl in E. subst n.
        destruct (Hmapped' _ _ Hin) as (w' & Hw' & Hshape').
        rewrite (Hsame _ _ Hin) in Hshape'.
        rewrite Hw', (mapped_fun _ _ _ _ _ _ Hshape' (Hback _ _ Hin)).
        destruct (Hschema _ _ Hin) as (Hpresent & _).
        unfold fieldOf. destruct (lookup fields name); congruence.
      + rewrite (Hframe' _ Hout), lookup_remove.
        destruct (String.eqb "_key" name) eqn:E.
        * apply String.eqb_eq in E. now subst name.
        * apply String.eqb_neq in E.
          rewrite (Hframe _ Hout). now rewrite lookup_assign_other. }
  unfold packVisitor. rewrite get_obj, Hkey, bind_unit, Hnew.
  simpl Js.delete. unfold mapHierarchy. rewrite Hpack, bind_unit.
  unfold Level.batch_put. simpl nullish. cbv iota.
  rewrite (jsonRoundTrip_stable _ Hjson). reflexivity.
Qed.

(** X24.  What the extraction made of a stored node, the compile turns
    back into that node: when the value of a node has the form a compile
    gives it and each id it holds in a field of the schema resolves, under
    the key [unpackDoc] looks it up, to a record with that [_id], then the
    callback of [packDoc] applied to the hydrated node stages the stored
    value itself, under the key of the node, and leaves the node without
    its [_key]. *)
Theorem hydrated_node_is_staged_as_stored :
  forall (m : Level.miss) (db : Level.store) (fuel : nat)
         (fields : list (string * value)) (collection : option string)
         (options sp ip : value) (node : value) (st : pack_state)
         (packOptions : value),
    Js.get (given options) "sublevelPrefix" = Ok sp ->
    Js.get (given options) "idPrefix" = Ok ip ->
    storedNode collection (VObj fields) = true ->
    resolves db (keyJoin [sp; ofCollection collection])
      (keyJoin [ip; fieldOf fields "_id"]) collection fields = true ->
    applyHierarchy (unpackVisitor m db) fuel (VObj fields) collection options tt
    = Ok (node, tt) ->
    set_has (seenKeys st)
      (VStr ("!" ++ keyJoin [sp; ofCollection collection]
             ++ "!" ++ keyJoin [ip; fieldOf fields "_id"])) = false ->
    packVisitor node collection packOptions st
    = Ok (Js.delete node "_key", VUndef,
          PackState
            (VStr ("!" ++ keyJoin [sp; ofCollection collection]
                   ++ "!" ++ keyJoin [ip; fieldOf fields "_id"])
               :: seenKeys st)
            (batch st
               ++ [Level.Put ("!" ++ keyJoin [sp; ofCollection collection]
                              ++ "!" ++ keyJoin [ip; fieldOf fields "_id"])
                     (VObj fields)])).
Proof.
  intros m db fuel fields collection options sp ip node st packOptions.
  apply packVisitor_hydrated.
Qed.

Lemma hydrated_node_is_staged_as_stored_witness :
  packVisitor
    (VObj [("_id", VStr "abc"); ("name", VStr "Hero");
           ("items", VArr [VObj [("_id", VStr "i1"); ("name", VStr "Sword");
                                 ("effects", VArr []);
                                 ("_key", VStr "!actors.items!abc.i1")]]);
           ("effects", VArr []); ("_key", VStr "!actors!abc")])
    (Some "actors") VUndef pack_init
  = Ok (Js.delete
          (VObj [("_id", VStr "abc"); ("name", VStr "Hero");
                 ("items", VArr [VObj [("_id", VStr "i1"); ("name", VStr "Sword");
                                       ("effects", VArr []);
                                       ("_key", VStr "!actors.items!abc.i1")]]);
                 ("effects", VArr []); ("_key", VStr "!actors!abc")])
          "_key",
        VUndef,
        PackState
          (VStr ("!" ++ keyJoin [VUndef; ofCollection (Some "actors")]
                 ++ "!" ++ keyJoin [VUndef; VStr "abc"])
             :: seenKeys pack_init)
          (batch pack_init
             ++ [Level.Put ("!" ++ keyJoin [VUndef; ofCollection (Some "actors")]
                            ++ "!" ++ keyJoin [VUndef; VStr "abc"])
                   stored_hero])).
Proof.
  apply (hydrated_node_is_staged_as_stored Level.classic_level_2 flat_pack 5
           [("_id", VStr "abc"); ("name", VStr "Hero");
            ("items", VArr [VStr "i1"]); ("effects", VArr [])]
           (Some "actors") VUndef VUndef VUndef);
    reflexivity.
Defined.

(* ------------------------------------------------------------------ *)
(** ** Every node of a compiled document is staged *)

Lemma heldBy_obj (fields : list (string * value)) (nm : string) :
  heldBy (VObj fields) nm = fieldOf fields nm.
Proof. unfold heldBy, fieldOf. simpl. now destruct (lookup fields nm). Qed.

Lemma fieldOf_remove_other (fields : list (string * value)) (nm other : string) :
  other <> nm -> fieldOf (remove fields nm) other = fieldOf fields other.
Proof.
  intros H. unfold fieldOf. rewrite lookup_remove.
  destruct (String.eqb nm other) eqn:E; [|reflexivity].
  apply String.eqb_eq in E. congruence.
Qed.

Lemma depth_embedded (k : kind) (doc : value) (nm : string) (child : value) :
  In child (embeddedOf k (heldBy doc nm)) -> depth child < depth doc.
Proof.
  intros Hin.
  assert (depth (heldBy doc nm) < depth doc \/ heldBy doc nm = VUndef) as [Hd|Hd].
  { destruct doc as [| |b|n|s|elems|fields]; try (right; reflexivity).
    left. rewrite heldBy_obj, depth_obj.
    pose proof (depth_fieldOf fields nm). lia. }
  - assert (depth child <= depth (heldBy doc nm)); [|lia].
    unfold embeddedOf in Hin.
    destruct k, (heldBy doc nm) as [| |b|n|s|elems|fs] eqn:E;
      try (destruct (truthy _) in Hin); simpl in Hin;
      try contradiction; try (destruct Hin as [<-|[]]; lia).
    all: pose proof (depth_elem _ _ Hin); rewrite depth_arr; lia.
  - rewrite Hd in Hin. destruct k; simpl in Hin; contradiction.
Qed.

(** The callback stages the node it is called on. *)
Lemma packVisitor_stages (doc : value) (collection : option string)
      (options : value) (st : pack_state)
      (doc1 options1 : value) (st1 : pack_state) :
  packVisitor doc collection options st = Ok (doc1, options1, st1) ->
  exists (fields : list (string * value)) (put : Level.op),
    doc = VObj fields
    /\ doc1 = VObj (remove fields "_key")
    /\ batch st1 = (batch st ++ [put])%list
    /\ stagedAs (collection, doc) put.
Proof.
  intros H. unfold packVisitor in H. inv_bind H as key Hkey.
  destruct (set_has (seenKeys st) key); [discriminate|].
  inv_bind H as v Hv. inv_bind H as b Hb. injection H as <- _ <-.
  unfold Level.batch_put in Hb.
  destruct (nullish key) eqn:Hnull; [discriminate|].
  destruct (nullish v); [discriminate|]. injection Hb as <-.
  destruct doc as [| |b0|n|s|elems|fields]; simpl in Hkey;
    try discriminate; try (injection Hkey as <-; discriminate).
  simpl in Hv. unfold mapHierarchy in Hv.
  apply mapFields_obj in Hv; [|apply hierarchy_NoDup].
  destruct Hv as (fields' & -> & Hmapped & Hframe).
  exists fields. eexists. split; [reflexivity|]. split; [reflexivity|].
  split; [reflexivity|].
  exists key, fields, fields'. simpl.
  destruct (lookup fields "_key") as [found|] eqn:Hfound.
  - injection Hkey as ->. repeat split; auto.
  - injection Hkey as <-. discriminate.
Qed.

Section PackWalk.

Variable fuel : nat.
Variable options : value.

Hypothesis walk_stages :
  forall (doc : value) (collection : option string) (st : pack_state)
         (doc' : value) (st' : pack_state),
    applyHierarchy packVisitor fuel doc collection options st = Ok (doc', st') ->
    exists puts : list Level.op,
      batch st' = (batch st ++ puts)%list
      /\ Forall2 stagedAs (nodesOf fuel collection doc) puts.

Let walk (d : value) (nm : string) :=
  applyHierarchy packVisitor fuel d (Some nm) options.

Lemma applyEach_stages (nm : string) (elems : list value) :
  forall (st : pack_state) (elems' : list value) (st' : pack_state),
    applyEach (fun d => walk d nm) elems st = Ok (elems', st') ->
    exists puts : list Level.op,
      batch st' = (batch st ++ puts)%list
      /\ Forall2 stagedAs (flat_map (nodesOf fuel (Some nm)) elems) puts.
Proof.
  induction elems as [|e rest IH]; intros st elems' st' H.
  - injection H as _ <-. exists []. split; [now rewrite app_nil_r|constructor].
  - cbn [applyEach] in H. inv_bind H as r1 H1. destruct r1 as [e' st1].
    inv_bind H as r2 H2. destruct r2 as [rest' st2]. injection H as _ <-.
    destruct (walk_stages _ _ _ _ _ H1) as (p1 & B1 & F1).
    destruct (IH _ _ _ H2) as (p2 & B2 & F2).
    exists (p1 ++ p2)%list. split.
    + now rewrite B2, B1, app_assoc.
    + cbn [flat_map]. now apply Forall2_app.
Qed.

Lemma applyField_stages (fields : list (string * value)) (nm : string) (k : kind)
      (st : pack_state) (doc' : value) (st' : pack_state) :
  applyField walk (VObj fields) st (nm, k) = Ok (doc', st') ->
  exists (fields' : list (string * value)) (puts : list Level.op),
    doc' = VObj fields'
    /\ (forall other, other <> nm -> fieldOf fields' other = fieldOf fields other)
    /\ batch st' = (batch st ++ puts)%list
    /\ Forall2 stagedAs
         (flat_map (nodesOf fuel (Some nm)) (embeddedOf k (fieldOf fields nm))) puts.
Proof.
  intros H. unfold applyField in H. rewrite get_obj in H. cbn [bind] in H.
  assert (forall v,
             ('(w, st0) <- walk v nm st ;; Ok (held (VObj fields) nm w, st0))
             = Ok (doc', st') ->
             exists (fields' : list (string * value)) (puts : list Level.op),
               doc' = VObj fields'
               /\ (forall other, other <> nm ->
                                 fieldOf fields' other = fieldOf fields other)
               /\ batch st' = (batch st ++ puts)%list
               /\ Forall2 stagedAs (flat_map (nodesOf fuel (Some nm)) [v]) puts)
    as Hone.
  { intros v Hv. inv_bind Hv as r Hr. destruct r as [w st0].
    injection Hv as <- <-.
    destruct (walk_stages _ _ _ _ _ Hr) as (puts & B & F).
    eexists. exists puts. split; [reflexivity|]. split.
    - intros other Hother. apply fieldOf_assign_other. congruence.
    - split; [exact B|]. cbn [flat_map]. now rewrite app_nil_r. }
  assert (exists (fields' : list (string * value)) (puts : list Level.op),
             VObj fields = VObj fields'
             /\ (forall other, other <> nm ->
                               fieldOf fields' other = fieldOf fields other)
             /\ batch st = (batch st ++ puts)%list
             /\ Forall2 stagedAs (flat_map (nodesOf fuel (Some nm)) []) puts)
    as Hnone.
  { exists fields, []. repeat split; auto. now rewrite app_nil_r. }
  unfold embeddedOf.
  destruct k, (fieldOf fields nm) as [| |b|n|s|elems|fs] eqn:E;
    cbn [truthy] in H |- *;
    try (injection H as <- <-; exact Hnone);
    try (destruct b; [apply Hone; exact H|injection H as <- <-; exact Hnone]);
    try (destruct (negb (Z.eqb n 0));
         [apply Hone; exact H|injection H as <- <-; exact Hnone]);
    try (destruct (negb (String.eqb s ""));
         [apply Hone; exact H|injection H as <- <-; exact Hnone]);
    try (apply Hone; exact H).
  inv_bind H as r Hr. destruct r as [elems' st0]. injection H as <- <-.
  destruct (applyEach_stages _ _ _ _ _ Hr) as (puts & B & F).
  eexists. exists puts. split; [reflexivity|]. split; [|split; assumption].
  intros other Hother. apply fieldOf_assign_other. congruence.
Qed.

Lemma applyFields_stages (fields0 : list (string * value)) :
  forall (entries : list (string * kind)) (fields : list (string * value))
         (st : pack_state) (doc' : value) (st' : pack_state),
    NoDup (map fst entries) ->
    (forall nm, In nm (map fst entries) ->
                fieldOf fields nm = fieldOf fields0 nm) ->
    applyFields walk entries (VObj fields) st = Ok (doc', st') ->
    exists puts : list Level.op,
      batch st' = (batch st ++ puts)%list
      /\ Forall2 stagedAs
           (flat_map
              (fun entry =>
                 flat_map (nodesOf fuel (Some (fst entry)))
                   (embeddedOf (snd entry) (fieldOf fields0 (fst entry))))
              entries) puts.
Proof.
  induction entries as [|[nm k] rest IH]; intros fields st doc' st' Hnd Hsame H.
  - injection H as _ <-. exists []. split; [now rewrite app_nil_r|constructor].
  - inversion Hnd as [|? ? Hnotin Hnd']; subst.
    cbn [applyFields] in H. inv_bind H as r Hr. destruct r as [doc1 st1].
    destruct (applyField_stages _ _ _ _ _ _ Hr) as (fields1 & p1 & -> & Hother & B1 & F1).
    destruct (IH fields1 st1 doc' st' Hnd') as (p2 & B2 & F2); [|exact H|].
    { intros n Hn. rewrite Hother.
      - apply Hsame. now right.
      - intros ->. contradiction. }
    exists (p1 ++ p2)%list. split.
    + now rewrite B2, B1, app_assoc.
    + cbn [flat_map fst snd]. apply Forall2_app; [|exact F2].
      rewrite <- (Hsame nm (or_introl eq_refl)). exact F1.
Qed.

End PackWalk.

(** The walk of [packDoc] stages the nodes of the document, one put for
    each and in the order of the walk. *)
Lemma packWalk_stages (fuel : nat) :
  forall (options doc : value) (collection : option string) (st : pack_state)
         (doc' : value) (st' : pack_state),
    applyHierarchy packVisitor fuel doc collection options st = Ok (doc', st') ->
    exists puts : list Level.op,
      batch st' = (batch st ++ puts)%list
      /\ Forall2 stagedAs (nodesOf fuel collection doc) puts.
Proof.
  induction fuel as [|fuel IH]; intros options doc collection st doc' st' H;
    [discriminate|].
  rewrite applyHierarchy_unfold in H. inv_bind H as r Hr.
  destruct r as [[doc1 options1] st1].
  destruct (packVisitor_stages _ _ _ _ _ _ _ Hr)
    as (fields & put & -> & -> & B1 & Hput).
  destruct (applyFields_stages fuel (orElse options1 (VObj []))
              (IH (orElse options1 (VObj []))) fields
              (hierarchyOf collection) (remove fields "_key") st1 doc' st')
    as (puts & B2 & F2); [apply hierarchy_NoDup| |exact H|].
  { intros nm Hnm. apply fieldOf_remove_other.
    apply in_map_iff in Hnm. destruct Hnm as ([n k] & E & Hin). simpl in E.
    subst n. exact (hierarchy_not_key _ _ _ Hin). }
  exists (put :: puts). split.
  - rewrite B2, B1, <- app_assoc. reflexivity.
  - cbn [nodesOf]. constructor; [exact Hput|].
    erewrite flat_map_ext; [exact F2|].
    intros [nm k]. cbn [fst snd]. now rewrite heldBy_obj.
Qed.

(** No node is left out of [nodes]: the document is in it, and so is
    whatever a field of the schema holds in one of its nodes. *)
Lemma nodesOf_closed (fuel : nat) :
  forall (collection : option string) (doc : value),
    depth doc < fuel ->
    In (collection, doc) (nodesOf fuel collection doc)
    /\ forall (node : option string * value),
         In node (nodesOf fuel collection doc) ->
         forall (nm : string) (k : kind) (child : value),
           In (nm, k) (hierarchyOf (fst node)) ->
           In child (embeddedOf k (heldBy (snd node) nm)) ->
           In (Some nm, child) (nodesOf fuel collection doc).
Proof.
  induction fuel as [|fuel IH]; intros collection doc Hdepth; [lia|].
  split; [now left|].
  intros node Hnode nm k child Hschema Hchild. cbn [nodesOf] in Hnode |- *.
  destruct Hnode as [<-|Hnode].
  - right. apply in_flat_map. exists (nm, k). split; [exact Hschema|].
    apply in_flat_map. exists child. split; [exact Hchild|].
    pose proof (depth_embedded _ _ _ _ Hchild) as Hless.
    apply (proj1 (IH (Some nm) child ltac:(simpl in Hless; lia))).
  - right. apply in_flat_map in Hnode. destruct Hnode as ([n0 k0] & Hin0 & Hnode).
    apply in_flat_map in Hnode. destruct Hnode as (d0 & Hd0 & Hnode).
    cbn [fst snd] in *.
    pose proof (depth_embedded _ _ _ _ Hd0) as Hless.
    apply in_flat_map. exists (n0, k0). split; [exact Hin0|].
    apply in_flat_map. exists d0. split; [exact Hd0|].
    cbn [fst].
    exact (proj2 (IH (Some n0) d0 ltac:(lia)) node Hnode nm k child Hschema Hchild).
Qed.

Lemma Forall2_In_left {A B : Type} (R : A -> B -> Prop) (l : list A) (l' : list B) :
  Forall2 R l l' -> forall x, In x l -> exists y, In y l' /\ R x y.
Proof.
  induction 1 as [|a b l l' Hab _ IH]; intros x Hin; [contradiction|].
  destruct Hin as [<-|Hin].
  - exists b. split; [now left|exact Hab].
  - destruct (IH x Hin) as (y & Hy & Hxy). exists y. split; [now right|exact Hxy].
Qed.

Lemma packDoc_stages (doc : value) (collection : option string)
      (st : pack_state) (doc' : value) (st' : pack_state) :
  packDoc doc collection st = Ok (doc', st') ->
  exists puts : list Level.op,
    batch st' = (batch st ++ puts)%list
    /\ Forall2 stagedAs (nodes collection doc) puts.
Proof. intros H. exact (packWalk_stages _ _ _ _ _ _ _ H). Qed.

Lemma packFile_stages (transformEntry : option EntryTransformer)
      (file : source_file) (collection : option string) (doc : value)
      (st st' : pack_state) :
  compiledDoc transformEntry file = Some (collection, doc) ->
  packFile transformEntry st file = Ok st' ->
  exists puts : list Level.op,
    batch st' = (batch st ++ puts)%list
    /\ Forall2 stagedAs (nodes collection doc) puts.
Proof.
  unfold compiledDoc, packFile. intros Hdoc H.
  destruct (file_doc file) as [source|]; [|discriminate].
  destruct (collectionOf source) as [c| |]; try discriminate.
  destruct (callTransformEntry transformEntry source) as [[kept|]| |];
    try discriminate.
  injection Hdoc as <- <-. cbn [bind] in H.
  inv_bind H as r Hr. destruct r as [doc' st1]. injection H as <-.
  exact (packDoc_stages _ _ _ _ _ Hr).
Qed.

Lemma packFiles_extends (transformEntry : option EntryTransformer)
      (files : list source_file) (st st' : pack_state) :
  packFiles transformEntry st files = Ok st' ->
  exists puts : list Level.op, batch st' = (batch st ++ puts)%list.
Proof.
  intros H. destruct (packFiles_run _ _ _ _ H) as (new & puts & -> & _).
  exists puts. reflexivity.
Qed.

(** Every node of every document of a run that succeeds is staged. *)
Lemma run_stages (transformEntry : option EntryTransformer)
      (files : list source_file) (st : pack_state)
      (file : source_file) (collection : option string) (doc : value)
      (node : option string * value) :
  packFiles transformEntry pack_init files = Ok st ->
  In file files ->
  compiledDoc transformEntry file = Some (collection, doc) ->
  In node (nodes collection doc) ->
  exists put : Level.op, stagedAs node put /\ In put (batch st).
Proof.
  intros Hrun Hfile Hdoc Hnode.
  apply in_split in Hfile. destruct Hfile as (before & after & ->).
  rewrite packFiles_app in Hrun. inv_bind Hrun as st0 H0.
  cbn [packFiles] in Hrun. inv_bind Hrun as st1 H1.
  destruct (packFile_stages _ _ _ _ _ _ Hdoc H1) as (puts & B1 & F1).
  destruct (Forall2_In_left _ _ _ F1 _ Hnode) as (put & Hput & Hstaged).
  destruct (packFiles_extends _ _ _ _ Hrun) as (more & B2).
  exists put. split; [exact Hstaged|].
  rewrite B2, B1. apply in_or_app. left. apply in_or_app. now right.
Qed.

(** C2, as the code has it.  The callback of [packDoc] stages the node
    it is called on under the node's own [_key]; the value staged is the
    node without its [_key] and with every embedded field of the schema
    mapped to the [_id]s of what it held.  [packDoc] calls it on every
    node of the document it is given, the root and the embedded nodes at
    every depth: the puts a walk adds to the batch are those of the nodes
    of the document, one for each and in the order of the walk, and no
    node is left out of them.  So after a run that succeeds every node of
    every document compiled has a put of its own in the batch, and, when
    the keys of the run are strings, the store answers the value of that
    put for the key of the node.  Compiling the actor whose item carries
    the key ["!actors.items!abc.i1"] into an empty store yields two keys:
    the actor, holding [items: ["i1"]], and the item. *)
Theorem compile_stores_embedded_by_id :
  (forall (fields : list (string * value)) (collection : option string)
          (options : value) (st : pack_state)
          (doc1 options1 : value) (st1 : pack_state),
      packVisitor (VObj fields) collection options st = Ok (doc1, options1, st1) ->
      exists (key : value) (fields' : list (string * value)),
        Js.get (VObj fields) "_key" = Ok key
        /\ doc1 = VObj (remove fields "_key")
        /\ batch st1
           = (batch st ++ [Level.Put (toString key) (jsonRoundTrip (VObj fields'))])%list
        /\ forall (name : string) (k : kind),
             In (name, k) (hierarchyOf collection) ->
             exists w,
               lookup fields' name = Some w
               /\ mapped (fun d _ => Js.get d "_id")
                    (fieldOf (remove fields "_key") name) name k w)
  /\ (forall (doc : value) (collection : option string) (st : pack_state)
             (doc' : value) (st' : pack_state),
         packDoc doc collection st = Ok (doc', st') ->
         exists puts : list Level.op,
           batch st' = (batch st ++ puts)%list
           /\ Forall2 stagedAs (nodes collection doc) puts)
  /\ (forall (collection : option string) (doc : value),
         In (collection, doc) (nodes collection doc)
         /\ forall (node : option string * value) (name : string) (k : kind)
                   (child : value),
              In node (nodes collection doc) ->
              In (name, k) (hierarchyOf (fst node)) ->
              In child (embeddedOf k (heldBy (snd node) name)) ->
              In (Some name, child) (nodes collection doc))
  /\ (forall (db : Level.store) (files : list source_file)
             (transformEntry : option EntryTransformer) (st : pack_state)
             (file : source_file) (collection : option string) (doc : value)
             (node : option string * value),
         packFiles transformEntry pack_init files = Ok st ->
         In file files ->
         compiledDoc transformEntry file = Some (collection, doc) ->
         In node (nodes collection doc) ->
         exists (key : string) (v : value),
           stagedAs node (Level.Put key v)
           /\ In (Level.Put key v) (batch st)
           /\ (forallb isString (seenKeys st) = true ->
               Level.find (snd (compileClassicLevel db files transformEntry)) key
               = Some v))
  /\ compileClassicLevel [] [keyed_hero_file] None
     = (Ok (Some ("!actors!abc", "!actors.items!abc.i1")),
        [("!actors!abc", stored_hero); ("!actors.items!abc.i1", stored_sword)]).
Proof.
  split; [|split; [|split; [|split; [|reflexivity]]]].
  - intros fields collection options st doc1 options1 st1 H.
    unfold packVisitor in H. inv_bind H as key Hkey.
    destruct (set_has (seenKeys st) key); [discriminate|].
    inv_bind H as v Hv. inv_bind H as b Hb. injection H as <- _ <-.
    simpl in Hv. unfold mapHierarchy in Hv.
    apply mapFields_obj in Hv; [|apply hierarchy_NoDup].
    destruct Hv as (fields' & -> & Hmapped & _).
    unfold Level.batch_put in Hb.
    destruct (nullish key); [discriminate|]. simpl in Hb. injection Hb as <-.
    exists key, fields'. repeat split; auto.
  - exact packDoc_stages.
  - intros collection doc.
    destruct (nodesOf_closed (Datatypes.S (depth doc)) collection doc
                (Nat.lt_succ_diag_r _)) as [Hroot Hclosed].
    split; [exact Hroot|].
    intros node nm k child Hnode Hschema Hchild.
    exact (Hclosed node Hnode nm k child Hschema Hchild).
  - intros db files transformEntry st file collection doc node
           Hrun Hfile Hdoc Hnode.
    destruct (run_stages _ _ _ _ _ _ _ Hrun Hfile Hdoc Hnode)
      as (put & Hstaged & Hput).
    pose proof Hstaged as (key & fields & fields' & _ & _ & _ & -> & _).
    eexists. eexists. split; [exact Hstaged|]. split; [exact Hput|].
    intros Hstrings. unfold compileClassicLevel. rewrite Hrun. simpl.
    exact (final_write_find _ _ _ _ (run_invariant _ _ _ Hrun) Hstrings Hput).
Qed.

Lemma compile_stores_embedded_by_id_witness :
  exists puts : list Level.op,
    [Level.Put "!actors!abc" stored_hero;
     Level.Put "!actors.items!abc.i1" stored_sword]
    = ([] ++ puts)%list
    /\ Forall2 stagedAs (nodes (Some "actors") keyed_hero) puts.
Proof.
  exact (proj1 (proj2 compile_stores_embedded_by_id)
           keyed_hero (Some "actors") pack_init
           (VObj [("_id", VStr "abc"); ("name", VStr "Hero");
                  ("items", VArr [VObj [("_id", VStr "i1"); ("name", VStr "Sword")]])])
           (PackState [VStr "!actors.items!abc.i1"; VStr "!actors!abc"]
              [Level.Put "!actors!abc" stored_hero;
               Level.Put "!actors.items!abc.i1" stored_sword])
           eq_refl).
Defined.

(* ------------------------------------------------------------------ *)
(** ** Extracting a pack and compiling it again *)

Lemma staged_nil (st : pack_state) : staged st [] = st.
Proof. destruct st; unfold staged; simpl. now rewrite app_nil_r. Qed.

Lemma staged_app (st : pack_state) (a b : list (string * value)) :
  staged (staged st a) b = staged st (a ++ b).
Proof.
  unfold staged. simpl. rewrite !map_app, rev_app_distr, <- !app_assoc.
  reflexivity.
Qed.

Lemma unseen_app (st : pack_state) (a b : list (string * value)) :
  unseen st (a ++ b) -> unseen st a /\ unseen st b.
Proof.
  unfold unseen. rewrite map_app. intros H.
  split; intros k Hk; apply H, in_or_app; auto.
Qed.

Lemma NoDup_keys_app (a b : list (string * value)) :
  NoDup (map fst (a ++ b)) ->
  NoDup (map fst a) /\ NoDup (map fst b)
  /\ forall k, In k (map fst a) -> ~ In k (map fst b).
Proof.
  rewrite map_app. intros H. split; [|split].
  - eapply NoDup_app_remove_r. exact H.
  - eapply NoDup_app_remove_l. exact H.
  - induction (map fst a) as [|x rest IH]; intros k Hk; [contradiction|].
    simpl in H. inversion H as [|? ? Hfresh Hnd]; subst.
    destruct Hk as [->|Hk].
    + intros Hb. apply Hfresh. apply in_or_app. now right.
    + now apply IH.
Qed.

Lemma unseen_staged (st : pack_state) (a b : list (string * value)) :
  NoDup (map fst (a ++ b)) -> unseen st (a ++ b) -> unseen (staged st a) b.
Proof.
  intros Hnd Hun k Hk. unfold staged. simpl. rewrite set_has_app.
  destruct (unseen_app _ _ _ Hun) as [_ Hb]. rewrite (Hb k Hk), orb_false_r.
  destruct (set_has (rev (map (fun e => VStr (fst e)) a)) (VStr k)) eqn:E;
    [|reflexivity].
  exfalso. apply set_has_In in E. apply in_rev, in_map_iff in E.
  destruct E as (e & Heq & He). injection Heq as <-.
  destruct (NoDup_keys_app _ _ Hnd) as (_ & _ & Hdisjoint).
  apply (Hdisjoint (fst e)); [now apply in_map|exact Hk].
Qed.

Lemma stateOf_bind {A B S : Type} (c : outcome A) (k : A -> outcome (B * S)) :
  stateOf (bind c k) = bind c (fun a => stateOf (k a)).
Proof. destruct c; reflexivity. Qed.

(** The children a walk finds in a hydrated field. *)
Lemma hydrated_children (R : value -> value -> Prop) (k : kind) (v w : value) :
  match k with
  | Collection => exists refs, v = VArr refs
  | Singular => truthy v = true \/ v = VNull
  end ->
  (forall ref child, R ref child -> exists fields, child = VObj fields) ->
  hydrated R k v w ->
  exists children,
    Forall2 R (embeddedOf k v) children
    /\ (match k with
        | Collection => isArray w = true
        | Singular => truthy w = true \/ w = VNull
        end)
    /\ forall fr name,
         fieldOf fr name = w -> specField fr (name, k) = map (pair name) children.
Proof.
  intros Hform Hrecord H. unfold hydrated in H. destruct k.
  - destruct Hform as (refs & ->). destruct H as (children & -> & Hall).
    exists children. split; [exact Hall|]. split; [reflexivity|].
    intros fr name Hw. simpl. now rewrite Hw.
  - destruct Hform as [Htruthy|Hnull]; [|subst v].
    + assert (R v w) as Hone.
      { rewrite Htruthy in H. destruct v; exact H. }
      destruct (Hrecord _ _ Hone) as (cf & ->).
      exists [VObj cf]. split; [|split].
      * unfold embeddedOf. rewrite Htruthy.
        destruct v; repeat constructor; exact Hone.
      * now left.
      * intros fr name Hw. simpl. now rewrite Hw.
    + simpl in H. subst w. exists []. split; [constructor|].
      split; [now right|]. intros fr name Hw. simpl. now rewrite Hw.
Qed.

Lemma sound_child (db : Level.store) (fuel : nat) (sublevel id : string)
      (collection : option string) (fields : list (string * value))
      (name : string) (k : kind) (ref : value) (child : list (string * value)) :
  soundTree db (Datatypes.S fuel) sublevel id collection fields = true ->
  In (name, k) (hierarchyOf collection) ->
  In ref (embeddedOf k (fieldOf fields name)) ->
  Level.find db (lookupKey sublevel id ref name) = Some (VObj child) ->
  soundTree db fuel (keyJoin [VStr sublevel; VStr name])
    (keyJoin [VStr id; fieldOf child "_id"]) (Some name) child = true.
Proof.
  intros H Hin Href Hfind. cbn [soundTree] in H.
  apply andb_prop in H. destruct H as [_ H].
  rewrite forallb_forall in H. specialize (H _ Hin). simpl in H.
  rewrite forallb_forall in H. specialize (H _ Href).
  now rewrite Hfind in H.
Qed.

Lemma soundTree_node (db : Level.store) (fuel : nat) (sublevel id : string)
      (collection : option string) (fields : list (string * value)) :
  soundTree db fuel sublevel id collection fields = true ->
  exists fuel', fuel = Datatypes.S fuel'
    /\ storedNode collection (VObj fields) = true
    /\ resolves db sublevel id collection fields = true.
Proof.
  destruct fuel as [|fuel']; [discriminate|]. cbn [soundTree]. intros H.
  apply andb_prop in H. destruct H as [H _].
  apply andb_prop in H. destruct H as [H1 H2]. eauto.
Qed.

(** The compile walks a hydrated node as the tree it stands for. *)
Lemma pack_hydrated (m : Level.miss) (db : Level.store) (fuel : nat) :
  forall (fields : list (string * value)) (collection : option string)
         (options sp ip : value) (node : value) (u u' : unit)
         (st : pack_state) (packOptions : value) (packFuel : nat),
    Js.get (given options) "sublevelPrefix" = Ok sp ->
    Js.get (given options) "idPrefix" = Ok ip ->
    soundTree db fuel (keyJoin [sp; ofCollection collection])
      (keyJoin [ip; fieldOf fields "_id"]) collection fields = true ->
    applyHierarchy (unpackVisitor m db) fuel (VObj fields) collection options u
    = Ok (node, u') ->
    NoDup (map fst (subtree db fuel (keyJoin [sp; ofCollection collection])
                      (keyJoin [ip; fieldOf fields "_id"]) collection fields)) ->
    unseen st (subtree db fuel (keyJoin [sp; ofCollection collection])
                 (keyJoin [ip; fieldOf fields "_id"]) collection fields) ->
    fuel <= packFuel ->
    stateOf (applyHierarchy packVisitor packFuel node collection packOptions st)
    = Ok (staged st (subtree db fuel (keyJoin [sp; ofCollection collection])
                       (keyJoin [ip; fieldOf fields "_id"]) collection fields)).
Proof.
  induction fuel as [|fuel IH];
    intros fields collection options sp ip node u u' st packOptions packFuel
           Hsp Hip Hsound Hwalk Hnd Hunseen Hfuel; [discriminate|].
  destruct (soundTree_node _ _ _ _ _ _ Hsound) as (f' & _ & Hstored & Hresolved).
  destruct packFuel as [|packFuel]; [lia|].
  set (sublevel := keyJoin [sp; ofCollection collection]) in *.
  set (id := keyJoin [ip; fieldOf fields "_id"]) in *.
  (* the node itself *)
  assert (set_has (seenKeys st) (VStr ("!" ++ sublevel ++ "!" ++ id)) = false)
    as Hnew by (apply Hunseen; now left).
  pose proof (packVisitor_hydrated m db _ fields collection options sp ip node
                u u' st (given packOptions) Hsp Hip Hstored Hresolved Hwalk Hnew)
    as Hvisit.
  destruct (unpack_node_shape _ _ _ _ _ _ _ _ _ _ _ Hsp Hip Hstored Hresolved
              Hwalk) as (fn & -> & Hnames & Hframe & Hhydrated).
  fold sublevel id in Hvisit, Hhydrated, Hframe.
  destruct (storedNode_inv _ _ Hstored) as (_ & _ & _ & Hschema).
  rewrite applyHierarchy_unfold, Hvisit, bind_unit. simpl Js.delete.
  set (apply := fun (d : value) (name : string) =>
                  applyHierarchy packVisitor packFuel d (Some name)
                    (orElse VUndef (VObj []))).
  set (st1 := PackState _ _).
  assert (st1 = staged st [("!" ++ sublevel ++ "!" ++ id, VObj fields)]) as Est
    by reflexivity.
  set (tree := fun entry : string * kind =>
                 flat_map
                   (fun ref =>
                      match Level.find db (lookupKey sublevel id ref (fst entry)) with
                      | Some (VObj child) =>
                          subtree db fuel
                            (keyJoin [VStr sublevel; VStr (fst entry)])
                            (keyJoin [VStr id; fieldOf child "_id"])
                            (Some (fst entry)) child
                      | _ => []
                      end)
                   (embeddedOf (snd entry) (fieldOf fields (fst entry)))).
  cbn [subtree] in Hnd, Hunseen |- *. fold sublevel id in Hnd, Hunseen |- *.
  fold tree in Hnd, Hunseen |- *.
  assert (forall name k, In (name, k) (hierarchyOf collection) ->
            fieldOf (remove fn "_key") name = fieldOf fn name) as Hsame.
  { intros name k Hin. apply fieldOf_remove. intros E. symmetry in E.
    revert E. exact (hierarchy_not_key _ _ _ Hin). }
  (* the children of each field *)
  assert (forall name k, In (name, k) (hierarchyOf collection) ->
            exists children,
              Forall2 (hydratedFrom m db fuel sublevel id name)
                (embeddedOf k (fieldOf fields name)) children
              /\ conformsField (remove fn "_key") (name, k) = true
              /\ specField (remove fn "_key") (name, k)
                 = map (pair name) children) as Hchildren.
  { intros name k Hin.
    destruct (hydrated_children _ k _ _ (proj2 (Hschema _ _ Hin))
                (fun ref child H =>
                   match hydratedFrom_record _ _ _ _ _ _ _ _ H with
                   | ex_intro _ cf (conj E _) => ex_intro _ cf E
                   end)
                (Hhydrated _ _ Hin)) as (children & Hall & Hconf & Hspec).
    exists children. split; [exact Hall|]. split.
    - unfold conformsField. rewrite (Hsame _ _ Hin).
      destruct k.
      + now rewrite Hconf.
      + destruct Hconf as [Hc|Hc]; rewrite Hc; reflexivity.
    - apply Hspec. exact (Hsame _ _ Hin). }
  rewrite (applyFields_visits apply (remove fn "_key") (hierarchyOf collection)
             (remove fn "_key") st1 (hierarchy_NoDup collection)
             (fun _ _ => eq_refl)).
  2:{ apply forallb_forall. intros [name k] Hin.
      destruct (Hchildren _ _ Hin) as (_ & _ & Hconf & _). exact Hconf. }
  (* field by field *)
  assert (forall entries st0,
            incl entries (hierarchyOf collection) ->
            NoDup (map fst (flat_map tree entries)) ->
            unseen st0 (flat_map tree entries) ->
            visitEach (visitWith apply)
              (flat_map (specField (remove fn "_key")) entries) st0
            = Ok (staged st0 (flat_map tree entries))) as Hfields.
  { induction entries as [|[name k] rest IHe]; intros st0 Hincl Hnd0 Hun0.
    - simpl. now rewrite staged_nil.
    - cbn [flat_map] in *. rewrite visitEach_app.
      destruct (NoDup_keys_app _ _ Hnd0) as (Hnd1 & Hnd2 & _).
      destruct (unseen_app _ _ _ Hun0) as (Hun1 & _).
      assert (In (name, k) (hierarchyOf collection)) as Hin
        by (apply Hincl; now left).
      destruct (Hchildren _ _ Hin) as (children & Hall & _ & ->).
      assert (forall refs children st2,
                (forall ref, In ref refs ->
                             In ref (embeddedOf k (fieldOf fields name))) ->
                Forall2 (hydratedFrom m db fuel sublevel id name) refs children ->
                NoDup (map fst
                         (flat_map
                            (fun ref =>
                               match Level.find db
                                       (lookupKey sublevel id ref name) with
                               | Some (VObj child) =>
                                   subtree db fuel
                                     (keyJoin [VStr sublevel; VStr name])
                                     (keyJoin [VStr id; fieldOf child "_id"])
                                     (Some name) child
                               | _ => []
                               end) refs)) ->
                unseen st2
                  (flat_map
                     (fun ref =>
                        match Level.find db (lookupKey sublevel id ref name) with
                        | Some (VObj child) =>
                            subtree db fuel
                              (keyJoin [VStr sublevel; VStr name])
                              (keyJoin [VStr id; fieldOf child "_id"])
                              (Some name) child
                        | _ => []
                        end) refs) ->
                visitEach (visitWith apply) (map (pair name) children) st2
                = Ok (staged st2
                        (flat_map
                           (fun ref =>
                              match Level.find db
                                      (lookupKey sublevel id ref name) with
                              | Some (VObj child) =>
                                  subtree db fuel
                                    (keyJoin [VStr sublevel; VStr name])
                                    (keyJoin [VStr id; fieldOf child "_id"])
                                    (Some name) child
                              | _ => []
                              end) refs))) as Hlist.
      { induction refs as [|ref refs IHr];
          intros children0 st2 Hrefs Hall0 Hnd3 Hun3.
        - inversion Hall0; subst. simpl. now rewrite staged_nil.
        - inversion Hall0 as [|? child ? children' Hchild Hall']; subst.
          cbn [flat_map] in *. cbn [map visitEach].
          destruct (NoDup_keys_app _ _ Hnd3) as (Hnd4 & Hnd5 & _).
          destruct (unseen_app _ _ _ Hun3) as (Hun4 & _).
          destruct Hchild as (cf & s & s' & Hfind & Hcid & Happly).
          rewrite Hfind in *.
          unfold visitWith at 1. unfold apply at 1.
          rewrite (IH cf (Some name)
                     (VObj [("sublevelPrefix", VStr sublevel);
                            ("idPrefix", VStr id)])
                     (VStr sublevel) (VStr id) child s s' st2
                     (orElse VUndef (VObj []))
                     packFuel eq_refl eq_refl
                     (sound_child _ _ _ _ _ _ _ _ _ _ Hsound Hin
                        (Hrefs _ (or_introl eq_refl)) Hfind)
                     Happly Hnd4 Hun4 ltac:(lia)).
          rewrite bind_unit. simpl ofCollection.
          rewrite (IHr children' _
                     (fun r Hr => Hrefs r (or_intror Hr)) Hall' Hnd5
                     (unseen_staged _ _ _ Hnd3 Hun3)).
          now rewrite staged_app. }
      assert (forall st2,
                NoDup (map fst (tree (name, k))) ->
                unseen st2 (tree (name, k)) ->
                visitEach (visitWith apply) (map (pair name) children) st2
                = Ok (staged st2 (tree (name, k)))) as Hone.
      { intros st2. unfold tree. simpl fst. simpl snd.
        apply Hlist; auto. }
      rewrite (Hone st0 Hnd1 Hun1), bind_unit.
      rewrite (IHe _ (fun e He => Hincl e (or_intror He)) Hnd2
                 (unseen_staged _ _ _ Hnd0 Hun0)).
      now rewrite staged_app. }
  rewrite Est.
  change (("!" ++ sublevel ++ "!" ++ id, VObj fields)
            :: flat_map tree (hierarchyOf collection))
    with (app [("!" ++ sublevel ++ "!" ++ id, VObj fields)]
            (flat_map tree (hierarchyOf collection))) in Hnd, Hunseen |- *.
  destruct (NoDup_keys_app _ _ Hnd) as (_ & Hnd' & _).
  rewrite (Hfields _ _ (incl_refl _) Hnd' (unseen_staged _ _ _ Hnd Hunseen)).
  now rewrite staged_app.
Qed.



Lemma lookup_In (fields : list (string * value)) (k : string) (v : value) :
  lookup fields k = Some v -> In (k, v) fields.
Proof.
  induction fields as [|[k' w] rest IH]; simpl; [discriminate|].
  destruct (String.eqb k' k) eqn:E.
  - apply String.eqb_eq in E. intros H. injection H as ->. subst. now left.
  - intros H. right. auto.
Qed.

Lemma In_lookup (fields : list (string * value)) (k : string) (v : value) :
  NoDup (map fst fields) -> In (k, v) fields -> lookup fields k = Some v.
Proof.
  induction fields as [|[k' w] rest IH]; simpl; intros Hnd Hin; [contradiction|].
  inversion Hnd as [|? ? Hfresh Hnd']; subst.
  destruct Hin as [Heq|Hin].
  - injection Heq as -> ->. now rewrite String.eqb_refl.
  - destruct (String.eqb k' k) eqn:E; [|auto].
    apply String.eqb_eq in E. subst k'. exfalso. apply Hfresh.
    apply in_map_iff. exists (k, v). auto.
Qed.

Lemma isJson_field (fields : list (string * value)) (k : string) (v : value) :
  isJson (VObj fields) = true -> lookup fields k = Some v -> isJson v = true.
Proof.
  simpl. intros H Hk. rewrite forallb_forall in H.
  exact (H _ (lookup_In _ _ _ Hk)).
Qed.

(** A hydrated node is a JSON value. *)
Lemma hydrated_isJson (m : Level.miss) (db : Level.store) (fuel : nat) :
  forall (fields : list (string * value)) (collection : option string)
         (options sp ip : value) (node : value) (u u' : unit),
    Js.get (given options) "sublevelPrefix" = Ok sp ->
    Js.get (given options) "idPrefix" = Ok ip ->
    soundTree db fuel (keyJoin [sp; ofCollection collection])
      (keyJoin [ip; fieldOf fields "_id"]) collection fields = true ->
    applyHierarchy (unpackVisitor m db) fuel (VObj fields) collection options u
    = Ok (node, u') ->
    isJson node = true.
Proof.
  induction fuel as [|fuel IH];
    intros fields collection options sp ip node u u' Hsp Hip Hsound Hwalk;
    [discriminate|].
  destruct (soundTree_node _ _ _ _ _ _ Hsound) as (f' & _ & Hstored & Hresolved).
  destruct (unpack_node_shape _ _ _ _ _ _ _ _ _ _ _ Hsp Hip Hstored Hresolved
              Hwalk) as (fn & -> & Hnames & Hframe & Hhydrated).
  destruct (storedNode_inv _ _ Hstored) as (Hjson & Hnd & Hnokey & Hschema).
  set (sublevel := keyJoin [sp; ofCollection collection]) in *.
  set (id := keyJoin [ip; fieldOf fields "_id"]) in *.
  assert (NoDup (map fst fn)) as Hndn.
  { rewrite Hnames. apply NoDup_app; [exact Hnd|repeat constructor; auto|].
    intros x Hx [<-|[]]. now apply lookup_None in Hnokey. }
  assert (forall name ref child,
            (exists k, In (name, k) (hierarchyOf collection)
                       /\ In ref (embeddedOf k (fieldOf fields name))) ->
            hydratedFrom m db fuel sublevel id name ref child ->
            isJson child = true) as Hchild.
  { intros name ref child (k & Hin & Href) (cf & s & s' & Hfind & Hcid & Happly).
    exact (IH cf (Some name)
             (VObj [("sublevelPrefix", VStr sublevel); ("idPrefix", VStr id)])
             (VStr sublevel) (VStr id) child s s' eq_refl eq_refl
             (sound_child _ _ _ _ _ _ _ _ _ _ Hsound Hin Href Hfind) Happly). }
  simpl. apply forallb_forall. intros [k v] Hkv. simpl.
  pose proof (In_lookup _ _ _ Hndn Hkv) as Hlook.
  destruct (in_dec string_dec k (map fst (hierarchyOf collection))) as [Hin|Hout].
  - apply in_map_iff in Hin. destruct Hin as ([n kd] & E & Hin).
    simpl in E. subst n. specialize (Hhydrated _ _ Hin).
    destruct (Hschema _ _ Hin) as (_ & Hform).
    assert (fieldOf fn k = v) as Hv by (unfold fieldOf; now rewrite Hlook).
    rewrite Hv in Hhydrated. unfold hydrated in Hhydrated. destruct kd.
    + destruct Hform as (refs & Hrefs). rewrite Hrefs in *.
      destruct Hhydrated as (children & -> & Hall). simpl.
      apply forallb_forall. intros child Hc.
      assert (forall r, In r refs ->
                        In r (embeddedOf Collection (fieldOf fields k))) as Href
        by (intros r Hr; now rewrite Hrefs).
      clear Hrefs Hv Hlook Hkv.
      induction Hall as [|ref c refs' children' Hone Hall IHa];
        [contradiction|].
      destruct Hc as [<-|Hc].
      * apply (Hchild k ref c); [|exact Hone].
        exists Collection. split; [exact Hin|]. apply Href. now left.
      * apply IHa; [exact Hc|]. intros r Hr. apply Href. now right.
    + destruct Hform as [Htruthy|Hnull].
      * rewrite Htruthy in Hhydrated.
        assert (hydratedFrom m db fuel sublevel id k (fieldOf fields k) v)
          as Hone by (destruct (fieldOf fields k); exact Hhydrated).
        apply (Hchild k (fieldOf fields k) v); [|exact Hone].
        exists Singular. split; [exact Hin|].
        unfold embeddedOf. rewrite Htruthy.
        destruct (fieldOf fields k); now left.
      * rewrite Hnull in Hhydrated. simpl in Hhydrated. now subst v.
  - rewrite (Hframe _ Hout) in Hlook.
    destruct (String.eqb "_key" k) eqn:E.
    + apply String.eqb_eq in E. subst k.
      rewrite lookup_assign_same in Hlook. injection Hlook as <-. reflexivity.
    + apply String.eqb_neq in E. rewrite lookup_assign_other in Hlook by exact E.
      exact (isJson_field _ _ _ Hjson Hlook).
Qed.

Lemma split_pieces (c : ascii) (s : string) :
  forall p, In p (split c s) -> includes c p = false.
Proof.
  induction s as [|a rest IH]; simpl; intros p Hp.
  - destruct Hp as [<-|[]]. reflexivity.
  - destruct (Ascii.eqb a c) eqn:E.
    + destruct Hp as [<-|Hp]; [reflexivity|auto].
    + destruct (split c rest) as [|hd tl] eqn:Hs.
      * destruct Hp as [<-|[]]. simpl. now rewrite E.
      * destruct Hp as [<-|Hp].
        -- simpl. rewrite E. apply IH. now left.
        -- apply IH. now right.
Qed.

Lemma staged_store (previous db : Level.store) (entries : list (string * value)) :
  Level.well_formed previous -> Level.well_formed db ->
  packInvariant (staged pack_init entries) ->
  Permutation entries db ->
  Level.batch_write previous
    (removeStale (seenKeys (staged pack_init entries))
       (batch (staged pack_init entries)) (Level.keys previous))
  = db.
Proof.
  intros Hprev Hwf Hinv Hperm. set (st := staged pack_init entries) in *.
  assert (forallb isString (seenKeys st) = true) as Hstr.
  { subst st. unfold staged. simpl. rewrite app_nil_r.
    rewrite forallb_forall. intros x Hx.
    apply in_rev, in_map_iff in Hx. destruct Hx as (e & <- & _). reflexivity. }
  apply store_ext; [now apply batch_write_well_formed|exact Hwf|].
  intros k. destruct (Level.find db k) as [v|] eqn:Hfind.
  - apply final_write_find; [exact Hinv|exact Hstr|].
    subst st. unfold staged. simpl. apply in_map_iff. exists (k, v).
    split; [reflexivity|].
    eapply Permutation_in; [symmetry; exact Hperm|now apply find_In].
  - destruct (Level.find (Level.batch_write previous
                 (removeStale (seenKeys st) (batch st) (Level.keys previous))) k)
      as [v|] eqn:Hfound; [|reflexivity].
    exfalso.
    assert (In k (Level.keys (Level.batch_write previous
              (removeStale (seenKeys st) (batch st) (Level.keys previous)))))
      as Hk by (apply find_keys; congruence).
    destruct (final_write_keys _ _ _ Hinv Hk) as (key & Hseen & ->).
    subst st. unfold staged in Hseen. simpl in Hseen. rewrite app_nil_r in Hseen.
    apply in_rev, in_map_iff in Hseen.
    destruct Hseen as (e & <- & He). simpl in Hfind.
    assert (In (fst e) (Level.keys db)) as Hin.
    { unfold Level.keys. apply in_map.
      eapply Permutation_in; [exact Hperm|exact He]. }
    apply find_keys in Hin. contradiction.
Qed.

Lemma keyJoin_pair (a b : string) :
  a <> "" -> b <> "" -> keyJoin [VStr a; VStr b] = a ++ "." ++ b.
Proof.
  intros Ha Hb. unfold keyJoin. simpl.
  apply String.eqb_neq in Ha. apply String.eqb_neq in Hb.
  now rewrite Ha, Hb.
Qed.

Lemma idString_inv (db : Level.store) (k : string) (fields : list (string * value)) :
  forallb idString db = true ->
  Level.find db k = Some (VObj fields) ->
  exists s : string, fieldOf fields "_id" = VStr s /\ s <> "".
Proof.
  intros Hall Hfind. apply find_In in Hfind.
  rewrite forallb_forall in Hall. specialize (Hall _ Hfind).
  unfold idString in Hall. simpl in Hall.
  destruct (fieldOf fields "_id") as [| |b|n|s|elems|fs]; try discriminate.
  exists s. split; [reflexivity|].
  apply negb_true_iff in Hall. now apply String.eqb_neq.
Qed.

(** The entries of a sound tree below its root are entries of the store. *)
Lemma subtree_in_db (db : Level.store) (fuel : nat) :
  forallb idString db = true ->
  forall (sublevel id : string) (collection : option string)
         (fields : list (string * value)),
    sublevel <> "" -> id <> "" ->
    soundTree db fuel sublevel id collection fields = true ->
    forall entry : string * value,
      In entry (subtree db fuel sublevel id collection fields) ->
      entry = ("!" ++ sublevel ++ "!" ++ id, VObj fields)
      \/ Level.find db (fst entry) = Some (snd entry).
Proof.
  intros Hids.
  induction fuel as [|fuel IH];
    intros sublevel id collection fields Hs Hi Hsound entry Hin; [contradiction|].
  cbn [subtree] in Hin. destruct Hin as [<-|Hin]; [now left|]. right.
  apply in_flat_map in Hin. destruct Hin as ([nm k] & Hschema & Hin).
  apply in_flat_map in Hin. destruct Hin as (ref & Href & Hin).
  cbn [fst snd] in *.
  destruct (soundTree_node _ _ _ _ _ _ Hsound) as (f' & _ & Hstored & Hresolved).
  destruct (resolves_spec _ _ _ _ _ Hresolved nm k ref Hschema Href)
    as (child & Hfind & Hcid).
  rewrite Hfind in Hin.
  pose proof (sound_child _ _ _ _ _ _ _ _ _ _ Hsound Hschema Href Hfind) as Hchild.
  destruct (idString_inv _ _ _ Hids Hfind) as (s & Hsid & Hne).
  pose proof (hierarchy_named _ _ _ Hschema) as Hnm.
  rewrite Hsid in *. subst ref.
  rewrite (keyJoin_pair _ _ Hs Hnm), (keyJoin_pair _ _ Hi Hne) in *.
  destruct (IH _ _ _ _ (append_nonempty _ _ Hs) (append_nonempty _ _ Hi)
              Hchild entry Hin) as [->|Hfound]; [|exact Hfound].
  cbn [fst snd]. rewrite <- Hfind. f_equal.
  unfold lookupKey. simpl toString. now rewrite !append_assoc.
Qed.

Lemma rootKeyed_inv (entry : string * value) :
  rootKeyed entry = true ->
  exists c id fields,
    entry = ("!" ++ c ++ "!" ++ id, VObj fields)
    /\ split "!"%char (fst entry) = [""; c; id]
    /\ c <> "" /\ fieldOf fields "_id" = VStr id.
Proof.
  destruct entry as [key doc]. unfold rootKeyed. simpl fst. simpl snd.
  destruct (split "!"%char key) as [|before [|c [|id [|x rest]]]] eqn:Hsplit;
    try discriminate.
  destruct doc as [| | | | | |fields]; try discriminate.
  intros H.
  apply andb_prop in H. destruct H as [H Hid].
  apply andb_prop in H. destruct H as [Hbefore Hc].
  apply String.eqb_eq in Hbefore. subst before.
  apply negb_true_iff, String.eqb_neq in Hc.
  destruct (fieldOf fields "_id") as [| |b|n|s|elems|fs] eqn:Hdoc;
    try discriminate.
  apply String.eqb_eq in Hid. subst s.
  exists c, id, fields. repeat split; auto.
  f_equal. rewrite <- (join_split "!"%char key), Hsplit. reflexivity.
Qed.

Lemma store_value (db : Level.store) (k : string) (v w : value) :
  NoDup (map fst db) -> In (k, v) db -> In (k, w) db -> v = w.
Proof.
  induction db as [|[k' x] rest IH]; simpl; intros Hnd Hv Hw; [contradiction|].
  inversion Hnd as [|? ? Hfresh Hnd']; subst.
  destruct Hv as [Hv|Hv], Hw as [Hw|Hw].
  - congruence.
  - injection Hv as -> ->. exfalso. apply Hfresh.
    apply in_map_iff. exists (k, w). auto.
  - injection Hw as -> ->. exfalso. apply Hfresh.
    apply in_map_iff. exists (k, v). auto.
  - now apply IH.
Qed.

Lemma primary_entry (db : Level.store) (fuel : nat) (entry : string * value) :
  soundPack db fuel = true ->
  In entry (primaries db) ->
  exists c id fields,
    entry = ("!" ++ c ++ "!" ++ id, VObj fields)
    /\ split "!"%char (fst entry) = [""; c; id]
    /\ c <> "" /\ id <> "" /\ fieldOf fields "_id" = VStr id
    /\ In entry db
    /\ primaryTree db fuel entry = subtree db fuel c id (Some c) fields
    /\ soundTree db fuel c id (Some c) fields = true.
Proof.
  unfold soundPack. intros H Hin.
  apply andb_prop in H. destruct H as [H _].
  apply andb_prop in H. destruct H as [H _].
  apply andb_prop in H. destruct H as [Hids Hprim].
  rewrite forallb_forall in Hprim. specialize (Hprim _ Hin).
  apply andb_prop in Hprim. destruct Hprim as [Hkey Hsound].
  destruct (rootKeyed_inv _ Hkey) as (c & id & fields & Heq & Hsplit & Hc & Hid).
  assert (In entry db) as Hdb by (unfold primaries in Hin; now apply filter_In in Hin).
  assert (id <> "") as Hne.
  { rewrite forallb_forall in Hids. specialize (Hids _ Hdb).
    unfold idString in Hids. rewrite Heq in Hids. simpl in Hids.
    rewrite Hid in Hids. apply negb_true_iff in Hids.
    now apply String.eqb_neq. }
  exists c, id, fields. repeat split; auto.
  - unfold primaryTree. rewrite Hsplit. rewrite Heq. simpl nth_error. simpl snd.
    cbv iota. rewrite Hid. now rewrite (keyJoin_single c Hc), (keyJoin_single id Hne).
  - unfold soundPrimary in Hsound. rewrite Hsplit in Hsound.
    rewrite Heq in Hsound. simpl nth_error in Hsound. simpl snd in Hsound.
    cbv iota in Hsound. rewrite Hid in Hsound.
    now rewrite (keyJoin_single c Hc), (keyJoin_single id Hne) in Hsound.
Qed.

Lemma soundPack_ids (db : Level.store) (fuel : nat) :
  soundPack db fuel = true -> forallb idString db = true.
Proof.
  unfold soundPack. intros H.
  apply andb_prop in H. destruct H as [H _].
  apply andb_prop in H. destruct H as [H _].
  apply andb_prop in H. tauto.
Qed.

(** The trees of the primary documents of a sound pack hold the entries
    of the store, each once. *)
Lemma trees_in_db (db : Level.store) (fuel : nat) (x : string * value) :
  soundPack db fuel = true ->
  In x (flat_map (primaryTree db fuel) (primaries db)) -> In x db.
Proof.
  intros Hsound Hx. apply in_flat_map in Hx. destruct Hx as (entry & Hentry & Hx).
  destruct (primary_entry _ _ _ Hsound Hentry)
    as (c & id & fields & Heq & _ & Hc & Hid & _ & Hdb & Htree & Htreesound).
  rewrite Htree in Hx.
  destruct (subtree_in_db db fuel (soundPack_ids _ _ Hsound) c id (Some c) fields
              Hc Hid Htreesound x Hx) as [->|Hfound].
  - now rewrite <- Heq.
  - destruct x as [k v]. now apply find_In.
Qed.

Lemma trees_cover (db : Level.store) (fuel : nat) :
  Level.well_formed db ->
  soundPack db fuel = true ->
  Permutation (flat_map (primaryTree db fuel) (primaries db)) db.
Proof.
  intros Hwf Hsound.
  assert (NoDup (map fst db)) as Hkeys by (apply sorted_NoDup; exact Hwf).
  assert (NoDup (treeKeys db fuel)) as Htrees.
  { unfold soundPack in Hsound.
    apply andb_prop in Hsound. destruct Hsound as [H _].
    apply andb_prop in H. destruct H as [_ H]. now apply distinct_NoDup. }
  apply NoDup_Permutation.
  - exact (NoDup_map_inv _ _ Htrees).
  - exact (NoDup_map_inv _ _ Hkeys).
  - intros x. split; [now apply trees_in_db|].
    intros Hx. destruct x as [k v].
    pose proof Hsound as Hcover. unfold soundPack in Hcover.
    apply andb_prop in Hcover. destruct Hcover as [_ Hcover].
    rewrite forallb_forall in Hcover. specialize (Hcover _ Hx).
    apply existsb_exists in Hcover. destruct Hcover as (k' & Hk' & E).
    apply String.eqb_eq in E. simpl in E. subst k'.
    unfold treeKeys in Hk'. apply in_map_iff in Hk'.
    destruct Hk' as ([k' w] & E & Hw). simpl in E. subst k'.
    pose proof (trees_in_db _ _ _ Hsound Hw) as Hwdb.
    now rewrite (store_value _ _ _ _ Hkeys Hx Hwdb).
Qed.

Lemma Forall2_Permutation {A B : Type} (R : A -> B -> Prop) (l2 l2' : list B) :
  Permutation l2 l2' ->
  forall l1 : list A,
    Forall2 R l1 l2 ->
    exists l1' : list A, Permutation l1 l1' /\ Forall2 R l1' l2'.
Proof.
  induction 1 as [|x l l' _ IH|x y l|l l' l'' _ IH1 _ IH2]; intros l1 H.
  - inversion H; subst. exists []. split; constructor.
  - inversion H as [|a ? r ? Ha Hr]; subst.
    destruct (IH _ Hr) as (r' & Hp & Hf).
    exists (a :: r'). split; [now constructor|now constructor].
  - inversion H as [|a ? r ? Ha Hr]; subst.
    inversion Hr as [|b ? r' ? Hb Hr']; subst.
    exists (b :: a :: r'). split; [apply perm_swap|].
    constructor; [exact Hb|]. constructor; [exact Ha|exact Hr'].
  - destruct (IH1 _ H) as (m1 & Hp1 & Hf1).
    destruct (IH2 _ Hf1) as (m2 & Hp2 & Hf2).
    exists m2. split; [eapply perm_trans; eassumption|exact Hf2].
Qed.

Lemma Forall2_map_right {A B C : Type} (R : A -> C -> Prop) (f : B -> C)
      (l1 : list A) (l2 : list B) :
  Forall2 R l1 (map f l2) <-> Forall2 (fun a b => R a (f b)) l1 l2.
Proof.
  revert l1. induction l2 as [|b rest IH]; intros l1; simpl; split; intros H.
  - inversion H. constructor.
  - inversion H. constructor.
  - inversion H as [|a ? r ? Ha Hr]; subst. constructor; [exact Ha|].
    now apply IH.
  - inversion H as [|a ? r ? Ha Hr]; subst. constructor; [exact Ha|].
    now apply IH.
Qed.

(** Compiling the file of a primary document of a sound pack stages the
    entries of its tree. *)
Lemma packFile_tree (m : Level.miss) (db : Level.store) (fuel : nat)
      (entry : string * value) (c : string) (node : value)
      (src : source_file) (st : pack_state) :
  soundPack db fuel = true ->
  In entry (primaries db) ->
  nth_error (split "!"%char (fst entry)) 1 = Some c ->
  unpackDoc m db fuel (snd entry) c = Ok node ->
  file_doc src = Some (jsonRoundTrip node) ->
  NoDup (map fst (primaryTree db fuel entry)) ->
  unseen st (primaryTree db fuel entry) ->
  packFile None st src = Ok (staged st (primaryTree db fuel entry)).
Proof.
  intros Hsound Hin Hc Hunpack Hfile Hnd Hunseen.
  destruct (primary_entry _ _ _ Hsound Hin)
    as (c0 & id & fields & Heq & Hsplit & Hc0 & Hid & Hdoc & Hdb & Htree & Htreesound).
  rewrite Hsplit in Hc. simpl in Hc. injection Hc as <-.
  rewrite Htree in *. rewrite Heq in Hunpack, Hsplit.
  cbn [snd] in Hunpack. cbn [fst] in Hsplit.
  pose proof (unpack_root_key _ _ _ _ _ _ _ Hc0 Hid Hdoc Hunpack) as Hkey.
  unfold unpackDoc in Hunpack. inv_bind Hunpack as r Hr.
  destruct r as [node0 u']. injection Hunpack as ->.
  assert (soundTree db fuel (keyJoin [VUndef; ofCollection (Some c0)])
            (keyJoin [VUndef; fieldOf fields "_id"]) (Some c0) fields = true)
    as Hsound'.
  { simpl ofCollection.
    now rewrite Hdoc, (keyJoin_single c0 Hc0), (keyJoin_single id Hid). }
  assert (subtree db fuel (keyJoin [VUndef; ofCollection (Some c0)])
            (keyJoin [VUndef; fieldOf fields "_id"]) (Some c0) fields
          = subtree db fuel c0 id (Some c0) fields) as Hsame.
  { simpl ofCollection.
    now rewrite Hdoc, (keyJoin_single c0 Hc0), (keyJoin_single id Hid). }
  assert (isJson node = true) as Hjson.
  { exact (hydrated_isJson m db fuel fields (Some c0) VUndef VUndef VUndef node
             tt u' eq_refl eq_refl Hsound' Hr). }
  unfold packFile. rewrite Hfile, (jsonRoundTrip_stable _ Hjson).
  unfold collectionOf. rewrite Hkey. cbn [bind]. rewrite Hsplit.
  cbn [nth_error bind callTransformEntry].
  change (stateOf (packDoc node (Some c0) st)
          = Ok (staged st (subtree db fuel c0 id (Some c0) fields))).
  rewrite <- Hsame in *.
  pose proof (pack_hydrated m db fuel fields (Some c0) VUndef VUndef VUndef node
                tt u' st VUndef (Nat.max fuel (Datatypes.S (depth node)))
                eq_refl eq_refl Hsound' Hr Hnd Hunseen (Nat.le_max_l _ _))
    as Hpack.
  rewrite (proj2 (packDoc_fuel node (Some c0) st)) in Hpack; [exact Hpack|].
  pose proof (Nat.le_max_r fuel (Datatypes.S (depth node))). lia.
Qed.

Lemma packFiles_trees (m : Level.miss) (db : Level.store) (fuel : nat) :
  soundPack db fuel = true ->
  forall (entries : list (string * value)) (sources : list source_file)
         (st : pack_state),
    Forall2 (fun entry src => readAs m db fuel entry (file_doc src))
      entries sources ->
    (forall entry, In entry entries -> In entry (primaries db)) ->
    NoDup (map fst (flat_map (primaryTree db fuel) entries)) ->
    unseen st (flat_map (primaryTree db fuel) entries) ->
    packFiles None st sources
    = Ok (staged st (flat_map (primaryTree db fuel) entries)).
Proof.
  intros Hsound entries sources st Hread. revert st.
  induction Hread as [|entry src entries sources (c & node & Hc & Hunpack & Hdoc)
                        _ IH]; intros st Hin Hnd Hunseen.
  - simpl. now rewrite staged_nil.
  - cbn [flat_map] in *. cbn [packFiles].
    destruct (NoDup_keys_app _ _ Hnd) as (Hnd1 & Hnd2 & _).
    destruct (unseen_app _ _ _ Hunseen) as [Hun1 _].
    rewrite (packFile_tree m db fuel entry c node src st Hsound
               (Hin _ (or_introl eq_refl)) Hc Hunpack Hdoc Hnd1 Hun1).
    cbn [bind]. rewrite IH.
    + now rewrite staged_app.
    + intros e He. apply Hin. now right.
    + exact Hnd2.
    + now apply unseen_staged.
Qed.

(** X25.  A pack of documents with embedded documents survives being
    extracted and compiled again: when the store is as a compile leaves
    it (every primary entry heads a tree of well-formed nodes whose ids
    resolve, and every entry belongs to exactly one such tree), no
    [transformEntry] is given and the extraction succeeds, compiling the
    documents it wrote, read back as JSON and taken in any order, into
    any store leaves exactly the store that was extracted, embedded
    entries included. *)
Theorem sound_pack_round_trip :
  forall (getSafeFilename : string -> string) (m : Level.miss)
         (db : Level.store) (fuel : nat) (dest : string)
         (options : ExtractOptions) (files : list (string * value))
         (sources : list source_file) (previous : Level.store),
    Level.well_formed db -> Level.well_formed previous ->
    soundPack db fuel = true ->
    transformEntry options = None ->
    extractClassicLevel getSafeFilename m db fuel dest options = (files, Ok tt) ->
    Permutation (map file_doc sources) (map readBack files) ->
    compileClassicLevel previous sources None
    = (Ok (Level.compactClassicLevel db), db).
Proof.
  intros gsf m db fuel dest options files sources previous
         Hwf Hprev Hsound Hhook Hextract Hperm.
  unfold extractClassicLevel in Hextract.
  destruct (buildFolders gsf fuel db options) as [idx| |]; try discriminate.
  pose proof (extractEntries_files _ _ _ _ _ _ idx Hhook _ _ Hextract) as Hfiles.
  fold (primaries db) in Hfiles.
  assert (Forall2 (readAs m db fuel) (primaries db) (map readBack files)) as Hread.
  { apply (proj2 (Forall2_map_right (readAs m db fuel) readBack
                    (primaries db) files)).
    eapply Forall2_impl; [|exact Hfiles].
    intros entry file (c & Hc & Hunpack). exists c, (snd file). auto. }
  destruct (Forall2_Permutation _ _ _ (Permutation_sym Hperm) _ Hread)
    as (entries & Hentries & Hsources).
  apply (proj1 (Forall2_map_right (readAs m db fuel) file_doc entries sources))
    in Hsources.
  pose proof (Permutation_flat_map (primaryTree db fuel) Hentries) as Htrees.
  assert (NoDup (map fst (flat_map (primaryTree db fuel) entries))) as Hnd.
  { eapply Permutation_NoDup; [apply Permutation_map; exact Htrees|].
    unfold soundPack in Hsound.
    apply andb_prop in Hsound. destruct Hsound as [H _].
    apply andb_prop in H. destruct H as [_ H]. now apply distinct_NoDup. }
  assert (packFiles None pack_init sources
          = Ok (staged pack_init (flat_map (primaryTree db fuel) entries)))
    as Hrun.
  { apply (packFiles_trees m db fuel Hsound entries sources pack_init Hsources).
    - intros entry He.
      eapply Permutation_in; [symmetry; exact Hentries|exact He].
    - exact Hnd.
    - intros k _. reflexivity. }
  unfold compileClassicLevel. rewrite Hrun. cbv zeta.
  rewrite (staged_store previous db _ Hprev Hwf (run_invariant _ _ _ Hrun)).
  - reflexivity.
  - eapply perm_trans; [symmetry; exact Htrees|].
    exact (trees_cover db fuel Hwf Hsound).
Qed.

Lemma sound_pack_round_trip_witness :
  compileClassicLevel old_pack
    [SourceFile "out/Hero_abc.json" (Some extracted_hero)] None
  = (Ok (Level.compactClassicLevel flat_pack), flat_pack).
Proof.
  apply (sound_pack_round_trip asciiSafeFilename Level.classic_level_2
           flat_pack 3 "out" plain_options
           (fst (extractClassicLevel asciiSafeFilename Level.classic_level_2
                   flat_pack 3 "out" plain_options))).
  - unfold Level.well_formed. vm_compute. repeat constructor.
  - unfold Level.well_formed. vm_compute. repeat constructor.
  - reflexivity.
  - reflexivity.
  - reflexivity.
  - vm_compute. apply Permutation_refl.
Defined.
